(** * ML-DSA-65 (crypto/mldsa/mldsa.cc): a shallow embedding and its properties

    Machine integers are modelled as [Z] with their wrap-around written out;
    a scalar is a list of 256 coefficients, a vector a list of scalars and a
    matrix a list of rows.  Byte strings are lists of [Z] in [[0, 256)]. *)

From Stdlib Require Import ZArith List Lia Bool Arith Morphisms Setoid.
From coqutil Require Import Z.PushPullMod.
Import ListNotations.
Local Open Scope Z_scope.

(** ** Machine words *)

(** Truncation to an unsigned type keeps the low bits. *)
Definition u8 (z : Z) : Z := Z.land z (Z.ones 8).
Definition u16 (z : Z) : Z := Z.land z (Z.ones 16).
Definition u32 (z : Z) : Z := Z.land z (Z.ones 32).
Definition u64 (z : Z) : Z := Z.land z (Z.ones 64).

(** Conversion of a 32-bit pattern to [int32_t] (two's complement). *)
Definition i32 (z : Z) : Z := u32 (z + 2 ^ 31) - 2 ^ 31.

(** ** Constants *)

Definition kDegree : nat := 256.
Definition kPrime : Z := 8380417.
Definition kPrimeNegInverse : Z := 4236238847.
Definition kDroppedBits : Z := 13.
Definition kHalfPrime : Z := (kPrime - 1) / 2.
Definition kGamma2 : Z := (kPrime - 1) / 32.
Definition kInverseDegreeMontgomery : Z := 41978.

(** Parameters of ML-DSA-65 (the [<6>] template specialisations). *)
Definition K : nat := 6.
Definition L : nat := 5.
Definition tau : nat := 49.
Definition lambda_bytes : nat := 24.
Definition gamma1 : Z := 2 ^ 19.
Definition beta : Z := 196.
Definition omega : nat := 55.
Definition eta : Z := 4.

(** ** Constant-time primitives *)

(** Modelled from the spec: [constant_time_lt_w] of crypto/internal.h, which
    is not part of the sources at hand.  It yields the all-ones machine word
    when [a < b] (unsigned) and zero otherwise. *)
Definition constant_time_lt_w (a b : Z) : Z :=
  if a <? b then Z.ones 64 else 0.

(** Modelled from the spec: [constant_time_ge_w] of crypto/internal.h. *)
Definition constant_time_ge_w (a b : Z) : Z :=
  if a <? b then 0 else Z.ones 64.

(** Modelled from the spec: [constant_time_select_int] of crypto/internal.h,
    the bitwise selection [(mask & a) | (~mask & b)], read back as a 32-bit
    value. *)
Definition constant_time_select_int (mask a b : Z) : Z :=
  u32 (Z.lor (Z.land mask a) (Z.land (Z.lxor mask (Z.ones 64)) b)).

(** ** Field arithmetic *)

Definition reduce_once (x : Z) : Z :=
  constant_time_select_int (constant_time_lt_w x kPrime) x (u32 (x - kPrime)).

Definition abs_signed (x : Z) : Z :=
  constant_time_select_int (constant_time_lt_w x 2147483648) x (u32 (0 - x)).

Definition abs_mod_prime (x : Z) : Z :=
  constant_time_select_int (constant_time_lt_w kHalfPrime x)
    (u32 (kPrime - x)) x.

Definition maximum (x y : Z) : Z :=
  constant_time_select_int (constant_time_lt_w x y) y x.

Definition mod_sub (a b : Z) : Z := reduce_once (u32 (kPrime + a - b)).

Definition reduce_montgomery (x : Z) : Z :=
  let a := u32 (u32 x * kPrimeNegInverse) in
  let b := u64 (x + a * kPrime) in
  let c := u32 (Z.shiftr b 32) in
  reduce_once c.

(** ** Rounding *)

Definition power2_round (r : Z) : Z * Z :=
  let r1 := Z.shiftr r kDroppedBits in
  let r0 := u32 (r - u32 (Z.shiftl r1 kDroppedBits)) in
  let r0_adjusted := mod_sub r0 (Z.shiftl 1 kDroppedBits) in
  let r1_adjusted := u32 (r1 + 1) in
  let mask := constant_time_lt_w (Z.shiftl 1 (kDroppedBits - 1)) r0 in
  (constant_time_select_int mask r1_adjusted r1,
   constant_time_select_int mask r0_adjusted r0).

Definition scale_power2_round (r1 : Z) : Z := u32 (Z.shiftl r1 kDroppedBits).

Definition high_bits (x : Z) : Z :=
  let r1 := Z.shiftr (u32 (x + 127)) 7 in
  let r1 := Z.shiftr (u32 (r1 * 1025 + Z.shiftl 1 21)) 22 in
  Z.land r1 15.

(** [decompose] works on an [int32_t] low part; the right shift of a negative
    [int32_t] is arithmetic, as [Z.shiftr] is. *)
Definition decompose (r : Z) : Z * Z :=
  let r1 := high_bits r in
  let r0 := i32 r in
  let r0 := i32 (r0 - u32 (u32 (r1 * 2) * kGamma2)) in
  let r0 := i32 (r0 - Z.land (Z.shiftr (i32 (kHalfPrime - r0)) 31) kPrime) in
  (r1, r0).

Definition low_bits (x : Z) : Z := snd (decompose x).

Definition make_hint (ct0 cs2 w : Z) : Z :=
  let r_plus_z := mod_sub w cs2 in
  let r := reduce_once (u32 (r_plus_z + ct0)) in
  if high_bits r =? high_bits r_plus_z then 0 else 1.

Definition use_hint_vartime (h r : Z) : Z :=
  let '(r1, r0) := decompose r in
  if negb (h =? 0) then
    if 0 <? r0 then Z.land (u32 (r1 + 1)) 15
    else Z.land (u32 (r1 - 1)) 15
  else r1.


(** The signed residue represented by an element of [[0, q)]. *)
Definition centered (x : Z) : Z := if x <=? kHalfPrime then x else x - kPrime.

(** ** Fundamental types *)

Definition scalar : Type := list Z.
Definition vector : Type := list scalar.
Definition matrix : Type := list (list scalar).

(** [s->c[i]] *)
Definition coef (s : scalar) (i : nat) : Z := nth i s 0.

(** In-place store [a[i] = v]; the arrays have fixed sizes and every store of
    the code is in bounds. *)
Fixpoint upd {A : Type} (l : list A) (i : nat) (v : A) : list A :=
  match l, i with
  | [], _ => []
  | _ :: t, O => v :: t
  | x :: t, S i' => x :: upd t i' v
  end.

(** [for (i = 0; i < kDegree; i++) out->c[i] = f(i)] *)
Definition scalar_build (f : nat -> Z) : scalar := map f (seq 0 kDegree).

(** [for (i = 0; i < X; i++) out->v[i] = f(i)] *)
Definition vector_build (X : nat) (f : nat -> scalar) : vector :=
  map f (seq 0 X).

Definition scalar_zero : scalar := repeat 0 kDegree.
Definition vec (v : vector) (i : nat) : scalar := nth i v scalar_zero.
Definition entry (m : matrix) (i j : nat) : scalar := nth j (nth i m []) scalar_zero.

Definition kNTTRootsMontgomery : list Z :=
  [4193792; 25847; 5771523; 7861508; 237124; 7602457; 7504169; 466468;
   1826347; 2353451; 8021166; 6288512; 3119733; 5495562; 3111497; 2680103;
   2725464; 1024112; 7300517; 3585928; 7830929; 7260833; 2619752; 6271868;
   6262231; 4520680; 6980856; 5102745; 1757237; 8360995; 4010497; 280005;
   2706023; 95776; 3077325; 3530437; 6718724; 4788269; 5842901; 3915439;
   4519302; 5336701; 3574422; 5512770; 3539968; 8079950; 2348700; 7841118;
   6681150; 6736599; 3505694; 4558682; 3507263; 6239768; 6779997; 3699596;
   811944; 531354; 954230; 3881043; 3900724; 5823537; 2071892; 5582638;
   4450022; 6851714; 4702672; 5339162; 6927966; 3475950; 2176455; 6795196;
   7122806; 1939314; 4296819; 7380215; 5190273; 5223087; 4747489; 126922;
   3412210; 7396998; 2147896; 2715295; 5412772; 4686924; 7969390; 5903370;
   7709315; 7151892; 8357436; 7072248; 7998430; 1349076; 1852771; 6949987;
   5037034; 264944; 508951; 3097992; 44288; 7280319; 904516; 3958618;
   4656075; 8371839; 1653064; 5130689; 2389356; 8169440; 759969; 7063561;
   189548; 4827145; 3159746; 6529015; 5971092; 8202977; 1315589; 1341330;
   1285669; 6795489; 7567685; 6940675; 5361315; 4499357; 4751448; 3839961;
   2091667; 3407706; 2316500; 3817976; 5037939; 2244091; 5933984; 4817955;
   266997; 2434439; 7144689; 3513181; 4860065; 4621053; 7183191; 5187039;
   900702; 1859098; 909542; 819034; 495491; 6767243; 8337157; 7857917;
   7725090; 5257975; 2031748; 3207046; 4823422; 7855319; 7611795; 4784579;
   342297; 286988; 5942594; 4108315; 3437287; 5038140; 1735879; 203044;
   2842341; 2691481; 5790267; 1265009; 4055324; 1247620; 2486353; 1595974;
   4613401; 1250494; 2635921; 4832145; 5386378; 1869119; 1903435; 7329447;
   7047359; 1237275; 5062207; 6950192; 7929317; 1312455; 3306115; 6417775;
   7100756; 1917081; 5834105; 7005614; 1500165; 777191; 2235880; 3406031;
   7838005; 5548557; 6709241; 6533464; 5796124; 4656147; 594136; 4603424;
   6366809; 2432395; 2454455; 8215696; 1957272; 3369112; 185531; 7173032;
   5196991; 162844; 1616392; 3014001; 810149; 1652634; 4686184; 6581310;
   5341501; 3523897; 3866901; 269760; 2213111; 7404533; 1717735; 472078;
   7953734; 1723600; 6577327; 1910376; 6712985; 7276084; 8119771; 4546524;
   5441381; 6144432; 7959518; 6094090; 183443; 7403526; 1612842; 4834730;
   7826001; 3919660; 8332111; 7018208; 3937738; 1400424; 7534263; 1976782].

Definition scalar_add (lhs rhs : scalar) : scalar :=
  scalar_build (fun i => reduce_once (u32 (coef lhs i + coef rhs i))).

Definition scalar_sub (lhs rhs : scalar) : scalar :=
  scalar_build (fun i => mod_sub (coef lhs i) (coef rhs i)).

Definition scalar_mult (lhs rhs : scalar) : scalar :=
  scalar_build (fun i => reduce_montgomery (coef lhs i * coef rhs i)).

(** The innermost loop of [scalar_ntt]: [n] butterflies from index [j] on. *)
Fixpoint ntt_butterflies (n j offset : nat) (step_root : Z) (s : scalar)
  : scalar :=
  match n with
  | O => s
  | S n' =>
      let even := coef s j in
      let odd := reduce_montgomery (step_root * coef s (j + offset)) in
      let s := upd s j (reduce_once (u32 (odd + even))) in
      let s := upd s (j + offset) (mod_sub even odd) in
      ntt_butterflies n' (S j) offset step_root s
  end.

(** The loop over [i], with its running block start [k]. *)
Fixpoint ntt_blocks (n i k step offset : nat) (s : scalar) : scalar :=
  match n with
  | O => s
  | S n' =>
      let step_root := nth (step + i) kNTTRootsMontgomery 0 in
      let s := ntt_butterflies offset k offset step_root s in
      ntt_blocks n' (S i) (k + 2 * offset) step offset s
  end.

(** The loop over [step] = 1, 2, 4, ..., 128. *)
Fixpoint ntt_layers (fuel step offset : nat) (s : scalar) : scalar :=
  match fuel with
  | O => s
  | S fuel' =>
      if (step <? kDegree)%nat then
        let offset := Nat.div2 offset in
        let s := ntt_blocks step 0 0 step offset s in
        ntt_layers fuel' (2 * step) offset s
      else s
  end.

Definition scalar_ntt (s : scalar) : scalar := ntt_layers kDegree 1 kDegree s.

Fixpoint inverse_ntt_butterflies (n j offset : nat) (step_root : Z)
  (s : scalar) : scalar :=
  match n with
  | O => s
  | S n' =>
      let even := coef s j in
      let odd := coef s (j + offset) in
      let s := upd s j (reduce_once (u32 (odd + even))) in
      let s := upd s (j + offset)
                 (reduce_montgomery (step_root * u32 (kPrime + even - odd))) in
      inverse_ntt_butterflies n' (S j) offset step_root s
  end.

Fixpoint inverse_ntt_blocks (n i k step offset : nat) (s : scalar) : scalar :=
  match n with
  | O => s
  | S n' =>
      let step_root :=
        u32 (kPrime - nth (step + (step - 1 - i)) kNTTRootsMontgomery 0) in
      let s := inverse_ntt_butterflies offset k offset step_root s in
      inverse_ntt_blocks n' (S i) (k + 2 * offset) step offset s
  end.

(** The loop over [offset] = 1, 2, 4, ..., 128. *)
Fixpoint inverse_ntt_layers (fuel step offset : nat) (s : scalar) : scalar :=
  match fuel with
  | O => s
  | S fuel' =>
      if (offset <? kDegree)%nat then
        let step := Nat.div2 step in
        let s := inverse_ntt_blocks step 0 0 step offset s in
        inverse_ntt_layers fuel' step (2 * offset) s
      else s
  end.

Definition scalar_inverse_ntt (s : scalar) : scalar :=
  let s := inverse_ntt_layers kDegree kDegree 1 s in
  scalar_build
    (fun i => reduce_montgomery (coef s i * kInverseDegreeMontgomery)).

(** ** Vectors and matrices *)

Definition vector_zero (X : nat) : vector := repeat scalar_zero X.

Definition vector_add (X : nat) (lhs rhs : vector) : vector :=
  vector_build X (fun i => scalar_add (vec lhs i) (vec rhs i)).

Definition vector_sub (X : nat) (lhs rhs : vector) : vector :=
  vector_build X (fun i => scalar_sub (vec lhs i) (vec rhs i)).

Definition vector_mult_scalar (X : nat) (lhs : vector) (rhs : scalar)
  : vector :=
  vector_build X (fun i => scalar_mult (vec lhs i) rhs).

Definition vector_ntt (X : nat) (a : vector) : vector :=
  vector_build X (fun i => scalar_ntt (vec a i)).

Definition vector_inverse_ntt (X : nat) (a : vector) : vector :=
  vector_build X (fun i => scalar_inverse_ntt (vec a i)).

(** [out] starts as zero and accumulates the products of row [i]. *)
Definition matrix_mult (K' L' : nat) (m : matrix) (a : vector) : vector :=
  vector_build K' (fun i =>
    fold_left
      (fun out_i j => scalar_add out_i (scalar_mult (entry m i j) (vec a j)))
      (seq 0 L') scalar_zero).

(** ** Rounding and hints on scalars and vectors *)

Definition scalar_power2_round (s : scalar) : scalar * scalar :=
  (scalar_build (fun i => fst (power2_round (coef s i))),
   scalar_build (fun i => snd (power2_round (coef s i)))).

Definition scalar_scale_power2_round (s : scalar) : scalar :=
  scalar_build (fun i => scale_power2_round (coef s i)).

Definition scalar_high_bits (s : scalar) : scalar :=
  scalar_build (fun i => high_bits (coef s i)).

(** The [int32_t] low part is stored into a [uint32_t] coefficient. *)
Definition scalar_low_bits (s : scalar) : scalar :=
  scalar_build (fun i => u32 (low_bits (coef s i))).

Definition scalar_max (max : Z) (s : scalar) : Z :=
  fold_left (fun max i => maximum max (abs_mod_prime (coef s i)))
    (seq 0 kDegree) max.

Definition scalar_max_signed (max : Z) (s : scalar) : Z :=
  fold_left (fun max i => maximum max (abs_signed (coef s i)))
    (seq 0 kDegree) max.

Definition scalar_make_hint (ct0 cs2 w : scalar) : scalar :=
  scalar_build (fun i => make_hint (coef ct0 i) (coef cs2 i) (coef w i)).

Definition scalar_use_hint_vartime (h r : scalar) : scalar :=
  scalar_build (fun i => use_hint_vartime (coef h i) (coef r i)).

Definition vector_power2_round (X : nat) (t : vector) : vector * vector :=
  (vector_build X (fun i => fst (scalar_power2_round (vec t i))),
   vector_build X (fun i => snd (scalar_power2_round (vec t i)))).

Definition vector_scale_power2_round (X : nat) (a : vector) : vector :=
  vector_build X (fun i => scalar_scale_power2_round (vec a i)).

Definition vector_high_bits (X : nat) (a : vector) : vector :=
  vector_build X (fun i => scalar_high_bits (vec a i)).

Definition vector_low_bits (X : nat) (a : vector) : vector :=
  vector_build X (fun i => scalar_low_bits (vec a i)).

Definition vector_max (X : nat) (a : vector) : Z :=
  fold_left (fun max i => scalar_max max (vec a i)) (seq 0 X) 0.

Definition vector_max_signed (X : nat) (a : vector) : Z :=
  fold_left (fun max i => scalar_max_signed max (vec a i)) (seq 0 X) 0.

Definition vector_count_ones (X : nat) (a : vector) : Z :=
  fold_left
    (fun count i =>
       fold_left (fun count j => u64 (count + coef (vec a i) j))
         (seq 0 kDegree) count)
    (seq 0 X) 0.

Definition vector_make_hint (X : nat) (ct0 cs2 w : vector) : vector :=
  vector_build X (fun i => scalar_make_hint (vec ct0 i) (vec cs2 i) (vec w i)).

Definition vector_use_hint_vartime (X : nat) (h r : vector) : vector :=
  vector_build X (fun i => scalar_use_hint_vartime (vec h i) (vec r i)).

(** ** Bytes in memory *)

Definition byte_at (b : list Z) (i : nat) : Z := nth i b 0.

(** [OPENSSL_memcpy] between an integer and bytes, on a little-endian
    target. *)
Definition load_u16 (b : list Z) (i : nat) : Z :=
  Z.lor (byte_at b i) (Z.shiftl (byte_at b (i + 1)) 8).

Definition load_u32 (b : list Z) (i : nat) : Z :=
  Z.lor (Z.lor (Z.lor (byte_at b i) (Z.shiftl (byte_at b (i + 1)) 8))
           (Z.shiftl (byte_at b (i + 2)) 16))
    (Z.shiftl (byte_at b (i + 3)) 24).

Definition load_u64 (b : list Z) (i : nat) : Z :=
  Z.lor (load_u32 b i) (Z.shiftl (load_u32 b (i + 4)) 32).

Definition store_u16 (v : Z) : list Z := [u8 v; u8 (Z.shiftr v 8)].

Definition store_u32 (v : Z) : list Z :=
  [u8 v; u8 (Z.shiftr v 8); u8 (Z.shiftr v 16); u8 (Z.shiftr v 24)].

(** [OPENSSL_memcmp (a, b, n) == 0] *)
Fixpoint bytes_eqb (a b : list Z) : bool :=
  match a, b with
  | [], [] => true
  | x :: a', y :: b' => (x =? y) && bytes_eqb a' b'
  | _, _ => false
  end.

(** ** Bit packing *)

Definition scalar_encode_4 (s : scalar) : list Z :=
  map (fun i =>
         let a := coef s (2 * i) in
         let b := coef s (2 * i + 1) in
         u8 (Z.lor a (u32 (Z.shiftl b 4))))
    (seq 0 (kDegree / 2)).

Definition scalar_encode_10 (s : scalar) : list Z :=
  flat_map (fun i =>
         let a := coef s (4 * i) in
         let b := coef s (4 * i + 1) in
         let c := coef s (4 * i + 2) in
         let d := coef s (4 * i + 3) in
         [u8 a;
          u8 (Z.lor (Z.shiftr a 8) (u32 (Z.shiftl b 2)));
          u8 (Z.lor (Z.shiftr b 6) (u32 (Z.shiftl c 4)));
          u8 (Z.lor (Z.shiftr c 4) (u32 (Z.shiftl d 6)));
          u8 (Z.shiftr d 2)])
    (seq 0 (kDegree / 4)).

Definition scalar_encode_signed_20_19 (s : scalar) : list Z :=
  let kMax := Z.shiftl 1 19 in
  flat_map (fun i =>
         let a := mod_sub kMax (coef s (4 * i)) in
         let b := mod_sub kMax (coef s (4 * i + 1)) in
         let c := mod_sub kMax (coef s (4 * i + 2)) in
         let d := mod_sub kMax (coef s (4 * i + 3)) in
         let a := Z.lor a (u32 (Z.shiftl b 20)) in
         let b := Z.shiftr b 12 in
         let b := Z.lor b (u32 (Z.shiftl c 8)) in
         let b := Z.lor b (u32 (Z.shiftl d 28)) in
         let d := Z.shiftr d 4 in
         store_u32 a ++ store_u32 b ++ store_u16 d)
    (seq 0 (kDegree / 4)).

Definition scalar_decode_10 (inp : list Z) : scalar :=
  flat_map (fun i =>
         let v := load_u32 inp (5 * i) in
         [Z.land v 1023;
          Z.land (Z.shiftr v 10) 1023;
          Z.land (Z.shiftr v 20) 1023;
          Z.lor (Z.shiftr v 30) (u32 (Z.shiftl (byte_at inp (5 * i + 4)) 2))])
    (seq 0 (kDegree / 4)).

(** The eight coefficients of one 32-bit word, or [None] where the code
    returns 0. *)
Definition decode_signed_4_4_word (v : Z) : option (list Z) :=
  let msbs := Z.land v 2290649224 in
  let mask :=
    Z.lor (Z.lor (Z.shiftr msbs 1) (Z.shiftr msbs 2)) (Z.shiftr msbs 3) in
  if negb (Z.land mask v =? 0) then None
  else Some [mod_sub 4 (Z.land v 15);
             mod_sub 4 (Z.land (Z.shiftr v 4) 15);
             mod_sub 4 (Z.land (Z.shiftr v 8) 15);
             mod_sub 4 (Z.land (Z.shiftr v 12) 15);
             mod_sub 4 (Z.land (Z.shiftr v 16) 15);
             mod_sub 4 (Z.land (Z.shiftr v 20) 15);
             mod_sub 4 (Z.land (Z.shiftr v 24) 15);
             mod_sub 4 (Z.shiftr v 28)].

(** The loop of [scalar_decode_signed_4_4] from word [i] on, [n] words to
    go; [out] holds the coefficients written so far. *)
Fixpoint decode_signed_4_4_loop (n i : nat) (inp : list Z) (out : scalar)
  : option scalar :=
  match n with
  | O => Some out
  | S n' =>
      match decode_signed_4_4_word (load_u32 inp (4 * i)) with
      | None => None
      | Some cs => decode_signed_4_4_loop n' (S i) inp (out ++ cs)
      end
  end.

Definition scalar_decode_signed_4_4 (inp : list Z) : option scalar :=
  decode_signed_4_4_loop (kDegree / 8) 0 inp [].

Definition scalar_decode_signed_20_19 (inp : list Z) : scalar :=
  let kMax := Z.shiftl 1 19 in
  let k20Bits := Z.shiftl 1 20 - 1 in
  flat_map (fun i =>
         let a := load_u32 inp (10 * i) in
         let b := load_u32 inp (10 * i + 4) in
         let c := load_u16 inp (10 * i + 8) in
         [mod_sub kMax (Z.land a k20Bits);
          mod_sub kMax (Z.lor (Z.shiftr a 20) (u32 (Z.shiftl (Z.land b 255) 12)));
          mod_sub kMax (Z.land (Z.shiftr b 8) k20Bits);
          mod_sub kMax (Z.lor (Z.shiftr b 28) (u32 (Z.shiftl c 4)))])
    (seq 0 (kDegree / 4)).

(** ** Encoding of vectors *)

(** [in + i * n]: the bytes from offset [i * n] on. *)
Definition slice (b : list Z) (off len : nat) : list Z :=
  firstn len (skipn off b).

Definition vector_encode (X : nat) (a : vector) (bits : nat) : list Z :=
  if (bits =? 4)%nat
  then flat_map (fun i => scalar_encode_4 (vec a i)) (seq 0 X)
  else flat_map (fun i => scalar_encode_10 (vec a i)) (seq 0 X).

Definition vector_decode_10 (X : nat) (inp : list Z) : vector :=
  vector_build X (fun i => scalar_decode_10 (skipn (i * 10 * kDegree / 8) inp)).

(** [vector_encode_signed] at [bits = 20], [max = 1 << 19]. *)
Definition vector_encode_signed_20 (X : nat) (a : vector) : list Z :=
  flat_map (fun i => scalar_encode_signed_20_19 (vec a i)) (seq 0 X).

(** [vector_decode_signed] at [bits = 20], where no scalar fails. *)
Definition vector_decode_signed_20 (X : nat) (inp : list Z) : vector :=
  vector_build X
    (fun i => scalar_decode_signed_20_19 (skipn (i * 20 * kDegree / 8) inp)).

Definition w1_encode (X : nat) (w1 : vector) : list Z := vector_encode X w1 4.

(** The loop over [j] of [hint_bit_pack]; [None] where [BSSL_CHECK] aborts. *)
Fixpoint hint_pack_row (n j : nat) (row : scalar) (out : list Z) (index : nat)
  : option (list Z * nat) :=
  match n with
  | O => Some (out, index)
  | S n' =>
      if negb (coef row j =? 0) then
        if (index <? omega)%nat
        then hint_pack_row n' (S j) row (upd out index (u8 (Z.of_nat j)))
               (S index)
        else None
      else hint_pack_row n' (S j) row out index
  end.

Fixpoint hint_pack_rows (n i : nat) (h : vector) (out : list Z) (index : nat)
  : option (list Z) :=
  match n with
  | O => Some out
  | S n' =>
      match hint_pack_row kDegree 0 (vec h i) out index with
      | None => None
      | Some (out, index) =>
          hint_pack_rows n' (S i) h
            (upd out (omega + i) (u8 (Z.of_nat index))) index
      end
  end.

Definition hint_bit_pack (h : vector) : option (list Z) :=
  hint_pack_rows K 0 h (repeat 0 (omega + K)) 0.

(** The [while (index < limit)] loop of [hint_bit_unpack] on row [row];
    [n] bounds the iterations left and is [limit - index] at the start. *)
Fixpoint hint_unpack_row (n : nat) (inp : list Z) (row : scalar)
  (index : nat) (last : Z) : option (scalar * nat) :=
  match n with
  | O => Some (row, index)
  | S n' =>
      let byte := byte_at inp index in
      if (0 <=? last) && (byte <=? last) then None
      else hint_unpack_row n' inp (upd row (Z.to_nat byte) 1) (S index) byte
  end.

Fixpoint hint_unpack_rows (n i : nat) (inp : list Z) (h : vector)
  (index : nat) : option (vector * nat) :=
  match n with
  | O => Some (h, index)
  | S n' =>
      let limit := Z.to_nat (byte_at inp (omega + i)) in
      if (limit <? index)%nat || (omega <? limit)%nat then None
      else
        match hint_unpack_row (limit - index) inp (vec h i) index (-1) with
        | None => None
        | Some (row, index) => hint_unpack_rows n' (S i) inp (upd h i row) index
        end
  end.

(** The final loop: the unused index bytes are zero. *)
Fixpoint hint_unpack_tail (n index : nat) (inp : list Z) : bool :=
  match n with
  | O => true
  | S n' =>
      if negb (byte_at inp index =? 0) then false
      else hint_unpack_tail n' (S index) inp
  end.

Definition hint_bit_unpack (inp : list Z) : option vector :=
  match hint_unpack_rows K 0 inp (vector_zero K) 0 with
  | None => None
  | Some (h, index) =>
      if hint_unpack_tail (omega - index) index inp then Some h else None
  end.

(** ** Keys and signatures *)

Record public_key : Type := {
  pub_rho : list Z;
  pub_t1 : vector;
  pub_public_key_hash : list Z
}.

Record private_key : Type := {
  priv_rho : list Z;
  priv_k : list Z;
  priv_public_key_hash : list Z;
  priv_s1 : vector;
  priv_s2 : vector;
  priv_t0 : vector
}.

Record signature : Type := {
  sig_c_tilde : list Z;
  sig_z : vector;
  sig_h : vector
}.

Definition kRhoBytes : nat := 32.
Definition kSigmaBytes : nat := 64.
Definition kKBytes : nat := 32.
Definition kTrBytes : nat := 64.
Definition kMuBytes : nat := 64.
Definition kRhoPrimeBytes : nat := 64.
Definition MLDSA_SEED_BYTES : nat := 32.
Definition MLDSA_SIGNATURE_RANDOMIZER_BYTES : nat := 32.
Definition MLDSA65_PUBLIC_KEY_BYTES : nat := 1952.
Definition MLDSA65_SIGNATURE_BYTES : nat := 3309.

(** The outcome of signing: the encoded signature where the code returns 1,
    [SignFailure] where it returns 0, [Aborted] where [BSSL_CHECK] stops the
    process.  [Unfinished kappa] is not an outcome of the code: the model
    stopped unrolling a loop while the attempt with counter [kappa] had not
    produced a signature. *)
Inductive sign_result : Type :=
| Signed (encoded_signature : list Z)
| SignFailure
| Aborted
| Unfinished (kappa : nat).

(** ** Byte strings (CBS) *)

(** Modelled from the spec: [CBS_get_bytes] and [CBS_copy_bytes] of
    crypto/bytestring take the next [n] bytes of the input, or fail when
    fewer are left. *)
Definition CBS_get_bytes (inp : list Z) (n : nat) : option (list Z * list Z) :=
  if (length inp <? n)%nat then None else Some (firstn n inp, skipn n inp).

Definition mldsa_marshal_public_key (pub : public_key) : list Z :=
  firstn kRhoBytes (pub_rho pub) ++ vector_encode K (pub_t1 pub) 10.

Definition mldsa_marshal_signature (sign : signature) : option (list Z) :=
  match hint_bit_pack (sig_h sign) with
  | None => None
  | Some hint =>
      Some (sig_c_tilde sign ++ vector_encode_signed_20 L (sig_z sign) ++ hint)
  end.

Definition mldsa_parse_signature (inp : list Z) : option signature :=
  match CBS_get_bytes inp (2 * lambda_bytes) with
  | None => None
  | Some (c_tilde, inp) =>
      match CBS_get_bytes inp (640 * L) with
      | None => None
      | Some (z_bytes, inp) =>
          let z := vector_decode_signed_20 L z_bytes in
          match CBS_get_bytes inp (omega + K) with
          | None => None
          | Some (hint_bytes, _) =>
              match hint_bit_unpack hint_bytes with
              | None => None
              | Some h => Some {| sig_c_tilde := c_tilde; sig_z := z; sig_h := h |}
              end
          end
      end
  end.

(** ** A degenerate instance for concrete runs *)

(** An extendable-output function that yields the byte 0 at every position,
    and the private key that key generation derives with it: every
    coefficient of [s1], [s2] and [t0] is [mod_sub 4 0 = 4]. *)
Definition zero_xof (m : list Z) (i : nat) : Z := 0.

Definition zero_key : private_key :=
  {| priv_rho := repeat 0 32; priv_k := repeat 0 32;
     priv_public_key_hash := repeat 0 64;
     priv_s1 := repeat (repeat 4 256) 5;
     priv_s2 := repeat (repeat 4 256) 6;
     priv_t0 := repeat (repeat 4 256) 6 |}.

(** ** Private keys *)

Definition scalar_encode_signed_4_4 (s : scalar) : list Z :=
  map (fun i =>
         let a := mod_sub 4 (coef s (2 * i)) in
         let b := mod_sub 4 (coef s (2 * i + 1)) in
         u8 (Z.lor a (u32 (Z.shiftl b 4))))
    (seq 0 (kDegree / 2)).

Definition scalar_encode_signed_13_12 (s : scalar) : list Z :=
  let kMax := Z.shiftl 1 12 in
  flat_map (fun i =>
         let a := mod_sub kMax (coef s (8 * i)) in
         let b := mod_sub kMax (coef s (8 * i + 1)) in
         let c := mod_sub kMax (coef s (8 * i + 2)) in
         let d := mod_sub kMax (coef s (8 * i + 3)) in
         let e := mod_sub kMax (coef s (8 * i + 4)) in
         let f := mod_sub kMax (coef s (8 * i + 5)) in
         let g := mod_sub kMax (coef s (8 * i + 6)) in
         let h := mod_sub kMax (coef s (8 * i + 7)) in
         let a := Z.lor a (u32 (Z.shiftl b 13)) in
         let a := Z.lor a (u32 (Z.shiftl c 26)) in
         let c := Z.shiftr c 6 in
         let c := Z.lor c (u32 (Z.shiftl d 7)) in
         let c := Z.lor c (u32 (Z.shiftl e 20)) in
         let e := Z.shiftr e 12 in
         let e := Z.lor e (u32 (Z.shiftl f 1)) in
         let e := Z.lor e (u32 (Z.shiftl g 14)) in
         let e := Z.lor e (u32 (Z.shiftl h 27)) in
         let h := Z.shiftr h 5 in
         store_u32 a ++ store_u32 c ++ store_u32 e ++ [u8 h])
    (seq 0 (kDegree / 8)).

(** [scalar_encode_signed]: the encoder for [bits] bits per coefficient. *)
Definition scalar_encode_signed (s : scalar) (bits : nat) : list Z :=
  if (bits =? 4)%nat then scalar_encode_signed_4_4 s
  else if (bits =? 20)%nat then scalar_encode_signed_20_19 s
  else scalar_encode_signed_13_12 s.

Definition scalar_decode_signed_13_12 (inp : list Z) : scalar :=
  let kMax := Z.shiftl 1 12 in
  let k13Bits := Z.shiftl 1 13 - 1 in
  let k7Bits := Z.shiftl 1 7 - 1 in
  flat_map (fun i =>
         let a := load_u32 inp (13 * i) in
         let b := load_u32 inp (13 * i + 4) in
         let c := load_u32 inp (13 * i + 8) in
         let d := byte_at inp (13 * i + 12) in
         [mod_sub kMax (Z.land a k13Bits);
          mod_sub kMax (Z.land (Z.shiftr a 13) k13Bits);
          mod_sub kMax
            (Z.lor (Z.shiftr a 26) (u32 (Z.shiftl (Z.land b k7Bits) 6)));
          mod_sub kMax (Z.land (Z.shiftr b 7) k13Bits);
          mod_sub kMax (Z.lor (Z.shiftr b 20) (u32 (Z.shiftl (Z.land c 1) 12)));
          mod_sub kMax (Z.land (Z.shiftr c 1) k13Bits);
          mod_sub kMax (Z.land (Z.shiftr c 14) k13Bits);
          mod_sub kMax (Z.lor (Z.shiftr c 27) (u32 (Z.shiftl d 5)))])
    (seq 0 (kDegree / 8)).

(** [scalar_decode_signed]; [None] where the code returns 0 and, for a
    number of bits other than 4, 13 and 20, where it calls [abort]. *)
Definition scalar_decode_signed (inp : list Z) (bits : nat) : option scalar :=
  if (bits =? 4)%nat then scalar_decode_signed_4_4 inp
  else if (bits =? 13)%nat then Some (scalar_decode_signed_13_12 inp)
  else if (bits =? 20)%nat then Some (scalar_decode_signed_20_19 inp)
  else None.

Definition vector_encode_signed (X : nat) (a : vector) (bits : nat) : list Z :=
  flat_map (fun i => scalar_encode_signed (vec a i) bits) (seq 0 X).

(** The loop of [vector_decode_signed] from scalar [i] on, which stops at
    the first scalar that does not decode. *)
Fixpoint vector_decode_signed_loop (n i : nat) (inp : list Z) (bits : nat)
  (out : vector) : option vector :=
  match n with
  | O => Some out
  | S n' =>
      match scalar_decode_signed (skipn (i * bits * kDegree / 8) inp) bits with
      | None => None
      | Some s => vector_decode_signed_loop n' (S i) inp bits (out ++ [s])
      end
  end.

Definition vector_decode_signed (X : nat) (inp : list Z) (bits : nat)
  : option vector :=
  vector_decode_signed_loop X 0 inp bits [].

Definition MLDSA65_PRIVATE_KEY_BYTES : nat := 4032.

(** [mldsa_marshal_private_key]; the buffer is taken to grow as asked. *)
Definition mldsa_marshal_private_key (priv : private_key) : list Z :=
  firstn kRhoBytes (priv_rho priv) ++ firstn kKBytes (priv_k priv)
  ++ firstn kTrBytes (priv_public_key_hash priv)
  ++ vector_encode_signed L (priv_s1 priv) 4
  ++ vector_encode_signed K (priv_s2 priv) 4
  ++ vector_encode_signed K (priv_t0 priv) 13.

(** [mldsa_parse_private_key], with the bytes it leaves in the input. *)
Definition mldsa_parse_private_key (inp : list Z)
  : option (private_key * list Z) :=
  match CBS_get_bytes inp kRhoBytes with
  | None => None
  | Some (rho, inp) =>
  match CBS_get_bytes inp kKBytes with
  | None => None
  | Some (k, inp) =>
  match CBS_get_bytes inp kTrBytes with
  | None => None
  | Some (tr, inp) =>
  match CBS_get_bytes inp (128 * L) with
  | None => None
  | Some (s1_bytes, inp) =>
  match vector_decode_signed L s1_bytes 4 with
  | None => None
  | Some s1 =>
  match CBS_get_bytes inp (128 * K) with
  | None => None
  | Some (s2_bytes, inp) =>
  match vector_decode_signed K s2_bytes 4 with
  | None => None
  | Some s2 =>
  match CBS_get_bytes inp (416 * K) with
  | None => None
  | Some (t0_bytes, inp) =>
  match vector_decode_signed K t0_bytes 13 with
  | None => None
  | Some t0 =>
      Some ({| priv_rho := rho; priv_k := k; priv_public_key_hash := tr;
               priv_s1 := s1; priv_s2 := s2; priv_t0 := t0 |}, inp)
  end end end end end end end end end.

(** [MLDSA65_parse_private_key]: nothing may follow the key. *)
Definition MLDSA65_parse_private_key (inp : list Z) : option private_key :=
  match mldsa_parse_private_key inp with
  | None => None
  | Some (priv, rest) => if (length rest =? 0)%nat then Some priv else None
  end.

(** ** The protocol, over the SHAKE functions *)

Section Keccak.

(** Modelled from the spec: SHAKE-128 and SHAKE-256 of crypto/keccak, which
    are external to the sources at hand.  An extendable-output function is
    given by the byte it yields at every position of the output stream of a
    message. *)
Variable shake128 : list Z -> nat -> Z.
Variable shake256 : list Z -> nat -> Z.

Inductive boringssl_keccak_config : Type :=
| boringssl_shake128
| boringssl_shake256.

(** The sponge: what was absorbed, and how many bytes were squeezed. *)
Record BORINGSSL_keccak_st : Type := {
  config : boringssl_keccak_config;
  absorbed : list Z;
  squeezed : nat
}.

Definition BORINGSSL_keccak_init (c : boringssl_keccak_config)
  : BORINGSSL_keccak_st :=
  {| config := c; absorbed := []; squeezed := 0 |}.

Definition BORINGSSL_keccak_absorb (ctx : BORINGSSL_keccak_st) (data : list Z)
  : BORINGSSL_keccak_st :=
  {| config := config ctx; absorbed := absorbed ctx ++ data;
     squeezed := squeezed ctx |}.

Definition keccak_byte (ctx : BORINGSSL_keccak_st) (pos : nat) : Z :=
  u8 (match config ctx with
      | boringssl_shake128 => shake128 (absorbed ctx) pos
      | boringssl_shake256 => shake256 (absorbed ctx) pos
      end).

Definition BORINGSSL_keccak_squeeze (ctx : BORINGSSL_keccak_st) (len : nat)
  : list Z * BORINGSSL_keccak_st :=
  (map (fun i => keccak_byte ctx (squeezed ctx + i)) (seq 0 len),
   {| config := config ctx; absorbed := absorbed ctx;
      squeezed := squeezed ctx + len |}).

Definition BORINGSSL_keccak (out_len : nat) (inp : list Z)
  (c : boringssl_keccak_config) : list Z :=
  fst (BORINGSSL_keccak_squeeze
         (BORINGSSL_keccak_absorb (BORINGSSL_keccak_init c) inp) out_len).

(** *** Expansion functions *)

(** The [for] loop over one squeezed block of [scalar_from_keccak_vartime]:
    [n] groups of three bytes from offset [i] on; [out] holds the [done]
    coefficients found so far. *)
Fixpoint from_keccak_block (n i : nat) (block : list Z) (out : scalar)
  : scalar :=
  match n with
  | O => out
  | S n' =>
      if (length out <? kDegree)%nat then
        let value :=
          Z.lor (Z.lor (byte_at block i) (Z.shiftl (byte_at block (i + 1)) 8))
            (Z.shiftl (Z.land (byte_at block (i + 2)) 127) 16) in
        let out := if value <? kPrime then out ++ [value] else out in
        from_keccak_block n' (i + 3) block out
      else out
  end.

(** The [while (done < kDegree)] loop; [fuel] bounds the number of blocks. *)
Fixpoint from_keccak_loop (fuel : nat) (ctx : BORINGSSL_keccak_st)
  (out : scalar) : option scalar :=
  if (length out <? kDegree)%nat then
    match fuel with
    | O => None
    | S fuel' =>
        let '(block, ctx) := BORINGSSL_keccak_squeeze ctx 168 in
        from_keccak_loop fuel' ctx (from_keccak_block 56 0 block out)
    end
  else Some out.

Definition scalar_from_keccak_vartime (fuel : nat) (derived_seed : list Z)
  : option scalar :=
  let ctx := BORINGSSL_keccak_init boringssl_shake128 in
  let ctx := BORINGSSL_keccak_absorb ctx (firstn (kRhoBytes + 2) derived_seed) in
  from_keccak_loop fuel ctx [].

(** [coefficient_from_nibble<4>] *)
Definition coefficient_from_nibble (nibble : Z) : option Z :=
  if nibble <? 9 then Some (mod_sub 4 nibble) else None.

Fixpoint uniform_block (n i : nat) (block : list Z) (out : scalar) : scalar :=
  match n with
  | O => out
  | S n' =>
      if (length out <? kDegree)%nat then
        let t0 := Z.land (byte_at block i) 15 in
        let t1 := Z.shiftr (byte_at block i) 4 in
        let out :=
          match coefficient_from_nibble t0 with
          | Some v => out ++ [v]
          | None => out
          end in
        let out :=
          if (length out <? kDegree)%nat then
            match coefficient_from_nibble t1 with
            | Some v => out ++ [v]
            | None => out
            end
          else out in
        uniform_block n' (S i) block out
      else out
  end.

Fixpoint uniform_loop (fuel : nat) (ctx : BORINGSSL_keccak_st) (out : scalar)
  : option scalar :=
  if (length out <? kDegree)%nat then
    match fuel with
    | O => None
    | S fuel' =>
        let '(block, ctx) := BORINGSSL_keccak_squeeze ctx 136 in
        uniform_loop fuel' ctx (uniform_block 136 0 block out)
    end
  else Some out.

(** [scalar_uniform<4>] *)
Definition scalar_uniform (fuel : nat) (derived_seed : list Z)
  : option scalar :=
  let ctx := BORINGSSL_keccak_init boringssl_shake256 in
  let ctx :=
    BORINGSSL_keccak_absorb ctx (firstn (kSigmaBytes + 2) derived_seed) in
  uniform_loop fuel ctx [].

Definition scalar_sample_mask (derived_seed : list Z) : scalar :=
  let buf :=
    BORINGSSL_keccak 640 (firstn (kRhoPrimeBytes + 2) derived_seed)
      boringssl_shake256 in
  scalar_decode_signed_20_19 buf.

(** The [for (;;)] loop of [scalar_sample_in_ball_vartime], which draws bytes
    until one is at most [i]; [fuel] bounds the number of draws. *)
Fixpoint sample_in_ball_draw (fuel : nat) (ctx : BORINGSSL_keccak_st)
  (block : list Z) (offset i : nat)
  : option (nat * BORINGSSL_keccak_st * list Z * nat) :=
  match fuel with
  | O => None
  | S fuel' =>
      let '(block, ctx, offset) :=
        if (offset =? 136)%nat then
          let '(block, ctx) := BORINGSSL_keccak_squeeze ctx 136 in
          (block, ctx, O)
        else (block, ctx, offset) in
      let byte := Z.to_nat (byte_at block offset) in
      let offset := S offset in
      if (byte <=? i)%nat then Some (byte, ctx, block, offset)
      else sample_in_ball_draw fuel' ctx block offset i
  end.

(** The loop over [i], [n] iterations to go. *)
Fixpoint sample_in_ball_loop (n i fuel : nat) (ctx : BORINGSSL_keccak_st)
  (block : list Z) (offset : nat) (signs : Z) (out : scalar)
  : option scalar :=
  match n with
  | O => Some out
  | S n' =>
      match sample_in_ball_draw fuel ctx block offset i with
      | None => None
      | Some (byte, ctx, block, offset) =>
          let out := upd out i (coef out byte) in
          let out := upd out byte (mod_sub 1 (u32 (2 * Z.land signs 1))) in
          let signs := Z.shiftr signs 1 in
          sample_in_ball_loop n' (S i) fuel ctx block offset signs out
      end
  end.

Definition scalar_sample_in_ball_vartime (fuel : nat) (seed : list Z)
  (tau' : nat) : option scalar :=
  let ctx := BORINGSSL_keccak_init boringssl_shake256 in
  let ctx := BORINGSSL_keccak_absorb ctx seed in
  let '(block, ctx) := BORINGSSL_keccak_squeeze ctx 136 in
  let signs := load_u64 block 0 in
  let offset := 8%nat in
  sample_in_ball_loop tau' (kDegree - tau') fuel ctx block offset signs
    scalar_zero.

(** Sequencing of computations that may run out of fuel. *)
Definition bind {A B : Type} (x : option A) (f : A -> option B) : option B :=
  match x with
  | Some a => f a
  | None => None
  end.

Fixpoint collect {A : Type} (l : list (option A)) : option (list A) :=
  match l with
  | [] => Some []
  | x :: l' => bind x (fun a => bind (collect l') (fun r => Some (a :: r)))
  end.

Definition matrix_expand (fuel : nat) (rho : list Z) : option matrix :=
  collect (map (fun i =>
    collect (map (fun j =>
      let derived_seed :=
        firstn kRhoBytes rho ++ [u8 (Z.of_nat j); u8 (Z.of_nat i)] in
      scalar_from_keccak_vartime fuel derived_seed) (seq 0 L))) (seq 0 K)).

Definition vector_expand_short (fuel : nat) (sigma : list Z)
  : option (vector * vector) :=
  bind (collect (map (fun i =>
          scalar_uniform fuel (firstn kSigmaBytes sigma ++ [u8 (Z.of_nat i); 0]))
          (seq 0 L)))
    (fun s1 =>
  bind (collect (map (fun i =>
          scalar_uniform fuel
            (firstn kSigmaBytes sigma ++ [u8 (Z.of_nat (L + i)); 0]))
          (seq 0 K)))
    (fun s2 => Some (s1, s2))).

Definition vector_expand_mask (X : nat) (seed : list Z) (kappa : nat)
  : vector :=
  vector_build X (fun i =>
    let index := Z.of_nat (kappa + i) in
    let derived_seed :=
      firstn kRhoPrimeBytes seed
        ++ [Z.land index 255; Z.land (Z.shiftr index 8) 255] in
    scalar_sample_mask derived_seed).

(** *** Parsing a public key *)

Definition mldsa_parse_public_key (inp : list Z) : option public_key :=
  match CBS_get_bytes inp kRhoBytes with
  | None => None
  | Some (rho, rest) =>
      match CBS_get_bytes rest (320 * K) with
      | None => None
      | Some (t1_bytes, rest) =>
          if negb (length rest =? 0)%nat then None
          else Some {| pub_rho := rho;
                       pub_t1 := vector_decode_10 K t1_bytes;
                       pub_public_key_hash :=
                         BORINGSSL_keccak kTrBytes inp boringssl_shake256 |}
      end
  end.

(** *** Key generation *)

(** [mldsa_generate_key_external_entropy]; the allocation of the working
    memory is taken to succeed.  [None] stands for a loop out of fuel. *)
Definition mldsa_generate_key_external_entropy (fuel : nat) (entropy : list Z)
  : option (list Z * private_key) :=
  let augmented_entropy :=
    firstn MLDSA_SEED_BYTES entropy ++ [Z.of_nat K; Z.of_nat L] in
  let expanded_seed :=
    BORINGSSL_keccak (kRhoBytes + kSigmaBytes + kKBytes) augmented_entropy
      boringssl_shake256 in
  let rho := slice expanded_seed 0 kRhoBytes in
  let sigma := slice expanded_seed kRhoBytes kSigmaBytes in
  let k := slice expanded_seed (kRhoBytes + kSigmaBytes) kKBytes in
  bind (matrix_expand fuel rho) (fun a_ntt =>
  bind (vector_expand_short fuel sigma) (fun '(s1, s2) =>
    let s1_ntt := vector_ntt L s1 in
    let t := matrix_mult K L a_ntt s1_ntt in
    let t := vector_inverse_ntt K t in
    let t := vector_add K t s2 in
    let '(t1, t0) := vector_power2_round K t in
    let pub := {| pub_rho := rho; pub_t1 := t1; pub_public_key_hash := [] |} in
    let out_encoded_public_key := mldsa_marshal_public_key pub in
    let public_key_hash :=
      BORINGSSL_keccak kTrBytes out_encoded_public_key boringssl_shake256 in
    Some (out_encoded_public_key,
          {| priv_rho := rho; priv_k := k;
             priv_public_key_hash := public_key_hash;
             priv_s1 := s1; priv_s2 := s2; priv_t0 := t0 |}))).

(** *** Signing *)

(** What one pass through the body of the signing loop ends in. *)
Inductive attempt : Type :=
| Rejected
| Accepted (sign : signature)
| Stuck.

(** The body of the loop of [mldsa_sign_internal] at counter [kappa].
    [Stuck] stands for [scalar_sample_in_ball_vartime] out of fuel. *)
Definition sign_attempt (fuel : nat) (mu rho_prime : list Z)
  (s1_ntt s2_ntt t0_ntt : vector) (a_ntt : matrix) (kappa : nat) : attempt :=
  let y := vector_expand_mask L rho_prime kappa in
  let y_ntt := vector_ntt L y in
  let w := matrix_mult K L a_ntt y_ntt in
  let w := vector_inverse_ntt K w in
  let w1 := vector_high_bits K w in
  let w1_encoded := w1_encode K w1 in
  let ctx := BORINGSSL_keccak_init boringssl_shake256 in
  let ctx := BORINGSSL_keccak_absorb ctx mu in
  let ctx := BORINGSSL_keccak_absorb ctx w1_encoded in
  let c_tilde := fst (BORINGSSL_keccak_squeeze ctx (2 * lambda_bytes)) in
  match scalar_sample_in_ball_vartime fuel c_tilde tau with
  | None => Stuck
  | Some c =>
      let c_ntt := scalar_ntt c in
      let cs1 := vector_mult_scalar L s1_ntt c_ntt in
      let cs1 := vector_inverse_ntt L cs1 in
      let cs2 := vector_mult_scalar K s2_ntt c_ntt in
      let cs2 := vector_inverse_ntt K cs2 in
      let z := vector_add L y cs1 in
      let r0 := vector_sub K w cs2 in
      let r0 := vector_low_bits K r0 in
      let z_max := vector_max L z in
      let r0_max := vector_max_signed K r0 in
      if negb (Z.lor (constant_time_ge_w z_max (gamma1 - beta))
                 (constant_time_ge_w r0_max (kGamma2 - beta)) =? 0)
      then Rejected
      else
        let ct0 := vector_mult_scalar K t0_ntt c_ntt in
        let ct0 := vector_inverse_ntt K ct0 in
        let h := vector_make_hint K ct0 cs2 w in
        let ct0_max := vector_max K ct0 in
        let h_ones := vector_count_ones K h in
        if negb (Z.lor (constant_time_ge_w ct0_max kGamma2)
                   (constant_time_lt_w (Z.of_nat omega) h_ones) =? 0)
        then Rejected
        else Accepted {| sig_c_tilde := c_tilde; sig_z := z; sig_h := h |}
  end.

(** The loop [for (size_t kappa = 0;; kappa += L)]; [fuel] bounds the number
    of passes the model unrolls. *)
Fixpoint sign_loop (fuel fuel_ball : nat) (mu rho_prime : list Z)
  (s1_ntt s2_ntt t0_ntt : vector) (a_ntt : matrix) (kappa : nat)
  : sign_result :=
  match fuel with
  | O => Unfinished kappa
  | S fuel' =>
      match sign_attempt fuel_ball mu rho_prime s1_ntt s2_ntt t0_ntt a_ntt
              kappa with
      | Stuck => Unfinished kappa
      | Rejected =>
          sign_loop fuel' fuel_ball mu rho_prime s1_ntt s2_ntt t0_ntt a_ntt
            (kappa + L)
      | Accepted sign =>
          match mldsa_marshal_signature sign with
          | None => Aborted
          | Some encoded => Signed encoded
          end
      end
  end.

(** [mldsa_sign_internal]; the allocation of the working memory is taken to
    succeed.  [fuel] bounds the passes through the signing loop, [fuel_inner]
    the inner sampling loops. *)
Definition mldsa_sign_internal (fuel fuel_inner : nat) (priv : private_key)
  (msg context_prefix context randomizer : list Z) : sign_result :=
  let ctx := BORINGSSL_keccak_init boringssl_shake256 in
  let ctx := BORINGSSL_keccak_absorb ctx (priv_public_key_hash priv) in
  let ctx := BORINGSSL_keccak_absorb ctx context_prefix in
  let ctx := BORINGSSL_keccak_absorb ctx context in
  let ctx := BORINGSSL_keccak_absorb ctx msg in
  let mu := fst (BORINGSSL_keccak_squeeze ctx kMuBytes) in
  let ctx := BORINGSSL_keccak_init boringssl_shake256 in
  let ctx := BORINGSSL_keccak_absorb ctx (priv_k priv) in
  let ctx :=
    BORINGSSL_keccak_absorb ctx
      (firstn MLDSA_SIGNATURE_RANDOMIZER_BYTES randomizer) in
  let ctx := BORINGSSL_keccak_absorb ctx mu in
  let rho_prime := fst (BORINGSSL_keccak_squeeze ctx kRhoPrimeBytes) in
  let s1_ntt := vector_ntt L (priv_s1 priv) in
  let s2_ntt := vector_ntt K (priv_s2 priv) in
  let t0_ntt := vector_ntt K (priv_t0 priv) in
  match matrix_expand fuel_inner (priv_rho priv) with
  | None => Unfinished 0
  | Some a_ntt =>
      sign_loop fuel fuel_inner mu rho_prime s1_ntt s2_ntt t0_ntt a_ntt 0
  end.

(** [MLDSA65_sign], with the randomizer that [RAND_bytes] hands out as an
    argument. *)
Definition MLDSA65_sign (fuel fuel_inner : nat) (private_key : private_key)
  (msg context randomizer : list Z) : sign_result :=
  if (255 <? length context)%nat then SignFailure
  else
    let context_prefix := [0; u8 (Z.of_nat (length context))] in
    mldsa_sign_internal fuel fuel_inner private_key msg context_prefix context
      randomizer.

(** *** Verification *)

(** [mldsa_verify_internal]; [None] stands for a loop out of fuel. *)
Definition mldsa_verify_internal (fuel : nat) (pub : public_key)
  (encoded_signature msg context_prefix context : list Z) : option bool :=
  match mldsa_parse_signature (firstn MLDSA65_SIGNATURE_BYTES encoded_signature)
  with
  | None => Some false
  | Some sign =>
      bind (matrix_expand fuel (pub_rho pub)) (fun a_ntt =>
        let ctx := BORINGSSL_keccak_init boringssl_shake256 in
        let ctx := BORINGSSL_keccak_absorb ctx (pub_public_key_hash pub) in
        let ctx := BORINGSSL_keccak_absorb ctx context_prefix in
        let ctx := BORINGSSL_keccak_absorb ctx context in
        let ctx := BORINGSSL_keccak_absorb ctx msg in
        let mu := fst (BORINGSSL_keccak_squeeze ctx kMuBytes) in
        bind (scalar_sample_in_ball_vartime fuel (sig_c_tilde sign) tau)
          (fun c =>
        let c_ntt := scalar_ntt c in
        let z_ntt := vector_ntt L (sig_z sign) in
        let az_ntt := matrix_mult K L a_ntt z_ntt in
        let ct1_ntt := vector_scale_power2_round K (pub_t1 pub) in
        let ct1_ntt := vector_ntt K ct1_ntt in
        let ct1_ntt := vector_mult_scalar K ct1_ntt c_ntt in
        let w1 := vector_sub K az_ntt ct1_ntt in
        let w1 := vector_inverse_ntt K w1 in
        let w1 := vector_use_hint_vartime K (sig_h sign) w1 in
        let w1_encoded := w1_encode K w1 in
        let ctx := BORINGSSL_keccak_init boringssl_shake256 in
        let ctx := BORINGSSL_keccak_absorb ctx mu in
        let ctx := BORINGSSL_keccak_absorb ctx w1_encoded in
        let c_tilde := fst (BORINGSSL_keccak_squeeze ctx (2 * lambda_bytes)) in
        let z_max := vector_max L (sig_z sign) in
        Some ((z_max <? u32 (gamma1 - beta))
              && bytes_eqb c_tilde (sig_c_tilde sign))))
  end.

(** [MLDSA65_verify] *)
Definition MLDSA65_verify (fuel : nat) (public_key : public_key)
  (signature msg context : list Z) : option bool :=
  if (255 <? length context)%nat
     || negb (length signature =? MLDSA65_SIGNATURE_BYTES)%nat
  then Some false
  else
    let context_prefix := [0; u8 (Z.of_nat (length context))] in
    mldsa_verify_internal fuel public_key signature msg context_prefix context.

(** *** The public key of a private key *)

(** [mldsa_public_from_private]; the allocation of the working memory is
    taken to succeed.  [None] stands for a loop out of fuel. *)
Definition mldsa_public_from_private (fuel : nat) (priv : private_key)
  : option public_key :=
  bind (matrix_expand fuel (priv_rho priv)) (fun a_ntt =>
    let s1_ntt := vector_ntt L (priv_s1 priv) in
    let t := matrix_mult K L a_ntt s1_ntt in
    let t := vector_inverse_ntt K t in
    let t := vector_add K t (priv_s2 priv) in
    let '(t1, t0) := vector_power2_round K t in
    Some {| pub_rho := firstn kRhoBytes (priv_rho priv); pub_t1 := t1;
            pub_public_key_hash :=
              firstn kTrBytes (priv_public_key_hash priv) |}).

End Keccak.

(** ** Auxiliary definitions for the proofs *)

(** A scalar is well formed when it has 256 coefficients, each below [q]. *)
Definition wf_scalar (s : scalar) : Prop :=
  length s = kDegree /\ forall i, (i < kDegree)%nat -> 0 <= coef s i < kPrime.

Definition wf_vector (X : nat) (v : vector) : Prop :=
  length v = X /\ forall i, (i < X)%nat -> wf_scalar (vec v i).

Definition wf_matrix (K' L' : nat) (m : matrix) : Prop :=
  forall i j, (i < K')%nat -> (j < L')%nat -> wf_scalar (entry m i j).

(** [2^-32] modulo [q]. *)
Definition kRinv : Z := 8265825.

(** A pass of in-place butterflies with a generic butterfly [F], of which the
    loops of [scalar_ntt] and [scalar_inverse_ntt] are instances. *)
Fixpoint gen_butterflies (F : Z -> Z -> Z * Z) (n j offset : nat) (s : scalar)
  : scalar :=
  match n with
  | O => s
  | S n' =>
      let even := coef s j in
      let odd := coef s (j + offset) in
      let s := upd s j (fst (F even odd)) in
      let s := upd s (j + offset) (snd (F even odd)) in
      gen_butterflies F n' (S j) offset s
  end.

Fixpoint gen_blocks (F : nat -> Z -> Z -> Z * Z) (n i k offset : nat)
  (s : scalar) : scalar :=
  match n with
  | O => s
  | S n' =>
      gen_blocks F n' (S i) (k + 2 * offset) offset
        (gen_butterflies (F i) offset k offset s)
  end.

(** The coefficient at [idx] after such a pass. *)
Definition layer_at (F : nat -> Z -> Z -> Z * Z) (offset : nat) (s : scalar)
  (idx : nat) : Z :=
  let blk := (idx / (2 * offset))%nat in
  if (idx mod (2 * offset) <? offset)%nat
  then fst (F blk (coef s idx) (coef s (idx + offset)))
  else snd (F blk (coef s (idx - offset)) (coef s idx)).

Definition ntt_butterfly (step : nat) (i : nat) (even odd : Z) : Z * Z :=
  let step_root := nth (step + i) kNTTRootsMontgomery 0 in
  let odd := reduce_montgomery (step_root * odd) in
  (reduce_once (u32 (odd + even)), mod_sub even odd).

Definition inverse_ntt_butterfly (step : nat) (i : nat) (even odd : Z)
  : Z * Z :=
  let step_root :=
    u32 (kPrime - nth (step + (step - 1 - i)) kNTTRootsMontgomery 0) in
  (reduce_once (u32 (odd + even)),
   reduce_montgomery (step_root * u32 (kPrime + even - odd))).

Definition ntt_pass (step offset : nat) (s : scalar) : scalar :=
  scalar_build (layer_at (ntt_butterfly step) offset s).

Definition inverse_ntt_pass (step offset : nat) (s : scalar) : scalar :=
  scalar_build (layer_at (inverse_ntt_butterfly step) offset s).

Definition scale_pass (s : scalar) : scalar :=
  scalar_build
    (fun i => reduce_montgomery (coef s i * kInverseDegreeMontgomery)).

(** Coefficient sequences, read modulo [q], and linear butterfly passes on
    them: in block [blk] the pair [(even, odd)] becomes
    [(a * even + b * odd, c * even + d * odd)] for [M blk = (a, b, c, d)]. *)
Definition zfun : Type := nat -> Z.

Definition lin_pass (M : nat -> Z * Z * Z * Z) (offset : nat) (f : zfun)
  : zfun :=
  fun idx =>
    let blk := (idx / (2 * offset))%nat in
    let '(a, b, c, d) := M blk in
    if (idx mod (2 * offset) <? offset)%nat
    then (a * f idx + b * f (idx + offset)%nat) mod kPrime
    else (c * f (idx - offset)%nat + d * f idx) mod kPrime.

Definition ntt_matrix (step blk : nat) : Z * Z * Z * Z :=
  let z := nth (step + blk) kNTTRootsMontgomery 0 * kRinv in
  (1, z, 1, - z).

Definition inverse_ntt_matrix (step blk : nat) : Z * Z * Z * Z :=
  let c :=
    (kPrime - nth (step + (step - 1 - blk)) kNTTRootsMontgomery 0) * kRinv in
  (1, 1, c, - c).

(** Equality of coefficient sequences on the 256 indices, modulo [q]. *)
Definition eqm (f g : zfun) : Prop :=
  forall i, (i < kDegree)%nat -> f i mod kPrime = g i mod kPrime.

Definition smul (k : Z) (f : zfun) : zfun := fun i => (k * f i) mod kPrime.

(** The passes of the two transforms, [(step, offset)] in the order of
    [scalar_ntt]. *)
Definition ntt_layout : list (nat * nat) :=
  [(1, 128); (2, 64); (4, 32); (8, 16); (16, 8); (32, 4); (64, 2); (128, 1)]%nat.

Definition fwd_passes (ls : list (nat * nat)) (f : zfun) : zfun :=
  fold_left (fun g l => lin_pass (ntt_matrix (fst l)) (snd l) g) ls f.

Definition inv_passes (ls : list (nat * nat)) (f : zfun) : zfun :=
  fold_right (fun l g => lin_pass (inverse_ntt_matrix (fst l)) (snd l) g) f ls.

Definition good_layer (l : nat * nat) : Prop :=
  (0 < snd l)%nat /\ Nat.divide (2 * snd l) kDegree /\
  (2 * snd l * fst l = kDegree)%nat /\
  forall blk, (blk < fst l)%nat ->
    ((kPrime - nth (fst l + (fst l - 1 - blk)) kNTTRootsMontgomery 0) * kRinv
     * (nth (fst l + blk) kNTTRootsMontgomery 0 * kRinv)) mod kPrime = 1.

(** The check that [good_layer] asks of the table, as a computation. *)
Definition twiddles_inverse (l : nat * nat) : bool :=
  forallb
    (fun blk =>
       ((kPrime - nth (fst l + (fst l - 1 - blk)) kNTTRootsMontgomery 0) * kRinv
        * (nth (fst l + blk) kNTTRootsMontgomery 0 * kRinv)) mod kPrime =? 1)
    (seq 0 (fst l)).

(** [x * 2^32] modulo [q]: the Montgomery form of a scalar. *)
Definition to_montgomery (s : scalar) : scalar :=
  scalar_build (fun i => (coef s i * 2 ^ 32) mod kPrime).

(** Well-formedness as a computation. *)
Definition wf_scalarb (s : scalar) : bool :=
  (length s =? kDegree)%nat && forallb (fun c => (0 <=? c) && (c <? kPrime)) s.

Definition wf_vectorb (X : nat) (v : vector) : bool :=
  (length v =? X)%nat && forallb wf_scalarb v.

(** The polynomial [1]. *)
Definition scalar_one : scalar := 1 :: repeat 0 255.

(** Byte strings: every element is a byte. *)
Definition bytes (b : list Z) : Prop := Forall (fun x => 0 <= x < 256) b.

(** The [k]-th 4-bit nibble of a byte string, low nibble of a byte first. *)
Definition nibble (inp : list Z) (k : nat) : Z :=
  if Nat.even k then Z.land (byte_at inp (k / 2)) 15
  else Z.shiftr (byte_at inp (k / 2)) 4.

(** The [j]-th nibble of a word. *)
Definition word_nibble (v : Z) (j : Z) : Z := Z.land (Z.shiftr v (4 * j)) 15.

Definition bytesb (b : list Z) : bool :=
  forallb (fun x => (0 <=? x) && (x <? 256)) b.

(** The number of non-zero coefficients. *)
Definition count_nonzero (s : scalar) : nat :=
  length (filter (fun c => negb (c =? 0)) s).

(** A challenge of weight [w]: 256 coefficients, [w] of them [1] or [q - 1]
    and the others [0]. *)
Definition in_ball (w : nat) (c : scalar) : Prop :=
  length c = kDegree /\
  count_nonzero c = w /\
  forall i, (i < kDegree)%nat ->
    coef c i = 0 \/ coef c i = 1 \/ coef c i = kPrime - 1.

(** The state of the sampler reads the SHAKE-256 stream of [seed] at
    position [pos]. *)
Definition ball_state (shake256 : list Z -> nat -> Z) (seed : list Z)
  (ctx : BORINGSSL_keccak_st)
  (block : list Z) (offset pos : nat) : Prop :=
  config ctx = boringssl_shake256 /\ absorbed ctx = seed /\
  exists b, squeezed ctx = (136 * (b + 1))%nat /\
            block = map (fun k => u8 (shake256 seed (136 * b + k)%nat))
                      (seq 0 136) /\
            (offset <= 136)%nat /\ pos = (136 * b + offset)%nat.

(** *** Hints *)

(** The check of [hint_bit_unpack] on the column indices of one row. *)
Fixpoint chainb (l : list Z) (last : Z) : bool :=
  match l with
  | [] => true
  | b :: l' => if (0 <=? last) && (b <=? last) then false else chainb l' b
  end.

(** A row with the listed positions set to one. *)
Definition set_ones (row : scalar) (l : list Z) : scalar :=
  fold_left (fun r b => upd r (Z.to_nat b) 1) l row.

(** The [i]-th cumulative count of an encoded hint, and the one before. *)
Definition hint_limit (inp : list Z) (i : nat) : nat :=
  Z.to_nat (byte_at inp (omega + i)).

Definition hint_prev_limit (inp : list Z) (i : nat) : nat :=
  match i with
  | O => O
  | S j => hint_limit inp j
  end.

(** The three conditions on an encoded hint: the cumulative counts do not
    decrease and are at most [omega]; the column indices of each row
    strictly increase; the bytes from the last count up to [omega] are
    zero. *)
Definition hint_counts_ok (inp : list Z) : Prop :=
  forall i, (i < K)%nat ->
    (hint_prev_limit inp i <= hint_limit inp i)%nat /\
    (hint_limit inp i <= omega)%nat.

Definition hint_rows_ok (inp : list Z) : Prop :=
  forall i, (i < K)%nat ->
    forall idx, (hint_prev_limit inp i <= idx)%nat ->
                (S idx < hint_limit inp i)%nat ->
                byte_at inp idx < byte_at inp (S idx).

Definition hint_tail_ok (inp : list Z) : Prop :=
  forall idx, (hint_limit inp (K - 1) <= idx)%nat -> (idx < omega)%nat ->
              byte_at inp idx = 0.

(** The positions of the non-zero coefficients of a row among
    [j, ..., j + n - 1]. *)
Definition ones (row : scalar) (j n : nat) : list nat :=
  filter (fun j' => negb (coef row j' =? 0)) (seq j n).

Abbreviation row_ones row := (ones row 0 kDegree) (only parsing).

(** The number of ones in the rows before row [i]. *)
Fixpoint hint_cum (h : vector) (i : nat) : nat :=
  match i with
  | O => O
  | S i' => (hint_cum h i' + length (row_ones (vec h i')))%nat
  end.

(** A hint: [K] rows of 256 coefficients, each 0 or 1, with at most [omega]
    ones in total. *)
Definition wf_hint (h : vector) : Prop :=
  length h = K /\
  (forall i, (i < K)%nat ->
     length (vec h i) = kDegree /\
     forall j, (j < kDegree)%nat ->
       coef (vec h i) j = 0 \/ coef (vec h i) j = 1) /\
  (hint_cum h K <= omega)%nat.

(** What [hint_bit_pack] writes for the hint [h]: the cumulative counts,
    the column indices of each row, and zeros in the unused index bytes. *)
Definition packs (h : vector) (packed : list Z) : Prop :=
  length packed = (omega + K)%nat /\
  (forall i, (i < K)%nat ->
     byte_at packed (omega + i) = Z.of_nat (hint_cum h (S i))) /\
  (forall i, (i < K)%nat ->
     forall t, (t < length (row_ones (vec h i)))%nat ->
       byte_at packed (hint_cum h i + t)
       = Z.of_nat (nth t (row_ones (vec h i)) 0%nat)) /\
  (forall p, (hint_cum h K <= p)%nat -> (p < omega)%nat ->
     byte_at packed p = 0).

(** ** The ring, for the proofs *)

(** Congruence modulo [q]. *)
Inductive eqq (a b : Z) : Prop :=
| eqq_intro : a mod kPrime = b mod kPrime -> eqq a b.

(** The sum of [f 0], ..., [f (n - 1)]. *)
Fixpoint zsum (n : nat) (f : nat -> Z) : Z :=
  match n with
  | O => 0
  | S n' => zsum n' f + f n'
  end.

(** The value at [r] of the polynomial with the coefficients [f]. *)
Definition ev (f : zfun) (r : Z) : Z :=
  zsum kDegree (fun t => f t * r ^ Z.of_nat t).

(** The root in plain form that the pass with [step] blocks uses in block
    [blk]. *)
Definition zeta_of (step blk : nat) : Z :=
  (nth (step + blk) kNTTRootsMontgomery 0 * kRinv) mod kPrime.

(** After the passes that leave [m] blocks, block [b] holds the polynomial
    modulo [X^(256/m) - block_root m b]. *)
Definition block_root (m b : nat) : Z :=
  if (m =? 1)%nat then -1
  else if Nat.even b then zeta_of (m / 2) (b / 2)
       else - zeta_of (m / 2) (b / 2).

(** The point at which coefficient [k] of the transform evaluates the
    polynomial. *)
Definition ntt_root (k : nat) : Z := block_root kDegree k.

(** The roots of a pass square to the roots of the blocks it splits. *)
Definition roots_square (m : nat) : bool :=
  forallb (fun b => (zeta_of m b * zeta_of m b) mod kPrime
                    =? block_root m b mod kPrime) (seq 0 m).

(** What the array holds after the passes that leave [m] blocks. *)
Definition ntt_inv (p : zfun) (m : nat) (f : zfun) : Prop :=
  forall idx, (idx < kDegree)%nat ->
    eqq (f idx)
      (zsum m (fun t => p (idx mod (kDegree / m) + t * (kDegree / m))%nat
                        * block_root m (idx / (kDegree / m)) ^ Z.of_nat t)).

(** [x^256] modulo [q], by eight squarings. *)
Definition pow256_mod (x : Z) : Z :=
  let sq := fun y => (y * y) mod kPrime in
  sq (sq (sq (sq (sq (sq (sq (sq x))))))).

(** Every evaluation point is a root of [X^256 + 1]. *)
Definition roots_order : bool :=
  forallb (fun k => pow256_mod (ntt_root k) =? kPrime - 1) (seq 0 kDegree).

(** Row [i] of [matrix_mult]. *)
Definition matrix_row (L' : nat) (m : matrix) (i : nat) (x : vector) : scalar :=
  fold_left
    (fun out_i j => scalar_add out_i (scalar_mult (entry m i j) (vec x j)))
    (seq 0 L') scalar_zero.

(** Coefficient [k] of the product of two polynomials modulo [X^256 + 1]. *)
Definition negacyclic (c s : zfun) (k : nat) : Z :=
  zsum kDegree (fun i =>
    c i * (if (i <=? k)%nat then s (k - i)%nat
           else - s (kDegree + k - i)%nat)).

(** A scalar under construction: at most 256 coefficients, all with
    the property [P]. *)
Definition partial_scalar (P : Z -> Prop) (out : scalar) : Prop :=
  (length out <= kDegree)%nat /\ Forall P out.

(** The index bytes of row [i] of an encoded hint. *)
Definition hint_segment (inp : list Z) (i : nat) : list Z :=
  map (byte_at inp)
    (seq (hint_prev_limit inp i) (hint_limit inp i - hint_prev_limit inp i)).

(** ** Data for the concrete instances *)

(** A mixing function in the place of SHAKE: byte [i] of the stream of the
    message [m] depends on the length, on three bytes of [m] and on [i]. *)
Definition mix_xof (salt : Z) (m : list Z) (i : nat) : Z :=
  let h :=
    Z.of_nat (length m) + nth 0 m 0 + 3 * last m 0
    + 5 * nth (length m - 2) m 0 + salt in
  let x := Z.land ((h + Z.of_nat i * 40503) * 40503) 4294967295 in
  Z.shiftr (Z.land (x * 9973) 4294967295) 23.

(** A challenge: [tau] ones, then zeros. *)
Definition ball_one : scalar := repeat 1 49 ++ repeat 0 207.

(** * Properties *)

(** ** Basic facts on the primitives *)

Lemma u8_mod (z : Z) : u8 z = z mod 2 ^ 8.
Proof. unfold u8. apply Z.land_ones. lia. Qed.

Lemma u16_mod (z : Z) : u16 z = z mod 2 ^ 16.
Proof. unfold u16. apply Z.land_ones. lia. Qed.

Lemma u32_mod (z : Z) : u32 z = z mod 2 ^ 32.
Proof. unfold u32. apply Z.land_ones. lia. Qed.

Lemma u64_mod (z : Z) : u64 z = z mod 2 ^ 64.
Proof. unfold u64. apply Z.land_ones. lia. Qed.

Lemma u32_range (z : Z) : 0 <= u32 z < 2 ^ 32.
Proof. rewrite u32_mod. apply Z.mod_pos_bound. lia. Qed.

Lemma u32_small (z : Z) : 0 <= z < 2 ^ 32 -> u32 z = z.
Proof. intros. rewrite u32_mod. apply Z.mod_small; lia. Qed.

Lemma u64_small (z : Z) : 0 <= z < 2 ^ 64 -> u64 z = z.
Proof. intros. rewrite u64_mod. apply Z.mod_small; lia. Qed.

Lemma u8_small (z : Z) : 0 <= z < 2 ^ 8 -> u8 z = z.
Proof. intros. rewrite u8_mod. apply Z.mod_small; lia. Qed.

Lemma i32_small (z : Z) : - 2 ^ 31 <= z < 2 ^ 31 -> i32 z = z.
Proof. intros. unfold i32. rewrite u32_small; lia. Qed.

Lemma select_lt (a b x y : Z) :
  0 <= x < 2 ^ 32 -> 0 <= y < 2 ^ 32 ->
  constant_time_select_int (constant_time_lt_w a b) x y =
  if a <? b then x else y.
Proof.
  intros Hx Hy. unfold constant_time_select_int, constant_time_lt_w.
  destruct (a <? b).
  - rewrite Z.lxor_nilpotent, Z.land_0_l, Z.lor_0_r.
    rewrite Z.land_comm, Z.land_ones by lia.
    rewrite (Z.mod_small x (2 ^ 64)) by lia. apply u32_small; lia.
  - rewrite Z.land_0_l, Z.lxor_0_l, Z.lor_0_l.
    rewrite Z.land_comm, Z.land_ones by lia.
    rewrite (Z.mod_small y (2 ^ 64)) by lia. apply u32_small; lia.
Qed.

Lemma reduce_once_spec (x : Z) :
  0 <= x < 2 ^ 32 ->
  reduce_once x = if x <? kPrime then x else x - kPrime.
Proof.
  intros Hx. unfold reduce_once. rewrite select_lt by (auto using u32_range).
  destruct (x <? kPrime) eqn:E; [reflexivity|].
  apply Z.ltb_ge in E. apply u32_small. unfold kPrime in *. lia.
Qed.

Lemma reduce_once_range (x : Z) :
  0 <= x < 2 * kPrime -> 0 <= reduce_once x < kPrime.
Proof.
  intros Hx. rewrite reduce_once_spec by (unfold kPrime in *; lia).
  destruct (x <? kPrime) eqn:E;
    [apply Z.ltb_lt in E | apply Z.ltb_ge in E]; lia.
Qed.

Lemma reduce_once_mod (x : Z) :
  0 <= x < 2 * kPrime -> reduce_once x = x mod kPrime.
Proof.
  intros Hx. rewrite reduce_once_spec by (unfold kPrime in *; lia).
  destruct (x <? kPrime) eqn:E;
    [apply Z.ltb_lt in E | apply Z.ltb_ge in E].
  - symmetry. apply Z.mod_small. lia.
  - apply Z.mod_unique with (q := 1); lia.
Qed.

Lemma mod_sub_mod (a b : Z) :
  0 <= a < kPrime -> 0 <= b < kPrime -> mod_sub a b = (a - b) mod kPrime.
Proof.
  intros Ha Hb. unfold mod_sub.
  rewrite u32_small by (unfold kPrime in *; lia).
  rewrite reduce_once_mod by lia.
  replace (kPrime + a - b) with (a - b + 1 * kPrime) by lia.
  apply Z.mod_add. unfold kPrime. lia.
Qed.

Lemma mod_sub_range (a b : Z) :
  0 <= a < kPrime -> 0 <= b < kPrime -> 0 <= mod_sub a b < kPrime.
Proof.
  intros Ha Hb. rewrite mod_sub_mod by assumption.
  apply Z.mod_pos_bound. unfold kPrime. lia.
Qed.

(** *** Montgomery reduction *)

Lemma montgomery_divisible (x : Z) :
  (x + ((x mod 2 ^ 32) * kPrimeNegInverse) mod 2 ^ 32 * kPrime) mod 2 ^ 32 = 0.
Proof.
  rewrite Z.add_mod by lia.
  rewrite Z.mul_mod_idemp_l by lia.
  rewrite <- Z.mul_assoc.
  rewrite <- (Z.mul_mod_idemp_r (x mod 2 ^ 32)) by lia.
  replace ((kPrimeNegInverse * kPrime) mod 2 ^ 32) with (2 ^ 32 - 1)
    by (vm_compute; reflexivity).
  rewrite Z.add_mod_idemp_r by lia.
  replace (x mod 2 ^ 32 + x mod 2 ^ 32 * (2 ^ 32 - 1))
    with (x mod 2 ^ 32 * 2 ^ 32) by lia.
  apply Z.mod_mul. lia.
Qed.

Lemma reduce_montgomery_unfold (x : Z) :
  0 <= x <= kPrime * 2 ^ 32 ->
  reduce_montgomery x =
  reduce_once
    ((x + ((x mod 2 ^ 32) * kPrimeNegInverse) mod 2 ^ 32 * kPrime) / 2 ^ 32)
  /\ 0 <= (x + ((x mod 2 ^ 32) * kPrimeNegInverse) mod 2 ^ 32 * kPrime) / 2 ^ 32
     < 2 * kPrime.
Proof.
  intros Hx. unfold reduce_montgomery. rewrite !u32_mod.
  set (a := ((x mod 2 ^ 32) * kPrimeNegInverse) mod 2 ^ 32).
  assert (Ha : 0 <= a < 2 ^ 32) by (apply Z.mod_pos_bound; lia).
  assert (Hb : 0 <= x + a * kPrime < 2 * kPrime * 2 ^ 32)
    by (unfold kPrime in *; lia).
  rewrite u64_small by (unfold kPrime in *; lia).
  rewrite Z.shiftr_div_pow2 by lia.
  assert (Hc : 0 <= (x + a * kPrime) / 2 ^ 32 < 2 * kPrime).
  { split; [apply Z.div_pos; lia | apply Z.div_lt_upper_bound; lia]. }
  rewrite Z.mod_small by (unfold kPrime in *; lia).
  split; [reflexivity | exact Hc].
Qed.

(** C7: [reduce_montgomery] clears the low 32 bits of [b = x + a * q], hands
    [b / 2^32] to [reduce_once], and returns the representative in [[0, q)] of
    [x * 2^-32] modulo [q]. *)
Theorem reduce_montgomery_correct (x : Z) :
  0 <= x <= kPrime * 2 ^ 32 ->
  let a := ((x mod 2 ^ 32) * kPrimeNegInverse) mod 2 ^ 32 in
  let b := x + a * kPrime in
  b mod 2 ^ 32 = 0 /\
  reduce_montgomery x = reduce_once (b / 2 ^ 32) /\
  0 <= reduce_montgomery x < kPrime /\
  (reduce_montgomery x * 2 ^ 32) mod kPrime = x mod kPrime.
Proof.
  intros Hx a b.
  pose proof (montgomery_divisible x) as Hdiv. fold a in Hdiv. fold b in Hdiv.
  destruct (reduce_montgomery_unfold x Hx) as [Heq Hc].
  fold a in Heq, Hc. fold b in Heq, Hc.
  split; [exact Hdiv|]. split; [exact Heq|].
  rewrite Heq. split; [apply reduce_once_range; exact Hc|].
  rewrite reduce_once_mod by exact Hc.
  rewrite Z.mul_mod_idemp_l by (unfold kPrime; lia).
  assert (Hb : b / 2 ^ 32 * 2 ^ 32 = b).
  { pose proof (Z.div_mod b (2 ^ 32)). lia. }
  rewrite Hb. unfold b. apply Z.mod_add. unfold kPrime. lia.
Qed.

Lemma reduce_montgomery_correct_witness :
  0 <= 12345678901234 <= kPrime * 2 ^ 32 /\
  (reduce_montgomery 12345678901234 * 2 ^ 32) mod kPrime
  = 12345678901234 mod kPrime.
Proof.
  assert (H : 0 <= 12345678901234 <= kPrime * 2 ^ 32) by (unfold kPrime; lia).
  split; [exact H|].
  exact (proj2 (proj2 (proj2 (reduce_montgomery_correct 12345678901234 H)))).
Defined.

(** *** Rounding *)

Lemma power2_round_eq (r : Z) :
  0 <= r < kPrime ->
  power2_round r =
  if 2 ^ 12 <? r mod 2 ^ 13
  then (r / 2 ^ 13 + 1, kPrime + r mod 2 ^ 13 - 2 ^ 13)
  else (r / 2 ^ 13, r mod 2 ^ 13).
Proof.
  intros Hr. unfold power2_round, kDroppedBits.
  rewrite Z.shiftr_div_pow2, !Z.shiftl_mul_pow2 by lia.
  change (13 - 1) with 12. rewrite !Z.mul_1_l.
  assert (H1 : 0 <= r / 2 ^ 13 < 1024).
  { unfold kPrime in Hr.
    split; [apply Z.div_pos; lia | apply Z.div_lt_upper_bound; lia]. }
  pose proof (Z.div_mod r (2 ^ 13) ltac:(lia)) as Hdm.
  pose proof (Z.mod_pos_bound r (2 ^ 13) ltac:(lia)) as Hm.
  rewrite (u32_small (r / 2 ^ 13 * 2 ^ 13)) by lia.
  replace (r - r / 2 ^ 13 * 2 ^ 13) with (r mod 2 ^ 13) by lia.
  rewrite (u32_small (r mod 2 ^ 13)) by lia.
  rewrite (u32_small (r / 2 ^ 13 + 1)) by lia.
  assert (Hs : mod_sub (r mod 2 ^ 13) (2 ^ 13) = kPrime + r mod 2 ^ 13 - 2 ^ 13).
  { rewrite mod_sub_mod by (unfold kPrime; lia).
    symmetry. apply Z.mod_unique with (q := -1); unfold kPrime; lia. }
  rewrite Hs.
  rewrite !select_lt by (unfold kPrime; lia).
  destruct (2 ^ 12 <? r mod 2 ^ 13); reflexivity.
Qed.

(** C4: [power2_round] splits [r] into a high part that [scale_power2_round]
    puts back in place and a low part whose signed residue is in
    (-2^12, 2^12]. *)
Theorem power2_round_correct (r : Z) :
  0 <= r < kPrime ->
  let r1 := fst (power2_round r) in
  let r0 := snd (power2_round r) in
  (scale_power2_round r1 + r0) mod kPrime = r mod kPrime /\
  0 <= r1 < 2 ^ 10 /\
  0 <= r0 < kPrime /\
  - 2 ^ 12 < centered r0 <= 2 ^ 12.
Proof.
  intros Hr. cbv zeta. rewrite power2_round_eq by exact Hr.
  pose proof (Z.div_mod r (2 ^ 13) ltac:(lia)) as Hdm.
  pose proof (Z.mod_pos_bound r (2 ^ 13) ltac:(lia)) as Hm.
  assert (H1 : 0 <= r / 2 ^ 13 < 1024).
  { unfold kPrime in Hr.
    split; [apply Z.div_pos; lia | apply Z.div_lt_upper_bound; lia]. }
  unfold scale_power2_round, kDroppedBits, centered, kHalfPrime.
  change ((kPrime - 1) / 2) with 4190208.
  destruct (2 ^ 12 <? r mod 2 ^ 13) eqn:E;
    [apply Z.ltb_lt in E | apply Z.ltb_ge in E]; cbn [fst snd];
    rewrite Z.shiftl_mul_pow2 by lia.
  - assert (H2 : r / 2 ^ 13 + 1 < 1024) by (unfold kPrime in Hr; lia).
    rewrite u32_small by lia.
    replace ((r / 2 ^ 13 + 1) * 2 ^ 13 + (kPrime + r mod 2 ^ 13 - 2 ^ 13))
      with (r + 1 * kPrime) by lia.
    rewrite Z.mod_add by (unfold kPrime; lia).
    repeat split; try (unfold kPrime; lia).
    + destruct (kPrime + r mod 2 ^ 13 - 2 ^ 13 <=? 4190208) eqn:E2;
        [apply Z.leb_le in E2 | apply Z.leb_gt in E2]; unfold kPrime in *; lia.
    + destruct (kPrime + r mod 2 ^ 13 - 2 ^ 13 <=? 4190208) eqn:E2;
        [apply Z.leb_le in E2 | apply Z.leb_gt in E2]; unfold kPrime in *; lia.
  - rewrite u32_small by lia.
    replace (r / 2 ^ 13 * 2 ^ 13 + r mod 2 ^ 13) with r by lia.
    repeat split; try (unfold kPrime; lia).
    + destruct (r mod 2 ^ 13 <=? 4190208) eqn:E2;
        [apply Z.leb_le in E2 | apply Z.leb_gt in E2]; lia.
    + destruct (r mod 2 ^ 13 <=? 4190208) eqn:E2;
        [apply Z.leb_le in E2 | apply Z.leb_gt in E2]; lia.
Qed.

Lemma power2_round_correct_witness :
  0 <= 8380416 < kPrime /\
  (scale_power2_round (fst (power2_round 8380416))
   + snd (power2_round 8380416)) mod kPrime = 8380416 mod kPrime.
Proof.
  assert (H : 0 <= 8380416 < kPrime) by (unfold kPrime; lia).
  split; [exact H|].
  exact (proj1 (power2_round_correct 8380416 H)).
Defined.

Lemma high_bits_eq (x : Z) :
  0 <= x < kPrime ->
  high_bits x = ((x + (kGamma2 - 1)) / (2 * kGamma2)) mod 16.
Proof.
  intros Hx. unfold high_bits. change (kGamma2 - 1) with 261887.
  change (2 * kGamma2) with 523776. unfold kPrime in Hx.
  rewrite (u32_small (x + 127)) by lia.
  rewrite !Z.shiftr_div_pow2, Z.shiftl_mul_pow2 by lia.
  assert (H1 : 0 <= (x + 127) / 2 ^ 7 < 65473).
  { split; [apply Z.div_pos; lia | apply Z.div_lt_upper_bound; lia]. }
  rewrite u32_small by lia.
  change 15 with (Z.ones 4). rewrite Z.land_ones by lia.
  f_equal.
  change (2 ^ 7) with 128 in *. change (2 ^ 22) with 4194304.
  change (1 * 2 ^ 21) with 2097152.
  Z.div_mod_to_equations. lia.
Qed.

Lemma high_bits_range (x : Z) : 0 <= high_bits x <= 15.
Proof.
  unfold high_bits. cbv zeta.
  set (y := Z.shiftr _ 22).
  assert (E : Z.land y 15 = y mod 2 ^ 4) by (apply (Z.land_ones y 4); lia).
  rewrite E.
  pose proof (Z.mod_pos_bound y (2 ^ 4) ltac:(lia)).
  lia.
Qed.

Lemma shiftr_31_sign (z : Z) :
  - 2 ^ 31 <= z < 2 ^ 31 -> Z.shiftr z 31 = if z <? 0 then -1 else 0.
Proof.
  intros Hz. rewrite Z.shiftr_div_pow2 by lia.
  destruct (z <? 0) eqn:E; [apply Z.ltb_lt in E | apply Z.ltb_ge in E].
  - symmetry. apply Z.div_unique with (r := z + 2 ^ 31); lia.
  - apply Z.div_small. lia.
Qed.

Lemma decompose_eq (r : Z) :
  0 <= r < kPrime ->
  decompose r =
  (high_bits r,
   if kHalfPrime <? r - high_bits r * (2 * kGamma2)
   then r - high_bits r * (2 * kGamma2) - kPrime
   else r - high_bits r * (2 * kGamma2)).
Proof.
  intros Hr. unfold decompose.
  pose proof (high_bits_range r) as Hh.
  change kGamma2 with 261888. change kHalfPrime with 4190208.
  unfold kPrime in *.
  rewrite (i32_small r) by lia.
  rewrite (u32_small (high_bits r * 2)) by lia.
  rewrite (u32_small (high_bits r * 2 * 261888)) by lia.
  rewrite (i32_small (r - high_bits r * 2 * 261888)) by lia.
  rewrite (i32_small (4190208 - _)) by lia.
  rewrite shiftr_31_sign by lia.
  replace (high_bits r * (2 * 261888)) with (high_bits r * 2 * 261888) by lia.
  set (r0 := r - high_bits r * 2 * 261888).
  assert (E : (4190208 - r0 <? 0) = (4190208 <? r0)).
  { destruct (4190208 <? r0) eqn:E1;
      [apply Z.ltb_lt in E1; apply Z.ltb_lt | apply Z.ltb_ge in E1; apply Z.ltb_ge];
      lia. }
  rewrite E. destruct (4190208 <? r0).
  - change (Z.land (-1) 8380417) with 8380417.
    rewrite i32_small by (unfold r0; lia). reflexivity.
  - change (Z.land 0 8380417) with 0.
    rewrite i32_small by (unfold r0; lia). f_equal. lia.
Qed.

(** C6: [decompose x] returns [high_bits x], which is at most 15, and a signed
    low part of absolute value at most [kGamma2] that puts [x] back together
    modulo [q]. *)
Theorem decompose_correct (x : Z) :
  0 <= x < kPrime ->
  let r1 := fst (decompose x) in
  let r0 := snd (decompose x) in
  r1 = high_bits x /\
  0 <= r1 <= 15 /\
  Z.abs r0 <= kGamma2 /\
  (r1 * (2 * kGamma2) + r0) mod kPrime = x mod kPrime.
Proof.
  intros Hx. cbv zeta. rewrite decompose_eq by exact Hx. cbn [fst snd].
  pose proof (high_bits_range x) as Hh.
  split; [reflexivity|]. split; [exact Hh|].
  pose proof (high_bits_eq x Hx) as He.
  change kGamma2 with 261888 in *. change kHalfPrime with 4190208.
  change (2 * 261888) with 523776 in *. change (261888 - 1) with 261887 in He.
  unfold kPrime in *.
  assert (Hk : 0 <= (x + 261887) / 523776 <= 16).
  { split; [apply Z.div_pos; lia | ].
    apply Z.lt_succ_r. apply Z.div_lt_upper_bound; lia. }
  pose proof (Z.div_mod (x + 261887) 523776 ltac:(lia)) as Hdm.
  pose proof (Z.mod_pos_bound (x + 261887) 523776 ltac:(lia)) as Hm.
  assert (Hcase : (x + 261887) / 523776 = 16 /\ high_bits x = 0 \/
                  (x + 261887) / 523776 < 16 /\
                  high_bits x = (x + 261887) / 523776).
  { destruct (Z.eq_dec ((x + 261887) / 523776) 16) as [E16 | N16].
    - left. split; [exact E16|]. rewrite He, E16. reflexivity.
    - right. split; [lia|]. rewrite He. apply Z.mod_small. lia. }
  destruct Hcase as [[E16 E0] | [Hlt Eq]].
  - rewrite E0. rewrite Z.mul_0_l, Z.sub_0_r, Z.add_0_l.
    destruct (4190208 <? x) eqn:E;
      [apply Z.ltb_lt in E | apply Z.ltb_ge in E]; [|lia].
    split; [lia|].
    replace (x - 8380417) with (x + (-1) * 8380417) by lia.
    apply Z.mod_add. lia.
  - rewrite Eq.
    destruct (4190208 <? x - (x + 261887) / 523776 * 523776) eqn:E;
      [apply Z.ltb_lt in E | apply Z.ltb_ge in E]; [lia|].
    split; [lia|]. f_equal. lia.
Qed.

Lemma decompose_correct_witness :
  0 <= 8380416 < kPrime /\
  Z.abs (snd (decompose 8380416)) <= kGamma2.
Proof.
  assert (H : 0 <= 8380416 < kPrime) by (unfold kPrime; lia).
  split; [exact H|].
  exact (proj1 (proj2 (proj2 (decompose_correct 8380416 H)))).
Defined.

(** ** Arrays *)

Lemma upd_length {A : Type} (l : list A) (i : nat) (v : A) :
  length (upd l i v) = length l.
Proof.
  revert i. induction l as [|x l IH]; intros [|i]; cbn; auto.
Qed.

Lemma nth_upd_eq {A : Type} (l : list A) (i : nat) (v d : A) :
  (i < length l)%nat -> nth i (upd l i v) d = v.
Proof.
  revert i. induction l as [|x l IH]; intros [|i] H; cbn in *; try lia; auto.
  apply IH. lia.
Qed.

Lemma nth_upd_neq {A : Type} (l : list A) (i j : nat) (v d : A) :
  i <> j -> nth j (upd l i v) d = nth j l d.
Proof.
  revert i j. induction l as [|x l IH]; intros [|i] [|j] H; cbn; auto; try lia.
Qed.

Lemma coef_upd_eq (s : scalar) (i : nat) (v : Z) :
  (i < length s)%nat -> coef (upd s i v) i = v.
Proof. apply nth_upd_eq. Qed.

Lemma coef_upd_neq (s : scalar) (i j : nat) (v : Z) :
  i <> j -> coef (upd s i v) j = coef s j.
Proof. apply nth_upd_neq. Qed.

Lemma scalar_build_length (f : nat -> Z) : length (scalar_build f) = kDegree.
Proof. unfold scalar_build. rewrite length_map, length_seq. reflexivity. Qed.

Lemma coef_scalar_build (f : nat -> Z) (i : nat) :
  (i < kDegree)%nat -> coef (scalar_build f) i = f i.
Proof.
  intros H. unfold coef, scalar_build.
  rewrite (nth_indep _ 0 (f 0%nat)) by (rewrite length_map, length_seq; exact H).
  rewrite map_nth, seq_nth by exact H. reflexivity.
Qed.

Lemma scalar_ext (a b : scalar) :
  length a = kDegree -> length b = kDegree ->
  (forall i, (i < kDegree)%nat -> coef a i = coef b i) -> a = b.
Proof.
  intros Ha Hb H. apply (nth_ext a b 0 0); [congruence|].
  intros n Hn. apply H. lia.
Qed.

Lemma wf_scalar_build (f : nat -> Z) :
  (forall i, (i < kDegree)%nat -> 0 <= f i < kPrime) ->
  wf_scalar (scalar_build f).
Proof.
  intros H. split; [apply scalar_build_length|].
  intros i Hi. rewrite coef_scalar_build by exact Hi. apply H, Hi.
Qed.

Lemma vector_build_length (X : nat) (f : nat -> scalar) :
  length (vector_build X f) = X.
Proof. unfold vector_build. rewrite length_map, length_seq. reflexivity. Qed.

Lemma vec_vector_build (X : nat) (f : nat -> scalar) (i : nat) :
  (i < X)%nat -> vec (vector_build X f) i = f i.
Proof.
  intros H. unfold vec, vector_build.
  rewrite (nth_indep _ scalar_zero (f 0%nat))
    by (rewrite length_map, length_seq; exact H).
  rewrite map_nth, seq_nth by exact H. reflexivity.
Qed.

Lemma wf_vector_build (X : nat) (f : nat -> scalar) :
  (forall i, (i < X)%nat -> wf_scalar (f i)) -> wf_vector X (vector_build X f).
Proof.
  intros H. split; [apply vector_build_length|].
  intros i Hi. rewrite vec_vector_build by exact Hi. apply H, Hi.
Qed.

Lemma wf_scalar_zero : wf_scalar scalar_zero.
Proof.
  split; [reflexivity|]. intros i Hi. unfold coef, scalar_zero.
  rewrite nth_repeat. unfold kPrime. lia.
Qed.

(** ** In-place butterfly passes *)

Lemma gen_butterflies_length F n j offset s :
  length (gen_butterflies F n j offset s) = length s.
Proof.
  revert j s. induction n as [|n IH]; intros j s; cbn; [reflexivity|].
  rewrite IH, !upd_length. reflexivity.
Qed.

Lemma gen_butterflies_coef F n j offset s idx :
  (n <= offset)%nat -> (j + offset + n <= length s)%nat ->
  coef (gen_butterflies F n j offset s) idx =
  if (j <=? idx)%nat && (idx <? j + n)%nat
  then fst (F (coef s idx) (coef s (idx + offset)))
  else if (j + offset <=? idx)%nat && (idx <? j + offset + n)%nat
       then snd (F (coef s (idx - offset)) (coef s idx))
       else coef s idx.
Proof.
  revert j s. induction n as [|n IH]; intros j s Hn Hlen.
  - cbn [gen_butterflies].
    destruct (Nat.leb_spec j idx), (Nat.ltb_spec idx (j + 0)),
      (Nat.leb_spec (j + offset) idx), (Nat.ltb_spec idx (j + offset + 0));
      cbn; try reflexivity; lia.
  - cbn [gen_butterflies]. rewrite IH by (rewrite ?upd_length; lia).
    destruct (Nat.leb_spec (S j) idx), (Nat.ltb_spec idx (S j + n)),
      (Nat.leb_spec j idx), (Nat.ltb_spec idx (j + S n)),
      (Nat.leb_spec (S j + offset) idx),
      (Nat.ltb_spec idx (S j + offset + n)),
      (Nat.leb_spec (j + offset) idx),
      (Nat.ltb_spec idx (j + offset + S n));
      cbn [andb]; try lia;
      repeat first
        [ rewrite coef_upd_neq by lia
        | rewrite coef_upd_eq by (rewrite ?upd_length; lia) ];
      try reflexivity.
    + replace idx with (j + offset)%nat by lia.
      rewrite coef_upd_eq by (rewrite ?upd_length; lia).
      replace (j + offset - offset)%nat with j by lia. reflexivity.
    + replace idx with j by lia.
      rewrite coef_upd_eq by (rewrite ?upd_length; lia). reflexivity.
Qed.

Lemma block_index (m i idx : nat) :
  (m * i <= idx)%nat -> (idx < m * i + m)%nat ->
  (idx / m = i /\ idx mod m = idx - m * i)%nat.
Proof.
  intros H1 H2.
  assert (Hm : (idx - m * i < m)%nat) by lia.
  assert (E : idx = (m * i + (idx - m * i))%nat) by lia.
  split.
  - symmetry. apply (Nat.div_unique idx m i (idx - m * i)); assumption.
  - symmetry. apply (Nat.mod_unique idx m i (idx - m * i)); assumption.
Qed.

Lemma block_start_le (m idx lo : nat) :
  (0 < m)%nat -> (m * lo <= idx)%nat -> (m * lo <= m * (idx / m))%nat.
Proof.
  intros Hm H. apply Nat.mul_le_mono_l.
  apply Nat.div_le_lower_bound; lia.
Qed.

Lemma gen_blocks_length F n i k offset s :
  length (gen_blocks F n i k offset s) = length s.
Proof.
  revert i k s. induction n as [|n IH]; intros i k s; cbn; [reflexivity|].
  rewrite IH, gen_butterflies_length. reflexivity.
Qed.

Lemma layer_at_agree F offset s s' idx :
  (0 < offset)%nat ->
  (forall a, (2 * offset * (idx / (2 * offset)) <= a)%nat ->
             coef s' a = coef s a) ->
  layer_at F offset s' idx = layer_at F offset s idx.
Proof.
  intros Ho H. unfold layer_at.
  pose proof (Nat.div_mod_eq idx (2 * offset)) as E.
  destruct (Nat.ltb_spec (idx mod (2 * offset)) offset) as [Hlt | Hge].
  - rewrite !H by lia. reflexivity.
  - rewrite !H by lia. reflexivity.
Qed.

Lemma gen_blocks_coef F n i offset s idx :
  (0 < offset)%nat -> (2 * offset * (i + n) <= length s)%nat ->
  coef (gen_blocks F n i (2 * offset * i) offset s) idx =
  if (2 * offset * i <=? idx)%nat && (idx <? 2 * offset * (i + n))%nat
  then layer_at F offset s idx
  else coef s idx.
Proof.
  intros Ho. revert i s. induction n as [|n IH]; intros i s Hlen.
  - cbn [gen_blocks]. rewrite Nat.add_0_r.
    destruct (Nat.leb_spec (2 * offset * i) idx),
      (Nat.ltb_spec idx (2 * offset * i)); cbn; try reflexivity; lia.
  - cbn [gen_blocks].
    replace (2 * offset * i + 2 * offset)%nat with (2 * offset * S i)%nat
      by lia.
    assert (Hlen' : (2 * offset * i + 2 * offset + 2 * offset * n
                     <= length s)%nat) by lia.
    rewrite IH by (rewrite gen_butterflies_length; lia).
    replace (2 * offset * (S i + n))%nat with (2 * offset * (i + S n))%nat
      by lia.
    destruct (Nat.leb_spec (2 * offset * S i) idx) as [H1 | H1],
      (Nat.ltb_spec idx (2 * offset * (i + S n))) as [H2 | H2],
      (Nat.leb_spec (2 * offset * i) idx) as [H3 | H3];
      cbn [andb]; try lia.
    + (* a later block *)
      apply layer_at_agree; [exact Ho|]. intros a Ha.
      pose proof (block_start_le (2 * offset) idx (S i) ltac:(lia) H1).
      rewrite gen_butterflies_coef by lia.
      destruct (Nat.leb_spec (2 * offset * i) a),
        (Nat.ltb_spec a (2 * offset * i + offset)),
        (Nat.leb_spec (2 * offset * i + offset) a),
        (Nat.ltb_spec a (2 * offset * i + offset + offset));
        cbn [andb]; try reflexivity; lia.
    + (* past the last block *)
      rewrite gen_butterflies_coef by lia.
      destruct (Nat.leb_spec (2 * offset * i) idx),
        (Nat.ltb_spec idx (2 * offset * i + offset)),
        (Nat.leb_spec (2 * offset * i + offset) idx),
        (Nat.ltb_spec idx (2 * offset * i + offset + offset));
        cbn [andb]; try reflexivity; lia.
    + (* block [i] *)
      rewrite gen_butterflies_coef by lia.
      destruct (block_index (2 * offset) i idx H3 ltac:(lia)) as [Ed Em].
      unfold layer_at. rewrite Ed, Em.
      destruct (Nat.leb_spec (2 * offset * i) idx),
        (Nat.ltb_spec idx (2 * offset * i + offset)),
        (Nat.leb_spec (2 * offset * i + offset) idx),
        (Nat.ltb_spec idx (2 * offset * i + offset + offset)),
        (Nat.ltb_spec (idx - 2 * offset * i) offset);
        cbn [andb]; try reflexivity; lia.
    + (* before block [i] *)
      rewrite gen_butterflies_coef by lia.
      destruct (Nat.leb_spec (2 * offset * i) idx),
        (Nat.ltb_spec idx (2 * offset * i + offset)),
        (Nat.leb_spec (2 * offset * i + offset) idx),
        (Nat.ltb_spec idx (2 * offset * i + offset + offset));
        cbn [andb]; try reflexivity; lia.
Qed.

(** A whole pass over a scalar of 256 coefficients. *)
Lemma gen_blocks_layer F step offset s :
  (0 < offset)%nat -> (2 * offset * step = kDegree)%nat ->
  length s = kDegree ->
  gen_blocks F step 0 0 offset s = scalar_build (layer_at F offset s).
Proof.
  intros Ho Hs Hl. apply scalar_ext.
  - rewrite gen_blocks_length. exact Hl.
  - apply scalar_build_length.
  - intros idx Hidx. rewrite coef_scalar_build by exact Hidx.
    replace 0%nat with (2 * offset * 0)%nat at 2 by lia.
    rewrite gen_blocks_coef by (cbn [Nat.add]; lia).
    cbn [Nat.add]. rewrite Hs.
    destruct (Nat.leb_spec (2 * offset * 0) idx),
      (Nat.ltb_spec idx kDegree); cbn [andb]; try reflexivity; lia.
Qed.

Lemma ntt_butterflies_gen step i n j offset s :
  ntt_butterflies n j offset (nth (step + i) kNTTRootsMontgomery 0) s =
  gen_butterflies (ntt_butterfly step i) n j offset s.
Proof.
  revert j s. induction n as [|n IH]; intros j s;
    cbn [ntt_butterflies gen_butterflies]; [reflexivity|].
  rewrite IH. unfold ntt_butterfly. cbn [fst snd]. reflexivity.
Qed.

Lemma ntt_blocks_gen n i k step offset s :
  ntt_blocks n i k step offset s =
  gen_blocks (ntt_butterfly step) n i k offset s.
Proof.
  revert i k s. induction n as [|n IH]; intros i k s;
    cbn [ntt_blocks gen_blocks]; [reflexivity|].
  rewrite ntt_butterflies_gen, IH. reflexivity.
Qed.

Lemma inverse_ntt_butterflies_gen step i n j offset s :
  inverse_ntt_butterflies n j offset
    (u32 (kPrime - nth (step + (step - 1 - i)) kNTTRootsMontgomery 0)) s =
  gen_butterflies (inverse_ntt_butterfly step i) n j offset s.
Proof.
  revert j s. induction n as [|n IH]; intros j s;
    cbn [inverse_ntt_butterflies gen_butterflies]; [reflexivity|].
  rewrite IH. unfold inverse_ntt_butterfly. cbn [fst snd]. reflexivity.
Qed.

Lemma inverse_ntt_blocks_gen n i k step offset s :
  inverse_ntt_blocks n i k step offset s =
  gen_blocks (inverse_ntt_butterfly step) n i k offset s.
Proof.
  revert i k s. induction n as [|n IH]; intros i k s;
    cbn [inverse_ntt_blocks gen_blocks]; [reflexivity|].
  rewrite inverse_ntt_butterflies_gen, IH. reflexivity.
Qed.

(** ** Ranges of the field operations *)

Lemma reduce_montgomery_range (x : Z) :
  0 <= x <= kPrime * 2 ^ 32 -> 0 <= reduce_montgomery x < kPrime.
Proof.
  intros Hx. destruct (reduce_montgomery_unfold x Hx) as [Heq Hc].
  rewrite Heq. apply reduce_once_range. exact Hc.
Qed.

Lemma reduce_montgomery_mod (x : Z) :
  0 <= x <= kPrime * 2 ^ 32 -> reduce_montgomery x = (x * kRinv) mod kPrime.
Proof.
  intros Hx. destruct (reduce_montgomery_unfold x Hx) as [Heq Hc].
  rewrite Heq, reduce_once_mod by exact Hc.
  set (a := ((x mod 2 ^ 32) * kPrimeNegInverse) mod 2 ^ 32) in *.
  set (b := x + a * kPrime) in *.
  assert (Hb : b / 2 ^ 32 * 2 ^ 32 = b).
  { pose proof (Z.div_mod b (2 ^ 32) ltac:(lia)).
    pose proof (montgomery_divisible x) as Hd. fold a in Hd. fold b in Hd.
    lia. }
  set (c := b / 2 ^ 32) in *.
  assert (E1 : c mod kPrime = (c * (2 ^ 32 * kRinv)) mod kPrime).
  { rewrite <- Z.mul_mod_idemp_r by (unfold kPrime; lia).
    replace ((2 ^ 32 * kRinv) mod kPrime) with 1 by (vm_compute; reflexivity).
    rewrite Z.mul_1_r. reflexivity. }
  rewrite E1.
  replace (c * (2 ^ 32 * kRinv)) with (x * kRinv + a * kRinv * kPrime)
    by (rewrite Z.mul_assoc, Hb; unfold b; ring).
  apply Z.mod_add. unfold kPrime. lia.
Qed.

Lemma montgomery_product_range (a b : Z) :
  0 <= a < 2 ^ 32 -> 0 <= b <= kPrime -> 0 <= a * b <= kPrime * 2 ^ 32.
Proof. intros Ha Hb. unfold kPrime in *. nia. Qed.

Lemma table_range (i : nat) : 0 <= nth i kNTTRootsMontgomery 0 < kPrime.
Proof.
  assert (H : forallb (fun r => (0 <=? r) && (r <? kPrime))
                kNTTRootsMontgomery = true) by (vm_compute; reflexivity).
  rewrite forallb_forall in H.
  destruct (Nat.lt_ge_cases i (length kNTTRootsMontgomery)) as [Hi | Hi].
  - specialize (H _ (nth_In _ 0 Hi)).
    apply andb_true_iff in H. destruct H as [H1 H2].
    apply Z.leb_le in H1. apply Z.ltb_lt in H2. lia.
  - rewrite nth_overflow by exact Hi. unfold kPrime. lia.
Qed.

Lemma scalar_add_wf (a b : scalar) :
  wf_scalar a -> wf_scalar b -> wf_scalar (scalar_add a b).
Proof.
  intros [_ Ha] [_ Hb]. apply wf_scalar_build. intros i Hi.
  specialize (Ha i Hi). specialize (Hb i Hi).
  rewrite u32_small by (unfold kPrime in *; lia).
  apply reduce_once_range. lia.
Qed.

Lemma scalar_sub_wf (a b : scalar) :
  wf_scalar a -> wf_scalar b -> wf_scalar (scalar_sub a b).
Proof.
  intros [_ Ha] [_ Hb]. apply wf_scalar_build. intros i Hi.
  apply mod_sub_range; auto.
Qed.

Lemma scalar_mult_wf (a b : scalar) :
  wf_scalar a -> wf_scalar b -> wf_scalar (scalar_mult a b).
Proof.
  intros [_ Ha] [_ Hb]. apply wf_scalar_build. intros i Hi.
  specialize (Ha i Hi). specialize (Hb i Hi).
  apply reduce_montgomery_range, montgomery_product_range;
    unfold kPrime in *; lia.
Qed.

(** Both butterflies keep the two coefficients below [q]. *)
Lemma ntt_butterfly_range step i even odd :
  0 <= even < kPrime -> 0 <= odd < kPrime ->
  0 <= fst (ntt_butterfly step i even odd) < kPrime /\
  0 <= snd (ntt_butterfly step i even odd) < kPrime.
Proof.
  intros He Ho. unfold ntt_butterfly. cbn [fst snd].
  pose proof (table_range (step + i)) as Ht.
  assert (Hr : 0 <= reduce_montgomery
                      (nth (step + i) kNTTRootsMontgomery 0 * odd) < kPrime).
  { apply reduce_montgomery_range, montgomery_product_range;
      unfold kPrime in *; lia. }
  split.
  - rewrite u32_small by (unfold kPrime in *; lia).
    apply reduce_once_range. lia.
  - apply mod_sub_range; assumption.
Qed.

Lemma inverse_ntt_butterfly_range step i even odd :
  0 <= even < kPrime -> 0 <= odd < kPrime ->
  0 <= fst (inverse_ntt_butterfly step i even odd) < kPrime /\
  0 <= snd (inverse_ntt_butterfly step i even odd) < kPrime.
Proof.
  intros He Ho. unfold inverse_ntt_butterfly. cbn [fst snd].
  pose proof (table_range (step + (step - 1 - i))) as Ht.
  split.
  - rewrite u32_small by (unfold kPrime in *; lia).
    apply reduce_once_range. lia.
  - rewrite !u32_small by (unfold kPrime in *; lia).
    apply reduce_montgomery_range. unfold kPrime in *. nia.
Qed.

Lemma layer_at_range F offset s idx :
  (0 < offset)%nat -> wf_scalar s -> (idx < kDegree)%nat ->
  (Nat.divide (2 * offset) kDegree) ->
  (forall b even odd, 0 <= even < kPrime -> 0 <= odd < kPrime ->
      0 <= fst (F b even odd) < kPrime /\ 0 <= snd (F b even odd) < kPrime) ->
  0 <= layer_at F offset s idx < kPrime.
Proof.
  intros Ho [Hl Hs] Hidx [c Hc] HF. unfold layer_at.
  pose proof (Nat.div_mod_eq idx (2 * offset)) as E.
  pose proof (Nat.mod_upper_bound idx (2 * offset) ltac:(lia)) as Hm.
  assert (Hblk : (idx / (2 * offset) < c)%nat).
  { apply Nat.Div0.div_lt_upper_bound. lia. }
  assert (Hend : (2 * offset * (idx / (2 * offset)) + 2 * offset
                  <= kDegree)%nat) by nia.
  destruct (Nat.ltb_spec (idx mod (2 * offset)) offset) as [Hlt | Hge].
  - apply HF; apply Hs; lia.
  - apply HF; apply Hs; lia.
Qed.

(** ** The transforms as sequences of passes *)

Lemma ntt_blocks_pass step offset s :
  (0 < offset)%nat -> (2 * offset * step = kDegree)%nat ->
  length s = kDegree ->
  ntt_blocks step 0 0 step offset s = ntt_pass step offset s.
Proof.
  intros. rewrite ntt_blocks_gen. apply gen_blocks_layer; assumption.
Qed.

Lemma inverse_ntt_blocks_pass step offset s :
  (0 < offset)%nat -> (2 * offset * step = kDegree)%nat ->
  length s = kDegree ->
  inverse_ntt_blocks step 0 0 step offset s = inverse_ntt_pass step offset s.
Proof.
  intros. rewrite inverse_ntt_blocks_gen. apply gen_blocks_layer; assumption.
Qed.

Lemma ntt_pass_length step offset s : length (ntt_pass step offset s) = kDegree.
Proof. apply scalar_build_length. Qed.

Lemma inverse_ntt_pass_length step offset s :
  length (inverse_ntt_pass step offset s) = kDegree.
Proof. apply scalar_build_length. Qed.

Lemma scalar_ntt_passes (s : scalar) :
  length s = kDegree ->
  scalar_ntt s =
  ntt_pass 128 1 (ntt_pass 64 2 (ntt_pass 32 4 (ntt_pass 16 8
    (ntt_pass 8 16 (ntt_pass 4 32 (ntt_pass 2 64 (ntt_pass 1 128 s))))))).
Proof.
  intros Hl.
  change (scalar_ntt s) with
    (ntt_blocks 128 0 0 128 1 (ntt_blocks 64 0 0 64 2 (ntt_blocks 32 0 0 32 4
      (ntt_blocks 16 0 0 16 8 (ntt_blocks 8 0 0 8 16 (ntt_blocks 4 0 0 4 32
        (ntt_blocks 2 0 0 2 64 (ntt_blocks 1 0 0 1 128 s)))))))).
  rewrite (ntt_blocks_pass 1 128 s) by (try reflexivity; try exact Hl; lia).
  repeat (rewrite ntt_blocks_pass
            by (try reflexivity; try apply ntt_pass_length; lia)).
  reflexivity.
Qed.

Lemma scalar_inverse_ntt_passes (s : scalar) :
  length s = kDegree ->
  scalar_inverse_ntt s =
  scale_pass
    (inverse_ntt_pass 1 128 (inverse_ntt_pass 2 64 (inverse_ntt_pass 4 32
      (inverse_ntt_pass 8 16 (inverse_ntt_pass 16 8 (inverse_ntt_pass 32 4
        (inverse_ntt_pass 64 2 (inverse_ntt_pass 128 1 s)))))))).
Proof.
  intros Hl.
  change (scalar_inverse_ntt s) with
    (scale_pass
      (inverse_ntt_blocks 1 0 0 1 128 (inverse_ntt_blocks 2 0 0 2 64
        (inverse_ntt_blocks 4 0 0 4 32 (inverse_ntt_blocks 8 0 0 8 16
          (inverse_ntt_blocks 16 0 0 16 8 (inverse_ntt_blocks 32 0 0 32 4
            (inverse_ntt_blocks 64 0 0 64 2
              (inverse_ntt_blocks 128 0 0 128 1 s))))))))).
  rewrite (inverse_ntt_blocks_pass 128 1 s)
    by (try reflexivity; try exact Hl; lia).
  repeat (rewrite inverse_ntt_blocks_pass
            by (try reflexivity; try apply inverse_ntt_pass_length; lia)).
  reflexivity.
Qed.

(** ** Well-formedness is preserved *)

Lemma ntt_pass_wf step offset s :
  (0 < offset)%nat -> Nat.divide (2 * offset) kDegree ->
  wf_scalar s -> wf_scalar (ntt_pass step offset s).
Proof.
  intros Ho Hd Hs. apply wf_scalar_build. intros idx Hidx.
  apply layer_at_range; auto. intros. apply ntt_butterfly_range; assumption.
Qed.

Lemma inverse_ntt_pass_wf step offset s :
  (0 < offset)%nat -> Nat.divide (2 * offset) kDegree ->
  wf_scalar s -> wf_scalar (inverse_ntt_pass step offset s).
Proof.
  intros Ho Hd Hs. apply wf_scalar_build. intros idx Hidx.
  apply layer_at_range; auto.
  intros. apply inverse_ntt_butterfly_range; assumption.
Qed.

Lemma scale_pass_wf s : wf_scalar s -> wf_scalar (scale_pass s).
Proof.
  intros [_ Hs]. apply wf_scalar_build. intros i Hi. specialize (Hs i Hi).
  apply reduce_montgomery_range. unfold kInverseDegreeMontgomery, kPrime in *.
  nia.
Qed.

Ltac divides_256 :=
  match goal with
  | |- Nat.divide (2 * ?o) kDegree =>
      exists (kDegree / (2 * o))%nat; reflexivity
  end.

Lemma scalar_ntt_wf (s : scalar) : wf_scalar s -> wf_scalar (scalar_ntt s).
Proof.
  intros Hs. rewrite scalar_ntt_passes by apply Hs.
  repeat (apply ntt_pass_wf; [lia | divides_256 | ]). exact Hs.
Qed.

Lemma scalar_inverse_ntt_wf (s : scalar) :
  wf_scalar s -> wf_scalar (scalar_inverse_ntt s).
Proof.
  intros Hs. rewrite scalar_inverse_ntt_passes by apply Hs.
  apply scale_pass_wf.
  repeat (apply inverse_ntt_pass_wf; [lia | divides_256 | ]). exact Hs.
Qed.

Lemma vector_add_wf X a b :
  wf_vector X a -> wf_vector X b -> wf_vector X (vector_add X a b).
Proof.
  intros [_ Ha] [_ Hb]. apply wf_vector_build. intros i Hi.
  apply scalar_add_wf; auto.
Qed.

Lemma vector_sub_wf X a b :
  wf_vector X a -> wf_vector X b -> wf_vector X (vector_sub X a b).
Proof.
  intros [_ Ha] [_ Hb]. apply wf_vector_build. intros i Hi.
  apply scalar_sub_wf; auto.
Qed.

Lemma vector_mult_scalar_wf X a c :
  wf_vector X a -> wf_scalar c -> wf_vector X (vector_mult_scalar X a c).
Proof.
  intros [_ Ha] Hc. apply wf_vector_build. intros i Hi.
  apply scalar_mult_wf; auto.
Qed.

Lemma vector_ntt_wf X a : wf_vector X a -> wf_vector X (vector_ntt X a).
Proof.
  intros [_ Ha]. apply wf_vector_build. intros i Hi.
  apply scalar_ntt_wf; auto.
Qed.

Lemma vector_inverse_ntt_wf X a :
  wf_vector X a -> wf_vector X (vector_inverse_ntt X a).
Proof.
  intros [_ Ha]. apply wf_vector_build. intros i Hi.
  apply scalar_inverse_ntt_wf; auto.
Qed.

Lemma matrix_row_wf (m : matrix) (a : vector) (i : nat) (js : list nat)
  (acc : scalar) :
  (forall j, In j js -> wf_scalar (entry m i j) /\ wf_scalar (vec a j)) ->
  wf_scalar acc ->
  wf_scalar
    (fold_left
       (fun out_i j => scalar_add out_i (scalar_mult (entry m i j) (vec a j)))
       js acc).
Proof.
  revert acc. induction js as [|j js IH]; intros acc H Hacc; cbn [fold_left].
  - exact Hacc.
  - apply IH.
    + intros j' Hj'. apply H. right. exact Hj'.
    + destruct (H j (or_introl eq_refl)) as [H1 H2].
      apply scalar_add_wf; [exact Hacc | apply scalar_mult_wf; assumption].
Qed.

Lemma matrix_mult_wf K' L' m a :
  wf_matrix K' L' m -> wf_vector L' a -> wf_vector K' (matrix_mult K' L' m a).
Proof.
  intros Hm [_ Ha]. apply wf_vector_build. intros i Hi.
  apply matrix_row_wf; [|apply wf_scalar_zero].
  intros j Hj. apply in_seq in Hj. split; [apply Hm | apply Ha]; lia.
Qed.

(** C9: the arithmetic on scalars, and its wrappers on vectors and matrices,
    keep every coefficient below [q]. *)
Theorem arithmetic_preserves_wf (X K' L' : nat) (a b : scalar) (u v : vector)
  (m : matrix) (x : vector) :
  wf_scalar a -> wf_scalar b ->
  wf_vector X u -> wf_vector X v ->
  wf_matrix K' L' m -> wf_vector L' x ->
  wf_scalar (scalar_add a b) /\
  wf_scalar (scalar_sub a b) /\
  wf_scalar (scalar_mult a b) /\
  wf_scalar (scalar_ntt a) /\
  wf_scalar (scalar_inverse_ntt a) /\
  wf_vector X (vector_add X u v) /\
  wf_vector X (vector_sub X u v) /\
  wf_vector X (vector_mult_scalar X u a) /\
  wf_vector X (vector_ntt X u) /\
  wf_vector X (vector_inverse_ntt X u) /\
  wf_vector K' (matrix_mult K' L' m x).
Proof.
  intros Ha Hb Hu Hv Hm Hx.
  repeat match goal with |- _ /\ _ => split end.
  - apply scalar_add_wf; assumption.
  - apply scalar_sub_wf; assumption.
  - apply scalar_mult_wf; assumption.
  - apply scalar_ntt_wf; assumption.
  - apply scalar_inverse_ntt_wf; assumption.
  - apply vector_add_wf; assumption.
  - apply vector_sub_wf; assumption.
  - apply vector_mult_scalar_wf; assumption.
  - apply vector_ntt_wf; assumption.
  - apply vector_inverse_ntt_wf; assumption.
  - apply matrix_mult_wf; assumption.
Qed.

(** ** Passes as linear maps modulo [q] *)

Lemma pair_lo (offset idx : nat) :
  (0 < offset)%nat -> (idx mod (2 * offset) < offset)%nat ->
  ((idx + offset) / (2 * offset) = idx / (2 * offset) /\
   (idx + offset) mod (2 * offset) = idx mod (2 * offset) + offset)%nat.
Proof.
  intros Ho Hr.
  pose proof (Nat.div_mod_eq idx (2 * offset)) as E.
  destruct (block_index (2 * offset) (idx / (2 * offset)) (idx + offset))
    as [H1 H2]; try lia.
Qed.

Lemma pair_hi (offset idx : nat) :
  (0 < offset)%nat -> (offset <= idx mod (2 * offset))%nat ->
  ((idx - offset) / (2 * offset) = idx / (2 * offset) /\
   (idx - offset) mod (2 * offset) = idx mod (2 * offset) - offset /\
   offset <= idx)%nat.
Proof.
  intros Ho Hr.
  pose proof (Nat.div_mod_eq idx (2 * offset)) as E.
  pose proof (Nat.mod_upper_bound idx (2 * offset) ltac:(lia)) as Hm.
  destruct (block_index (2 * offset) (idx / (2 * offset)) (idx - offset))
    as [H1 H2]; try lia.
Qed.

Lemma block_bounds (offset idx : nat) :
  (0 < offset)%nat -> Nat.divide (2 * offset) kDegree -> (idx < kDegree)%nat ->
  (2 * offset * (idx / (2 * offset)) + 2 * offset <= kDegree)%nat.
Proof.
  intros Ho [c Hc] Hidx.
  assert (Hblk : (idx / (2 * offset) < c)%nat).
  { apply Nat.Div0.div_lt_upper_bound. lia. }
  nia.
Qed.

Lemma ntt_pass_lin step offset s idx :
  (0 < offset)%nat -> Nat.divide (2 * offset) kDegree ->
  wf_scalar s -> (idx < kDegree)%nat ->
  coef (ntt_pass step offset s) idx =
  lin_pass (ntt_matrix step) offset (coef s) idx.
Proof.
  intros Ho Hd [Hl Hs] Hidx. unfold ntt_pass.
  rewrite coef_scalar_build by exact Hidx.
  unfold layer_at, lin_pass, ntt_matrix, ntt_butterfly.
  pose proof (block_bounds offset idx Ho Hd Hidx) as Hb.
  pose proof (Nat.div_mod_eq idx (2 * offset)) as E.
  pose proof (table_range (step + idx / (2 * offset))) as Ht.
  set (t := nth (step + idx / (2 * offset)) kNTTRootsMontgomery 0) in *.
  destruct (Nat.ltb_spec (idx mod (2 * offset)) offset) as [Hlt | Hge];
    cbn [fst snd].
  - pose proof (Hs idx ltac:(lia)) as He.
    pose proof (Hs (idx + offset)%nat ltac:(lia)) as Hod.
    assert (Hp : 0 <= t * coef s (idx + offset) <= kPrime * 2 ^ 32)
      by (apply montgomery_product_range; unfold kPrime in *; lia).
    pose proof (reduce_montgomery_range _ Hp) as Hr.
    rewrite u32_small by (unfold kPrime in *; lia).
    rewrite reduce_once_mod by lia.
    rewrite reduce_montgomery_mod by exact Hp.
    Z.mod_equality.
  - pose proof (Hs idx ltac:(lia)) as Hod.
    pose proof (Hs (idx - offset)%nat ltac:(lia)) as He.
    assert (Hp : 0 <= t * coef s idx <= kPrime * 2 ^ 32)
      by (apply montgomery_product_range; unfold kPrime in *; lia).
    pose proof (reduce_montgomery_range _ Hp) as Hr.
    rewrite mod_sub_mod by assumption.
    rewrite reduce_montgomery_mod by exact Hp.
    Z.mod_equality.
Qed.

Lemma inverse_ntt_pass_lin step offset s idx :
  (0 < offset)%nat -> Nat.divide (2 * offset) kDegree ->
  wf_scalar s -> (idx < kDegree)%nat ->
  coef (inverse_ntt_pass step offset s) idx =
  lin_pass (inverse_ntt_matrix step) offset (coef s) idx.
Proof.
  intros Ho Hd [Hl Hs] Hidx. unfold inverse_ntt_pass.
  rewrite coef_scalar_build by exact Hidx.
  unfold layer_at, lin_pass, inverse_ntt_matrix, inverse_ntt_butterfly.
  pose proof (block_bounds offset idx Ho Hd Hidx) as Hb.
  pose proof (Nat.div_mod_eq idx (2 * offset)) as E.
  pose proof (table_range (step + (step - 1 - idx / (2 * offset)))) as Ht.
  set (t := nth (step + (step - 1 - idx / (2 * offset)))
              kNTTRootsMontgomery 0) in *.
  destruct (Nat.ltb_spec (idx mod (2 * offset)) offset) as [Hlt | Hge];
    cbn [fst snd].
  - pose proof (Hs idx ltac:(lia)) as He.
    pose proof (Hs (idx + offset)%nat ltac:(lia)) as Hod.
    rewrite u32_small by (unfold kPrime in *; lia).
    rewrite reduce_once_mod by lia.
    Z.mod_equality.
  - pose proof (Hs idx ltac:(lia)) as Hod.
    pose proof (Hs (idx - offset)%nat ltac:(lia)) as He.
    rewrite !u32_small by (unfold kPrime in *; lia).
    rewrite reduce_montgomery_mod by (unfold kPrime in *; nia).
    replace ((kPrime - t) * (kPrime + coef s (idx - offset) - coef s idx)
             * kRinv)
      with ((kPrime - t) * kRinv * coef s (idx - offset)
            + - ((kPrime - t) * kRinv) * coef s idx
            + (kPrime - t) * kRinv * kPrime) by ring.
    rewrite Z.mod_add by (unfold kPrime; lia). reflexivity.
Qed.

Lemma lin_pass_lo M offset f idx :
  (idx mod (2 * offset) < offset)%nat ->
  lin_pass M offset f idx =
  (fst (fst (fst (M (idx / (2 * offset))%nat))) * f idx
   + snd (fst (fst (M (idx / (2 * offset))%nat))) * f (idx + offset)%nat)
  mod kPrime.
Proof.
  intros H. unfold lin_pass.
  destruct (M (idx / (2 * offset))%nat) as [[[a b] c] d]. cbn [fst snd].
  destruct (Nat.ltb_spec (idx mod (2 * offset)) offset); [reflexivity | lia].
Qed.

Lemma lin_pass_hi M offset f idx :
  (offset <= idx mod (2 * offset))%nat ->
  lin_pass M offset f idx =
  (snd (fst (M (idx / (2 * offset))%nat)) * f (idx - offset)%nat
   + snd (M (idx / (2 * offset))%nat) * f idx) mod kPrime.
Proof.
  intros H. unfold lin_pass.
  destruct (M (idx / (2 * offset))%nat) as [[[a b] c] d]. cbn [fst snd].
  destruct (Nat.ltb_spec (idx mod (2 * offset)) offset); [lia | reflexivity].
Qed.

Lemma eqm_mul (k x y : Z) :
  x mod kPrime = y mod kPrime -> (k * x) mod kPrime = (k * y) mod kPrime.
Proof.
  intros H. rewrite <- (Z.mul_mod_idemp_r k x), H, Z.mul_mod_idemp_r
    by (unfold kPrime; lia). reflexivity.
Qed.

Lemma eqm_lin (a b x y x' y' : Z) :
  x mod kPrime = x' mod kPrime -> y mod kPrime = y' mod kPrime ->
  (a * x + b * y) mod kPrime = (a * x' + b * y') mod kPrime.
Proof.
  intros Hx Hy.
  rewrite (Z.add_mod (a * x)), (Z.add_mod (a * x')) by (unfold kPrime; lia).
  rewrite (eqm_mul a x x' Hx), (eqm_mul b y y' Hy). reflexivity.
Qed.

(** A pass only looks at the two coefficients of a butterfly, modulo [q]. *)
Lemma lin_pass_eqm M offset f g idx :
  (0 < offset)%nat -> Nat.divide (2 * offset) kDegree ->
  eqm f g -> (idx < kDegree)%nat ->
  lin_pass M offset f idx = lin_pass M offset g idx.
Proof.
  intros Ho Hd H Hidx.
  pose proof (block_bounds offset idx Ho Hd Hidx) as Hb.
  pose proof (Nat.div_mod_eq idx (2 * offset)) as E.
  destruct (Nat.lt_ge_cases (idx mod (2 * offset)) offset) as [Hlt | Hge].
  - rewrite !lin_pass_lo by exact Hlt. apply eqm_lin; apply H; lia.
  - rewrite !lin_pass_hi by exact Hge. apply eqm_lin; apply H; lia.
Qed.

Lemma lin_pass_mod M offset f idx :
  lin_pass M offset f idx mod kPrime = lin_pass M offset f idx.
Proof.
  unfold lin_pass. destruct (M (idx / (2 * offset))%nat) as [[[a b] c] d].
  destruct (idx mod (2 * offset) <? offset)%nat;
    apply Z.mod_mod; unfold kPrime; lia.
Qed.

Lemma lin_pass_smul M offset k f idx :
  lin_pass M offset (smul k f) idx = smul k (lin_pass M offset f) idx.
Proof.
  unfold lin_pass, smul. destruct (M (idx / (2 * offset))%nat) as [[[a b] c] d].
  destruct (idx mod (2 * offset) <? offset)%nat; Z.mod_equality.
Qed.

Lemma lin_pass_add M offset f g idx :
  lin_pass M offset (fun i => f i + g i) idx =
  (lin_pass M offset f idx + lin_pass M offset g idx) mod kPrime.
Proof.
  unfold lin_pass. destruct (M (idx / (2 * offset))%nat) as [[[a b] c] d].
  destruct (idx mod (2 * offset) <? offset)%nat; Z.mod_equality.
Qed.

Lemma twiddle_step (c z x y : Z) :
  (c * z) mod kPrime = 1 ->
  (c * ((1 * x + z * y) mod kPrime) + - c * ((1 * x + - z * y) mod kPrime))
    mod kPrime = (2 * y) mod kPrime.
Proof.
  intros H. Z.push_pull_mod.
  replace (c * (1 * x + z * y) + (0 - c) * (1 * x + (0 - z) * y))
    with (2 * y * (c * z)) by ring.
  rewrite <- Z.mul_mod_idemp_r, H, Z.mul_1_r by (unfold kPrime; lia).
  reflexivity.
Qed.

Lemma twiddle_step' (c z x y : Z) :
  (c * z) mod kPrime = 1 ->
  (1 * ((1 * x + 1 * y) mod kPrime)
   + z * ((c * x + - c * y) mod kPrime)) mod kPrime = (2 * x) mod kPrime.
Proof.
  intros H. Z.push_pull_mod.
  replace (1 * (1 * x + 1 * y) + z * (c * x + (0 - c) * y))
    with (x + y + (x - y) * (c * z)) by ring.
  rewrite <- Z.add_mod_idemp_r, <- Z.mul_mod_idemp_r, H, Z.mul_1_r,
    Z.add_mod_idemp_r by (unfold kPrime; lia).
  f_equal. ring.
Qed.

Lemma twiddle_step'' (c z x y : Z) :
  (c * z) mod kPrime = 1 ->
  (1 * ((1 * x + 1 * y) mod kPrime)
   + - z * ((c * x + - c * y) mod kPrime)) mod kPrime = (2 * y) mod kPrime.
Proof.
  intros H. Z.push_pull_mod.
  replace (1 * (1 * x + 1 * y) + (0 - z) * (c * x + (0 - c) * y))
    with (x + y + (y - x) * (c * z)) by ring.
  rewrite <- Z.add_mod_idemp_r, <- Z.mul_mod_idemp_r, H, Z.mul_1_r,
    Z.add_mod_idemp_r by (unfold kPrime; lia).
  f_equal. ring.
Qed.

(** An inverse pass undoes the forward pass of the same layer, up to a
    factor of two, and the other way round. *)
Lemma pass_inverse_l l f idx :
  good_layer l -> (idx < kDegree)%nat ->
  lin_pass (inverse_ntt_matrix (fst l)) (snd l)
    (lin_pass (ntt_matrix (fst l)) (snd l) f) idx = smul 2 f idx.
Proof.
  destruct l as [step offset]. cbn [fst snd].
  intros (Ho & Hd & Hs & Ht) Hidx. cbn [fst snd] in *.
  pose proof (block_bounds offset idx Ho Hd Hidx) as Hb.
  pose proof (Nat.div_mod_eq idx (2 * offset)) as E.
  pose proof (Nat.mod_upper_bound idx (2 * offset) ltac:(lia)) as Hm.
  assert (Hblk : (idx / (2 * offset) < step)%nat) by nia.
  specialize (Ht _ Hblk). unfold smul.
  destruct (Nat.lt_ge_cases (idx mod (2 * offset)) offset) as [Hlt | Hge].
  - destruct (pair_lo offset idx Ho Hlt) as [E1 E2].
    rewrite lin_pass_lo by exact Hlt.
    rewrite (lin_pass_lo _ _ f idx) by exact Hlt.
    rewrite (lin_pass_hi _ _ f (idx + offset)) by lia.
    rewrite E1, Nat.add_sub. unfold inverse_ntt_matrix, ntt_matrix.
    cbn [fst snd]. Z.mod_equality.
  - destruct (pair_hi offset idx Ho Hge) as (E1 & E2 & E3).
    rewrite lin_pass_hi by exact Hge.
    rewrite (lin_pass_hi _ _ f idx) by exact Hge.
    rewrite (lin_pass_lo _ _ f (idx - offset)) by lia.
    rewrite E1, Nat.sub_add by exact E3.
    unfold inverse_ntt_matrix, ntt_matrix. cbn [fst snd].
    apply twiddle_step. exact Ht.
Qed.

Lemma pass_inverse_r l f idx :
  good_layer l -> (idx < kDegree)%nat ->
  lin_pass (ntt_matrix (fst l)) (snd l)
    (lin_pass (inverse_ntt_matrix (fst l)) (snd l) f) idx = smul 2 f idx.
Proof.
  destruct l as [step offset]. cbn [fst snd].
  intros (Ho & Hd & Hs & Ht) Hidx. cbn [fst snd] in *.
  pose proof (block_bounds offset idx Ho Hd Hidx) as Hb.
  pose proof (Nat.div_mod_eq idx (2 * offset)) as E.
  pose proof (Nat.mod_upper_bound idx (2 * offset) ltac:(lia)) as Hm.
  assert (Hblk : (idx / (2 * offset) < step)%nat) by nia.
  specialize (Ht _ Hblk). unfold smul.
  destruct (Nat.lt_ge_cases (idx mod (2 * offset)) offset) as [Hlt | Hge].
  - destruct (pair_lo offset idx Ho Hlt) as [E1 E2].
    rewrite lin_pass_lo by exact Hlt.
    rewrite (lin_pass_lo _ _ f idx) by exact Hlt.
    rewrite (lin_pass_hi _ _ f (idx + offset)) by lia.
    rewrite E1, Nat.add_sub. unfold inverse_ntt_matrix, ntt_matrix.
    cbn [fst snd]. apply twiddle_step'. exact Ht.
  - destruct (pair_hi offset idx Ho Hge) as (E1 & E2 & E3).
    rewrite lin_pass_hi by exact Hge.
    rewrite (lin_pass_hi _ _ f idx) by exact Hge.
    rewrite (lin_pass_lo _ _ f (idx - offset)) by lia.
    rewrite E1, Nat.sub_add by exact E3.
    unfold inverse_ntt_matrix, ntt_matrix. cbn [fst snd].
    apply twiddle_step''. exact Ht.
Qed.

Lemma eqm_refl f : eqm f f.
Proof. intros i Hi. reflexivity. Qed.

Lemma eqm_sym f g : eqm f g -> eqm g f.
Proof. intros H i Hi. symmetry. apply H, Hi. Qed.

Lemma eqm_trans f g h : eqm f g -> eqm g h -> eqm f h.
Proof. intros H1 H2 i Hi. rewrite H1, H2 by exact Hi. reflexivity. Qed.

Lemma eqm_smul k f g : eqm f g -> eqm (smul k f) (smul k g).
Proof.
  intros H i Hi. unfold smul. f_equal. apply eqm_mul, H, Hi.
Qed.

Lemma smul_smul a b f : eqm (smul a (smul b f)) (smul (a * b) f).
Proof. intros i Hi. unfold smul. Z.mod_equality. Qed.

Lemma eqm_pointwise (f g : zfun) :
  (forall i, (i < kDegree)%nat -> f i = g i) -> eqm f g.
Proof. intros H i Hi. rewrite H by exact Hi. reflexivity. Qed.

Lemma lin_pass_eqm' M offset f g :
  (0 < offset)%nat -> Nat.divide (2 * offset) kDegree ->
  eqm f g -> eqm (lin_pass M offset f) (lin_pass M offset g).
Proof.
  intros Ho Hd H. apply eqm_pointwise. intros i Hi.
  apply lin_pass_eqm; assumption.
Qed.

Lemma fwd_passes_eqm ls f g :
  Forall good_layer ls -> eqm f g -> eqm (fwd_passes ls f) (fwd_passes ls g).
Proof.
  intros Hls. revert f g. induction Hls as [|l ls Hl Hls IH]; intros f g H.
  - exact H.
  - cbn [fwd_passes fold_left]. apply IH.
    destruct Hl as (Ho & Hd & _). apply lin_pass_eqm'; assumption.
Qed.

Lemma inv_passes_eqm ls f g :
  Forall good_layer ls -> eqm f g -> eqm (inv_passes ls f) (inv_passes ls g).
Proof.
  intros Hls. revert f g. induction Hls as [|l ls Hl Hls IH]; intros f g H.
  - exact H.
  - cbn [inv_passes fold_right].
    destruct Hl as (Ho & Hd & _). apply lin_pass_eqm'; try assumption.
    apply IH, H.
Qed.

Lemma fwd_passes_smul ls k f :
  Forall good_layer ls ->
  eqm (fwd_passes ls (smul k f)) (smul k (fwd_passes ls f)).
Proof.
  intros Hls. revert f. induction Hls as [|l ls Hl Hls IH]; intros f.
  - apply eqm_refl.
  - cbn [fwd_passes fold_left].
    eapply eqm_trans; [|apply IH].
    apply fwd_passes_eqm; [exact Hls|].
    apply eqm_pointwise. intros i Hi. apply lin_pass_smul.
Qed.

Lemma inv_passes_smul ls k f :
  Forall good_layer ls ->
  eqm (inv_passes ls (smul k f)) (smul k (inv_passes ls f)).
Proof.
  intros Hls. induction Hls as [|l ls Hl Hls IH].
  - apply eqm_refl.
  - cbn [inv_passes fold_right]. destruct Hl as (Ho & Hd & _).
    eapply eqm_trans.
    + apply lin_pass_eqm'; [exact Ho | exact Hd | exact IH].
    + apply eqm_pointwise. intros i Hi. apply lin_pass_smul.
Qed.

Lemma passes_inverse_l ls f :
  Forall good_layer ls ->
  eqm (inv_passes ls (fwd_passes ls f)) (smul (2 ^ Z.of_nat (length ls)) f).
Proof.
  intros Hls. revert f. induction Hls as [|l ls Hl Hls IH]; intros f.
  - intros i Hi. cbn. unfold smul. rewrite Z.mod_mod by (unfold kPrime; lia).
    f_equal. lia.
  - cbn [fwd_passes inv_passes fold_left fold_right length].
    fold (fwd_passes ls (lin_pass (ntt_matrix (fst l)) (snd l) f)).
    fold (inv_passes ls
            (fwd_passes ls (lin_pass (ntt_matrix (fst l)) (snd l) f))).
    pose proof Hl as (Ho & Hd & _).
    eapply eqm_trans.
    { apply lin_pass_eqm'; [exact Ho | exact Hd | apply IH]. }
    eapply eqm_trans.
    { apply eqm_pointwise. intros i Hi. apply lin_pass_smul. }
    eapply eqm_trans.
    { apply eqm_smul. apply eqm_pointwise. intros i Hi.
      apply pass_inverse_l; assumption. }
    eapply eqm_trans; [apply smul_smul|].
    rewrite Nat2Z.inj_succ, Z.pow_succ_r by lia.
    replace (2 ^ Z.of_nat (length ls) * 2) with (2 * 2 ^ Z.of_nat (length ls))
      by ring.
    apply eqm_refl.
Qed.

Lemma passes_inverse_r ls f :
  Forall good_layer ls ->
  eqm (fwd_passes ls (inv_passes ls f)) (smul (2 ^ Z.of_nat (length ls)) f).
Proof.
  intros Hls. induction Hls as [|l ls Hl Hls IH].
  - intros i Hi. cbn. unfold smul. rewrite Z.mod_mod by (unfold kPrime; lia).
    f_equal. lia.
  - cbn [fwd_passes inv_passes fold_left fold_right length].
    fold (inv_passes ls f).
    fold (fwd_passes ls
            (lin_pass (ntt_matrix (fst l)) (snd l)
               (lin_pass (inverse_ntt_matrix (fst l)) (snd l)
                  (inv_passes ls f)))).
    eapply eqm_trans.
    { apply fwd_passes_eqm; [exact Hls|].
      apply eqm_pointwise. intros i Hi. apply pass_inverse_r; assumption. }
    eapply eqm_trans; [apply fwd_passes_smul; exact Hls|].
    eapply eqm_trans; [apply eqm_smul, IH|].
    eapply eqm_trans; [apply smul_smul|].
    rewrite Nat2Z.inj_succ, Z.pow_succ_r by lia. apply eqm_refl.
Qed.

Lemma twiddles_inverse_good (l : nat * nat) :
  (0 < snd l)%nat -> Nat.divide (2 * snd l) kDegree ->
  (2 * snd l * fst l = kDegree)%nat ->
  twiddles_inverse l = true -> good_layer l.
Proof.
  intros Ho Hd Hs Ht. repeat split; try assumption.
  intros blk Hblk. unfold twiddles_inverse in Ht.
  rewrite forallb_forall in Ht.
  apply Z.eqb_eq. apply Ht. apply in_seq. lia.
Qed.

Lemma ntt_layout_good : Forall good_layer ntt_layout.
Proof.
  unfold ntt_layout.
  repeat (apply Forall_cons;
          [apply twiddles_inverse_good;
           [cbn [snd]; lia
           | cbn [snd]; divides_256
           | reflexivity
           | vm_compute; reflexivity] | ]).
  apply Forall_nil.
Qed.

(** ** The transforms on coefficient sequences *)

Lemma ntt_pass_fwd step offset s f :
  (0 < offset)%nat -> Nat.divide (2 * offset) kDegree ->
  wf_scalar s -> (forall i, (i < kDegree)%nat -> coef s i = f i) ->
  forall idx, (idx < kDegree)%nat ->
    coef (ntt_pass step offset s) idx = lin_pass (ntt_matrix step) offset f idx.
Proof.
  intros Ho Hd Hs H idx Hidx. rewrite ntt_pass_lin by assumption.
  apply lin_pass_eqm; try assumption. apply eqm_pointwise, H.
Qed.

Lemma inverse_ntt_pass_inv step offset s f :
  (0 < offset)%nat -> Nat.divide (2 * offset) kDegree ->
  wf_scalar s -> (forall i, (i < kDegree)%nat -> coef s i = f i) ->
  forall idx, (idx < kDegree)%nat ->
    coef (inverse_ntt_pass step offset s) idx =
    lin_pass (inverse_ntt_matrix step) offset f idx.
Proof.
  intros Ho Hd Hs H idx Hidx. rewrite inverse_ntt_pass_lin by assumption.
  apply lin_pass_eqm; try assumption. apply eqm_pointwise, H.
Qed.

Lemma scalar_ntt_fwd (s : scalar) :
  wf_scalar s ->
  forall idx, (idx < kDegree)%nat ->
    coef (scalar_ntt s) idx = fwd_passes ntt_layout (coef s) idx.
Proof.
  intros Hs. rewrite scalar_ntt_passes by apply Hs.
  unfold fwd_passes, ntt_layout. cbn [fold_left fst snd].
  repeat (apply ntt_pass_fwd;
          [lia | divides_256
           | repeat (apply ntt_pass_wf; [lia | divides_256 | ]); exact Hs | ]).
  reflexivity.
Qed.

Lemma scalar_inverse_ntt_inv (s : scalar) :
  wf_scalar s ->
  forall idx, (idx < kDegree)%nat ->
    coef (scalar_inverse_ntt s) idx =
    smul (kInverseDegreeMontgomery * kRinv) (inv_passes ntt_layout (coef s))
      idx.
Proof.
  intros Hs idx Hidx. rewrite scalar_inverse_ntt_passes by apply Hs.
  unfold scale_pass. rewrite coef_scalar_build by exact Hidx.
  set (t := inverse_ntt_pass 1 128 _).
  assert (Ht : wf_scalar t).
  { unfold t.
    repeat (apply inverse_ntt_pass_wf; [lia | divides_256 | ]). exact Hs. }
  assert (E : coef t idx = inv_passes ntt_layout (coef s) idx).
  { unfold t, inv_passes, ntt_layout. cbn [fold_right fst snd].
    revert idx Hidx.
    repeat (apply inverse_ntt_pass_inv;
            [lia | divides_256
             | repeat (apply inverse_ntt_pass_wf; [lia | divides_256 | ]);
               exact Hs | ]).
    reflexivity. }
  destruct Ht as [_ Ht]. specialize (Ht idx Hidx).
  rewrite reduce_montgomery_mod
    by (unfold kInverseDegreeMontgomery, kPrime in *; nia).
  unfold smul. rewrite <- E. f_equal. ring.
Qed.

Lemma fwd_passes_mod f idx :
  fwd_passes ntt_layout f idx mod kPrime = fwd_passes ntt_layout f idx.
Proof.
  unfold fwd_passes, ntt_layout. cbn [fold_left fst snd]. apply lin_pass_mod.
Qed.

Lemma smul_mod k f idx : smul k f idx mod kPrime = smul k f idx.
Proof. unfold smul. apply Z.mod_mod. unfold kPrime. lia. Qed.

Lemma scalar_inverse_ntt_ntt (p : scalar) :
  wf_scalar p -> scalar_inverse_ntt (scalar_ntt p) = to_montgomery p.
Proof.
  intros Hp. pose proof (scalar_ntt_wf p Hp) as Hn.
  apply scalar_ext;
    [apply (scalar_inverse_ntt_wf _ Hn) | apply scalar_build_length | ].
  intros idx Hidx. rewrite scalar_inverse_ntt_inv by assumption.
  unfold to_montgomery. rewrite coef_scalar_build by exact Hidx.
  rewrite <- smul_mod.
  assert (E : eqm (inv_passes ntt_layout (coef (scalar_ntt p)))
                (smul (2 ^ 8) (coef p))).
  { eapply eqm_trans; [|apply (passes_inverse_l ntt_layout (coef p)
                                 ntt_layout_good)].
    apply inv_passes_eqm; [apply ntt_layout_good|].
    apply eqm_pointwise. apply scalar_ntt_fwd, Hp. }
  rewrite (eqm_smul _ _ _ E idx Hidx).
  rewrite (smul_smul _ _ _ idx Hidx). unfold smul.
  rewrite Z.mod_mod by (unfold kPrime; lia).
  rewrite <- Z.mul_mod_idemp_l by (unfold kPrime; lia).
  replace ((kInverseDegreeMontgomery * kRinv * 2 ^ 8) mod kPrime)
    with (2 ^ 32 mod kPrime) by (vm_compute; reflexivity).
  rewrite Z.mul_mod_idemp_l by (unfold kPrime; lia). f_equal. ring.
Qed.

Lemma scalar_ntt_inverse_ntt (p : scalar) :
  wf_scalar p -> scalar_ntt (scalar_inverse_ntt p) = to_montgomery p.
Proof.
  intros Hp. pose proof (scalar_inverse_ntt_wf p Hp) as Hn.
  apply scalar_ext;
    [apply (scalar_ntt_wf _ Hn) | apply scalar_build_length | ].
  intros idx Hidx. rewrite scalar_ntt_fwd by assumption.
  unfold to_montgomery. rewrite coef_scalar_build by exact Hidx.
  rewrite <- fwd_passes_mod.
  assert (E : eqm (fwd_passes ntt_layout (coef (scalar_inverse_ntt p)))
                (smul (kInverseDegreeMontgomery * kRinv * 2 ^ 8) (coef p))).
  { eapply eqm_trans.
    { apply fwd_passes_eqm; [apply ntt_layout_good|].
      apply eqm_pointwise. apply scalar_inverse_ntt_inv, Hp. }
    eapply eqm_trans; [apply fwd_passes_smul, ntt_layout_good|].
    eapply eqm_trans;
      [apply eqm_smul, (passes_inverse_r ntt_layout (coef p) ntt_layout_good)|].
    apply smul_smul. }
  rewrite (E idx Hidx). unfold smul.
  rewrite Z.mod_mod by (unfold kPrime; lia).
  rewrite <- Z.mul_mod_idemp_l by (unfold kPrime; lia).
  replace ((kInverseDegreeMontgomery * kRinv * 2 ^ 8) mod kPrime)
    with (2 ^ 32 mod kPrime) by (vm_compute; reflexivity).
  rewrite Z.mul_mod_idemp_l by (unfold kPrime; lia). f_equal. ring.
Qed.

(** C3, as the code has it: the two transforms undo each other up to the
    Montgomery factor; the composition of [scalar_ntt] and
    [scalar_inverse_ntt], in either order, maps a well-formed scalar [p] to
    its Montgomery form [p * 2^32 mod q]. *)
Theorem ntt_roundtrip_montgomery (p : scalar) :
  wf_scalar p ->
  scalar_inverse_ntt (scalar_ntt p) = to_montgomery p /\
  scalar_ntt (scalar_inverse_ntt p) = to_montgomery p.
Proof.
  intros Hp. split.
  - apply scalar_inverse_ntt_ntt, Hp.
  - apply scalar_ntt_inverse_ntt, Hp.
Qed.

Lemma wf_scalarb_true (s : scalar) : wf_scalarb s = true -> wf_scalar s.
Proof.
  unfold wf_scalarb. intros H. apply andb_true_iff in H. destruct H as [H1 H2].
  apply Nat.eqb_eq in H1. split; [exact H1|].
  intros i Hi. rewrite forallb_forall in H2.
  assert (Hin : In (coef s i) s) by (apply nth_In; lia).
  specialize (H2 _ Hin). apply andb_true_iff in H2. destruct H2 as [H3 H4].
  apply Z.leb_le in H3. apply Z.ltb_lt in H4. lia.
Qed.

Lemma wf_vectorb_true (X : nat) (v : vector) :
  wf_vectorb X v = true -> wf_vector X v.
Proof.
  unfold wf_vectorb. intros H. apply andb_true_iff in H. destruct H as [H1 H2].
  apply Nat.eqb_eq in H1. split; [exact H1|].
  intros i Hi. rewrite forallb_forall in H2.
  apply wf_scalarb_true, H2. apply nth_In. lia.
Qed.

(** ** Bits and bytes *)

Lemma testbit_high (a n m : Z) :
  0 <= a < 2 ^ n -> 0 <= n <= m -> Z.testbit a m = false.
Proof.
  intros Ha Hn. rewrite <- (Z.mod_small a (2 ^ n)) by lia.
  apply Z.mod_pow2_bits_high. lia.
Qed.

Lemma lor_shiftl_add (a b n : Z) :
  0 <= a < 2 ^ n -> 0 <= n -> Z.lor a (Z.shiftl b n) = a + b * 2 ^ n.
Proof.
  intros Ha Hn.
  assert (H0 : Z.land a (Z.shiftl b n) = 0).
  { apply Z.bits_inj'. intros m Hm.
    rewrite Z.land_spec, Z.bits_0.
    destruct (Z.lt_ge_cases m n) as [Hlt | Hge].
    - rewrite (Z.shiftl_spec_low b n m) by lia. apply andb_false_r.
    - rewrite (testbit_high a n m) by lia. reflexivity. }
  rewrite <- Z.lxor_lor by exact H0.
  rewrite <- Z.add_nocarry_lxor by exact H0.
  rewrite Z.shiftl_mul_pow2 by lia. reflexivity.
Qed.

Lemma byte_at_range (b : list Z) (i : nat) : bytes b -> 0 <= byte_at b i < 256.
Proof.
  intros H. unfold byte_at.
  destruct (Nat.lt_ge_cases i (length b)) as [Hi | Hi].
  - unfold bytes in H. rewrite Forall_forall in H. apply H, nth_In, Hi.
  - rewrite nth_overflow by exact Hi. lia.
Qed.

Lemma load_u32_sum (b : list Z) (i : nat) :
  bytes b ->
  load_u32 b i =
  byte_at b i + byte_at b (i + 1) * 2 ^ 8 + byte_at b (i + 2) * 2 ^ 16
  + byte_at b (i + 3) * 2 ^ 24.
Proof.
  intros H. unfold load_u32.
  pose proof (byte_at_range b i H). pose proof (byte_at_range b (i + 1) H).
  pose proof (byte_at_range b (i + 2) H). pose proof (byte_at_range b (i + 3) H).
  rewrite (lor_shiftl_add (byte_at b i)) by lia.
  rewrite (lor_shiftl_add _ _ 16) by lia.
  rewrite (lor_shiftl_add _ _ 24) by lia. reflexivity.
Qed.

Lemma load_u16_sum (b : list Z) (i : nat) :
  bytes b -> load_u16 b i = byte_at b i + byte_at b (i + 1) * 2 ^ 8.
Proof.
  intros H. unfold load_u16.
  pose proof (byte_at_range b i H).
  rewrite (lor_shiftl_add (byte_at b i)) by lia. reflexivity.
Qed.

(** ** The signed decoder for [eta = 4] *)

Lemma nibble_ge_9_bits (n : Z) :
  0 <= n < 16 ->
  (9 <= n <->
   Z.testbit n 3 = true /\
   (Z.testbit n 0 = true \/ Z.testbit n 1 = true \/ Z.testbit n 2 = true)).
Proof.
  intros Hn.
  assert (Hk : (Z.to_nat n < 16)%nat) by lia.
  replace n with (Z.of_nat (Z.to_nat n)) by lia.
  generalize dependent (Z.to_nat n). clear Hn n. intros k Hk.
  do 16 (destruct k as [| k];
         [cbn; intuition (try lia; try discriminate) |]).
  lia.
Qed.

Lemma word_nibble_range (v j : Z) : 0 <= word_nibble v j < 16.
Proof.
  unfold word_nibble. change 15 with (Z.ones 4).
  rewrite Z.land_ones by lia. apply Z.mod_pos_bound. lia.
Qed.

Lemma word_nibble_bit (v j e : Z) :
  0 <= j -> 0 <= e < 4 ->
  Z.testbit (word_nibble v j) e = Z.testbit v (4 * j + e).
Proof.
  intros Hj He. unfold word_nibble.
  rewrite Z.land_spec, Z.shiftr_spec by lia.
  replace (e + 4 * j) with (4 * j + e) by lia.
  assert (H : e = 0 \/ e = 1 \/ e = 2 \/ e = 3) by lia.
  destruct H as [-> | [-> | [-> | ->]]]; cbn [Z.testbit]; apply andb_true_r.
Qed.

Lemma msb_mask_bits (p : Z) :
  0 <= p ->
  Z.testbit 2290649224 p = true <-> (p < 32 /\ p mod 4 = 3).
Proof.
  intros Hp. destruct (Z.lt_ge_cases p 32) as [Hlt | Hge].
  - assert (H : p = 0 \/ p = 1 \/ p = 2 \/ p = 3 \/ p = 4 \/ p = 5 \/ p = 6 \/
                p = 7 \/ p = 8 \/ p = 9 \/ p = 10 \/ p = 11 \/ p = 12 \/
                p = 13 \/ p = 14 \/ p = 15 \/ p = 16 \/ p = 17 \/ p = 18 \/
                p = 19 \/ p = 20 \/ p = 21 \/ p = 22 \/ p = 23 \/ p = 24 \/
                p = 25 \/ p = 26 \/ p = 27 \/ p = 28 \/ p = 29 \/ p = 30 \/
                p = 31) by lia.
    repeat (destruct H as [-> | H]); try subst p; cbn;
      intuition (try lia; try discriminate).
  - rewrite (testbit_high 2290649224 32 p) by lia.
    intuition (try lia; try discriminate).
Qed.

(** The bits of the word that the range check of the decoder tests. *)
Lemma range_check_bit (v p : Z) :
  0 <= p ->
  let msbs := Z.land v 2290649224 in
  let mask :=
    Z.lor (Z.lor (Z.shiftr msbs 1) (Z.shiftr msbs 2)) (Z.shiftr msbs 3) in
  Z.testbit (Z.land mask v) p = true <->
  (Z.testbit v p = true /\
   exists d, 1 <= d <= 3 /\ Z.testbit v (p + d) = true /\
             p + d < 32 /\ (p + d) mod 4 = 3).
Proof.
  intros Hp. cbv zeta.
  rewrite Z.land_spec, !Z.lor_spec, !Z.shiftr_spec, !Z.land_spec by lia.
  rewrite andb_true_iff, !orb_true_iff, !andb_true_iff.
  rewrite !msb_mask_bits by lia.
  split.
  - intros [[[H | H] | H] Hv]; (split; [exact Hv|]);
      [exists 1 | exists 2 | exists 3]; intuition lia.
  - intros [Hv (d & Hd & H1 & H2 & H3)]. split; [|exact Hv].
    assert (E : d = 1 \/ d = 2 \/ d = 3) by lia.
    destruct E as [-> | [-> | ->]]; intuition lia.
Qed.

Lemma range_check_word (v : Z) :
  let msbs := Z.land v 2290649224 in
  let mask :=
    Z.lor (Z.lor (Z.shiftr msbs 1) (Z.shiftr msbs 2)) (Z.shiftr msbs 3) in
  Z.land mask v = 0 <-> (forall j, 0 <= j < 8 -> word_nibble v j < 9).
Proof.
  cbv zeta. split.
  - intros H0 j Hj.
    destruct (Z.lt_ge_cases (word_nibble v j) 9) as [Hlt | Hge]; [exact Hlt|].
    exfalso.
    apply (nibble_ge_9_bits _ (word_nibble_range v j)) in Hge.
    destruct Hge as [H3 Hlow].
    rewrite word_nibble_bit in H3 by lia.
    assert (Hbit : forall e, 0 <= e < 3 ->
              Z.testbit (word_nibble v j) e = true -> False).
    { intros e He Hb. rewrite word_nibble_bit in Hb by lia.
      assert (Ht : Z.testbit 0 (4 * j + e) = true).
      { rewrite <- H0. apply (range_check_bit v (4 * j + e)); [lia|].
        split; [exact Hb|]. exists (3 - e).
        replace (4 * j + e + (3 - e)) with (4 * j + 3) by lia.
        repeat split; try lia; try exact H3.
        replace (4 * j + 3) with (3 + j * 4) by lia.
        rewrite Z.mod_add by lia. reflexivity. }
      rewrite Z.bits_0 in Ht. discriminate Ht. }
    destruct Hlow as [Hb | [Hb | Hb]];
      [apply (Hbit 0) | apply (Hbit 1) | apply (Hbit 2)]; try lia; exact Hb.
  - intros H. apply Z.bits_inj'. intros p Hp. rewrite Z.bits_0.
    destruct (Z.testbit (Z.land _ v) p) eqn:E; [|reflexivity].
    exfalso. apply (range_check_bit v p Hp) in E.
    destruct E as [Hv (d & Hd & H1 & H2 & H3)].
    set (j := (p + d) / 4).
    assert (Hj : p + d = 4 * j + 3).
    { unfold j. pose proof (Z.div_mod (p + d) 4 ltac:(lia)). lia. }
    assert (Hj8 : 0 <= j < 8) by lia.
    specialize (H j Hj8).
    assert (Hge : 9 <= word_nibble v j).
    { apply (nibble_ge_9_bits _ (word_nibble_range v j)). split.
      - rewrite word_nibble_bit by lia. rewrite <- Hj. exact H1.
      - assert (Hb : Z.testbit (word_nibble v j) (3 - d) = true).
        { rewrite word_nibble_bit by lia.
          replace (4 * j + (3 - d)) with p by lia. exact Hv. }
        assert (Ed : d = 1 \/ d = 2 \/ d = 3) by lia.
        destruct Ed as [-> | [-> | ->]]; cbn in Hb; auto. }
    lia.
Qed.

Lemma seq_offset (a n : nat) : seq a n = map (fun j => (a + j)%nat) (seq 0 n).
Proof.
  revert a. induction n as [|n IH]; intros a; [reflexivity|].
  cbn [seq map]. rewrite Nat.add_0_r. f_equal.
  rewrite (IH (S a)), (IH 1%nat), map_map. apply map_ext. intros j. lia.
Qed.


Lemma nibble_of_word (inp : list Z) (i j : nat) :
  bytes inp -> (j < 8)%nat ->
  word_nibble (load_u32 inp (4 * i)) (Z.of_nat j) = nibble inp (8 * i + j).
Proof.
  intros Hb Hj. rewrite load_u32_sum by exact Hb.
  unfold nibble, word_nibble.
  replace (8 * i + j)%nat with (j + 2 * (4 * i))%nat by lia.
  rewrite Nat.even_add_mul_2.
  replace (j + 2 * (4 * i))%nat with (4 * i * 2 + j)%nat by lia.
  rewrite Nat.div_add_l by lia.
  pose proof (byte_at_range inp (4 * i) Hb).
  pose proof (byte_at_range inp (4 * i + 1) Hb).
  pose proof (byte_at_range inp (4 * i + 2) Hb).
  pose proof (byte_at_range inp (4 * i + 3) Hb).
  change 15 with (Z.ones 4). rewrite !Z.land_ones by lia.
  rewrite !Z.shiftr_div_pow2 by lia.
  assert (E : (j = 0 \/ j = 1 \/ j = 2 \/ j = 3 \/ j = 4 \/ j = 5 \/ j = 6 \/
               j = 7)%nat) by lia.
  destruct E as [-> | [-> | [-> | [-> | [-> | [-> | [-> | ->]]]]]]];
    cbn [Nat.even Nat.div Nat.divmod fst Z.of_nat Pos.of_succ_nat Pos.succ
         Z.mul Pos.mul Pos.add];
    rewrite ?Nat.add_0_r;
    change (2 ^ 0) with 1; change (2 ^ 4) with 16; change (2 ^ 8) with 256;
    change (2 ^ 12) with 4096; change (2 ^ 16) with 65536;
    change (2 ^ 20) with 1048576; change (2 ^ 24) with 16777216;
    change (2 ^ 28) with 268435456;
    Z.div_mod_to_equations; lia.
Qed.

Lemma load_u32_range (inp : list Z) (i : nat) :
  bytes inp -> 0 <= load_u32 inp i < 2 ^ 32.
Proof.
  intros Hb. rewrite load_u32_sum by exact Hb.
  pose proof (byte_at_range inp i Hb).
  pose proof (byte_at_range inp (i + 1) Hb).
  pose proof (byte_at_range inp (i + 2) Hb).
  pose proof (byte_at_range inp (i + 3) Hb). lia.
Qed.

Lemma decode_word_spec (inp : list Z) (i : nat) :
  bytes inp ->
  decode_signed_4_4_word (load_u32 inp (4 * i)) =
  if forallb (fun k => nibble inp k <? 9) (seq (8 * i) 8)
  then Some (map (fun k => mod_sub 4 (nibble inp k)) (seq (8 * i) 8))
  else None.
Proof.
  intros Hb. pose proof (load_u32_range inp (4 * i) Hb) as Hv.
  set (v := load_u32 inp (4 * i)) in *.
  assert (Hn : forall j, (j < 8)%nat ->
             word_nibble v (Z.of_nat j) = nibble inp (8 * i + j))
    by (intros j Hj; apply nibble_of_word; assumption).
  rewrite (seq_offset (8 * i) 8). cbn [seq map forallb].
  rewrite <- !Hn by lia.
  unfold decode_signed_4_4_word.
  pose proof (range_check_word v) as Hc. cbv zeta in Hc.
  set (bad := Z.land _ v) in *.
  assert (E7 : Z.shiftr v 28 = word_nibble v 7).
  { unfold word_nibble. change 15 with (Z.ones 4). change (4 * 7) with 28.
    rewrite Z.land_ones, !Z.shiftr_div_pow2 by lia.
    symmetry. apply Z.mod_small.
    split; [apply Z.div_pos; lia | apply Z.div_lt_upper_bound; lia]. }
  destruct (bad =? 0) eqn:E; cbn [negb].
  - apply Z.eqb_eq in E. rewrite Hc in E.
    rewrite !(proj2 (Z.ltb_lt _ 9)) by (apply E; lia). cbn [andb].
    rewrite E7. reflexivity.
  - apply Z.eqb_neq in E.
    match goal with
    | |- None = (if ?b then _ else _) => destruct b eqn:Eb; [|reflexivity]
    end.
    exfalso. apply E, Hc. intros j Hj.
    rewrite !andb_true_iff, !Z.ltb_lt in Eb.
    assert (Ej : j = 0 \/ j = 1 \/ j = 2 \/ j = 3 \/ j = 4 \/ j = 5 \/ j = 6 \/
                 j = 7) by lia.
    cbn [Z.of_nat Pos.of_succ_nat Pos.succ] in Eb.
    destruct Ej as [-> | [-> | [-> | [-> | [-> | [-> | [-> | ->]]]]]]];
      tauto.
Qed.

Lemma decode_loop_spec (inp : list Z) (n i : nat) (out : scalar) :
  bytes inp ->
  decode_signed_4_4_loop n i inp out =
  if forallb (fun k => nibble inp k <? 9) (seq (8 * i) (8 * n))
  then Some (out ++ map (fun k => mod_sub 4 (nibble inp k))
                      (seq (8 * i) (8 * n)))
  else None.
Proof.
  intros Hb. revert i out. induction n as [|n IH]; intros i out.
  - cbn. rewrite app_nil_r. reflexivity.
  - cbn [decode_signed_4_4_loop]. rewrite decode_word_spec by exact Hb.
    replace (8 * S n)%nat with (8 + 8 * n)%nat by lia.
    rewrite seq_app, forallb_app, map_app.
    replace (8 * i + 8)%nat with (8 * S i)%nat by lia.
    destruct (forallb _ (seq (8 * i) 8)); cbn [andb]; [|reflexivity].
    rewrite IH, <- app_assoc. reflexivity.
Qed.




Section Sampling.

Variable shake128 : list Z -> nat -> Z.
Variable shake256 : list Z -> nat -> Z.

(** ** Sampling the challenge *)

Lemma count_nonzero_upd (s : scalar) (k : nat) (v : Z) :
  (k < length s)%nat ->
  (count_nonzero (upd s k v) + (if (coef s k =? 0)%Z then 0 else 1) =
   count_nonzero s + (if (v =? 0)%Z then 0 else 1))%nat.
Proof.
  revert k. induction s as [|x s IH]; intros k Hk; cbn [length] in Hk; [lia|].
  destruct k as [|k].
  - cbn [upd]. unfold count_nonzero, coef. cbn [filter nth].
    destruct (x =? 0), (v =? 0); cbn [negb length]; lia.
  - cbn [upd]. specialize (IH k ltac:(lia)).
    unfold count_nonzero, coef in *. cbn [filter nth].
    destruct (x =? 0); cbn [negb length]; lia.
Qed.

Lemma sample_in_ball_draw_le fuel ctx block offset i byte ctx' block' offset' :
  sample_in_ball_draw shake128 shake256 fuel ctx block offset i
  = Some (byte, ctx', block', offset') ->
  (byte <= i)%nat.
Proof.
  revert ctx block offset.
  induction fuel as [|fuel IH]; intros ctx block offset H; [discriminate H|].
  cbn [sample_in_ball_draw] in H.
  destruct (offset =? 136)%nat.
  - destruct (BORINGSSL_keccak_squeeze shake128 shake256 ctx 136)
      as [blk ctx1].
    destruct (Nat.leb_spec (Z.to_nat (byte_at blk 0)) i) as [Hle | Hgt].
    + injection H as <- _ _ _. exact Hle.
    + eapply IH, H.
  - destruct (Nat.leb_spec (Z.to_nat (byte_at block offset)) i) as [Hle | Hgt].
    + injection H as <- _ _ _. exact Hle.
    + eapply IH, H.
Qed.

Lemma sign_coefficient (signs : Z) :
  mod_sub 1 (u32 (2 * Z.land signs 1)) = 1 \/
  mod_sub 1 (u32 (2 * Z.land signs 1)) = kPrime - 1.
Proof.
  assert (E : Z.land signs 1 = 0 \/ Z.land signs 1 = 1).
  { change (Z.land signs 1) with (Z.land signs (Z.ones 1)).
    rewrite (Z.land_ones signs 1) by lia.
    pose proof (Z.mod_pos_bound signs (2 ^ 1) ltac:(lia)). lia. }
  destruct E as [E | E]; rewrite E; [left | right]; reflexivity.
Qed.

(** The invariant of the loop over [i]: the first [i] positions hold the
    [i - (256 - tau)] non-zero coefficients found so far. *)
Lemma sample_in_ball_loop_spec n i fuel ctx block offset signs out c w :
  (i + n = kDegree)%nat ->
  in_ball w out ->
  (forall j, (i <= j)%nat -> coef out j = 0) ->
  sample_in_ball_loop shake128 shake256 n i fuel ctx block offset signs out
  = Some c ->
  in_ball (w + n) c.
Proof.
  revert i ctx block offset signs out w.
  induction n as [|n IH]; intros i ctx block offset signs out w Hi Hout Hz H.
  - cbn in H. injection H as <-. rewrite Nat.add_0_r. exact Hout.
  - cbn [sample_in_ball_loop] in H.
    destruct (sample_in_ball_draw shake128 shake256 fuel ctx block offset i)
      as [[[[byte ctx'] block'] offset']|] eqn:Ed; [|discriminate H].
    pose proof (sample_in_ball_draw_le _ _ _ _ _ _ _ _ _ Ed) as Hb.
    destruct Hout as (Hl & Hc & Hv).
    replace (w + S n)%nat with (S w + n)%nat by lia.
    eapply IH; [| | | exact H]; [lia | | ].
    + split; [rewrite !upd_length; exact Hl|]. split.
      * pose proof (count_nonzero_upd out i (coef out byte) ltac:(lia)) as H1.
        pose proof (count_nonzero_upd (upd out i (coef out byte)) byte
                      (mod_sub 1 (u32 (2 * Z.land signs 1)))
                      ltac:(rewrite upd_length; lia)) as H2.
        rewrite (Hz i (Nat.le_refl i)) in H1. cbn [Z.eqb] in H1.
        assert (E : coef (upd out i (coef out byte)) byte = coef out byte).
        { destruct (Nat.eq_dec i byte) as [-> | Hne].
          - apply coef_upd_eq. lia.
          - apply coef_upd_neq. exact Hne. }
        rewrite E in H2.
        assert (Hs : (mod_sub 1 (u32 (2 * Z.land signs 1)) =? 0) = false).
        { apply Z.eqb_neq.
          destruct (sign_coefficient signs) as [-> | ->]; unfold kPrime; lia. }
        rewrite Hs in H2.
        destruct (coef out byte =? 0); lia.
      * intros j Hj.
        destruct (Nat.eq_dec byte j) as [<- | Hne].
        { rewrite coef_upd_eq by (rewrite upd_length; lia).
          right. apply sign_coefficient. }
        rewrite coef_upd_neq by exact Hne.
        destruct (Nat.eq_dec i j) as [<- | Hne'].
        { rewrite coef_upd_eq by lia. apply Hv. lia. }
        rewrite coef_upd_neq by exact Hne'. apply Hv, Hj.
    + intros j Hj.
      rewrite coef_upd_neq by lia. rewrite coef_upd_neq by lia.
      apply Hz. lia.
Qed.

Lemma in_ball_zero : in_ball 0 scalar_zero.
Proof.
  split; [reflexivity|]. split; [reflexivity|].
  intros i Hi. left. unfold coef, scalar_zero. apply nth_repeat.
Qed.

Lemma sample_in_ball_in_ball fuel seed c :
  scalar_sample_in_ball_vartime shake128 shake256 fuel seed tau = Some c ->
  in_ball tau c.
Proof.
  unfold scalar_sample_in_ball_vartime. intros H.
  destruct (BORINGSSL_keccak_squeeze shake128 shake256 _ 136) as [block ctx].
  change (in_ball (0 + tau) c).
  eapply sample_in_ball_loop_spec; [| apply in_ball_zero | | exact H].
  - reflexivity.
  - intros j _. unfold coef, scalar_zero. apply nth_repeat.
Qed.

(** *** Termination of the draws *)

Lemma nth_map_seq (f : nat -> Z) (n k : nat) :
  (k < n)%nat -> nth k (map f (seq 0 n)) 0 = f k.
Proof.
  intros H. rewrite (nth_indep _ 0 (f 0%nat))
    by (rewrite length_map, length_seq; exact H).
  rewrite map_nth, seq_nth by exact H. reflexivity.
Qed.

Lemma sample_in_ball_draw_terminates seed fuel ctx block offset pos i :
  ball_state shake256 seed ctx block offset pos ->
  (exists d, (d < fuel)%nat /\
             (Z.to_nat (u8 (shake256 seed (pos + d))) <= i)%nat) ->
  exists byte ctx' block' offset' pos',
    sample_in_ball_draw shake128 shake256 fuel ctx block offset i
    = Some (byte, ctx', block', offset') /\
    ball_state shake256 seed ctx' block' offset' pos'.
Proof.
  revert ctx block offset pos.
  induction fuel as [|fuel IH]; intros ctx block offset pos Hst (d & Hd & Hle);
    [lia|].
  destruct Hst as (Hc & Ha & b & Hs & Hb & Ho & Hp).
  cbn [sample_in_ball_draw].
  destruct (Nat.eqb_spec offset 136) as [E | E].
  - (* a new block is squeezed *)
    unfold BORINGSSL_keccak_squeeze.
    set (ctx1 := {| config := config ctx; absorbed := absorbed ctx;
                    squeezed := (squeezed ctx + 136)%nat |}).
    set (blk := map (fun i0 => keccak_byte shake128 shake256 ctx (squeezed ctx + i0)) (seq 0 136)).
    assert (Hblk : blk = map (fun k => u8 (shake256 seed (136 * (b + 1) + k)))
                           (seq 0 136)).
    { unfold blk. apply map_ext. intros k. unfold keccak_byte.
      rewrite Hc, Ha, Hs. reflexivity. }
    assert (Hst1 : forall o, (o <= 136)%nat ->
              ball_state shake256 seed ctx1 blk o (136 * (b + 1) + o)).
    { intros o Ho1. split; [exact Hc|]. split; [exact Ha|]. exists (b + 1)%nat.
      repeat split; try assumption. cbn [squeezed ctx1]. lia. }
    assert (Hbyte : byte_at blk 0 = u8 (shake256 seed pos)).
    { unfold byte_at. rewrite Hblk, nth_map_seq by lia. f_equal. f_equal. lia. }
    rewrite Hbyte.
    destruct (Nat.leb_spec (Z.to_nat (u8 (shake256 seed pos))) i) as [H | H].
    + exists (Z.to_nat (u8 (shake256 seed pos))), ctx1, blk, 1%nat,
        (136 * (b + 1) + 1)%nat.
      split; [reflexivity | apply Hst1; lia].
    + apply (IH ctx1 blk 1%nat (136 * (b + 1) + 1)%nat); [apply Hst1; lia|].
      destruct d as [|d]; [rewrite Nat.add_0_r in Hle; lia|].
      exists d. split; [lia|].
      replace (136 * (b + 1) + 1 + d)%nat with (pos + S d)%nat by lia.
      exact Hle.
  - assert (Hst1 : ball_state shake256 seed ctx block (S offset) (S pos)).
    { split; [exact Hc|]. split; [exact Ha|]. exists b.
      repeat split; try assumption; lia. }
    assert (Hbyte : byte_at block offset = u8 (shake256 seed pos)).
    { unfold byte_at. rewrite Hb, nth_map_seq by lia. f_equal. f_equal. lia. }
    rewrite Hbyte.
    destruct (Nat.leb_spec (Z.to_nat (u8 (shake256 seed pos))) i) as [H | H].
    + exists (Z.to_nat (u8 (shake256 seed pos))), ctx, block, (S offset),
        (S pos).
      split; [reflexivity | exact Hst1].
    + apply (IH ctx block (S offset) (S pos)); [exact Hst1|].
      destruct d as [|d]; [rewrite Nat.add_0_r in Hle; lia|].
      exists d. split; [lia|].
      replace (S pos + d)%nat with (pos + S d)%nat by lia. exact Hle.
Qed.

Lemma sample_in_ball_loop_terminates seed n i fuel ctx block offset pos signs
  out bound :
  ball_state shake256 seed ctx block offset pos ->
  (bound <= i)%nat ->
  (forall p, exists d, (d < fuel)%nat /\
      (Z.to_nat (u8 (shake256 seed (p + d))) <= bound)%nat) ->
  exists c,
    sample_in_ball_loop shake128 shake256 n i fuel ctx block offset signs out = Some c.
Proof.
  revert i ctx block offset pos signs out.
  induction n as [|n IH]; intros i ctx block offset pos signs out Hst Hi H.
  - exists out. reflexivity.
  - cbn [sample_in_ball_loop].
    destruct (sample_in_ball_draw_terminates seed fuel ctx block offset pos i
                Hst) as (byte & ctx' & block' & offset' & pos' & Hd & Hst').
    { destruct (H pos) as (d & Hd & Hle). exists d. split; [exact Hd | lia]. }
    rewrite Hd. eapply IH; [exact Hst' | lia | exact H].
Qed.

Lemma sample_in_ball_terminates fuel seed :
  (forall p, exists d, (d < fuel)%nat /\
      u8 (shake256 seed (p + d)) <= Z.of_nat (kDegree - tau)) ->
  exists c, scalar_sample_in_ball_vartime shake128 shake256 fuel seed tau = Some c.
Proof.
  intros H. unfold scalar_sample_in_ball_vartime, BORINGSSL_keccak_squeeze.
  eapply (sample_in_ball_loop_terminates seed tau (kDegree - tau) fuel _ _ 8
            8 _ _ (kDegree - tau)).
  - split; [reflexivity|]. split; [reflexivity|]. exists 0%nat.
    repeat split; try reflexivity. cbn. lia.
  - lia.
  - intros p. destruct (H p) as (d & Hd & Hle). exists d. split; [exact Hd|].
    lia.
Qed.

(** C10: the challenge that [scalar_sample_in_ball_vartime] produces with
    [tau = 49] has exactly 49 non-zero coefficients, each [1] or [q - 1], and
    zeros elsewhere; it is produced as soon as the stream keeps offering bytes
    of value at most [256 - tau]. *)
Theorem sample_in_ball_correct (fuel : nat) (seed : list Z) :
  (forall c, scalar_sample_in_ball_vartime shake128 shake256 fuel seed tau = Some c ->
     length c = kDegree /\
     count_nonzero c = 49%nat /\
     forall i, (i < kDegree)%nat ->
       coef c i = 0 \/ coef c i = 1 \/ coef c i = kPrime - 1) /\
  ((forall p, exists d, (d < fuel)%nat /\
      u8 (shake256 seed (p + d)) <= Z.of_nat (kDegree - tau)) ->
   exists c, scalar_sample_in_ball_vartime shake128 shake256 fuel seed tau = Some c).
Proof.
  split.
  - intros c H. exact (sample_in_ball_in_ball fuel seed c H).
  - apply sample_in_ball_terminates.
Qed.

End Sampling.

(** ** Hints: unpacking *)

Lemma hint_unpack_row_spec (n : nat) (inp : list Z) (row : scalar)
  (index : nat) (last : Z) :
  hint_unpack_row n inp row index last =
  if chainb (map (byte_at inp) (seq index n)) last
  then Some (set_ones row (map (byte_at inp) (seq index n)), (index + n)%nat)
  else None.
Proof.
  revert row index last. induction n as [|n IH]; intros row index last.
  - cbn. rewrite Nat.add_0_r. reflexivity.
  - cbn [hint_unpack_row seq map chainb].
    destruct ((0 <=? last) && (byte_at inp index <=? last)); [reflexivity|].
    rewrite IH. replace (S index + n)%nat with (index + S n)%nat by lia.
    reflexivity.
Qed.

Lemma chainb_spec (inp : list Z) (a n : nat) (last : Z) :
  bytes inp ->
  chainb (map (byte_at inp) (seq a n)) last = true <->
  ((0 < n)%nat -> last < 0 \/ last < byte_at inp a) /\
  (forall idx, (a <= idx)%nat -> (S idx < a + n)%nat ->
               byte_at inp idx < byte_at inp (S idx)).
Proof.
  intros Hb. revert a last. induction n as [|n IH]; intros a last.
  - cbn. split; [intros _; split; intros; lia | reflexivity].
  - cbn [seq map chainb].
    pose proof (byte_at_range inp a Hb) as Ha.
    destruct (Z.leb_spec 0 last) as [H0 | H0];
      destruct (Z.leb_spec (byte_at inp a) last) as [H1 | H1]; cbn [andb].
    + split; [discriminate|]. intros [H _]. specialize (H ltac:(lia)). lia.
    + rewrite IH. split.
      * intros [H2 H3]. split; [intros _; lia|].
        intros idx Hi1 Hi2. destruct (Nat.eq_dec idx a) as [-> | Hne].
        -- specialize (H2 ltac:(lia)). lia.
        -- apply H3; lia.
      * intros [_ H3]. split.
        -- intros Hn. right. apply H3; lia.
        -- intros idx Hi1 Hi2. apply H3; lia.
    + rewrite IH. split.
      * intros [H2 H3]. split; [intros _; lia|].
        intros idx Hi1 Hi2. destruct (Nat.eq_dec idx a) as [-> | Hne].
        -- specialize (H2 ltac:(lia)). lia.
        -- apply H3; lia.
      * intros [_ H3]. split.
        -- intros Hn. right. apply H3; lia.
        -- intros idx Hi1 Hi2. apply H3; lia.
    + rewrite IH. split.
      * intros [H2 H3]. split; [intros _; lia|].
        intros idx Hi1 Hi2. destruct (Nat.eq_dec idx a) as [-> | Hne].
        -- specialize (H2 ltac:(lia)). lia.
        -- apply H3; lia.
      * intros [_ H3]. split.
        -- intros Hn. right. apply H3; lia.
        -- intros idx Hi1 Hi2. apply H3; lia.
Qed.

(** The rows from [i] on are accepted exactly when their counts and their
    column indices are in order. *)
Lemma hint_unpack_rows_some (inp : list Z) (n i : nat) (h : vector) :
  bytes inp -> (i + n = K)%nat ->
  (exists res, hint_unpack_rows n i inp h (hint_prev_limit inp i) = Some res) <->
  (forall i', (i <= i')%nat -> (i' < K)%nat ->
     ((hint_prev_limit inp i' <= hint_limit inp i')%nat /\
      (hint_limit inp i' <= omega)%nat) /\
     forall idx, (hint_prev_limit inp i' <= idx)%nat ->
                 (S idx < hint_limit inp i')%nat ->
                 byte_at inp idx < byte_at inp (S idx)).
Proof.
  intros Hb. revert i h. induction n as [|n IH]; intros i h Hn.
  - cbn. split; [intros _ i' H1 H2; lia | intros _; eexists; reflexivity].
  - cbn [hint_unpack_rows]. fold (hint_limit inp i).
    set (index := hint_prev_limit inp i). set (limit := hint_limit inp i).
    destruct (Nat.ltb_spec limit index) as [H1 | H1]; cbn [orb].
    { split; [intros [res H]; discriminate H|].
      intros H. destruct (H i ltac:(lia) ltac:(lia)) as [[H2 _] _].
      fold index limit in H2. lia. }
    destruct (Nat.ltb_spec omega limit) as [H2 | H2].
    { split; [intros [res H]; discriminate H|].
      intros H. destruct (H i ltac:(lia) ltac:(lia)) as [[_ H3] _].
      fold limit in H3. lia. }
    rewrite hint_unpack_row_spec.
    replace (index + (limit - index))%nat with limit by lia.
    pose proof (chainb_spec inp index (limit - index) (-1) Hb) as Hc.
    replace (index + (limit - index))%nat with limit in Hc by lia.
    destruct (chainb (map (byte_at inp) (seq index (limit - index))) (-1)).
    + change limit with (hint_prev_limit inp (S i)).
      rewrite (IH (S i)) by lia. split.
      * intros H i' Hi1 Hi2. destruct (Nat.eq_dec i' i) as [-> | Hne].
        -- split; [fold index limit; lia|]. apply Hc. reflexivity.
        -- apply H; lia.
      * intros H i' Hi1 Hi2. apply H; lia.
    + split; [intros [res H]; discriminate H|].
      intros H. destruct (H i ltac:(lia) ltac:(lia)) as [_ H3].
      fold index limit in H3.
      assert (Hf : false = true); [|discriminate Hf].
      apply Hc. split; [intros _; left; lia | exact H3].
Qed.

(** Where the loop over the rows succeeds, it stops at the last count. *)
Lemma hint_unpack_rows_index (inp : list Z) (n i : nat) (h : vector)
  (index : nat) (res : vector * nat) :
  hint_unpack_rows n i inp h index = Some res ->
  snd res = match n with O => index | S n' => hint_limit inp (i + n') end.
Proof.
  revert i h index. induction n as [|n IH]; intros i h index H.
  - cbn in H. injection H as <-. reflexivity.
  - cbn [hint_unpack_rows] in H. fold (hint_limit inp i) in H.
    destruct (Nat.ltb_spec (hint_limit inp i) index) as [H1 | H1];
      [discriminate H|]. cbn [orb] in H.
    destruct (omega <? hint_limit inp i)%nat; [discriminate H|].
    rewrite hint_unpack_row_spec in H.
    destruct (chainb _ (-1)); [|discriminate H].
    apply IH in H. rewrite H. destruct n as [|n'].
    + rewrite Nat.add_0_r. lia.
    + f_equal. lia.
Qed.

Lemma hint_unpack_tail_spec (inp : list Z) (n index : nat) :
  hint_unpack_tail n index inp = true <->
  (forall idx, (index <= idx)%nat -> (idx < index + n)%nat ->
               byte_at inp idx = 0).
Proof.
  revert index. induction n as [|n IH]; intros index.
  - cbn. split; [intros _ idx H1 H2; lia | reflexivity].
  - cbn [hint_unpack_tail].
    destruct (Z.eqb_spec (byte_at inp index) 0) as [E | E]; cbn [negb].
    + rewrite IH. split.
      * intros H idx H1 H2. destruct (Nat.eq_dec idx index) as [-> | Hne];
          [exact E | apply H; lia].
      * intros H idx H1 H2. apply H; lia.
    + split; [discriminate|]. intros H. exfalso. apply E, H; lia.
Qed.

Lemma hint_unpack_some_iff (inp : list Z) :
  bytes inp ->
  (exists h, hint_bit_unpack inp = Some h) <->
  (hint_counts_ok inp /\ hint_rows_ok inp /\ hint_tail_ok inp).
Proof.
  intros Hb. unfold hint_bit_unpack.
  pose proof (hint_unpack_rows_some inp K 0 (vector_zero K) Hb eq_refl) as Hr.
  change (hint_prev_limit inp 0) with 0%nat in Hr.
  destruct (hint_unpack_rows K 0 inp (vector_zero K) 0) as [[h index]|] eqn:E.
  - pose proof (hint_unpack_rows_index _ _ _ _ _ _ E) as Hi.
    cbn [snd K Nat.add] in Hi.
    pose proof (proj1 Hr (ex_intro _ _ eq_refl)) as Hok.
    assert (Hc : hint_counts_ok inp) by (intros i Hi'; apply Hok; lia).
    assert (Hrw : hint_rows_ok inp) by (intros i Hi'; apply Hok; lia).
    destruct (Hc 5%nat ltac:(unfold K; lia)) as [_ Hle].
    pose proof (hint_unpack_tail_spec inp (omega - index) index) as Ht.
    subst index.
    replace (hint_limit inp 5 + (omega - hint_limit inp 5))%nat with omega
      in Ht by lia.
    destruct (hint_unpack_tail (omega - hint_limit inp 5) (hint_limit inp 5)
                inp).
    + split; [|intros _; eexists; reflexivity].
      intros _. split; [exact Hc|]. split; [exact Hrw|].
      intros idx H1 H2. apply Ht; [reflexivity | exact H1 | exact H2].
    + split; [intros [h' H]; discriminate H|].
      intros (_ & _ & Htl).
      assert (Hf : false = true); [|discriminate Hf].
      apply Ht. intros idx H1 H2. apply Htl; assumption.
  - split; [intros [h' H]; discriminate H|].
    intros (Hc & Hrw & _).
    destruct (proj2 Hr) as [res Hres]; [|discriminate Hres].
    intros i' _ Hi'. split; [apply Hc, Hi' | apply Hrw, Hi'].
Qed.

(** ** Hints: packing *)

Lemma ones_cons (row : scalar) (j n : nat) :
  ones row j (S n) =
  if negb (coef row j =? 0) then j :: ones row (S j) n else ones row (S j) n.
Proof. unfold ones. cbn [seq filter]. reflexivity. Qed.

Lemma ones_bound (row : scalar) (j n x : nat) :
  In x (ones row j n) -> (j <= x < j + n)%nat /\ coef row x <> 0.
Proof.
  unfold ones. rewrite filter_In, in_seq, negb_true_iff, Z.eqb_neq. tauto.
Qed.

Lemma chainb_ones (row : scalar) (j n : nat) (last : Z) :
  last < Z.of_nat j -> chainb (map Z.of_nat (ones row j n)) last = true.
Proof.
  revert j last. induction n as [|n IH]; intros j last H; [reflexivity|].
  rewrite ones_cons. destruct (negb (coef row j =? 0)).
  - cbn [map chainb].
    destruct (Z.leb_spec (Z.of_nat j) last) as [H1 | H1]; [lia|].
    rewrite andb_false_r. apply IH. lia.
  - apply IH. lia.
Qed.

Lemma hint_pack_row_spec (n j : nat) (row : scalar) (out : list Z)
  (index : nat) :
  (index + length (ones row j n) <= omega)%nat -> (omega <= length out)%nat ->
  (j + n <= 256)%nat ->
  exists out',
    hint_pack_row n j row out index
    = Some (out', (index + length (ones row j n))%nat) /\
    length out' = length out /\
    (forall t, (t < length (ones row j n))%nat ->
       byte_at out' (index + t) = Z.of_nat (nth t (ones row j n) 0%nat)) /\
    (forall p, (p < index \/ index + length (ones row j n) <= p)%nat ->
       byte_at out' p = byte_at out p).
Proof.
  revert j out index. induction n as [|n IH]; intros j out index H Hl Hj.
  - exists out. cbn. rewrite Nat.add_0_r.
    repeat split; try reflexivity. intros t Ht. lia.
  - cbn [hint_pack_row]. rewrite ones_cons in *.
    destruct (negb (coef row j =? 0)).
    + cbn [length] in H.
      destruct (Nat.ltb_spec index omega) as [Hlt | Hge]; [|lia].
      destruct (IH (S j) (upd out index (u8 (Z.of_nat j))) (S index))
        as (out' & E & Hlen & Hseg & Hframe);
        [lia | rewrite upd_length; lia | lia |].
      exists out'. cbn [length].
      replace (index + S (length (ones row (S j) n)))%nat
        with (S index + length (ones row (S j) n))%nat by lia.
      split; [exact E|]. split; [rewrite Hlen; apply upd_length|].
      assert (Hu8 : u8 (Z.of_nat j) = Z.of_nat j) by (apply u8_small; lia).
      split.
      * intros [|t] Ht.
        -- rewrite Nat.add_0_r, Hframe by lia. unfold byte_at.
           rewrite nth_upd_eq by lia. exact Hu8.
        -- replace (index + S t)%nat with (S index + t)%nat by lia.
           cbn [nth]. apply Hseg. lia.
      * intros p Hp. rewrite Hframe by lia. unfold byte_at.
        apply nth_upd_neq. lia.
    + apply IH; [exact H | exact Hl | lia].
Qed.

Lemma hint_cum_mono (h : vector) (i i' : nat) :
  (i <= i')%nat -> (hint_cum h i <= hint_cum h i')%nat.
Proof.
  induction 1 as [|i' _ IH]; [lia|]. cbn [hint_cum]. lia.
Qed.

Lemma hint_cum_S (h : vector) (i : nat) :
  hint_cum h (S i) = (hint_cum h i + length (row_ones (vec h i)))%nat.
Proof. reflexivity. Qed.

Lemma hint_pack_rows_spec (h : vector) (n i : nat) (out : list Z) :
  (i + n = K)%nat -> length out = (omega + K)%nat ->
  (hint_cum h K <= omega)%nat ->
  (forall i', (i' < i)%nat ->
     byte_at out (omega + i') = Z.of_nat (hint_cum h (S i'))) ->
  (forall i', (i' < i)%nat ->
     forall t, (t < length (row_ones (vec h i')))%nat ->
       byte_at out (hint_cum h i' + t)
       = Z.of_nat (nth t (row_ones (vec h i')) 0%nat)) ->
  (forall p, (hint_cum h i <= p)%nat -> (p < omega)%nat -> byte_at out p = 0) ->
  exists packed,
    hint_pack_rows n i h out (hint_cum h i) = Some packed /\ packs h packed.
Proof.
  revert i out. induction n as [|n IH]; intros i out Hn Hl Hw Hcnt Hseg Hz.
  - exists out. replace i with K in * by lia. split; [reflexivity|].
    repeat split; assumption.
  - cbn [hint_pack_rows].
    pose proof (hint_cum_mono h (S i) K ltac:(lia)) as Hm.
    pose proof (hint_cum_S h i) as Ec.
    destruct (hint_pack_row_spec kDegree 0 (vec h i) out (hint_cum h i))
      as (out' & E & Hlen & Hseg' & Hframe);
      [lia | lia | unfold kDegree; lia |].
    rewrite <- Ec in E, Hframe. rewrite E.
    assert (Hu8 : u8 (Z.of_nat (hint_cum h (S i))) = Z.of_nat (hint_cum h (S i))).
    { apply u8_small. unfold omega in *. lia. }
    apply IH.
    + lia.
    + rewrite upd_length, Hlen. exact Hl.
    + exact Hw.
    + intros i' Hi'. unfold byte_at.
      destruct (Nat.eq_dec i' i) as [-> | Hne].
      * rewrite nth_upd_eq by lia. exact Hu8.
      * rewrite nth_upd_neq by lia. fold (byte_at out' (omega + i')).
        rewrite Hframe by lia. apply Hcnt. lia.
    + intros i' Hi' t Ht. unfold byte_at.
      pose proof (hint_cum_S h i') as Ec'.
      pose proof (hint_cum_mono h (S i') (S i) ltac:(lia)) as Hm'.
      rewrite nth_upd_neq by lia.
      fold (byte_at out' (hint_cum h i' + t)).
      destruct (Nat.eq_dec i' i) as [-> | Hne].
      * apply Hseg', Ht.
      * pose proof (hint_cum_mono h (S i') i ltac:(lia)) as Hm''.
        rewrite Hframe by lia. apply Hseg; [lia | exact Ht].
    + intros p Hp1 Hp2. unfold byte_at. rewrite nth_upd_neq by lia.
      fold (byte_at out' p).
      rewrite Hframe by lia. apply Hz; [lia | exact Hp2].
Qed.

Lemma hint_bit_pack_packs (h : vector) :
  (hint_cum h K <= omega)%nat ->
  exists packed, hint_bit_pack h = Some packed /\ packs h packed.
Proof.
  intros Hw. unfold hint_bit_pack.
  apply (hint_pack_rows_spec h K 0 (repeat 0 (omega + K))).
  - reflexivity.
  - apply repeat_length.
  - exact Hw.
  - intros i' Hi'. lia.
  - intros i' Hi'. lia.
  - intros p _ _. unfold byte_at. apply nth_repeat.
Qed.

(** ** Hints: the round trip *)

Lemma set_ones_length (r : scalar) (l : list Z) :
  length (set_ones r l) = length r.
Proof.
  revert r. induction l as [|b l IH]; intros r; [reflexivity|].
  cbn [set_ones fold_left]. fold (set_ones (upd r (Z.to_nat b) 1) l).
  rewrite IH. apply upd_length.
Qed.

Lemma coef_set_ones_notin (r : scalar) (l : list Z) (j : nat) :
  ~ In j (map Z.to_nat l) -> coef (set_ones r l) j = coef r j.
Proof.
  revert r. induction l as [|b l IH]; intros r H; [reflexivity|].
  cbn [set_ones fold_left]. fold (set_ones (upd r (Z.to_nat b) 1) l).
  cbn [map In] in H. rewrite IH by tauto.
  apply coef_upd_neq. tauto.
Qed.

Lemma coef_set_ones_in (r : scalar) (l : list Z) (j : nat) :
  (j < length r)%nat -> In j (map Z.to_nat l) -> coef (set_ones r l) j = 1.
Proof.
  revert r. induction l as [|b l IH]; intros r Hj H; [destruct H|].
  cbn [set_ones fold_left]. fold (set_ones (upd r (Z.to_nat b) 1) l).
  destruct (in_dec Nat.eq_dec j (map Z.to_nat l)) as [Hin | Hnot].
  - apply IH; [rewrite upd_length; exact Hj | exact Hin].
  - rewrite coef_set_ones_notin by exact Hnot.
    cbn [map In] in H. destruct H as [E | H]; [|contradiction].
    rewrite E. apply coef_upd_eq. exact Hj.
Qed.

Lemma set_ones_row (row : scalar) :
  length row = kDegree ->
  (forall j, (j < kDegree)%nat -> coef row j = 0 \/ coef row j = 1) ->
  set_ones scalar_zero (map Z.of_nat (row_ones row)) = row.
Proof.
  intros Hl Hv. apply scalar_ext.
  - rewrite set_ones_length. reflexivity.
  - exact Hl.
  - intros j Hj.
    assert (Hmap : map Z.to_nat (map Z.of_nat (row_ones row)) = row_ones row).
    { rewrite map_map. rewrite <- (map_id (row_ones row)) at 2.
      apply map_ext. intros a. apply Nat2Z.id. }
    destruct (Hv j Hj) as [E | E].
    + rewrite coef_set_ones_notin.
      * rewrite E. unfold coef, scalar_zero. apply nth_repeat.
      * rewrite Hmap. intros Hin. apply ones_bound in Hin. tauto.
    + rewrite coef_set_ones_in.
      * symmetry. exact E.
      * exact Hj.
      * rewrite Hmap. unfold ones. apply filter_In. split.
        -- apply in_seq. unfold kDegree in *. lia.
        -- rewrite E. reflexivity.
Qed.

Lemma map_seq_nth {A : Type} (f : nat -> A) (a : nat) (l : list A) (d : A) :
  (forall t, (t < length l)%nat -> f (a + t)%nat = nth t l d) ->
  map f (seq a (length l)) = l.
Proof.
  revert a. induction l as [|x l IH]; intros a H; [reflexivity|].
  cbn [length seq map]. f_equal.
  - rewrite <- (Nat.add_0_r a). apply (H 0%nat). cbn. lia.
  - apply IH. intros t Ht.
    replace (S a + t)%nat with (a + S t)%nat by lia.
    apply (H (S t)). cbn. lia.
Qed.

Lemma packed_segment (h : vector) (packed : list Z) (i : nat) :
  packs h packed -> (i < K)%nat ->
  map (byte_at packed)
    (seq (hint_cum h i) (hint_cum h (S i) - hint_cum h i))
  = map Z.of_nat (row_ones (vec h i)).
Proof.
  intros (_ & _ & Hseg & _) Hi.
  rewrite hint_cum_S.
  replace (hint_cum h i + length (row_ones (vec h i)) - hint_cum h i)%nat
    with (length (map Z.of_nat (row_ones (vec h i))))
    by (rewrite length_map; lia).
  apply (map_seq_nth _ _ _ (Z.of_nat 0)). intros t Ht.
  rewrite length_map in Ht. rewrite map_nth. apply Hseg; assumption.
Qed.

Lemma hint_unpack_rows_packed (h : vector) (packed : list Z) :
  packs h packed -> (hint_cum h K <= omega)%nat ->
  forall n i hcur,
    (i + n = K)%nat -> length hcur = K ->
    exists hfin,
      hint_unpack_rows n i packed hcur (hint_cum h i)
      = Some (hfin, hint_cum h K) /\
      length hfin = K /\
      forall i', (i' < K)%nat ->
        vec hfin i' =
        if (i <=? i')%nat
        then set_ones (vec hcur i') (map Z.of_nat (row_ones (vec h i')))
        else vec hcur i'.
Proof.
  intros Hp Hw. induction n as [|n IH]; intros i hcur Hn Hl.
  - exists hcur. replace i with K by lia. split; [reflexivity|].
    split; [exact Hl|]. intros i' Hi'.
    destruct (Nat.leb_spec K i'); [lia | reflexivity].
  - cbn [hint_unpack_rows].
    pose proof Hp as (_ & Hcnt & _ & _).
    rewrite (Hcnt i) by lia. rewrite Nat2Z.id.
    pose proof (hint_cum_mono h i (S i) ltac:(lia)) as Hm1.
    pose proof (hint_cum_mono h (S i) K ltac:(lia)) as Hm2.
    destruct (Nat.ltb_spec (hint_cum h (S i)) (hint_cum h i)) as [H1 | H1];
      [lia|].
    destruct (Nat.ltb_spec omega (hint_cum h (S i))) as [H2 | H2]; [lia|].
    cbn [orb]. rewrite hint_unpack_row_spec.
    rewrite (packed_segment h packed i Hp) by lia.
    rewrite chainb_ones by lia.
    replace (hint_cum h i + (hint_cum h (S i) - hint_cum h i))%nat
      with (hint_cum h (S i)) by lia.
    destruct (IH (S i)
                (upd hcur i
                   (set_ones (vec hcur i)
                      (map Z.of_nat (row_ones (vec h i))))))
      as (hfin & E & Hlen & Hrows); [lia | rewrite upd_length; exact Hl |].
    exists hfin. split; [exact E|]. split; [exact Hlen|].
    intros i' Hi'. rewrite (Hrows i' Hi'). unfold vec.
    destruct (Nat.leb_spec (S i) i') as [H3 | H3];
      destruct (Nat.leb_spec i i') as [H4 | H4]; try lia.
    + rewrite nth_upd_neq by lia. reflexivity.
    + replace i' with i by lia. apply nth_upd_eq. lia.
    + apply nth_upd_neq. lia.
Qed.

Lemma vec_vector_zero (X i : nat) : vec (vector_zero X) i = scalar_zero.
Proof.
  unfold vec, vector_zero.
  destruct (Nat.lt_ge_cases i X) as [H | H].
  - apply nth_repeat.
  - apply nth_overflow. rewrite repeat_length. exact H.
Qed.

Lemma hint_unpack_packed (h : vector) (packed : list Z) :
  wf_hint h -> packs h packed -> hint_bit_unpack packed = Some h.
Proof.
  intros (Hl & Hrows & Hw) Hp. unfold hint_bit_unpack.
  destruct (hint_unpack_rows_packed h packed Hp Hw K 0 (vector_zero K))
    as (hfin & E & Hlen & Hfin); [reflexivity | apply repeat_length |].
  change (hint_cum h 0) with 0%nat in E. rewrite E.
  assert (Ht : hint_unpack_tail (omega - hint_cum h K) (hint_cum h K) packed
               = true).
  { apply hint_unpack_tail_spec. intros idx H1 H2.
    destruct Hp as (_ & _ & _ & Hz). apply Hz; lia. }
  rewrite Ht. f_equal.
  apply (nth_ext hfin h scalar_zero scalar_zero); [congruence|].
  intros i Hi. rewrite Hlen in Hi.
  change (vec hfin i = vec h i). rewrite (Hfin i Hi).
  cbn [Nat.leb]. rewrite vec_vector_zero.
  destruct (Hrows i Hi) as [Hrl Hrv].
  apply set_ones_row; assumption.
Qed.


Section Signing.

Variable shake128 : list Z -> nat -> Z.
Variable shake256 : list Z -> nat -> Z.

(** ** The signing loop *)




End Signing.

Lemma bytesb_true (b : list Z) : bytesb b = true -> bytes b.
Proof.
  unfold bytesb, bytes. rewrite forallb_forall, Forall_forall.
  intros H x Hx. specialize (H x Hx). apply andb_true_iff in H.
  destruct H as [H1 H2]. apply Z.leb_le in H1. apply Z.ltb_lt in H2. lia.
Qed.


(** * The transform, the ring and the protocol *)

Lemma eqq_iff (a b : Z) : eqq a b <-> a mod kPrime = b mod kPrime.
Proof. split; [intros [H]; exact H | apply eqq_intro]. Qed.

#[global] Instance eqq_equiv : Equivalence eqq.
Proof.
  split.
  - intros x. apply eqq_intro. reflexivity.
  - intros x y [H]. apply eqq_intro. symmetry. exact H.
  - intros x y z [H1] [H2]. apply eqq_intro. congruence.
Qed.

#[global] Instance eqq_add : Proper (eqq ==> eqq ==> eqq) Z.add.
Proof.
  intros a b [H] c d [H']. apply eqq_intro.
  rewrite (Zplus_mod a c), (Zplus_mod b d), H, H'.
  reflexivity.
Qed.

#[global] Instance eqq_sub : Proper (eqq ==> eqq ==> eqq) Z.sub.
Proof.
  intros a b [H] c d [H']. apply eqq_intro.
  rewrite (Zminus_mod a c), (Zminus_mod b d), H, H'. reflexivity.
Qed.

#[global] Instance eqq_mul : Proper (eqq ==> eqq ==> eqq) Z.mul.
Proof.
  intros a b [H] c d [H']. apply eqq_intro.
  rewrite (Zmult_mod a c), (Zmult_mod b d), H, H'.
  reflexivity.
Qed.

#[global] Instance eqq_opp : Proper (eqq ==> eqq) Z.opp.
Proof.
  intros a b H. rewrite <- !Z.sub_0_l. rewrite H. reflexivity.
Qed.

Lemma eqq_mod (a : Z) : eqq (a mod kPrime) a.
Proof. apply eqq_intro. apply Z.mod_mod. unfold kPrime. lia. Qed.

Lemma eqq_pow (a b : Z) (n : nat) :
  eqq a b -> eqq (a ^ Z.of_nat n) (b ^ Z.of_nat n).
Proof.
  intros H. induction n as [| n IH].
  - reflexivity.
  - rewrite Nat2Z.inj_succ, !Z.pow_succ_r by lia. rewrite IH, H. reflexivity.
Qed.

Lemma eqq_eq (a b : Z) :
  0 <= a < kPrime -> 0 <= b < kPrime -> eqq a b -> a = b.
Proof.
  intros Ha Hb [H]. rewrite !Z.mod_small in H by assumption.
  exact H.
Qed.

(** ** Finite sums *)

Lemma zsum_ext (n : nat) (f g : nat -> Z) :
  (forall i, (i < n)%nat -> f i = g i) -> zsum n f = zsum n g.
Proof.
  induction n as [| n IH]; intros H; [reflexivity|]. cbn [zsum].
  rewrite IH, H by (intros; try apply H; lia). reflexivity.
Qed.

Lemma zsum_eqq (n : nat) (f g : nat -> Z) :
  (forall i, (i < n)%nat -> eqq (f i) (g i)) -> eqq (zsum n f) (zsum n g).
Proof.
  induction n as [| n IH]; intros H; [reflexivity|]. cbn [zsum].
  rewrite IH by (intros; apply H; lia). rewrite (H n) by lia. reflexivity.
Qed.

Lemma zsum_add (n : nat) (f g : nat -> Z) :
  zsum n (fun i => f i + g i) = zsum n f + zsum n g.
Proof. induction n as [| n IH]; cbn [zsum]; [reflexivity | rewrite IH; ring]. Qed.

Lemma zsum_sub (n : nat) (f g : nat -> Z) :
  zsum n (fun i => f i - g i) = zsum n f - zsum n g.
Proof. induction n as [| n IH]; cbn [zsum]; [reflexivity | rewrite IH; ring]. Qed.

Lemma zsum_mul_l (n : nat) (k : Z) (f : nat -> Z) :
  zsum n (fun i => k * f i) = k * zsum n f.
Proof. induction n as [| n IH]; cbn [zsum]; [ring | rewrite IH; ring]. Qed.

Lemma zsum_mul_r (n : nat) (k : Z) (f : nat -> Z) :
  zsum n (fun i => f i * k) = zsum n f * k.
Proof. induction n as [| n IH]; cbn [zsum]; [ring | rewrite IH; ring]. Qed.

Lemma zsum_zero (n : nat) (f : nat -> Z) :
  (forall i, (i < n)%nat -> f i = 0) -> zsum n f = 0.
Proof.
  induction n as [| n IH]; intros H; [reflexivity|]. cbn [zsum].
  rewrite IH, H by (intros; try apply H; lia). reflexivity.
Qed.

Lemma zsum_split (a b : nat) (f : nat -> Z) :
  zsum (a + b) f = zsum a f + zsum b (fun t => f (a + t)%nat).
Proof.
  induction b as [| b IH].
  - rewrite Nat.add_0_r. cbn [zsum]. ring.
  - rewrite Nat.add_succ_r. cbn [zsum]. rewrite IH. ring.
Qed.

Lemma zsum_even_odd (m : nat) (h : nat -> Z) :
  zsum (2 * m) h
  = zsum m (fun t => h (2 * t)%nat) + zsum m (fun t => h (2 * t + 1)%nat).
Proof.
  induction m as [| m IH]; [reflexivity|].
  replace (2 * S m)%nat with (S (S (2 * m))) by lia. cbn [zsum].
  rewrite IH. replace (S (2 * m)) with (2 * m + 1)%nat by lia. ring.
Qed.

Lemma zsum_swap (n m : nat) (f : nat -> nat -> Z) :
  zsum n (fun i => zsum m (fun j => f i j))
  = zsum m (fun j => zsum n (fun i => f i j)).
Proof.
  induction n as [| n IH]; cbn [zsum].
  - symmetry. apply zsum_zero. reflexivity.
  - rewrite IH, <- zsum_add. reflexivity.
Qed.

Lemma zsum_abs_le (n : nat) (f : nat -> Z) (g : nat -> Z) :
  (forall i, (i < n)%nat -> Z.abs (f i) <= g i) ->
  Z.abs (zsum n f) <= zsum n g.
Proof.
  induction n as [| n IH]; intros H; cbn [zsum]; [lia|].
  assert (H1 : Z.abs (zsum n f) <= zsum n g) by (apply IH; intros; apply H; lia).
  assert (H2 : Z.abs (f n) <= g n) by (apply H; lia).
  lia.
Qed.

(** ** The transform evaluates the polynomial *)

Lemma half_block_lo (offset idx : nat) :
  (0 < offset)%nat -> (idx mod (2 * offset) < offset)%nat ->
  (idx / offset = 2 * (idx / (2 * offset)) /\
   idx mod offset = idx mod (2 * offset))%nat.
Proof.
  intros Ho Hlt.
  pose proof (Nat.div_mod_eq idx (2 * offset)) as E.
  split.
  - symmetry. apply (Nat.div_unique idx offset _ (idx mod (2 * offset)));
      [exact Hlt | lia].
  - symmetry. apply (Nat.mod_unique idx offset (2 * (idx / (2 * offset))));
      [exact Hlt | lia].
Qed.

Lemma half_block_hi (offset idx : nat) :
  (0 < offset)%nat -> (offset <= idx mod (2 * offset))%nat ->
  (idx / offset = 2 * (idx / (2 * offset)) + 1 /\
   idx mod offset = idx mod (2 * offset) - offset)%nat.
Proof.
  intros Ho Hge.
  pose proof (Nat.div_mod_eq idx (2 * offset)) as E.
  assert (Hm : (idx mod (2 * offset) < 2 * offset)%nat)
    by (apply Nat.mod_upper_bound; lia).
  split.
  - symmetry.
    apply (Nat.div_unique idx offset _ (idx mod (2 * offset) - offset));
      [lia | lia].
  - symmetry.
    apply (Nat.mod_unique idx offset (2 * (idx / (2 * offset)) + 1));
      [lia | lia].
Qed.

Lemma block_root_even (m b : nat) :
  (0 < m)%nat -> block_root (2 * m) (2 * b) = zeta_of m b.
Proof.
  intros Hm. unfold block_root.
  replace (2 * m =? 1)%nat with false by (symmetry; apply Nat.eqb_neq; lia).
  replace (Nat.even (2 * b)) with true
    by (symmetry; apply Nat.even_spec; exists b; lia).
  rewrite (Nat.mul_comm 2 m), (Nat.mul_comm 2 b), !Nat.div_mul by lia.
  reflexivity.
Qed.

Lemma block_root_odd (m b : nat) :
  (0 < m)%nat -> block_root (2 * m) (2 * b + 1) = - zeta_of m b.
Proof.
  intros Hm. unfold block_root.
  replace (2 * m =? 1)%nat with false by (symmetry; apply Nat.eqb_neq; lia).
  replace (Nat.even (2 * b + 1)) with false.
  2:{ symmetry. rewrite <- Nat.negb_odd. apply negb_false_iff.
      apply Nat.odd_spec. exists b. lia. }
  rewrite (Nat.mul_comm 2 m), Nat.div_mul by lia.
  replace ((2 * b + 1) / 2)%nat with b; [reflexivity|].
  apply (Nat.div_unique (2 * b + 1) 2 b 1); lia.
Qed.

Lemma roots_square_spec (m b : nat) :
  roots_square m = true -> (b < m)%nat ->
  eqq (zeta_of m b * zeta_of m b) (block_root m b).
Proof.
  unfold roots_square. rewrite forallb_forall. intros H Hb.
  apply eqq_intro. apply Z.eqb_eq. apply H. apply in_seq. lia.
Qed.

Lemma pow_even (z : Z) (t : nat) :
  z ^ Z.of_nat (2 * t) = (z * z) ^ Z.of_nat t.
Proof.
  rewrite Nat2Z.inj_mul, Z.pow_mul_r by lia. change (Z.of_nat 2) with 2.
  f_equal. ring.
Qed.

Lemma pow_odd (z : Z) (t : nat) :
  z ^ Z.of_nat (2 * t + 1) = z * (z * z) ^ Z.of_nat t.
Proof.
  rewrite Nat2Z.inj_add, Z.pow_add_r, pow_even by lia.
  change (Z.of_nat 1) with 1. rewrite Z.pow_1_r. ring.
Qed.

Lemma ntt_inv_step (p : zfun) (m offset : nat) (f : zfun) :
  (0 < offset)%nat -> (0 < m)%nat -> (2 * offset * m = kDegree)%nat ->
  roots_square m = true ->
  ntt_inv p m f -> ntt_inv p (2 * m) (lin_pass (ntt_matrix m) offset f).
Proof.
  intros Ho Hm Hsz Hsq Hinv idx Hidx.
  assert (Hd1 : (kDegree / m = 2 * offset)%nat).
  { rewrite <- Hsz. apply Nat.div_mul. lia. }
  assert (Hd2 : (kDegree / (2 * m) = offset)%nat).
  { replace kDegree with (offset * (2 * m))%nat by lia. apply Nat.div_mul. lia. }
  rewrite Hd2.
  assert (Hdiv : Nat.divide (2 * offset) kDegree) by (exists m; lia).
  assert (Hblk : (idx / (2 * offset) < m)%nat).
  { apply Nat.Div0.div_lt_upper_bound. lia. }
  set (blk := (idx / (2 * offset))%nat) in *.
  assert (Hz : eqq (nth (m + blk) kNTTRootsMontgomery 0 * kRinv) (zeta_of m blk)).
  { unfold zeta_of. symmetry. apply eqq_mod. }
  pose proof (roots_square_spec m blk Hsq Hblk) as Hr.
  destruct (Nat.ltb_spec (idx mod (2 * offset)) offset) as [Hlo | Hhi].
  - rewrite lin_pass_lo by exact Hlo. fold blk. unfold ntt_matrix. cbn [fst snd].
    rewrite eqq_mod.
    destruct (pair_lo offset idx Ho Hlo) as [Hq' Hr'].
    destruct (half_block_lo offset idx Ho Hlo) as [Hq2 Hr2].
    rewrite (Hinv idx Hidx), (Hinv (idx + offset)%nat) by
      (pose proof (block_bounds offset idx Ho Hdiv Hidx);
       pose proof (Nat.div_mod_eq idx (2 * offset)); unfold blk in *; lia).
    rewrite Hd1, Hq', Hr'. fold blk. rewrite Hq2, Hr2. fold blk.
    rewrite block_root_even by exact Hm.
    rewrite zsum_even_odd, Hz, Z.mul_1_l, <- zsum_mul_l.
    apply eqq_add; apply zsum_eqq; intros t Ht.
    + rewrite pow_even.
      replace (idx mod (2 * offset) + 2 * t * offset)%nat
        with (idx mod (2 * offset) + t * (2 * offset))%nat by lia.
      rewrite (eqq_pow _ _ t Hr). reflexivity.
    + rewrite pow_odd.
      replace (idx mod (2 * offset) + (2 * t + 1) * offset)%nat
        with (idx mod (2 * offset) + offset + t * (2 * offset))%nat by lia.
      rewrite (eqq_pow _ _ t Hr). apply eqq_intro. f_equal. ring.
  - rewrite lin_pass_hi by exact Hhi. fold blk. unfold ntt_matrix. cbn [fst snd].
    rewrite eqq_mod.
    destruct (pair_hi offset idx Ho Hhi) as (Hq' & Hr' & Hge).
    destruct (half_block_hi offset idx Ho Hhi) as [Hq2 Hr2].
    rewrite (Hinv idx Hidx), (Hinv (idx - offset)%nat) by lia.
    rewrite Hd1, Hq', Hr'. fold blk. rewrite Hq2, Hr2. fold blk.
    rewrite block_root_odd by exact Hm.
    rewrite zsum_even_odd, Hz, Z.mul_1_l, <- zsum_mul_l.
    apply eqq_add; apply zsum_eqq; intros t Ht.
    + rewrite pow_even.
      replace (idx mod (2 * offset) - offset + 2 * t * offset)%nat
        with (idx mod (2 * offset) - offset + t * (2 * offset))%nat by lia.
      replace (- zeta_of m blk * - zeta_of m blk)
        with (zeta_of m blk * zeta_of m blk) by ring.
      rewrite (eqq_pow _ _ t Hr). reflexivity.
    + rewrite pow_odd.
      replace (idx mod (2 * offset) - offset + (2 * t + 1) * offset)%nat
        with (idx mod (2 * offset) + t * (2 * offset))%nat by lia.
      replace (- zeta_of m blk * - zeta_of m blk)
        with (zeta_of m blk * zeta_of m blk) by ring.
      rewrite (eqq_pow _ _ t Hr). apply eqq_intro. f_equal. ring.
Qed.

Lemma roots_square_all :
  Forall (fun l => roots_square (fst l) = true) ntt_layout.
Proof. repeat constructor. Qed.

Lemma fwd_passes_inv (p : zfun) :
  ntt_inv p kDegree (fwd_passes ntt_layout p).
Proof.
  assert (H0 : ntt_inv p 1 p).
  { intros idx Hidx. cbn [zsum]. change (kDegree / 1)%nat with kDegree.
    rewrite Nat.mod_small by exact Hidx. cbn [Z.of_nat].
    rewrite Z.pow_0_r. apply eqq_intro. f_equal. cbn [Nat.mul Nat.add].
    rewrite Nat.add_0_r. ring. }
  unfold fwd_passes, ntt_layout. cbn [fold_left fst snd].
  change kDegree with (2 * (2 * (2 * (2 * (2 * (2 * (2 * (2 * 1))))))))%nat at 1.
  repeat (apply ntt_inv_step;
          [lia | lia | reflexivity | vm_compute; reflexivity |]).
  exact H0.
Qed.

Lemma fwd_passes_ev (p : zfun) (k : nat) :
  (k < kDegree)%nat ->
  eqq (fwd_passes ntt_layout p k) (ev p (ntt_root k)).
Proof.
  intros Hk. rewrite (fwd_passes_inv p k Hk).
  change (kDegree / kDegree)%nat with 1%nat.
  rewrite Nat.div_1_r. unfold ev, ntt_root.
  apply zsum_eqq. intros t Ht. rewrite Nat.mod_1_r, Nat.mul_1_r. reflexivity.
Qed.

(** Coefficient [k] of [scalar_ntt s] is the value of [s] at [ntt_root k]. *)
Lemma scalar_ntt_ev (s : scalar) (k : nat) :
  wf_scalar s -> (k < kDegree)%nat ->
  eqq (coef (scalar_ntt s) k) (ev (coef s) (ntt_root k)).
Proof.
  intros Hs Hk. rewrite scalar_ntt_fwd by assumption.
  apply fwd_passes_ev. exact Hk.
Qed.

Lemma pow256_mod_spec (x : Z) : eqq (pow256_mod x) (x ^ 256).
Proof.
  unfold pow256_mod. rewrite !eqq_mod.
  apply eqq_intro. f_equal. ring.
Qed.

Lemma ntt_root_order (k : nat) :
  (k < kDegree)%nat -> eqq (ntt_root k ^ 256) (-1).
Proof.
  intros Hk. rewrite <- pow256_mod_spec.
  assert (H : roots_order = true) by (vm_compute; reflexivity).
  unfold roots_order in H. rewrite forallb_forall in H.
  apply eqq_intro. rewrite (proj1 (Z.eqb_eq _ _) (H k ltac:(apply in_seq; lia))).
  reflexivity.
Qed.

(** ** Coefficients of the arithmetic on scalars *)

Lemma coef_scalar_add (a b : scalar) (i : nat) :
  wf_scalar a -> wf_scalar b -> (i < kDegree)%nat ->
  coef (scalar_add a b) i = (coef a i + coef b i) mod kPrime.
Proof.
  intros [_ Ha] [_ Hb] Hi. unfold scalar_add. rewrite coef_scalar_build by exact Hi.
  specialize (Ha i Hi). specialize (Hb i Hi).
  rewrite u32_small by (unfold kPrime in *; lia).
  apply reduce_once_mod. unfold kPrime in *. lia.
Qed.

Lemma coef_scalar_sub (a b : scalar) (i : nat) :
  wf_scalar a -> wf_scalar b -> (i < kDegree)%nat ->
  coef (scalar_sub a b) i = (coef a i - coef b i) mod kPrime.
Proof.
  intros [_ Ha] [_ Hb] Hi. unfold scalar_sub. rewrite coef_scalar_build by exact Hi.
  apply mod_sub_mod; auto.
Qed.

Lemma coef_scalar_mult (a b : scalar) (i : nat) :
  wf_scalar a -> wf_scalar b -> (i < kDegree)%nat ->
  coef (scalar_mult a b) i = (coef a i * coef b i * kRinv) mod kPrime.
Proof.
  intros [_ Ha] [_ Hb] Hi. unfold scalar_mult. rewrite coef_scalar_build by exact Hi.
  specialize (Ha i Hi). specialize (Hb i Hi).
  apply reduce_montgomery_mod. unfold kPrime in *. nia.
Qed.

Lemma coef_scalar_add_raw (a b : scalar) (i : nat) :
  (i < kDegree)%nat ->
  coef (scalar_add a b) i = reduce_once (u32 (coef a i + coef b i)).
Proof. intros Hi. unfold scalar_add. apply coef_scalar_build. exact Hi. Qed.

Lemma coef_scalar_sub_raw (a b : scalar) (i : nat) :
  (i < kDegree)%nat ->
  coef (scalar_sub a b) i = mod_sub (coef a i) (coef b i).
Proof. intros Hi. unfold scalar_sub. apply coef_scalar_build. exact Hi. Qed.

Lemma coef_to_montgomery (a : scalar) (i : nat) :
  (i < kDegree)%nat -> coef (to_montgomery a) i = (coef a i * 2 ^ 32) mod kPrime.
Proof. intros Hi. unfold to_montgomery. apply coef_scalar_build. exact Hi. Qed.

Lemma montgomery_unit : eqq (2 ^ 32 * kRinv) 1.
Proof. apply eqq_intro. reflexivity. Qed.

Lemma wf_coef (a : scalar) (i : nat) :
  wf_scalar a -> (i < kDegree)%nat -> 0 <= coef a i < kPrime.
Proof. intros [_ H] Hi. apply H. exact Hi. Qed.

(** Two well-formed scalars with congruent coefficients are equal. *)
Lemma scalar_eqq (a b : scalar) :
  wf_scalar a -> wf_scalar b ->
  (forall i, (i < kDegree)%nat -> eqq (coef a i) (coef b i)) -> a = b.
Proof.
  intros Ha Hb H. apply scalar_ext; [apply Ha | apply Hb |].
  intros i Hi. apply eqq_eq; [apply wf_coef | apply wf_coef | apply H]; assumption.
Qed.

(** ** Linearity and injectivity of the transform *)

Lemma ev_eqq (f g : zfun) (r : Z) :
  (forall t, (t < kDegree)%nat -> eqq (f t) (g t)) -> eqq (ev f r) (ev g r).
Proof.
  intros H. unfold ev. apply zsum_eqq. intros t Ht. rewrite (H t Ht). reflexivity.
Qed.

Lemma ev_add (f g : zfun) (r : Z) :
  ev (fun t => f t + g t) r = ev f r + ev g r.
Proof.
  unfold ev. rewrite <- zsum_add. apply zsum_ext. intros. ring.
Qed.

Lemma ev_sub (f g : zfun) (r : Z) :
  ev (fun t => f t - g t) r = ev f r - ev g r.
Proof.
  unfold ev. rewrite <- zsum_sub. apply zsum_ext. intros. ring.
Qed.

Lemma ev_scale (k : Z) (f : zfun) (r : Z) :
  ev (fun t => k * f t) r = k * ev f r.
Proof.
  unfold ev. rewrite <- zsum_mul_l. apply zsum_ext. intros. ring.
Qed.

Lemma scalar_ntt_add (a b : scalar) (k : nat) :
  wf_scalar a -> wf_scalar b -> (k < kDegree)%nat ->
  eqq (coef (scalar_ntt (scalar_add a b)) k)
      (coef (scalar_ntt a) k + coef (scalar_ntt b) k).
Proof.
  intros Ha Hb Hk.
  rewrite !scalar_ntt_ev by (try apply scalar_add_wf; assumption).
  rewrite <- ev_add. apply ev_eqq. intros t Ht.
  rewrite coef_scalar_add by assumption. apply eqq_mod.
Qed.

Lemma scalar_ntt_sub (a b : scalar) (k : nat) :
  wf_scalar a -> wf_scalar b -> (k < kDegree)%nat ->
  eqq (coef (scalar_ntt (scalar_sub a b)) k)
      (coef (scalar_ntt a) k - coef (scalar_ntt b) k).
Proof.
  intros Ha Hb Hk.
  rewrite !scalar_ntt_ev by (try apply scalar_sub_wf; assumption).
  rewrite <- ev_sub. apply ev_eqq. intros t Ht.
  rewrite coef_scalar_sub by assumption. apply eqq_mod.
Qed.

Lemma scalar_ntt_inverse (a : scalar) (k : nat) :
  wf_scalar a -> (k < kDegree)%nat ->
  eqq (coef (scalar_ntt (scalar_inverse_ntt a)) k) (coef a k * 2 ^ 32).
Proof.
  intros Ha Hk. rewrite scalar_ntt_inverse_ntt by exact Ha.
  rewrite coef_to_montgomery by exact Hk. apply eqq_mod.
Qed.

Lemma scalar_ntt_inj (a b : scalar) :
  wf_scalar a -> wf_scalar b ->
  (forall k, (k < kDegree)%nat ->
     eqq (coef (scalar_ntt a) k) (coef (scalar_ntt b) k)) ->
  a = b.
Proof.
  intros Ha Hb H.
  assert (E : scalar_ntt a = scalar_ntt b).
  { apply scalar_eqq; [apply scalar_ntt_wf | apply scalar_ntt_wf |]; assumption. }
  apply (f_equal scalar_inverse_ntt) in E.
  rewrite !scalar_inverse_ntt_ntt in E by assumption.
  apply scalar_eqq; [assumption | assumption |].
  intros i Hi. apply (f_equal (fun s => coef s i)) in E.
  rewrite !coef_to_montgomery in E by exact Hi.
  apply eqq_iff in E.
  assert (E' : eqq (coef a i * (2 ^ 32 * kRinv)) (coef b i * (2 ^ 32 * kRinv))).
  { rewrite !Z.mul_assoc. rewrite E. reflexivity. }
  rewrite montgomery_unit, !Z.mul_1_r in E'. exact E'.
Qed.

(** A scalar product after the inverse transform, seen through the
    transform. *)
Lemma scalar_ntt_inverse_mult (a b : scalar) (k : nat) :
  wf_scalar a -> wf_scalar b -> (k < kDegree)%nat ->
  eqq (coef (scalar_ntt (scalar_inverse_ntt (scalar_mult a b))) k)
      (coef a k * coef b k).
Proof.
  intros Ha Hb Hk.
  rewrite scalar_ntt_inverse by (try apply scalar_mult_wf; assumption).
  rewrite coef_scalar_mult by assumption. rewrite eqq_mod.
  replace (coef a k * coef b k * kRinv * 2 ^ 32)
    with (coef a k * coef b k * (2 ^ 32 * kRinv)) by ring.
  rewrite montgomery_unit. apply eqq_intro. f_equal. ring.
Qed.

(** The accumulation of a matrix row. *)
Lemma matrix_row_coef (m : matrix) (a : vector) (i : nat) (n : nat) (k : nat) :
  (forall j, (j < n)%nat -> wf_scalar (entry m i j) /\ wf_scalar (vec a j)) ->
  (k < kDegree)%nat ->
  wf_scalar
    (fold_left
       (fun out_i j => scalar_add out_i (scalar_mult (entry m i j) (vec a j)))
       (seq 0 n) scalar_zero) /\
  eqq (coef
         (fold_left
            (fun out_i j => scalar_add out_i (scalar_mult (entry m i j) (vec a j)))
            (seq 0 n) scalar_zero) k)
      (zsum n (fun j => coef (entry m i j) k * coef (vec a j) k * kRinv)).
Proof.
  intros H Hk. induction n as [| n IH].
  - cbn [seq fold_left zsum]. split; [apply wf_scalar_zero|].
    unfold coef, scalar_zero. rewrite nth_repeat. reflexivity.
  - rewrite seq_S, fold_left_app. cbn [fold_left zsum Nat.add].
    destruct IH as [IH1 IH2]; [intros j Hj; apply H; lia|].
    destruct (H n ltac:(lia)) as [H1 H2].
    split; [apply scalar_add_wf; [exact IH1 | apply scalar_mult_wf; assumption]|].
    rewrite coef_scalar_add by (try apply scalar_mult_wf; assumption).
    rewrite eqq_mod, IH2. rewrite coef_scalar_mult by assumption.
    rewrite eqq_mod. reflexivity.
Qed.

(** ** The identity behind verification *)

Lemma power2_round_parts (r : Z) :
  0 <= r < kPrime ->
  (scale_power2_round (fst (power2_round r)) + snd (power2_round r)) mod kPrime
  = r mod kPrime /\
  0 <= fst (power2_round r) < 2 ^ 10 /\
  0 <= snd (power2_round r) < kPrime /\
  - 2 ^ 12 < centered (snd (power2_round r)) <= 2 ^ 12.
Proof.
  intros Hr. rewrite power2_round_eq by exact Hr.
  assert (Hq : 0 <= r / 2 ^ 13 < 1023 \/
               r / 2 ^ 13 = 1023 /\ r mod 2 ^ 13 = 0)
    by (unfold kPrime in Hr; Z.div_mod_to_equations; lia).
  assert (Hm : 0 <= r mod 2 ^ 13 < 2 ^ 13) by (apply Z.mod_pos_bound; lia).
  assert (Hc : forall v, 0 <= v < 1024 ->
            scale_power2_round v = v * 2 ^ 13).
  { intros v Hv. unfold scale_power2_round, kDroppedBits.
    rewrite Z.shiftl_mul_pow2 by lia. apply u32_small. lia. }
  unfold centered. change kHalfPrime with 4190208.
  destruct (Z.ltb_spec (2 ^ 12) (r mod 2 ^ 13)) as [Hlt | Hge]; cbn [fst snd].
  - rewrite Hc by lia.
    destruct (Z.leb_spec (kPrime + r mod 2 ^ 13 - 2 ^ 13) 4190208);
      unfold kPrime in *; repeat split; try lia;
      Z.div_mod_to_equations; lia.
  - rewrite Hc by lia.
    destruct (Z.leb_spec (r mod 2 ^ 13) 4190208);
      unfold kPrime in *; repeat split; try lia;
      Z.div_mod_to_equations; lia.
Qed.

Lemma scale_power2_round_sub (r : Z) :
  0 <= r < kPrime ->
  scale_power2_round (fst (power2_round r))
  = (r - snd (power2_round r)) mod kPrime.
Proof.
  intros Hr.
  destruct (power2_round_parts r Hr) as (H1 & H2 & H3 & _).
  cbv zeta in *.
  assert (Hs : scale_power2_round (fst (power2_round r))
               = fst (power2_round r) * 2 ^ 13).
  { unfold scale_power2_round, kDroppedBits. rewrite Z.shiftl_mul_pow2 by lia.
    apply u32_small. lia. }
  rewrite Hs in *. unfold kPrime in *.
  Z.div_mod_to_equations. lia.
Qed.

Lemma scalar_power2_round_wf (t : scalar) :
  wf_scalar t ->
  wf_scalar (fst (scalar_power2_round t)) /\
  wf_scalar (snd (scalar_power2_round t)).
Proof.
  intros Ht. unfold scalar_power2_round. cbn [fst snd].
  split; apply wf_scalar_build; intros i Hi;
    destruct (power2_round_parts (coef t i) (wf_coef t i Ht Hi))
      as (_ & H2 & H3 & _); cbv zeta in *; unfold kPrime in *; lia.
Qed.

Lemma scalar_scale_power2_round_sub (t : scalar) :
  wf_scalar t ->
  scalar_scale_power2_round (fst (scalar_power2_round t))
  = scalar_sub t (snd (scalar_power2_round t)).
Proof.
  intros Ht. unfold scalar_scale_power2_round, scalar_sub, scalar_power2_round.
  cbn [fst snd]. apply scalar_ext; try apply scalar_build_length.
  intros i Hi. rewrite !coef_scalar_build by lia.
  rewrite scale_power2_round_sub by (apply wf_coef; [exact Ht | lia]).
  symmetry. apply mod_sub_mod; [apply wf_coef; [exact Ht | lia]|].
  destruct (power2_round_parts (coef t i) (wf_coef t i Ht ltac:(lia)))
    as (_ & _ & H3 & _). exact H3.
Qed.

Lemma verify_algebra (R rho c s2 t0 Sy Ss : Z) :
  eqq (R * rho) 1 ->
  eqq (((Sy + c * Ss) - (Ss * R + s2 - t0) * c * rho) * R)
      (Sy * R - s2 * c + t0 * c).
Proof.
  intros H.
  replace (((Sy + c * Ss) - (Ss * R + s2 - t0) * c * rho) * R)
    with (Sy * R - s2 * c + t0 * c
          + (1 - R * rho) * (R * c * Ss + (s2 - t0) * c)) by ring.
  rewrite H. apply eqq_intro. f_equal. ring.
Qed.

Lemma wf_vec (X : nat) (v : vector) (i : nat) :
  wf_vector X v -> (i < X)%nat -> wf_scalar (vec v i).
Proof. intros [_ H] Hi. apply H. exact Hi. Qed.

Lemma vec_matrix_mult (K' L' : nat) (m : matrix) (x : vector) (i : nat) :
  (i < K')%nat -> vec (matrix_mult K' L' m x) i = matrix_row L' m i x.
Proof. intros Hi. unfold matrix_mult. apply vec_vector_build. exact Hi. Qed.

Lemma matrix_row_wf' (L' : nat) (m : matrix) (i : nat) (x : vector) :
  (forall j, (j < L')%nat -> wf_scalar (entry m i j)) -> wf_vector L' x ->
  wf_scalar (matrix_row L' m i x).
Proof.
  intros Ha Hx. unfold matrix_row. apply matrix_row_wf; [|apply wf_scalar_zero].
  intros j Hj. apply in_seq in Hj.
  split; [apply Ha | apply (wf_vec L')]; try assumption; lia.
Qed.

Lemma matrix_row_eqq (L' : nat) (m : matrix) (i : nat) (x : vector) (k : nat) :
  (forall j, (j < L')%nat -> wf_scalar (entry m i j)) -> wf_vector L' x ->
  (k < kDegree)%nat ->
  eqq (coef (matrix_row L' m i x) k)
      (zsum L' (fun j => coef (entry m i j) k * coef (vec x j) k * kRinv)).
Proof.
  intros Ha Hx Hk. unfold matrix_row. apply matrix_row_coef; [|exact Hk].
  intros j Hj. split; [apply Ha | apply (wf_vec L')]; assumption.
Qed.

#[local] Opaque scalar_ntt scalar_inverse_ntt scalar_add scalar_sub scalar_mult
  matrix_row.

Lemma vec_vector_ntt (X : nat) (v : vector) (i : nat) :
  (i < X)%nat -> vec (vector_ntt X v) i = scalar_ntt (vec v i).
Proof. intros Hi. unfold vector_ntt. apply vec_vector_build. exact Hi. Qed.

Lemma vec_vector_inverse_ntt (X : nat) (v : vector) (i : nat) :
  (i < X)%nat -> vec (vector_inverse_ntt X v) i = scalar_inverse_ntt (vec v i).
Proof. intros Hi. unfold vector_inverse_ntt. apply vec_vector_build. exact Hi. Qed.

Lemma vec_vector_add (X : nat) (u v : vector) (i : nat) :
  (i < X)%nat -> vec (vector_add X u v) i = scalar_add (vec u i) (vec v i).
Proof. intros Hi. unfold vector_add. apply vec_vector_build. exact Hi. Qed.

Lemma vec_vector_sub (X : nat) (u v : vector) (i : nat) :
  (i < X)%nat -> vec (vector_sub X u v) i = scalar_sub (vec u i) (vec v i).
Proof. intros Hi. unfold vector_sub. apply vec_vector_build. exact Hi. Qed.

Lemma vec_vector_mult_scalar (X : nat) (u : vector) (c : scalar) (i : nat) :
  (i < X)%nat ->
  vec (vector_mult_scalar X u c) i = scalar_mult (vec u i) c.
Proof. intros Hi. unfold vector_mult_scalar. apply vec_vector_build. exact Hi. Qed.

(** The quantity that verification rebuilds, row by row: with [t] the row of
    the public value, [z = y + c s1], it is [w - c s2 + c t0]. *)
Lemma verify_row (a : matrix) (i : nat) (s1 y : vector) (s2 c : scalar) :
  (forall j, (j < L)%nat -> wf_scalar (entry a i j)) ->
  wf_vector L s1 -> wf_vector L y -> wf_scalar s2 -> wf_scalar c ->
  forall t z,
  t = scalar_add (scalar_inverse_ntt (matrix_row L a i (vector_ntt L s1))) s2 ->
  z = vector_add L y
        (vector_inverse_ntt L
           (vector_mult_scalar L (vector_ntt L s1) (scalar_ntt c))) ->
  scalar_inverse_ntt
    (scalar_sub (matrix_row L a i (vector_ntt L z))
       (scalar_mult
          (scalar_ntt (scalar_scale_power2_round (fst (scalar_power2_round t))))
          (scalar_ntt c)))
  = scalar_add
      (scalar_sub (scalar_inverse_ntt (matrix_row L a i (vector_ntt L y)))
         (scalar_inverse_ntt (scalar_mult (scalar_ntt s2) (scalar_ntt c))))
      (scalar_inverse_ntt
         (scalar_mult (scalar_ntt (snd (scalar_power2_round t))) (scalar_ntt c))).
Proof.
  intros Ha Hs1 Hy Hs2 Hc t z Et Ez'.
  pose proof (scalar_ntt_wf c Hc) as Hcn.
  pose proof (vector_ntt_wf L s1 Hs1) as Hs1n.
  pose proof (vector_ntt_wf L y Hy) as Hyn.
  assert (Hz : wf_vector L z).
  { subst z. apply vector_add_wf; [exact Hy|]. apply vector_inverse_ntt_wf.
    apply vector_mult_scalar_wf; assumption. }
  pose proof (vector_ntt_wf L z Hz) as Hzn.
  pose proof (matrix_row_wf' L a i _ Ha Hzn) as Hrz.
  pose proof (matrix_row_wf' L a i _ Ha Hyn) as Hry.
  pose proof (matrix_row_wf' L a i _ Ha Hs1n) as Hrs.
  pose proof (scalar_inverse_ntt_wf _ Hrs) as Hirs.
  assert (Ht : wf_scalar t).
  { subst t. apply scalar_add_wf; assumption. }
  destruct (scalar_power2_round_wf t Ht) as [Ht1 Ht0].
  set (t0 := snd (scalar_power2_round t)) in *.
  pose proof (scalar_ntt_wf s2 Hs2) as Hs2n.
  pose proof (scalar_ntt_wf t0 Ht0) as Ht0n.
  rewrite scalar_scale_power2_round_sub by exact Ht. fold t0.
  pose proof (scalar_sub_wf t t0 Ht Ht0) as Hsub.
  pose proof (scalar_ntt_wf _ Hsub) as Hsubn.
  pose proof (scalar_mult_wf _ _ Hsubn Hcn) as Hm1.
  pose proof (scalar_mult_wf _ _ Hs2n Hcn) as Hm2.
  pose proof (scalar_mult_wf _ _ Ht0n Hcn) as Hm3.
  pose proof (scalar_sub_wf _ _ Hrz Hm1) as Hx.
  pose proof (scalar_inverse_ntt_wf _ Hry) as Hw.
  pose proof (scalar_inverse_ntt_wf _ Hm2) as Hcs2.
  pose proof (scalar_inverse_ntt_wf _ Hm3) as Hct0.
  pose proof (scalar_sub_wf _ _ Hw Hcs2) as Hws.
  apply scalar_ntt_inj;
    [apply scalar_inverse_ntt_wf; exact Hx | apply scalar_add_wf; assumption |].
  intros k Hk.
  (* the left-hand side *)
  pose proof (scalar_ntt_inverse _ k Hx Hk) as E1.
  pose proof (coef_scalar_sub _ _ k Hrz Hm1 Hk) as E2.
  pose proof (coef_scalar_mult _ _ k Hsubn Hcn Hk) as E3.
  pose proof (scalar_ntt_sub _ _ k Ht Ht0 Hk) as E4.
  assert (E5 : eqq (coef (scalar_ntt t) k)
                 (coef (matrix_row L a i (vector_ntt L s1)) k * 2 ^ 32
                  + coef (scalar_ntt s2) k)).
  { subst t. rewrite (scalar_ntt_add _ _ k Hirs Hs2 Hk).
    rewrite (scalar_ntt_inverse _ k Hrs Hk). reflexivity. }
  pose proof (matrix_row_eqq L a i _ k Ha Hs1n Hk) as E6.
  pose proof (matrix_row_eqq L a i _ k Ha Hzn Hk) as E7.
  pose proof (matrix_row_eqq L a i _ k Ha Hyn Hk) as E8.
  (* the right-hand side *)
  pose proof (scalar_ntt_add _ _ k Hws Hct0 Hk) as F1.
  pose proof (scalar_ntt_sub _ _ k Hw Hcs2 Hk) as F2.
  pose proof (scalar_ntt_inverse _ k Hry Hk) as F3.
  pose proof (scalar_ntt_inverse_mult _ _ k Hs2n Hcn Hk) as F4.
  pose proof (scalar_ntt_inverse_mult _ _ k Ht0n Hcn Hk) as F5.
  assert (Ez : eqq (zsum L (fun j => coef (entry a i j) k
                               * coef (vec (vector_ntt L z) j) k * kRinv))
                 (zsum L (fun j => coef (entry a i j) k
                               * coef (vec (vector_ntt L y) j) k * kRinv)
                  + coef (scalar_ntt c) k
                    * zsum L (fun j => coef (entry a i j) k
                               * coef (vec (vector_ntt L s1) j) k * kRinv))).
  { rewrite <- zsum_mul_l, <- zsum_add. apply zsum_eqq. intros j Hj.
    rewrite !vec_vector_ntt by exact Hj. subst z.
    rewrite vec_vector_add, vec_vector_inverse_ntt, vec_vector_mult_scalar,
      vec_vector_ntt by exact Hj.
    pose proof (wf_vec L s1 j Hs1 Hj) as Hs1j.
    pose proof (wf_vec L y j Hy Hj) as Hyj.
    pose proof (scalar_ntt_wf _ Hs1j) as Hs1jn.
    rewrite (scalar_ntt_add _ _ k Hyj
               (scalar_inverse_ntt_wf _ (scalar_mult_wf _ _ Hs1jn Hcn)) Hk).
    rewrite (scalar_ntt_inverse_mult _ _ k Hs1jn Hcn Hk).
    apply eqq_intro. f_equal. ring. }
  rewrite E1, E2, eqq_mod, E3, eqq_mod, E4, E5, E6, E7, Ez.
  rewrite F1, F2, F3, F4, F5, E8.
  apply (verify_algebra (2 ^ 32) kRinv). exact montgomery_unit.
Qed.

#[local] Transparent scalar_ntt scalar_inverse_ntt scalar_add scalar_sub
  scalar_mult matrix_row.

#[local] Opaque scalar_ntt scalar_inverse_ntt scalar_add scalar_sub scalar_mult
  matrix_row.

(** ** Products modulo [X^256 + 1] *)

Lemma pow_nat_add (r : Z) (a b : nat) :
  r ^ Z.of_nat (a + b) = r ^ Z.of_nat a * r ^ Z.of_nat b.
Proof. rewrite Nat2Z.inj_add. apply Z.pow_add_r; lia. Qed.

Lemma ev_shift (s : zfun) (r : Z) (i : nat) :
  (i < kDegree)%nat -> eqq (r ^ 256) (-1) ->
  eqq (zsum kDegree (fun k =>
         (if (i <=? k)%nat then s (k - i)%nat else - s (kDegree + k - i)%nat)
         * r ^ Z.of_nat k))
      (r ^ Z.of_nat i * ev s r).
Proof.
  intros Hi Hr. unfold ev.
  set (F := fun k : nat =>
              (if (i <=? k)%nat then s (k - i)%nat
               else - s (kDegree + k - i)%nat) * r ^ Z.of_nat k).
  set (G := fun t : nat => s t * r ^ Z.of_nat t).
  replace (zsum kDegree F) with (zsum (i + (kDegree - i)) F)
    by (f_equal; lia).
  replace (zsum kDegree G) with (zsum ((kDegree - i) + i) G)
    by (f_equal; lia).
  rewrite !zsum_split, Z.mul_add_distr_l, <- !zsum_mul_l, Z.add_comm.
  unfold F, G.
  apply eqq_add.
  - apply eqq_intro. f_equal. apply zsum_ext. intros t Ht.
    replace (i <=? i + t)%nat with true by (symmetry; apply Nat.leb_le; lia).
    replace (i + t - i)%nat with t by lia. rewrite pow_nat_add. ring.
  - apply zsum_eqq. intros t Ht.
    replace (i <=? t)%nat with false by (symmetry; apply Nat.leb_gt; lia).
    replace (kDegree + t - i)%nat with (kDegree - i + t)%nat by lia.
    replace (r ^ Z.of_nat i
             * (s (kDegree - i + t)%nat * r ^ Z.of_nat (kDegree - i + t)))
      with (s (kDegree - i + t)%nat * r ^ Z.of_nat t
            * r ^ Z.of_nat (i + (kDegree - i))).
    2:{ rewrite !pow_nat_add. ring. }
    replace (i + (kDegree - i))%nat with kDegree by lia.
    change (Z.of_nat kDegree) with 256. rewrite Hr.
    apply eqq_intro. f_equal. ring.
Qed.

Lemma ev_negacyclic (c s : zfun) (r : Z) :
  eqq (r ^ 256) (-1) ->
  eqq (ev (negacyclic c s) r) (ev c r * ev s r).
Proof.
  intros Hr. unfold ev at 1, negacyclic.
  rewrite (zsum_ext _ _
             (fun k => zsum kDegree (fun i =>
                c i * ((if (i <=? k)%nat then s (k - i)%nat
                        else - s (kDegree + k - i)%nat) * r ^ Z.of_nat k)))).
  2:{ intros k Hk. rewrite <- zsum_mul_r. apply zsum_ext. intros. ring. }
  rewrite zsum_swap.
  unfold ev at 1. rewrite <- zsum_mul_r. apply zsum_eqq. intros i Hi.
  rewrite zsum_mul_l. rewrite (ev_shift s r i Hi Hr).
  apply eqq_intro. f_equal. apply Z.mul_assoc.
Qed.

Lemma centered_eqq (x : Z) : eqq (centered x) x.
Proof.
  unfold centered. destruct (x <=? kHalfPrime); [reflexivity|].
  apply eqq_intro. replace (x - kPrime) with (x + (-1) * kPrime) by ring.
  apply Z_mod_plus_full.
Qed.

(** The product that signing computes through the transform is the product
    of the polynomials modulo [X^256 + 1]. *)
Lemma scalar_product_negacyclic (s c : scalar) (k : nat) :
  wf_scalar s -> wf_scalar c -> (k < kDegree)%nat ->
  coef (scalar_inverse_ntt (scalar_mult (scalar_ntt s) (scalar_ntt c))) k
  = negacyclic (fun i => centered (coef c i)) (fun i => centered (coef s i)) k
    mod kPrime.
Proof.
  intros Hs Hc Hk.
  set (P := scalar_build (fun k =>
              negacyclic (fun i => centered (coef c i))
                (fun i => centered (coef s i)) k mod kPrime)).
  assert (HP : wf_scalar P).
  { apply wf_scalar_build. intros i Hi. apply Z.mod_pos_bound.
    unfold kPrime. lia. }
  pose proof (scalar_ntt_wf s Hs) as Hsn.
  pose proof (scalar_ntt_wf c Hc) as Hcn.
  assert (E : scalar_inverse_ntt (scalar_mult (scalar_ntt s) (scalar_ntt c)) = P).
  { apply scalar_ntt_inj;
      [apply scalar_inverse_ntt_wf, scalar_mult_wf; assumption | exact HP |].
    intros j Hj.
    rewrite (scalar_ntt_inverse_mult _ _ j Hsn Hcn Hj).
    rewrite (scalar_ntt_ev s j Hs Hj), (scalar_ntt_ev c j Hc Hj),
      (scalar_ntt_ev P j HP Hj).
    rewrite (ev_eqq (coef P)
               (negacyclic (fun i => centered (coef c i))
                  (fun i => centered (coef s i)))).
    2:{ intros t Ht. unfold P. rewrite coef_scalar_build by exact Ht.
        apply eqq_mod. }
    rewrite ev_negacyclic by (apply ntt_root_order; exact Hj).
    rewrite (ev_eqq (fun i => centered (coef c i)) (coef c))
      by (intros; apply centered_eqq).
    rewrite (ev_eqq (fun i => centered (coef s i)) (coef s))
      by (intros; apply centered_eqq).
    apply eqq_intro. f_equal. apply Z.mul_comm. }
  rewrite E. unfold P. apply coef_scalar_build. exact Hk.
Qed.

Lemma negacyclic_bound (c s : zfun) (B : Z) (k : nat) :
  (k < kDegree)%nat ->
  (forall j, (j < kDegree)%nat -> Z.abs (s j) <= B) ->
  Z.abs (negacyclic c s k) <= B * zsum kDegree (fun i => Z.abs (c i)).
Proof.
  intros Hk Hs. unfold negacyclic. rewrite <- zsum_mul_l.
  apply zsum_abs_le. intros i Hi. rewrite Z.abs_mul.
  assert (H : Z.abs (if (i <=? k)%nat then s (k - i)%nat
                     else - s (kDegree + k - i)%nat) <= B).
  { destruct (Nat.leb_spec i k).
    - apply Hs. lia.
    - rewrite Z.abs_opp. apply Hs. lia. }
  pose proof (Z.abs_nonneg (c i)). nia.
Qed.

Lemma zsum_shift (n : nat) (f : nat -> Z) :
  zsum (S n) f = f 0%nat + zsum n (fun i => f (S i)).
Proof.
  induction n as [| n IH]; [cbn [zsum]; ring|].
  change (zsum (S (S n)) f) with (zsum (S n) f + f (S n)).
  rewrite IH. cbn [zsum]. ring.
Qed.

Lemma zsum_count (l : list Z) :
  zsum (length l) (fun i => if nth i l 0 =? 0 then 0 else 1)
  = Z.of_nat (count_nonzero l).
Proof.
  unfold count_nonzero. induction l as [| x l IH]; [reflexivity|].
  cbn [length]. rewrite zsum_shift. cbn [nth filter].
  rewrite IH. destruct (x =? 0); cbn [negb length]; lia.
Qed.

Lemma in_ball_weight (w : nat) (c : scalar) :
  in_ball w c ->
  zsum kDegree (fun i => Z.abs (centered (coef c i))) = Z.of_nat w.
Proof.
  intros (Hl & Hw & Hc). rewrite <- Hw, <- zsum_count, Hl.
  apply zsum_ext. intros i Hi. fold (coef c i).
  destruct (Hc i Hi) as [E | [E | E]]; rewrite E; reflexivity.
Qed.

Lemma in_ball_wf (w : nat) (c : scalar) : in_ball w c -> wf_scalar c.
Proof.
  intros (Hl & _ & Hc). split; [exact Hl|]. intros i Hi.
  destruct (Hc i Hi) as [E | [E | E]]; rewrite E; unfold kPrime; lia.
Qed.

Lemma centered_mod_small (x : Z) :
  Z.abs x <= kHalfPrime -> centered (x mod kPrime) = x.
Proof.
  unfold centered. change kHalfPrime with 4190208. change kPrime with 8380417.
  intros H.
  destruct (Z.leb_spec (x mod 8380417) 4190208);
    Z.div_mod_to_equations; lia.
Qed.

(** The product of a challenge with a short polynomial is short. *)
Lemma challenge_product_bound (s c : scalar) (B : Z) (k : nat) :
  wf_scalar s -> in_ball tau c -> (k < kDegree)%nat -> 0 <= B <= 10000 ->
  (forall j, (j < kDegree)%nat -> Z.abs (centered (coef s j)) <= B) ->
  Z.abs (centered
           (coef (scalar_inverse_ntt
                    (scalar_mult (scalar_ntt s) (scalar_ntt c))) k))
  <= B * Z.of_nat tau.
Proof.
  intros Hs Hc Hk HB Hb.
  rewrite scalar_product_negacyclic
    by (try exact Hs; try exact Hk; apply (in_ball_wf tau); exact Hc).
  pose proof (negacyclic_bound (fun i => centered (coef c i))
                (fun i => centered (coef s i)) B k Hk Hb) as H.
  cbv beta in H. rewrite (in_ball_weight tau c Hc) in H.
  rewrite centered_mod_small; [exact H|].
  change kHalfPrime with 4190208. unfold tau in *. lia.
Qed.

#[local] Transparent scalar_ntt scalar_inverse_ntt scalar_add scalar_sub
  scalar_mult matrix_row.

(** ** Hints recover the high bits *)

Lemma high_bits_stable (w s : Z) :
  0 <= w < kPrime -> 0 <= s < kPrime ->
  Z.abs (centered s) <= beta ->
  Z.abs (low_bits (mod_sub w s)) < kGamma2 - beta ->
  high_bits (mod_sub w s) = high_bits w.
Proof.
  intros Hw Hs Hc Hl.
  rewrite mod_sub_mod in * by assumption.
  assert (Hv : 0 <= (w - s) mod kPrime < kPrime)
    by (apply Z.mod_pos_bound; unfold kPrime; lia).
  unfold low_bits in Hl. rewrite decompose_eq in Hl by exact Hv.
  cbn [snd] in Hl.
  rewrite !high_bits_eq in * by assumption.
  unfold centered in Hc.
  change kHalfPrime with 4190208 in *. change kPrime with 8380417 in *.
  change kGamma2 with 261888 in *. change beta with 196 in *.
  change (2 * 261888) with 523776 in *. change (261888 - 1) with 261887 in *.
  change (261888 - 196) with 261692 in *.
  destruct (Z.leb_spec s 4190208);
  destruct (Z.ltb_spec 4190208
             ((w - s) mod 8380417
              - ((w - s) mod 8380417 + 261887) / 523776 mod 16 * 523776));
    Z.div_mod_to_equations; lia.
Qed.

Lemma land_15_mod (x : Z) : Z.land x 15 = x mod 16.
Proof. change 15 with (Z.ones 4). rewrite Z.land_ones by lia. reflexivity. Qed.

Lemma use_hint_make_hint (w cs2 ct0 : Z) :
  0 <= w < kPrime -> 0 <= cs2 < kPrime -> 0 <= ct0 < kPrime ->
  Z.abs (centered ct0) < kGamma2 ->
  use_hint_vartime (make_hint ct0 cs2 w)
    (reduce_once (u32 (mod_sub w cs2 + ct0)))
  = high_bits (mod_sub w cs2).
Proof.
  intros Hw Hs Ht Hc. unfold make_hint.
  pose proof (mod_sub_range w cs2 Hw Hs) as Hv.
  set (v := mod_sub w cs2) in *.
  rewrite u32_small by (unfold kPrime in *; lia).
  rewrite reduce_once_mod by (unfold kPrime in *; lia).
  assert (Hr : 0 <= (v + ct0) mod kPrime < kPrime)
    by (apply Z.mod_pos_bound; unfold kPrime; lia).
  set (r := (v + ct0) mod kPrime) in *.
  unfold use_hint_vartime. rewrite decompose_eq by exact Hr.
  pose proof (high_bits_range r) as Hhr.
  pose proof (high_bits_range v) as Hhv.
  assert (Eu1 : Z.land (u32 (high_bits r + 1)) 15 = (high_bits r + 1) mod 16).
  { rewrite u32_small by lia. apply land_15_mod. }
  assert (Eu2 : Z.land (u32 (high_bits r - 1)) 15 = (high_bits r - 1) mod 16).
  { rewrite land_15_mod, u32_mod.
    Z.div_mod_to_equations. lia. }
  rewrite Eu1, Eu2. clear Eu1 Eu2.
  pose proof (high_bits_eq r Hr) as Er.
  pose proof (high_bits_eq v Hv) as Ev.
  assert (Erv : r = (v + ct0) mod kPrime) by reflexivity.
  clearbody r v.
  destruct (Z.eqb_spec (high_bits r) (high_bits v)) as [E | E].
  - cbn. exact E.
  - cbn [Z.eqb negb].
    unfold centered in Hc.
    change kHalfPrime with 4190208 in *. change kPrime with 8380417 in *.
    change kGamma2 with 261888 in *.
    change (2 * 261888) with 523776 in *. change (261888 - 1) with 261887 in *.
    generalize dependent (high_bits r). generalize dependent (high_bits v).
    intros hv Hhv Ev hr Hhr Er E.
    destruct (Z.leb_spec ct0 4190208);
    destruct (Z.ltb_spec 4190208 (r - hr * 523776));
    match goal with
    | |- context [0 <? ?x] => destruct (Z.ltb_spec 0 x)
    end;
    Z.div_mod_to_equations; lia.
Qed.

(** ** Norms and counts *)

Lemma maximum_spec (x y : Z) :
  0 <= x < 2 ^ 32 -> 0 <= y < 2 ^ 32 -> maximum x y = Z.max x y.
Proof.
  intros Hx Hy. unfold maximum. rewrite select_lt by assumption.
  destruct (Z.ltb_spec x y); lia.
Qed.

Lemma abs_mod_prime_spec (x : Z) :
  0 <= x < kPrime -> abs_mod_prime x = Z.abs (centered x).
Proof.
  intros Hx. unfold abs_mod_prime, centered.
  assert (Hu : u32 (kPrime - x) = kPrime - x)
    by (apply u32_small; unfold kPrime in *; lia).
  rewrite select_lt by (rewrite ?Hu; unfold kPrime in *; lia).
  rewrite Hu. change kHalfPrime with 4190208. unfold kPrime in *.
  destruct (Z.ltb_spec 4190208 x); destruct (Z.leb_spec x 4190208); lia.
Qed.

Lemma abs_signed_spec (x : Z) :
  - 2 ^ 31 < x < 2 ^ 31 -> abs_signed (u32 x) = Z.abs x.
Proof.
  intros Hx. unfold abs_signed.
  pose proof (u32_range x) as Hr.
  pose proof (u32_range (0 - u32 x)) as Hr'.
  rewrite select_lt by lia.
  rewrite !u32_mod in *.
  destruct (Z.ltb_spec (x mod 2 ^ 32) 2147483648);
    Z.div_mod_to_equations; lia.
Qed.

Lemma fold_max_generic (F : Z -> nat -> Z) (b : nat -> Z -> Prop)
  (l : list nat) (m0 : Z) :
  0 <= m0 < 2 ^ 32 ->
  (forall m i, 0 <= m < 2 ^ 32 -> In i l ->
     0 <= F m i < 2 ^ 32 /\ m <= F m i /\ forall x, b i x -> x <= F m i) ->
  0 <= fold_left F l m0 < 2 ^ 32 /\ m0 <= fold_left F l m0 /\
  forall i x, In i l -> b i x -> x <= fold_left F l m0.
Proof.
  revert m0. induction l as [| a l IH]; intros m0 H0 H.
  - cbn [fold_left]. repeat split; try lia. intros i x [].
  - cbn [fold_left].
    destruct (H m0 a H0 (or_introl eq_refl)) as (H1 & H2 & H3).
    destruct (IH (F m0 a) H1) as (I1 & I2 & I3).
    { intros m i Hm Hi. apply H; [exact Hm | right; exact Hi]. }
    split; [exact I1|]. split; [lia|].
    intros i x [-> | Hi] Hb.
    + specialize (H3 x Hb). lia.
    + apply (I3 i x Hi Hb).
Qed.

Lemma scalar_max_spec (s : scalar) (m0 : Z) :
  wf_scalar s -> 0 <= m0 < 2 ^ 32 ->
  0 <= scalar_max m0 s < 2 ^ 32 /\ m0 <= scalar_max m0 s /\
  forall k, (k < kDegree)%nat ->
    Z.abs (centered (coef s k)) <= scalar_max m0 s.
Proof.
  intros Hs H0. unfold scalar_max.
  destruct (fold_max_generic
              (fun max i => maximum max (abs_mod_prime (coef s i)))
              (fun i x => x = Z.abs (centered (coef s i)))
              (seq 0 kDegree) m0 H0) as (H1 & H2 & H3).
  - intros m i Hm Hi. apply in_seq in Hi.
    pose proof (wf_coef s i Hs ltac:(lia)) as Hc.
    pose proof (abs_mod_prime_spec _ Hc) as Ea.
    assert (Hr : 0 <= abs_mod_prime (coef s i) < 2 ^ 32).
    { rewrite Ea. unfold centered. change kHalfPrime with 4190208.
      unfold kPrime in *. destruct (Z.leb_spec (coef s i) 4190208); lia. }
    rewrite maximum_spec by assumption.
    split; [lia|]. split; [lia|]. intros x ->. lia.
  - split; [exact H1|]. split; [exact H2|].
    intros k Hk. apply (H3 k); [apply in_seq; lia | reflexivity].
Qed.

Lemma vector_max_spec (X : nat) (v : vector) :
  wf_vector X v ->
  forall i k, (i < X)%nat -> (k < kDegree)%nat ->
    Z.abs (centered (coef (vec v i) k)) <= vector_max X v.
Proof.
  intros Hv. unfold vector_max.
  destruct (fold_max_generic
              (fun max i => scalar_max max (vec v i))
              (fun i x => exists k, (k < kDegree)%nat /\
                                    x = Z.abs (centered (coef (vec v i) k)))
              (seq 0 X) 0 ltac:(lia)) as (H1 & H2 & H3).
  - intros m i Hm Hi. apply in_seq in Hi.
    destruct (scalar_max_spec (vec v i) m (wf_vec X v i Hv ltac:(lia)) Hm)
      as (S1 & S2 & S3).
    split; [exact S1|]. split; [exact S2|].
    intros x (k & Hk & ->). apply S3. exact Hk.
  - intros i k Hi Hk. apply (H3 i); [apply in_seq; lia|].
    exists k. split; [exact Hk | reflexivity].
Qed.

Lemma scalar_max_signed_spec (f : nat -> Z) (m0 : Z) :
  (forall k, (k < kDegree)%nat -> - 2 ^ 31 < f k < 2 ^ 31) ->
  0 <= m0 < 2 ^ 32 ->
  0 <= scalar_max_signed m0 (scalar_build (fun k => u32 (f k))) < 2 ^ 32 /\
  m0 <= scalar_max_signed m0 (scalar_build (fun k => u32 (f k))) /\
  forall k, (k < kDegree)%nat ->
    Z.abs (f k) <= scalar_max_signed m0 (scalar_build (fun k => u32 (f k))).
Proof.
  intros Hf H0. unfold scalar_max_signed.
  destruct (fold_max_generic
              (fun max i =>
                 maximum max
                   (abs_signed (coef (scalar_build (fun k => u32 (f k))) i)))
              (fun i x => x = Z.abs (f i))
              (seq 0 kDegree) m0 H0) as (H1 & H2 & H3).
  - intros m i Hm Hi. apply in_seq in Hi.
    rewrite coef_scalar_build by lia.
    rewrite abs_signed_spec by (apply Hf; lia).
    specialize (Hf i ltac:(lia)).
    rewrite maximum_spec by lia.
    split; [lia|]. split; [lia|]. intros x ->. lia.
  - split; [exact H1|]. split; [exact H2|].
    intros k Hk. apply (H3 k); [apply in_seq; lia | reflexivity].
Qed.

Lemma low_bits_range (x : Z) :
  0 <= x < kPrime -> Z.abs (low_bits x) <= kGamma2.
Proof.
  intros Hx. unfold low_bits. rewrite decompose_eq by exact Hx. cbn [snd].
  pose proof (high_bits_range x) as Hh.
  pose proof (high_bits_eq x Hx) as He.
  change kGamma2 with 261888 in *. change kHalfPrime with 4190208.
  change (2 * 261888) with 523776 in *. change (261888 - 1) with 261887 in He.
  unfold kPrime in *.
  destruct (Z.ltb_spec 4190208 (x - high_bits x * 523776));
    Z.div_mod_to_equations; lia.
Qed.

Lemma vector_max_signed_low_bits (X : nat) (v : vector) :
  wf_vector X v ->
  forall i k, (i < X)%nat -> (k < kDegree)%nat ->
    Z.abs (low_bits (coef (vec v i) k))
    <= vector_max_signed X (vector_low_bits X v).
Proof.
  intros Hv. unfold vector_max_signed.
  destruct (fold_max_generic
              (fun max i => scalar_max_signed max (vec (vector_low_bits X v) i))
              (fun i x => exists k, (k < kDegree)%nat /\
                                    x = Z.abs (low_bits (coef (vec v i) k)))
              (seq 0 X) 0 ltac:(lia)) as (H1 & H2 & H3).
  - intros m i Hm Hi. apply in_seq in Hi.
    unfold vector_low_bits. rewrite vec_vector_build by lia.
    unfold scalar_low_bits.
    destruct (scalar_max_signed_spec
                (fun k => low_bits (coef (vec v i) k)) m) as (S1 & S2 & S3).
    + intros k Hk.
      pose proof (low_bits_range _ (wf_coef _ k (wf_vec X v i Hv ltac:(lia)) Hk)).
      change kGamma2 with 261888 in *. lia.
    + exact Hm.
    + split; [exact S1|]. split; [exact S2|].
      intros x (k & Hk & ->). apply S3. exact Hk.
  - intros i k Hi Hk. apply (H3 i); [apply in_seq; lia|].
    exists k. split; [exact Hk | reflexivity].
Qed.

Lemma count_row (row : scalar) (n j : nat) (c0 : Z) :
  (forall j', (j' < j + n)%nat -> coef row j' = 0 \/ coef row j' = 1) ->
  0 <= c0 -> c0 + Z.of_nat n < 2 ^ 64 ->
  fold_left (fun count j' => u64 (count + coef row j')) (seq j n) c0
  = c0 + Z.of_nat (length (ones row j n)).
Proof.
  revert j c0. induction n as [| n IH]; intros j c0 H H0 Hn.
  - cbn. lia.
  - cbn [seq fold_left]. rewrite ones_cons.
    assert (Hj : coef row j = 0 \/ coef row j = 1) by (apply H; lia).
    rewrite u64_small by lia.
    rewrite IH by (try (intros; apply H); lia).
    destruct Hj as [-> | ->]; cbn [Z.eqb negb length]; lia.
Qed.

Lemma vector_count_ones_spec (h : vector) (n : nat) :
  (forall i, (i < n)%nat -> forall j, (j < kDegree)%nat ->
     coef (vec h i) j = 0 \/ coef (vec h i) j = 1) ->
  (n <= 1000)%nat ->
  vector_count_ones n h = Z.of_nat (hint_cum h n) /\
  (hint_cum h n <= n * kDegree)%nat.
Proof.
  intros H Hn. unfold vector_count_ones.
  induction n as [| n IH]; [split; reflexivity|].
  rewrite seq_S, fold_left_app. cbn [fold_left Nat.add].
  destruct IH as [IH1 IH2]; [intros; apply H; lia | lia |].
  rewrite IH1, hint_cum_S.
  rewrite count_row
    by (try (intros; apply H; lia); unfold kDegree in *; lia).
  pose proof (filter_length_le (fun j' => negb (coef (vec h n) j' =? 0))
                (seq 0 kDegree)) as Hle.
  rewrite length_seq in Hle. unfold ones. split; lia.
Qed.

(** ** Encodings *)

Lemma flat_map_chunk_length {A : Type} (f : nat -> list A) (n j m : nat) :
  (forall i, length (f i) = n) ->
  length (flat_map f (seq j m)) = (m * n)%nat.
Proof.
  intros H. revert j. induction m as [| m IH]; intros j; [reflexivity|].
  cbn [seq flat_map]. rewrite length_app, IH, H. lia.
Qed.

(** In a concatenation of chunks of [n] elements, chunk [i] starts at
    [n * i]. *)
Lemma flat_map_chunk_skipn {A : Type} (f : nat -> list A) (n m i : nat)
  (rest : list A) :
  (forall i, length (f i) = n) -> (i < m)%nat ->
  skipn (n * i) (flat_map f (seq 0 m) ++ rest)
  = f i ++ (flat_map f (seq (S i) (m - S i)) ++ rest).
Proof.
  intros H Hi.
  replace m with (i + S (m - S i))%nat at 1 by lia.
  rewrite seq_app, flat_map_app. cbn [Nat.add seq flat_map].
  rewrite <- !app_assoc.
  rewrite skipn_app.
  rewrite (flat_map_chunk_length f n 0 i H).
  replace (n * i - i * n)%nat with 0%nat by lia.
  rewrite skipn_all2 by (rewrite (flat_map_chunk_length f n 0 i H); lia).
  reflexivity.
Qed.

Lemma flat_map_chunk_nth {A : Type} (f : nat -> list A) (n m i j : nat)
  (rest : list A) (d : A) :
  (forall i, length (f i) = n) -> (i < m)%nat -> (j < n)%nat ->
  nth (n * i + j) (flat_map f (seq 0 m) ++ rest) d = nth j (f i) d.
Proof.
  intros H Hi Hj.
  rewrite <- (firstn_skipn (n * i) (flat_map f (seq 0 m) ++ rest)) at 1.
  assert (Hl : (n * i <= length (flat_map f (seq 0 m) ++ rest))%nat).
  { rewrite length_app, (flat_map_chunk_length f n 0 m H). nia. }
  rewrite app_nth2 by (rewrite length_firstn; lia).
  rewrite length_firstn, Nat.min_l by lia.
  replace (n * i + j - n * i)%nat with j by lia.
  rewrite (flat_map_chunk_skipn f n m i rest H Hi).
  apply app_nth1. rewrite H. exact Hj.
Qed.

Lemma lor_add_disjoint (a b n : Z) :
  0 <= a < 2 ^ n -> 0 <= n -> b mod 2 ^ n = 0 -> Z.lor a b = a + b.
Proof.
  intros Ha Hn Hb.
  assert (E : b = Z.shiftl (b / 2 ^ n) n).
  { rewrite Z.shiftl_mul_pow2 by lia.
    pose proof (Z.div_mod b (2 ^ n) ltac:(lia)). lia. }
  rewrite E at 1. rewrite lor_shiftl_add by assumption.
  pose proof (Z.div_mod b (2 ^ n) ltac:(lia)). lia.
Qed.

Lemma load_u32_local (b : list Z) (i : nat) :
  0 <= byte_at b i < 256 -> 0 <= byte_at b (i + 1) < 256 ->
  0 <= byte_at b (i + 2) < 256 -> 0 <= byte_at b (i + 3) < 256 ->
  load_u32 b i =
  byte_at b i + byte_at b (i + 1) * 2 ^ 8 + byte_at b (i + 2) * 2 ^ 16
  + byte_at b (i + 3) * 2 ^ 24.
Proof.
  intros H0 H1 H2 H3. unfold load_u32.
  rewrite (lor_shiftl_add (byte_at b i)) by lia.
  rewrite (lor_shiftl_add _ _ 16) by lia.
  rewrite (lor_shiftl_add _ _ 24) by lia. reflexivity.
Qed.

Lemma load_u16_local (b : list Z) (i : nat) :
  0 <= byte_at b i < 256 ->
  load_u16 b i = byte_at b i + byte_at b (i + 1) * 2 ^ 8.
Proof.
  intros H0. unfold load_u16.
  rewrite (lor_shiftl_add (byte_at b i)) by lia. reflexivity.
Qed.

Lemma u8_range (z : Z) : 0 <= u8 z < 256.
Proof. rewrite u8_mod. apply Z.mod_pos_bound. lia. Qed.

(** *** Twenty-bit signed coefficients *)

Lemma chunk_20_a (a b : Z) :
  0 <= a < 2 ^ 20 -> 0 <= b < 2 ^ 20 ->
  Z.lor a (u32 (Z.shiftl b 20)) = a + (b mod 2 ^ 12) * 2 ^ 20.
Proof.
  intros Ha Hb. rewrite Z.shiftl_mul_pow2, u32_mod by lia.
  rewrite (lor_add_disjoint a _ 20) by (try lia; Z.div_mod_to_equations; lia).
  Z.div_mod_to_equations. lia.
Qed.

Lemma chunk_20_b (b c d : Z) :
  0 <= b < 2 ^ 20 -> 0 <= c < 2 ^ 20 -> 0 <= d < 2 ^ 20 ->
  Z.lor (Z.lor (Z.shiftr b 12) (u32 (Z.shiftl c 8))) (u32 (Z.shiftl d 28))
  = b / 2 ^ 12 + c * 2 ^ 8 + (d mod 2 ^ 4) * 2 ^ 28.
Proof.
  intros Hb Hc Hd.
  rewrite !Z.shiftl_mul_pow2, Z.shiftr_div_pow2, !u32_mod by lia.
  rewrite (lor_add_disjoint (b / 2 ^ 12) _ 8)
    by (try lia; Z.div_mod_to_equations; lia).
  rewrite (lor_add_disjoint _ _ 28)
    by (try lia; Z.div_mod_to_equations; lia).
  Z.div_mod_to_equations. lia.
Qed.

Lemma load_store_u32 (b : list Z) (i : nat) (v : Z) :
  byte_at b i = u8 v -> byte_at b (i + 1) = u8 (Z.shiftr v 8) ->
  byte_at b (i + 2) = u8 (Z.shiftr v 16) ->
  byte_at b (i + 3) = u8 (Z.shiftr v 24) ->
  load_u32 b i = u32 v.
Proof.
  intros H0 H1 H2 H3.
  rewrite load_u32_local by (rewrite ?H0, ?H1, ?H2, ?H3; apply u8_range).
  rewrite H0, H1, H2, H3, !u8_mod, u32_mod, !Z.shiftr_div_pow2 by lia.
  Z.div_mod_to_equations. lia.
Qed.

Lemma load_store_u16 (b : list Z) (i : nat) (v : Z) :
  byte_at b i = u8 v -> byte_at b (i + 1) = u8 (Z.shiftr v 8) ->
  load_u16 b i = u16 v.
Proof.
  intros H0 H1.
  rewrite load_u16_local by (rewrite ?H0; apply u8_range).
  rewrite H0, H1, !u8_mod, u16_mod, !Z.shiftr_div_pow2 by lia.
  Z.div_mod_to_equations. lia.
Qed.

Lemma chunk_20_decode (x0 x1 x2 x3 : Z) :
  0 <= x0 < 2 ^ 20 -> 0 <= x1 < 2 ^ 20 -> 0 <= x2 < 2 ^ 20 ->
  0 <= x3 < 2 ^ 20 ->
  let A := u32 (Z.lor x0 (u32 (Z.shiftl x1 20))) in
  let B := u32 (Z.lor (Z.lor (Z.shiftr x1 12) (u32 (Z.shiftl x2 8)))
                  (u32 (Z.shiftl x3 28))) in
  let D := u16 (Z.shiftr x3 4) in
  Z.land A (Z.shiftl 1 20 - 1) = x0 /\
  Z.lor (Z.shiftr A 20) (u32 (Z.shiftl (Z.land B 255) 12)) = x1 /\
  Z.land (Z.shiftr B 8) (Z.shiftl 1 20 - 1) = x2 /\
  Z.lor (Z.shiftr B 28) (u32 (Z.shiftl D 4)) = x3.
Proof.
  intros H0 H1 H2 H3. cbv zeta.
  rewrite chunk_20_a, chunk_20_b by assumption.
  change (Z.shiftl 1 20 - 1) with (Z.ones 20). change 255 with (Z.ones 8).
  rewrite !Z.land_ones, !Z.shiftl_mul_pow2, !Z.shiftr_div_pow2, !u32_mod, u16_mod
    by lia.
  repeat match goal with |- _ /\ _ => split end.
  - Z.div_mod_to_equations. lia.
  - rewrite (lor_add_disjoint _ _ 12)
      by (try lia; Z.div_mod_to_equations; lia).
    Z.div_mod_to_equations. lia.
  - Z.div_mod_to_equations. lia.
  - rewrite (lor_add_disjoint _ _ 4)
      by (try lia; Z.div_mod_to_equations; lia).
    Z.div_mod_to_equations. lia.
Qed.

Lemma mod_sub_involutive (m x : Z) :
  0 <= m < kPrime -> 0 <= x < kPrime -> mod_sub m (mod_sub m x) = x.
Proof.
  intros Hm Hx.
  rewrite (mod_sub_mod m x) by assumption.
  rewrite mod_sub_mod
    by (try assumption; apply Z.mod_pos_bound; unfold kPrime; lia).
  unfold kPrime in *. Z.div_mod_to_equations. lia.
Qed.

Lemma mod_sub_signed_range (x : Z) :
  0 <= x < kPrime -> - 2 ^ 19 < centered x <= 2 ^ 19 ->
  0 <= mod_sub (Z.shiftl 1 19) x < 2 ^ 20.
Proof.
  intros Hx Hc. change (Z.shiftl 1 19) with 524288.
  rewrite mod_sub_mod by (unfold kPrime in *; lia).
  unfold centered in Hc. change kHalfPrime with 4190208 in Hc.
  unfold kPrime in *.
  destruct (Z.leb_spec x 4190208); Z.div_mod_to_equations; lia.
Qed.

Lemma flat_map_ext_In {A B : Type} (f g : A -> list B) (l : list A) :
  (forall a, In a l -> f a = g a) -> flat_map f l = flat_map g l.
Proof.
  induction l as [| a l IH]; intros H; [reflexivity|]. cbn [flat_map].
  rewrite (H a (or_introl eq_refl)), IH; [reflexivity|].
  intros b Hb. apply H. right. exact Hb.
Qed.

Lemma nth_flat_map_4 (f : nat -> list Z) (s : scalar) :
  length s = kDegree ->
  (forall i, (i < 64)%nat -> length (f i) = 4%nat) ->
  (forall i j, (i < 64)%nat -> (j < 4)%nat ->
     nth j (f i) 0 = coef s (4 * i + j)) ->
  flat_map f (seq 0 64) = s.
Proof.
  intros Hl Hlen H.
  set (g := fun i => map (fun j => coef s (4 * i + j)) (seq 0 4)).
  assert (E : flat_map f (seq 0 64) = flat_map g (seq 0 64)).
  { apply flat_map_ext_In. intros i Hi. apply in_seq in Hi.
    apply (nth_ext _ _ 0 0).
    - rewrite Hlen by lia. reflexivity.
    - intros j Hj. rewrite Hlen in Hj by lia. rewrite H by lia.
      unfold g. do 4 (destruct j as [| j]; [reflexivity|]). lia. }
  rewrite E.
  apply (nth_ext _ _ 0 0).
  - rewrite (flat_map_chunk_length g 4 0 64) by reflexivity. rewrite Hl.
    reflexivity.
  - intros k Hk.
    rewrite (flat_map_chunk_length g 4 0 64) in Hk by reflexivity.
    rewrite <- (app_nil_r (flat_map g (seq 0 64))).
    rewrite (Nat.div_mod_eq k 4).
    rewrite (flat_map_chunk_nth g 4 64 (k / 4) (k mod 4) [] 0)
      by (try reflexivity; try (apply Nat.mod_upper_bound; lia);
          apply Nat.Div0.div_lt_upper_bound; lia).
    unfold g.
    assert (Hm : (k mod 4 < 4)%nat) by (apply Nat.mod_upper_bound; lia).
    destruct (k mod 4)%nat as [| [| [| [| j]]]]; try reflexivity. lia.
Qed.

Lemma scalar_signed_20_roundtrip (s : scalar) (rest : list Z) :
  wf_scalar s ->
  (forall k, (k < kDegree)%nat ->
     - 2 ^ 19 < centered (coef s k) <= 2 ^ 19) ->
  scalar_decode_signed_20_19 (scalar_encode_signed_20_19 s ++ rest) = s.
Proof.
  intros Hs Hc. unfold scalar_decode_signed_20_19. cbv zeta.
  change (kDegree / 4)%nat with 64%nat.
  apply nth_flat_map_4; [apply Hs | reflexivity |].
  intros i j Hi Hj.
  assert (Hx : forall t, (t < 4)%nat ->
             0 <= mod_sub (Z.shiftl 1 19) (coef s (4 * i + t)) < 2 ^ 20).
  { intros t Ht. apply mod_sub_signed_range;
      [apply wf_coef; [exact Hs | unfold kDegree; lia]
      | apply Hc; unfold kDegree; lia]. }
  set (enc := scalar_encode_signed_20_19 s ++ rest).
  set (x0 := mod_sub (Z.shiftl 1 19) (coef s (4 * i))).
  set (x1 := mod_sub (Z.shiftl 1 19) (coef s (4 * i + 1))).
  set (x2 := mod_sub (Z.shiftl 1 19) (coef s (4 * i + 2))).
  set (x3 := mod_sub (Z.shiftl 1 19) (coef s (4 * i + 3))).
  set (A := Z.lor x0 (u32 (Z.shiftl x1 20))).
  set (B := Z.lor (Z.lor (Z.shiftr x1 12) (u32 (Z.shiftl x2 8)))
              (u32 (Z.shiftl x3 28))).
  set (D := Z.shiftr x3 4).
  assert (Hb : forall t, (t < 10)%nat ->
             byte_at enc (10 * i + t)
             = nth t (store_u32 A ++ store_u32 B ++ store_u16 D) 0).
  { intros t Ht. unfold byte_at, enc, scalar_encode_signed_20_19. cbv zeta.
    change (kDegree / 4)%nat with 64%nat.
    rewrite (flat_map_chunk_nth _ 10 64 i t rest 0); try lia; reflexivity. }
  assert (EA : load_u32 enc (10 * i) = u32 A).
  { apply load_store_u32.
    - rewrite <- (Nat.add_0_r (10 * i)). rewrite Hb by lia. reflexivity.
    - rewrite Hb by lia. reflexivity.
    - rewrite Hb by lia. reflexivity.
    - rewrite Hb by lia. reflexivity. }
  assert (EB : load_u32 enc (10 * i + 4) = u32 B).
  { apply load_store_u32; rewrite <- ?Nat.add_assoc; rewrite Hb by lia;
      reflexivity. }
  assert (ED : load_u16 enc (10 * i + 8) = u16 D).
  { apply load_store_u16; rewrite <- ?Nat.add_assoc; rewrite Hb by lia;
      reflexivity. }
  rewrite EA, EB, ED.
  assert (H0 : 0 <= x0 < 2 ^ 20).
  { unfold x0. replace (4 * i)%nat with (4 * i + 0)%nat by lia. apply Hx. lia. }
  destruct (chunk_20_decode x0 x1 x2 x3 H0 (Hx 1%nat ltac:(lia))
              (Hx 2%nat ltac:(lia)) (Hx 3%nat ltac:(lia)))
    as (E0 & E1 & E2 & E3).
  cbv zeta in E0, E1, E2, E3. fold A B D in E0, E1, E2, E3.
  assert (Hk : 0 <= Z.shiftl 1 19 < kPrime) by (cbn; unfold kPrime; lia).
  destruct j as [| [| [| [| j]]]]; [| | | | lia]; cbn [nth].
  - rewrite E0. unfold x0. rewrite Nat.add_0_r.
    apply mod_sub_involutive;
      [exact Hk | apply wf_coef; [exact Hs | unfold kDegree; lia]].
  - rewrite E1. unfold x1.
    apply mod_sub_involutive;
      [exact Hk | apply wf_coef; [exact Hs | unfold kDegree; lia]].
  - rewrite E2. unfold x2.
    apply mod_sub_involutive;
      [exact Hk | apply wf_coef; [exact Hs | unfold kDegree; lia]].
  - rewrite E3. unfold x3.
    apply mod_sub_involutive;
      [exact Hk | apply wf_coef; [exact Hs | unfold kDegree; lia]].
Qed.

Lemma vector_build_vec (X : nat) (f : nat -> scalar) (v : vector) :
  length v = X -> (forall i, (i < X)%nat -> f i = vec v i) ->
  vector_build X f = v.
Proof.
  intros Hl H. unfold vector_build.
  apply (nth_ext _ _ scalar_zero scalar_zero).
  - rewrite length_map, length_seq. lia.
  - intros i Hi. rewrite length_map, length_seq in Hi.
    rewrite (nth_indep _ scalar_zero (f 0%nat))
      by (rewrite length_map, length_seq; exact Hi).
    rewrite map_nth, seq_nth by exact Hi. apply H. exact Hi.
Qed.

Lemma scalar_encode_signed_20_19_length (s : scalar) :
  length (scalar_encode_signed_20_19 s) = 640%nat.
Proof.
  unfold scalar_encode_signed_20_19. cbv zeta.
  change (kDegree / 4)%nat with 64%nat.
  rewrite (flat_map_chunk_length _ 10 0 64); reflexivity.
Qed.

Lemma vector_encode_signed_20_length (X : nat) (z : vector) :
  length (vector_encode_signed_20 X z) = (X * 640)%nat.
Proof.
  unfold vector_encode_signed_20.
  apply flat_map_chunk_length. intros i.
  apply scalar_encode_signed_20_19_length.
Qed.

Lemma vector_signed_20_roundtrip (X : nat) (z : vector) (rest : list Z) :
  wf_vector X z ->
  (forall i k, (i < X)%nat -> (k < kDegree)%nat ->
     - 2 ^ 19 < centered (coef (vec z i) k) <= 2 ^ 19) ->
  vector_decode_signed_20 X (vector_encode_signed_20 X z ++ rest) = z.
Proof.
  intros Hz Hc. unfold vector_decode_signed_20.
  apply vector_build_vec; [apply Hz|]. intros i Hi.
  replace (i * 20 * kDegree / 8)%nat with (640 * i)%nat.
  2:{ unfold kDegree. replace (i * 20 * 256)%nat with (640 * i * 8)%nat by lia.
      rewrite Nat.div_mul by lia. reflexivity. }
  unfold vector_encode_signed_20.
  rewrite (flat_map_chunk_skipn _ 640 X i rest)
    by (try exact Hi; intros; apply scalar_encode_signed_20_19_length).
  apply scalar_signed_20_roundtrip; [apply (wf_vec X); assumption|].
  intros k Hk. apply Hc; assumption.
Qed.

(** *** Ten-bit coefficients *)

Lemma chunk_10_decode (a b c d : Z) :
  0 <= a < 2 ^ 10 -> 0 <= b < 2 ^ 10 -> 0 <= c < 2 ^ 10 -> 0 <= d < 2 ^ 10 ->
  let B0 := u8 a in
  let B1 := u8 (Z.lor (Z.shiftr a 8) (u32 (Z.shiftl b 2))) in
  let B2 := u8 (Z.lor (Z.shiftr b 6) (u32 (Z.shiftl c 4))) in
  let B3 := u8 (Z.lor (Z.shiftr c 4) (u32 (Z.shiftl d 6))) in
  let B4 := u8 (Z.shiftr d 2) in
  let v := B0 + B1 * 2 ^ 8 + B2 * 2 ^ 16 + B3 * 2 ^ 24 in
  Z.land v 1023 = a /\
  Z.land (Z.shiftr v 10) 1023 = b /\
  Z.land (Z.shiftr v 20) 1023 = c /\
  Z.lor (Z.shiftr v 30) (u32 (Z.shiftl B4 2)) = d.
Proof.
  intros Ha Hb Hc Hd. cbv zeta.
  rewrite !Z.shiftl_mul_pow2, !Z.shiftr_div_pow2, !u32_mod by lia.
  rewrite (lor_add_disjoint (a / 2 ^ 8) _ 2)
    by (try lia; Z.div_mod_to_equations; lia).
  rewrite (lor_add_disjoint (b / 2 ^ 6) _ 4)
    by (try lia; Z.div_mod_to_equations; lia).
  rewrite (lor_add_disjoint (c / 2 ^ 4) _ 6)
    by (try lia; Z.div_mod_to_equations; lia).
  rewrite !u8_mod.
  change 1023 with (Z.ones 10). rewrite !Z.land_ones by lia.
  repeat match goal with |- _ /\ _ => split end.
  - Z.div_mod_to_equations. lia.
  - Z.div_mod_to_equations. lia.
  - Z.div_mod_to_equations. lia.
  - rewrite (lor_add_disjoint _ _ 2)
      by (try lia; Z.div_mod_to_equations; lia).
    Z.div_mod_to_equations. lia.
Qed.

Lemma scalar_encode_10_length (s : scalar) :
  length (scalar_encode_10 s) = 320%nat.
Proof.
  unfold scalar_encode_10. change (kDegree / 4)%nat with 64%nat.
  rewrite (flat_map_chunk_length _ 5 0 64); reflexivity.
Qed.

Lemma scalar_10_roundtrip (s : scalar) (rest : list Z) :
  length s = kDegree ->
  (forall k, (k < kDegree)%nat -> 0 <= coef s k < 2 ^ 10) ->
  scalar_decode_10 (scalar_encode_10 s ++ rest) = s.
Proof.
  intros Hl Hc. unfold scalar_decode_10.
  change (kDegree / 4)%nat with 64%nat.
  apply nth_flat_map_4; [exact Hl | reflexivity |].
  intros i j Hi Hj.
  set (enc := scalar_encode_10 s ++ rest).
  set (a := coef s (4 * i)). set (b := coef s (4 * i + 1)).
  set (c := coef s (4 * i + 2)). set (d := coef s (4 * i + 3)).
  assert (Hb : forall t, (t < 5)%nat ->
             byte_at enc (5 * i + t)
             = nth t [u8 a;
                      u8 (Z.lor (Z.shiftr a 8) (u32 (Z.shiftl b 2)));
                      u8 (Z.lor (Z.shiftr b 6) (u32 (Z.shiftl c 4)));
                      u8 (Z.lor (Z.shiftr c 4) (u32 (Z.shiftl d 6)));
                      u8 (Z.shiftr d 2)] 0).
  { intros t Ht. unfold byte_at, enc, scalar_encode_10.
    change (kDegree / 4)%nat with 64%nat.
    rewrite (flat_map_chunk_nth _ 5 64 i t rest 0); try lia; reflexivity. }
  pose proof (Hb 0%nat ltac:(lia)) as E0. rewrite Nat.add_0_r in E0.
  pose proof (Hb 1%nat ltac:(lia)) as E1.
  pose proof (Hb 2%nat ltac:(lia)) as E2.
  pose proof (Hb 3%nat ltac:(lia)) as E3.
  pose proof (Hb 4%nat ltac:(lia)) as E4.
  cbn [nth] in E0, E1, E2, E3, E4.
  rewrite load_u32_local by (rewrite ?E0, ?E1, ?E2, ?E3; apply u8_range).
  rewrite E0, E1, E2, E3, E4.
  assert (Ha : 0 <= a < 2 ^ 10) by (apply Hc; unfold kDegree; lia).
  assert (Hb' : 0 <= b < 2 ^ 10) by (apply Hc; unfold kDegree; lia).
  assert (Hc' : 0 <= c < 2 ^ 10) by (apply Hc; unfold kDegree; lia).
  assert (Hd : 0 <= d < 2 ^ 10) by (apply Hc; unfold kDegree; lia).
  destruct (chunk_10_decode a b c d Ha Hb' Hc' Hd) as (F0 & F1 & F2 & F3).
  cbv zeta in F0, F1, F2, F3.
  destruct j as [| [| [| [| j]]]]; [| | | | lia]; cbn [nth].
  - rewrite F0. unfold a. rewrite Nat.add_0_r. reflexivity.
  - exact F1.
  - exact F2.
  - exact F3.
Qed.

Lemma vector_10_roundtrip (X : nat) (t1 : vector) (rest : list Z) :
  length t1 = X ->
  (forall i, (i < X)%nat -> length (vec t1 i) = kDegree) ->
  (forall i k, (i < X)%nat -> (k < kDegree)%nat ->
     0 <= coef (vec t1 i) k < 2 ^ 10) ->
  vector_decode_10 X (vector_encode X t1 10 ++ rest) = t1.
Proof.
  intros Hl Hlen Hc. unfold vector_decode_10.
  apply vector_build_vec; [exact Hl|]. intros i Hi.
  replace (i * 10 * kDegree / 8)%nat with (320 * i)%nat.
  2:{ unfold kDegree. replace (i * 10 * 256)%nat with (320 * i * 8)%nat by lia.
      rewrite Nat.div_mul by lia. reflexivity. }
  unfold vector_encode. cbn [Nat.eqb].
  rewrite (flat_map_chunk_skipn _ 320 X i rest)
    by (try exact Hi; intros; apply scalar_encode_10_length).
  apply scalar_10_roundtrip; [apply Hlen; exact Hi|].
  intros k Hk. apply Hc; assumption.
Qed.

Lemma vector_encode_10_length (X : nat) (t1 : vector) :
  length (vector_encode X t1 10) = (X * 320)%nat.
Proof.
  unfold vector_encode. cbn [Nat.eqb].
  apply flat_map_chunk_length. intros i. apply scalar_encode_10_length.
Qed.

(** ** What the samplers produce *)

Lemma collect_spec {A : Type} (l : list (option A)) (r : list A) :
  collect l = Some r ->
  length r = length l /\
  forall i d, (i < length l)%nat -> nth i l None = Some (nth i r d).
Proof.
  revert r. induction l as [| x l IH]; intros r H.
  - cbn in H. injection H as <-. split; [reflexivity|]. cbn. lia.
  - cbn [collect bind] in H. destruct x as [a|]; [|discriminate H].
    destruct (collect l) as [r'|] eqn:E; [|discriminate H].
    cbn [bind] in H. injection H as <-.
    destruct (IH r' eq_refl) as [H1 H2].
    split; [cbn; lia|]. intros i d Hi. destruct i as [| i]; [reflexivity|].
    cbn [nth]. apply H2. cbn in Hi. lia.
Qed.

Lemma collect_map_seq {A : Type} (f : nat -> option A) (n : nat) (r : list A) :
  collect (map f (seq 0 n)) = Some r ->
  length r = n /\ forall i d, (i < n)%nat -> f i = Some (nth i r d).
Proof.
  intros H. destruct (collect_spec _ _ H) as [H1 H2].
  rewrite length_map, length_seq in *. split; [exact H1|].
  intros i d Hi. rewrite <- (H2 i d Hi).
  rewrite (nth_indep _ None (f 0%nat)) by (rewrite length_map, length_seq; lia).
  rewrite map_nth, seq_nth by lia. reflexivity.
Qed.

Lemma collect_map_ext {A : Type} (f g : nat -> option A) (l : list nat)
  (r : list A) :
  (forall i a, In i l -> f i = Some a -> g i = Some a) ->
  collect (map f l) = Some r -> collect (map g l) = Some r.
Proof.
  revert r. induction l as [| x l IH]; intros r H E; [exact E|].
  cbn [map collect bind] in *.
  destruct (f x) as [a|] eqn:Ef; [|discriminate E].
  rewrite (H x a (or_introl eq_refl) Ef).
  destruct (collect (map f l)) as [r'|] eqn:Ec; [|discriminate E].
  rewrite (IH r'); [exact E | | reflexivity].
  intros i b Hi. apply H. right. exact Hi.
Qed.

Lemma lor_range (a b n : Z) :
  0 <= n -> 0 <= a < 2 ^ n -> 0 <= b < 2 ^ n -> 0 <= Z.lor a b < 2 ^ n.
Proof.
  intros Hn Ha Hb.
  assert (H0 : 0 <= Z.lor a b) by (apply Z.lor_nonneg; lia).
  split; [exact H0|].
  destruct (Z.eq_dec (Z.lor a b) 0) as [E | E]; [rewrite E; lia|].
  apply Z.log2_lt_pow2; [lia|]. rewrite Z.log2_lor by lia.
  destruct (Z.eq_dec a 0) as [-> | Ea]; destruct (Z.eq_dec b 0) as [-> | Eb].
  - cbn in E. lia.
  - rewrite Z.max_r by (cbn; apply Z.log2_nonneg).
    apply Z.log2_lt_pow2; lia.
  - rewrite Z.max_l by (cbn; apply Z.log2_nonneg).
    apply Z.log2_lt_pow2; lia.
  - apply Z.max_lub_lt; apply Z.log2_lt_pow2; lia.
Qed.

Lemma bytes_nth (b : list Z) (i : nat) : bytes b -> 0 <= nth i b 0 < 256.
Proof. apply byte_at_range. Qed.

Section Samplers.

Variable shake128 : list Z -> nat -> Z.
Variable shake256 : list Z -> nat -> Z.

Lemma squeeze_bytes (ctx : BORINGSSL_keccak_st) (n : nat) :
  bytes (fst (BORINGSSL_keccak_squeeze shake128 shake256 ctx n)) /\
  length (fst (BORINGSSL_keccak_squeeze shake128 shake256 ctx n)) = n.
Proof.
  unfold BORINGSSL_keccak_squeeze. cbn [fst]. split.
  - unfold bytes. apply Forall_forall. intros x Hx.
    apply in_map_iff in Hx. destruct Hx as (i & <- & _).
    unfold keccak_byte. apply u8_range.
  - rewrite length_map, length_seq. reflexivity.
Qed.

Lemma keccak_bytes (n : nat) (inp : list Z) (c : boringssl_keccak_config) :
  bytes (BORINGSSL_keccak shake128 shake256 n inp c) /\
  length (BORINGSSL_keccak shake128 shake256 n inp c) = n.
Proof. unfold BORINGSSL_keccak. apply squeeze_bytes. Qed.

(** *** The matrix *)

Lemma partial_scalar_snoc (P : Z -> Prop) (out : scalar) (v : Z) :
  partial_scalar P out -> (length out < kDegree)%nat -> P v ->
  partial_scalar P (out ++ [v]).
Proof.
  intros [H1 H2] Hl Hv. split.
  - rewrite length_app. cbn. lia.
  - apply Forall_app. split; [exact H2 | constructor; [exact Hv | constructor]].
Qed.

Lemma from_keccak_block_spec (n i : nat) (block : list Z) (out : scalar) :
  bytes block ->
  partial_scalar (fun x => 0 <= x < kPrime) out ->
  partial_scalar (fun x => 0 <= x < kPrime) (from_keccak_block n i block out).
Proof.
  intros Hb. revert i out. induction n as [| n IH]; intros i out Ho;
    [exact Ho|].
  cbn [from_keccak_block].
  destruct (Nat.ltb_spec (length out) kDegree) as [Hl | Hl]; [|exact Ho].
  cbv zeta.
  match goal with
  | |- context [if ?v <? kPrime then _ else _] =>
      destruct (Z.ltb_spec v kPrime) as [Hv | Hv]; [|apply IH; exact Ho];
      apply IH; apply partial_scalar_snoc; [exact Ho | exact Hl |];
      split; [|exact Hv]
  end.
  pose proof (byte_at_range block i Hb).
  pose proof (byte_at_range block (i + 1) Hb).
  pose proof (byte_at_range block (i + 2) Hb).
  apply Z.lor_nonneg. split; [apply Z.lor_nonneg; split; [lia|]|].
  - apply Z.shiftl_nonneg. lia.
  - apply Z.shiftl_nonneg. apply Z.land_nonneg. lia.
Qed.

Lemma partial_scalar_full (P : Z -> Prop) (out : scalar) :
  partial_scalar P out -> ~ (length out < kDegree)%nat ->
  length out = kDegree /\ forall i, (i < kDegree)%nat -> P (coef out i).
Proof.
  intros [H1 H2] Hl. split; [lia|]. intros i Hi.
  rewrite Forall_forall in H2. apply H2. apply nth_In. lia.
Qed.

Lemma from_keccak_loop_spec (fuel : nat) (ctx : BORINGSSL_keccak_st)
  (out s : scalar) :
  partial_scalar (fun x => 0 <= x < kPrime) out ->
  from_keccak_loop shake128 shake256 fuel ctx out = Some s -> wf_scalar s.
Proof.
  revert ctx out. induction fuel as [| fuel IH]; intros ctx out Ho H.
  - cbn [from_keccak_loop] in H.
    destruct (Nat.ltb_spec (length out) kDegree) as [Hl | Hl];
      [discriminate H|].
    injection H as <-. apply (partial_scalar_full _ out Ho). lia.
  - cbn [from_keccak_loop] in H.
    destruct (Nat.ltb_spec (length out) kDegree) as [Hl | Hl].
    + destruct (BORINGSSL_keccak_squeeze shake128 shake256 ctx 168)
        as [block ctx'] eqn:E.
      apply (IH ctx' _ (from_keccak_block_spec 56 0 block out
                          ltac:(pose proof (squeeze_bytes ctx 168) as Hs;
                                rewrite E in Hs; apply Hs) Ho) H).
    + injection H as <-. apply (partial_scalar_full _ out Ho). lia.
Qed.

Lemma from_keccak_loop_mono (fuel fuel' : nat) (ctx : BORINGSSL_keccak_st)
  (out s : scalar) :
  (fuel <= fuel')%nat ->
  from_keccak_loop shake128 shake256 fuel ctx out = Some s ->
  from_keccak_loop shake128 shake256 fuel' ctx out = Some s.
Proof.
  revert fuel' ctx out. induction fuel as [| fuel IH];
    intros fuel' ctx out Hle H.
  - cbn [from_keccak_loop] in H.
    destruct (Nat.ltb_spec (length out) kDegree) as [Hl | Hl];
      [discriminate H|].
    destruct fuel'; cbn [from_keccak_loop];
      (replace (length out <? kDegree)%nat with false
         by (symmetry; apply Nat.ltb_ge; exact Hl)); exact H.
  - destruct fuel' as [| fuel']; [lia|].
    cbn [from_keccak_loop] in *.
    destruct (length out <? kDegree)%nat; [|exact H].
    destruct (BORINGSSL_keccak_squeeze shake128 shake256 ctx 168)
      as [block ctx'].
    apply IH; [lia | exact H].
Qed.

Lemma scalar_from_keccak_wf (fuel : nat) (seed : list Z) (s : scalar) :
  scalar_from_keccak_vartime shake128 shake256 fuel seed = Some s ->
  wf_scalar s.
Proof.
  unfold scalar_from_keccak_vartime. apply from_keccak_loop_spec.
  split; [cbn; unfold kDegree; lia | constructor].
Qed.

Lemma matrix_expand_wf (fuel : nat) (rho : list Z) (a : matrix) :
  matrix_expand shake128 shake256 fuel rho = Some a -> wf_matrix K L a.
Proof.
  unfold matrix_expand. intros H i j Hi Hj.
  destruct (collect_map_seq _ K a H) as [H1 H2].
  specialize (H2 i [] Hi). cbv beta in H2.
  destruct (collect_map_seq _ L _ H2) as [H3 H4].
  specialize (H4 j scalar_zero Hj). cbv beta zeta in H4.
  unfold entry. apply (scalar_from_keccak_wf _ _ _ H4).
Qed.

Lemma matrix_expand_mono (fuel fuel' : nat) (rho : list Z) (a : matrix) :
  (fuel <= fuel')%nat ->
  matrix_expand shake128 shake256 fuel rho = Some a ->
  matrix_expand shake128 shake256 fuel' rho = Some a.
Proof.
  intros Hle. unfold matrix_expand.
  apply collect_map_ext. intros i row _.
  apply collect_map_ext. intros j s _. cbv zeta.
  unfold scalar_from_keccak_vartime. apply from_keccak_loop_mono. exact Hle.
Qed.

(** *** The secret vectors *)

Lemma coefficient_from_nibble_short (n v : Z) :
  0 <= n -> coefficient_from_nibble n = Some v ->
  0 <= v < kPrime /\ Z.abs (centered v) <= 4.
Proof.
  unfold coefficient_from_nibble. intros Hn H.
  destruct (Z.ltb_spec n 9) as [Hlt | Hge]; [|discriminate H].
  injection H as <-.
  rewrite mod_sub_mod by (unfold kPrime; lia).
  unfold centered. change kHalfPrime with 4190208. unfold kPrime.
  destruct (Z.leb_spec ((4 - n) mod 8380417) 4190208);
    Z.div_mod_to_equations; lia.
Qed.

Lemma uniform_block_spec (n i : nat) (block : list Z) (out : scalar) :
  bytes block ->
  partial_scalar (fun x => 0 <= x < kPrime /\ Z.abs (centered x) <= 4) out ->
  partial_scalar (fun x => 0 <= x < kPrime /\ Z.abs (centered x) <= 4)
    (uniform_block n i block out).
Proof.
  intros Hb. revert i out. induction n as [| n IH]; intros i out Ho;
    [exact Ho|].
  cbn [uniform_block].
  destruct (Nat.ltb_spec (length out) kDegree) as [Hl | Hl]; [|exact Ho].
  cbv zeta. apply IH.
  pose proof (byte_at_range block i Hb) as Hr.
  assert (H0 : 0 <= Z.land (byte_at block i) 15)
    by (apply Z.land_nonneg; lia).
  assert (H1 : 0 <= Z.shiftr (byte_at block i) 4)
    by (apply Z.shiftr_nonneg; lia).
  set (out1 := match coefficient_from_nibble (Z.land (byte_at block i) 15) with
               | Some v => out ++ [v]
               | None => out
               end).
  assert (Ho1 : partial_scalar
                  (fun x => 0 <= x < kPrime /\ Z.abs (centered x) <= 4) out1).
  { unfold out1.
    destruct (coefficient_from_nibble (Z.land (byte_at block i) 15))
      as [v|] eqn:E; [|exact Ho].
    apply partial_scalar_snoc; [exact Ho | exact Hl |].
    apply (coefficient_from_nibble_short _ _ H0 E). }
  destruct (Nat.ltb_spec (length out1) kDegree) as [Hl1 | Hl1]; [|exact Ho1].
  destruct (coefficient_from_nibble (Z.shiftr (byte_at block i) 4))
    as [v|] eqn:E; [|exact Ho1].
  apply partial_scalar_snoc; [exact Ho1 | exact Hl1 |].
  apply (coefficient_from_nibble_short _ _ H1 E).
Qed.

Lemma uniform_loop_spec (fuel : nat) (ctx : BORINGSSL_keccak_st)
  (out s : scalar) :
  partial_scalar (fun x => 0 <= x < kPrime /\ Z.abs (centered x) <= 4) out ->
  uniform_loop shake128 shake256 fuel ctx out = Some s ->
  wf_scalar s /\
  forall k, (k < kDegree)%nat -> Z.abs (centered (coef s k)) <= 4.
Proof.
  assert (Hfull : forall out : scalar,
             partial_scalar
               (fun x => 0 <= x < kPrime /\ Z.abs (centered x) <= 4) out ->
             (kDegree <= length out)%nat ->
             wf_scalar out /\
             forall k, (k < kDegree)%nat -> Z.abs (centered (coef out k)) <= 4).
  { intros o Ho Hl.
    destruct (partial_scalar_full _ o Ho ltac:(lia)) as [H1 H2].
    split; [split; [exact H1|]|]; intros k Hk; apply (H2 k Hk). }
  revert ctx out. induction fuel as [| fuel IH]; intros ctx out Ho H.
  - cbn [uniform_loop] in H.
    destruct (Nat.ltb_spec (length out) kDegree) as [Hl | Hl];
      [discriminate H|].
    injection H as <-. apply Hfull; assumption.
  - cbn [uniform_loop] in H.
    destruct (Nat.ltb_spec (length out) kDegree) as [Hl | Hl].
    + destruct (BORINGSSL_keccak_squeeze shake128 shake256 ctx 136)
        as [block ctx'] eqn:E.
      apply (IH ctx' _ (uniform_block_spec 136 0 block out
                          ltac:(pose proof (squeeze_bytes ctx 136) as Hs;
                                rewrite E in Hs; apply Hs) Ho) H).
    + injection H as <-. apply Hfull; assumption.
Qed.

Lemma scalar_uniform_short (fuel : nat) (seed : list Z) (s : scalar) :
  scalar_uniform shake128 shake256 fuel seed = Some s ->
  wf_scalar s /\
  forall k, (k < kDegree)%nat -> Z.abs (centered (coef s k)) <= 4.
Proof.
  unfold scalar_uniform. apply uniform_loop_spec.
  split; [cbn; unfold kDegree; lia | constructor].
Qed.

Lemma vector_expand_short_spec (fuel : nat) (sigma : list Z) (s1 s2 : vector) :
  vector_expand_short shake128 shake256 fuel sigma = Some (s1, s2) ->
  wf_vector L s1 /\ wf_vector K s2 /\
  forall i k, (i < K)%nat -> (k < kDegree)%nat ->
    Z.abs (centered (coef (vec s2 i) k)) <= 4.
Proof.
  unfold vector_expand_short. intros H.
  match type of H with
  | bind ?x _ = _ => destruct x as [v1|] eqn:E1; [|discriminate H]
  end.
  cbn [bind] in H.
  match type of H with
  | bind ?x _ = _ => destruct x as [v2|] eqn:E2; [|discriminate H]
  end.
  cbn [bind] in H. injection H as <- <-.
  destruct (collect_map_seq _ L v1 E1) as [H1 H2].
  destruct (collect_map_seq _ K v2 E2) as [H3 H4].
  split; [|split].
  - split; [exact H1|]. intros i Hi.
    apply (scalar_uniform_short _ _ _ (H2 i scalar_zero Hi)).
  - split; [exact H3|]. intros i Hi.
    apply (scalar_uniform_short _ _ _ (H4 i scalar_zero Hi)).
  - intros i k Hi Hk.
    apply (scalar_uniform_short _ _ _ (H4 i scalar_zero Hi)). exact Hk.
Qed.

(** *** The mask *)

Lemma load_u32_range' (b : list Z) (i : nat) :
  bytes b -> 0 <= load_u32 b i < 2 ^ 32.
Proof.
  intros H. rewrite load_u32_sum by exact H.
  pose proof (byte_at_range b i H). pose proof (byte_at_range b (i + 1) H).
  pose proof (byte_at_range b (i + 2) H). pose proof (byte_at_range b (i + 3) H).
  lia.
Qed.

Lemma load_u16_range (b : list Z) (i : nat) :
  bytes b -> 0 <= load_u16 b i < 2 ^ 16.
Proof.
  intros H. rewrite load_u16_sum by exact H.
  pose proof (byte_at_range b i H). pose proof (byte_at_range b (i + 1) H).
  lia.
Qed.

Lemma scalar_decode_signed_20_19_wf (inp : list Z) :
  bytes inp -> wf_scalar (scalar_decode_signed_20_19 inp).
Proof.
  intros Hb. unfold scalar_decode_signed_20_19. cbv zeta.
  change (kDegree / 4)%nat with 64%nat.
  change (Z.shiftl 1 20 - 1) with (Z.ones 20). change 255 with (Z.ones 8).
  change (Z.shiftl 1 19) with 524288.
  assert (Hm : forall v, 0 <= v < 2 ^ 20 -> 0 <= mod_sub 524288 v < kPrime).
  { intros v Hv. apply mod_sub_range; unfold kPrime; lia. }
  split.
  - rewrite (flat_map_chunk_length _ 4 0 64); reflexivity.
  - intros k Hk. unfold coef.
    match goal with
    | |- context [flat_map ?f _] =>
        rewrite <- (app_nil_r (flat_map f (seq 0 64)));
        rewrite (Nat.div_mod_eq k 4);
        rewrite (flat_map_chunk_nth f 4 64 (k / 4) (k mod 4) [] 0)
          by (try reflexivity; try (apply Nat.mod_upper_bound; lia);
              apply Nat.Div0.div_lt_upper_bound; unfold kDegree in Hk; lia)
    end.
    pose proof (load_u32_range' inp (10 * (k / 4)) Hb) as Ha.
    pose proof (load_u32_range' inp (10 * (k / 4) + 4) Hb) as Hb'.
    pose proof (load_u16_range inp (10 * (k / 4) + 8) Hb) as Hc.
    assert (Hmod : (k mod 4 < 4)%nat) by (apply Nat.mod_upper_bound; lia).
    destruct (k mod 4)%nat as [| [| [| [| j]]]]; [| | | | lia]; cbn [nth];
      apply Hm.
    + rewrite Z.land_ones by lia. apply Z.mod_pos_bound. lia.
    + apply lor_range; [lia | |].
      * rewrite Z.shiftr_div_pow2 by lia. Z.div_mod_to_equations. lia.
      * rewrite Z.land_ones, Z.shiftl_mul_pow2, u32_mod by lia.
        Z.div_mod_to_equations. lia.
    + rewrite Z.land_ones by lia. apply Z.mod_pos_bound. lia.
    + apply lor_range; [lia | |].
      * rewrite Z.shiftr_div_pow2 by lia. Z.div_mod_to_equations. lia.
      * rewrite Z.shiftl_mul_pow2, u32_mod by lia.
        Z.div_mod_to_equations. lia.
Qed.

Lemma vector_expand_mask_wf (X : nat) (seed : list Z) (kappa : nat) :
  wf_vector X (vector_expand_mask shake128 shake256 X seed kappa).
Proof.
  unfold vector_expand_mask. apply wf_vector_build. intros i Hi. cbv zeta.
  unfold scalar_sample_mask. apply scalar_decode_signed_20_19_wf.
  apply keccak_bytes.
Qed.

(** *** More fuel does not change the challenge *)

Lemma sample_in_ball_draw_mono (fuel fuel' : nat) ctx block offset i r :
  (fuel <= fuel')%nat ->
  sample_in_ball_draw shake128 shake256 fuel ctx block offset i = Some r ->
  sample_in_ball_draw shake128 shake256 fuel' ctx block offset i = Some r.
Proof.
  revert fuel' ctx block offset. induction fuel as [| fuel IH];
    intros fuel' ctx block offset Hle H; [discriminate H|].
  destruct fuel' as [| fuel']; [lia|].
  cbn [sample_in_ball_draw] in *.
  destruct (offset =? 136)%nat.
  - destruct (BORINGSSL_keccak_squeeze shake128 shake256 ctx 136)
      as [block' ctx'].
    destruct (Z.to_nat (byte_at block' 0) <=? i)%nat; [exact H|].
    apply IH; [lia | exact H].
  - destruct (Z.to_nat (byte_at block offset) <=? i)%nat; [exact H|].
    apply IH; [lia | exact H].
Qed.

Lemma sample_in_ball_loop_mono (fuel fuel' n i : nat) ctx block offset signs
  out c :
  (fuel <= fuel')%nat ->
  sample_in_ball_loop shake128 shake256 n i fuel ctx block offset signs out
  = Some c ->
  sample_in_ball_loop shake128 shake256 n i fuel' ctx block offset signs out
  = Some c.
Proof.
  intros Hle. revert i ctx block offset signs out.
  induction n as [| n IH]; intros i ctx block offset signs out H; [exact H|].
  cbn [sample_in_ball_loop] in *.
  destruct (sample_in_ball_draw shake128 shake256 fuel ctx block offset i)
    as [[[[byte ctx'] block'] offset']|] eqn:E; [|discriminate H].
  rewrite (sample_in_ball_draw_mono fuel fuel' _ _ _ _ _ Hle E).
  apply IH. exact H.
Qed.

Lemma sample_in_ball_mono (fuel fuel' : nat) (seed : list Z) (c : scalar) :
  (fuel <= fuel')%nat ->
  scalar_sample_in_ball_vartime shake128 shake256 fuel seed tau = Some c ->
  scalar_sample_in_ball_vartime shake128 shake256 fuel' seed tau = Some c.
Proof.
  intros Hle. unfold scalar_sample_in_ball_vartime.
  destruct (BORINGSSL_keccak_squeeze shake128 shake256 _ 136) as [block ctx].
  apply sample_in_ball_loop_mono. exact Hle.
Qed.

End Samplers.

#[local] Opaque scalar_ntt scalar_inverse_ntt scalar_add scalar_sub scalar_mult
  matrix_row.

(** ** Verification rebuilds the commitment *)

Lemma vector_build_ext (X : nat) (f g : nat -> scalar) :
  (forall i, (i < X)%nat -> f i = g i) -> vector_build X f = vector_build X g.
Proof.
  intros H. unfold vector_build. apply map_ext_in. intros i Hi.
  apply in_seq in Hi. apply H. lia.
Qed.

Lemma scalar_build_ext (f g : nat -> Z) :
  (forall i, (i < kDegree)%nat -> f i = g i) -> scalar_build f = scalar_build g.
Proof.
  intros H. unfold scalar_build. apply map_ext_in. intros i Hi.
  apply in_seq in Hi. apply H. lia.
Qed.

Lemma vec_power2_round_fst (X : nat) (t : vector) (i : nat) :
  (i < X)%nat ->
  vec (fst (vector_power2_round X t)) i = fst (scalar_power2_round (vec t i)).
Proof.
  intros Hi. unfold vector_power2_round. cbn [fst].
  apply vec_vector_build. exact Hi.
Qed.

Lemma vec_power2_round_snd (X : nat) (t : vector) (i : nat) :
  (i < X)%nat ->
  vec (snd (vector_power2_round X t)) i = snd (scalar_power2_round (vec t i)).
Proof.
  intros Hi. unfold vector_power2_round. cbn [snd].
  apply vec_vector_build. exact Hi.
Qed.

Lemma vector_power2_round_wf (X : nat) (t : vector) :
  wf_vector X t ->
  wf_vector X (fst (vector_power2_round X t)) /\
  wf_vector X (snd (vector_power2_round X t)).
Proof.
  intros Ht. unfold vector_power2_round. cbn [fst snd].
  split; apply wf_vector_build; intros i Hi.
  - exact (proj1 (scalar_power2_round_wf _ (wf_vec X t i Ht Hi))).
  - exact (proj2 (scalar_power2_round_wf _ (wf_vec X t i Ht Hi))).
Qed.

Lemma verify_high_bits (a : matrix) (s1 s2 y : vector) (c : scalar) :
  wf_matrix K L a -> wf_vector L s1 -> wf_vector K s2 -> wf_vector L y ->
  in_ball tau c ->
  (forall i k, (i < K)%nat -> (k < kDegree)%nat ->
     Z.abs (centered (coef (vec s2 i) k)) <= 4) ->
  forall c_ntt t t1 t0 w cs1 cs2 z ct0 h,
  c_ntt = scalar_ntt c ->
  t = vector_add K
        (vector_inverse_ntt K (matrix_mult K L a (vector_ntt L s1))) s2 ->
  t1 = fst (vector_power2_round K t) ->
  t0 = snd (vector_power2_round K t) ->
  w = vector_inverse_ntt K (matrix_mult K L a (vector_ntt L y)) ->
  cs1 = vector_inverse_ntt L (vector_mult_scalar L (vector_ntt L s1) c_ntt) ->
  cs2 = vector_inverse_ntt K (vector_mult_scalar K (vector_ntt K s2) c_ntt) ->
  z = vector_add L y cs1 ->
  ct0 = vector_inverse_ntt K (vector_mult_scalar K (vector_ntt K t0) c_ntt) ->
  h = vector_make_hint K ct0 cs2 w ->
  vector_max_signed K (vector_low_bits K (vector_sub K w cs2))
  < kGamma2 - beta ->
  vector_max K ct0 < kGamma2 ->
  vector_use_hint_vartime K h
    (vector_inverse_ntt K
       (vector_sub K (matrix_mult K L a (vector_ntt L z))
          (vector_mult_scalar K
             (vector_ntt K (vector_scale_power2_round K t1)) c_ntt)))
  = vector_high_bits K w.
Proof.
  intros Ha Hs1 Hs2 Hy Hc Hshort c_ntt t t1 t0 w cs1 cs2 z ct0 h
    Ec Et Et1 Et0 Ew Ecs1 Ecs2 Ez Ect0 Eh Hr0 Hct0.
  pose proof (in_ball_wf tau c Hc) as Hcw.
  pose proof (scalar_ntt_wf c Hcw) as Hcn. rewrite <- Ec in Hcn.
  pose proof (vector_ntt_wf L s1 Hs1) as Hs1n.
  pose proof (vector_ntt_wf L y Hy) as Hyn.
  pose proof (vector_ntt_wf K s2 Hs2) as Hs2n.
  assert (Ht : wf_vector K t).
  { subst t. apply vector_add_wf; [|exact Hs2].
    apply vector_inverse_ntt_wf, matrix_mult_wf; assumption. }
  destruct (vector_power2_round_wf K t Ht) as [Ht1 Ht0].
  rewrite <- Et1 in Ht1. rewrite <- Et0 in Ht0.
  assert (Hw : wf_vector K w).
  { subst w. apply vector_inverse_ntt_wf, matrix_mult_wf; assumption. }
  assert (Hcs2 : wf_vector K cs2).
  { subst cs2. apply vector_inverse_ntt_wf, vector_mult_scalar_wf; assumption. }
  assert (Hct0w : wf_vector K ct0).
  { subst ct0. apply vector_inverse_ntt_wf, vector_mult_scalar_wf;
      [apply vector_ntt_wf|]; assumption. }
  pose proof (vector_sub_wf K w cs2 Hw Hcs2) as Hsub.
  unfold vector_use_hint_vartime, vector_high_bits.
  apply vector_build_ext. intros i Hi.
  (* the row of the rebuilt commitment *)
  rewrite vec_vector_inverse_ntt, vec_vector_sub, vec_matrix_mult,
    vec_vector_mult_scalar, vec_vector_ntt by exact Hi.
  unfold vector_scale_power2_round. rewrite vec_vector_build by exact Hi.
  rewrite Et1, vec_power2_round_fst by exact Hi.
  assert (Eti : vec t i
                = scalar_add
                    (scalar_inverse_ntt (matrix_row L a i (vector_ntt L s1)))
                    (vec s2 i)).
  { rewrite Et, vec_vector_add, vec_vector_inverse_ntt, vec_matrix_mult
      by exact Hi. reflexivity. }
  assert (Ez' : z = vector_add L y
                      (vector_inverse_ntt L
                         (vector_mult_scalar L (vector_ntt L s1)
                            (scalar_ntt c)))).
  { rewrite Ez, Ecs1, Ec. reflexivity. }
  rewrite Ec.
  rewrite (verify_row a i s1 y (vec s2 i) c (fun j Hj => Ha i j Hi Hj)
             Hs1 Hy (wf_vec K s2 i Hs2 Hi) Hcw (vec t i) z Eti Ez').
  (* its rows are those of [w], [cs2] and [ct0] *)
  assert (Ewi : vec w i
                = scalar_inverse_ntt (matrix_row L a i (vector_ntt L y))).
  { rewrite Ew, vec_vector_inverse_ntt, vec_matrix_mult by exact Hi.
    reflexivity. }
  assert (Ecs2i : vec cs2 i
                  = scalar_inverse_ntt
                      (scalar_mult (scalar_ntt (vec s2 i)) (scalar_ntt c))).
  { rewrite Ecs2, Ec, vec_vector_inverse_ntt, vec_vector_mult_scalar,
      vec_vector_ntt by exact Hi. reflexivity. }
  assert (Ect0i : vec ct0 i
                  = scalar_inverse_ntt
                      (scalar_mult
                         (scalar_ntt (snd (scalar_power2_round (vec t i))))
                         (scalar_ntt c))).
  { rewrite Ect0, Ec, vec_vector_inverse_ntt, vec_vector_mult_scalar,
      vec_vector_ntt, Et0, vec_power2_round_snd by exact Hi. reflexivity. }
  rewrite <- Ewi, <- Ecs2i, <- Ect0i.
  unfold scalar_use_hint_vartime, scalar_high_bits.
  apply scalar_build_ext. intros k Hk.
  rewrite Eh. unfold vector_make_hint. rewrite vec_vector_build by exact Hi.
  unfold scalar_make_hint. rewrite coef_scalar_build by exact Hk.
  rewrite coef_scalar_add_raw, coef_scalar_sub_raw by exact Hk.
  pose proof (wf_coef _ k (wf_vec K w i Hw Hi) Hk) as Hwk.
  pose proof (wf_coef _ k (wf_vec K cs2 i Hcs2 Hi) Hk) as Hcs2k.
  pose proof (wf_coef _ k (wf_vec K ct0 i Hct0w Hi) Hk) as Hct0k.
  rewrite use_hint_make_hint; try assumption.
  2:{ pose proof (vector_max_spec K ct0 Hct0w i k Hi Hk). lia. }
  apply high_bits_stable; try assumption.
  - rewrite Ecs2i.
    pose proof (challenge_product_bound (vec s2 i) c 4 k
                  (wf_vec K s2 i Hs2 Hi) Hc Hk ltac:(lia)
                  (fun j Hj => Hshort i j Hi Hj)) as Hb.
    unfold tau, beta in *. lia.
  - pose proof (vector_max_signed_low_bits K (vector_sub K w cs2) Hsub i k
                  Hi Hk) as Hl.
    rewrite vec_vector_sub, coef_scalar_sub_raw in Hl by assumption. lia.
Qed.

#[local] Transparent scalar_ntt scalar_inverse_ntt scalar_add scalar_sub
  scalar_mult matrix_row.

#[local] Opaque scalar_ntt scalar_inverse_ntt scalar_add scalar_sub scalar_mult
  matrix_row.

(** ** Signing, then verifying *)

Lemma bytes_eqb_refl (a : list Z) : bytes_eqb a a = true.
Proof.
  induction a as [| x a IH]; [reflexivity|]. cbn [bytes_eqb].
  rewrite Z.eqb_refl, IH. reflexivity.
Qed.

Lemma ge_or_zero (a b c d : Z) :
  Z.lor (constant_time_ge_w a b) (constant_time_ge_w c d) = 0 ->
  a < b /\ c < d.
Proof.
  unfold constant_time_ge_w.
  destruct (Z.ltb_spec a b) as [E1 | E1]; destruct (Z.ltb_spec c d) as [E2 | E2];
    cbn; intros E; try discriminate E; lia.
Qed.

Lemma ge_lt_or_zero (a b c d : Z) :
  Z.lor (constant_time_ge_w a b) (constant_time_lt_w c d) = 0 ->
  a < b /\ d <= c.
Proof.
  unfold constant_time_ge_w, constant_time_lt_w.
  destruct (Z.ltb_spec a b) as [E1 | E1]; destruct (Z.ltb_spec c d) as [E2 | E2];
    cbn; intros E; try discriminate E; lia.
Qed.

Lemma make_hint_bit (ct0 cs2 w : Z) :
  make_hint ct0 cs2 w = 0 \/ make_hint ct0 cs2 w = 1.
Proof. unfold make_hint. destruct (_ =? _); auto. Qed.

Lemma vector_make_hint_wf (ct0 cs2 w : vector) :
  vector_count_ones K (vector_make_hint K ct0 cs2 w) <= Z.of_nat omega ->
  wf_hint (vector_make_hint K ct0 cs2 w).
Proof.
  intros Hc.
  assert (Hbits : forall i, (i < K)%nat -> forall j, (j < kDegree)%nat ->
            coef (vec (vector_make_hint K ct0 cs2 w) i) j = 0 \/
            coef (vec (vector_make_hint K ct0 cs2 w) i) j = 1).
  { intros i Hi j Hj. unfold vector_make_hint.
    rewrite vec_vector_build by exact Hi. unfold scalar_make_hint.
    rewrite coef_scalar_build by exact Hj. apply make_hint_bit. }
  split; [apply vector_build_length|]. split.
  - intros i Hi. split; [|apply Hbits; exact Hi].
    unfold vector_make_hint. rewrite vec_vector_build by exact Hi.
    apply scalar_build_length.
  - destruct (vector_count_ones_spec _ K Hbits ltac:(unfold K; lia)) as [E _].
    rewrite E in Hc. apply Nat2Z.inj_le. exact Hc.
Qed.

Lemma firstn_app_exact {A : Type} (l1 l2 : list A) (n : nat) :
  length l1 = n -> firstn n (l1 ++ l2) = l1.
Proof.
  intros <-. rewrite firstn_app, Nat.sub_diag, firstn_all. cbn.
  apply app_nil_r.
Qed.

Lemma skipn_app_exact {A : Type} (l1 l2 : list A) (n : nat) :
  length l1 = n -> skipn n (l1 ++ l2) = l2.
Proof.
  intros <-. rewrite skipn_app, Nat.sub_diag, skipn_all. reflexivity.
Qed.

(** A marshalled signature parses back to the signature. *)
Lemma signature_roundtrip (sign : signature) (rest : list Z) :
  length (sig_c_tilde sign) = (2 * lambda_bytes)%nat ->
  wf_vector L (sig_z sign) ->
  (forall i k, (i < L)%nat -> (k < kDegree)%nat ->
     - 2 ^ 19 < centered (coef (vec (sig_z sign) i) k) <= 2 ^ 19) ->
  wf_hint (sig_h sign) ->
  exists encoded,
    mldsa_marshal_signature sign = Some encoded /\
    length encoded = MLDSA65_SIGNATURE_BYTES /\
    mldsa_parse_signature (encoded ++ rest) = Some sign.
Proof.
  intros Hc Hz Hb Hh.
  destruct (hint_bit_pack_packs (sig_h sign) (proj2 (proj2 Hh)))
    as (packed & Ep & Hp).
  pose proof (hint_unpack_packed _ _ Hh Hp) as Eu.
  assert (Hlp : length packed = (omega + K)%nat) by apply Hp.
  unfold mldsa_marshal_signature. rewrite Ep.
  eexists. split; [reflexivity|].
  pose proof (vector_encode_signed_20_length L (sig_z sign)) as Hlz.
  split.
  - rewrite !length_app, Hc, Hlz, Hlp. reflexivity.
  - unfold mldsa_parse_signature, CBS_get_bytes.
    rewrite <- !app_assoc.
    replace (length (sig_c_tilde sign ++ _) <? 2 * lambda_bytes)%nat with false
      by (symmetry; apply Nat.ltb_ge; rewrite length_app; lia).
    rewrite firstn_app_exact, skipn_app_exact by exact Hc.
    replace (length (vector_encode_signed_20 L (sig_z sign) ++ _) <? 640 * L)%nat
      with false
      by (symmetry; apply Nat.ltb_ge; rewrite length_app, Hlz; unfold L; lia).
    rewrite skipn_app_exact by (rewrite Hlz; reflexivity).
    replace (length (packed ++ rest) <? omega + K)%nat with false
      by (symmetry; apply Nat.ltb_ge; rewrite length_app; lia).
    rewrite firstn_app_exact by exact Hlp. rewrite Eu.
    replace (firstn (640 * L) (vector_encode_signed_20 L (sig_z sign)
                               ++ packed ++ rest))
      with (vector_encode_signed_20 L (sig_z sign) ++ [])
      by (rewrite app_nil_r; symmetry; apply firstn_app_exact;
          rewrite Hlz; reflexivity).
    rewrite vector_signed_20_roundtrip by assumption.
    destruct sign; reflexivity.
Qed.

Lemma power2_round_t1_range (r : Z) :
  0 <= r < kPrime -> 0 <= fst (power2_round r) < 2 ^ 10.
Proof.
  intros Hr. destruct (power2_round_parts r Hr) as (_ & H & _). exact H.
Qed.

Section SignVerify.

Variable shake128 : list Z -> nat -> Z.
Variable shake256 : list Z -> nat -> Z.

(** A marshalled public key parses back to the key and its hash. *)
Lemma public_key_roundtrip (rho : list Z) (t : vector) :
  length rho = kRhoBytes -> wf_vector K t ->
  let pub := {| pub_rho := rho; pub_t1 := fst (vector_power2_round K t);
                pub_public_key_hash := [] |} in
  length (mldsa_marshal_public_key pub) = MLDSA65_PUBLIC_KEY_BYTES /\
  mldsa_parse_public_key shake128 shake256 (mldsa_marshal_public_key pub)
  = Some {| pub_rho := rho; pub_t1 := fst (vector_power2_round K t);
            pub_public_key_hash :=
              BORINGSSL_keccak shake128 shake256 kTrBytes
                (mldsa_marshal_public_key pub) boringssl_shake256 |}.
Proof.
  intros Hr Ht pub.
  pose proof (vector_encode_10_length K (pub_t1 pub)) as Hl.
  unfold mldsa_marshal_public_key.
  change (pub_rho pub) with rho.
  rewrite firstn_all2 by lia.
  split; [rewrite length_app, Hl, Hr; reflexivity|].
  unfold mldsa_parse_public_key at 1, CBS_get_bytes.
  replace (length (rho ++ _) <? kRhoBytes)%nat with false
    by (symmetry; apply Nat.ltb_ge; rewrite length_app; lia).
  rewrite firstn_app_exact, skipn_app_exact by exact Hr.
  replace (length (vector_encode K (pub_t1 pub) 10) <? 320 * K)%nat with false
    by (symmetry; apply Nat.ltb_ge; rewrite Hl; unfold K; lia).
  rewrite skipn_all2 by (rewrite Hl; unfold K; lia).
  cbn [length Nat.eqb negb].
  rewrite firstn_all2 by (rewrite Hl; unfold K; lia).
  rewrite <- (app_nil_r (vector_encode K (pub_t1 pub) 10)) at 1.
  destruct (vector_power2_round_wf K t Ht) as [Ht1 _].
  rewrite vector_10_roundtrip; [reflexivity | apply Ht1 | |].
  - intros i Hi. apply (wf_vec K _ i Ht1 Hi).
  - intros i k Hi Hk. unfold pub. cbn [pub_t1].
    rewrite vec_power2_round_fst by exact Hi.
    unfold scalar_power2_round. cbn [fst].
    rewrite coef_scalar_build by exact Hk.
    apply power2_round_t1_range. apply wf_coef; [|exact Hk].
    apply (wf_vec K); assumption.
Qed.

Lemma matrix_expand_agree (f1 f2 : nat) (rho : list Z) (a1 a2 : matrix) :
  matrix_expand shake128 shake256 f1 rho = Some a1 ->
  matrix_expand shake128 shake256 f2 rho = Some a2 -> a1 = a2.
Proof.
  intros H1 H2.
  apply (matrix_expand_mono _ _ f1 (Nat.max f1 f2)) in H1; [|lia].
  apply (matrix_expand_mono _ _ f2 (Nat.max f1 f2)) in H2; [|lia].
  congruence.
Qed.

(** What key generation returns. *)
Lemma keygen_inv (fuel : nat) (entropy pk : list Z) (sk : private_key) :
  mldsa_generate_key_external_entropy shake128 shake256 fuel entropy
  = Some (pk, sk) ->
  exists a t,
    matrix_expand shake128 shake256 fuel (priv_rho sk) = Some a /\
    wf_matrix K L a /\ wf_vector L (priv_s1 sk) /\ wf_vector K (priv_s2 sk) /\
    (forall i k, (i < K)%nat -> (k < kDegree)%nat ->
       Z.abs (centered (coef (vec (priv_s2 sk) i) k)) <= 4) /\
    t = vector_add K
          (vector_inverse_ntt K
             (matrix_mult K L a (vector_ntt L (priv_s1 sk))))
          (priv_s2 sk) /\
    priv_t0 sk = snd (vector_power2_round K t) /\
    length (priv_rho sk) = kRhoBytes /\
    pk = mldsa_marshal_public_key
           {| pub_rho := priv_rho sk; pub_t1 := fst (vector_power2_round K t);
              pub_public_key_hash := [] |} /\
    priv_public_key_hash sk
    = BORINGSSL_keccak shake128 shake256 kTrBytes pk boringssl_shake256.
Proof.
  unfold mldsa_generate_key_external_entropy. cbv zeta.
  set (seed := BORINGSSL_keccak shake128 shake256
                 (kRhoBytes + kSigmaBytes + kKBytes) _ boringssl_shake256).
  destruct (matrix_expand shake128 shake256 fuel (slice seed 0 kRhoBytes))
    as [a|] eqn:Ea; [|discriminate].
  cbn [bind].
  destruct (vector_expand_short shake128 shake256 fuel
              (slice seed kRhoBytes kSigmaBytes)) as [[s1 s2]|] eqn:Es;
    [|discriminate].
  cbn [bind].
  set (t := vector_add K
              (vector_inverse_ntt K (matrix_mult K L a (vector_ntt L s1))) s2).
  destruct (vector_power2_round K t) as [t1 t0] eqn:Ep.
  intros H.
  assert (Epk : mldsa_marshal_public_key
                  {| pub_rho := slice seed 0 kRhoBytes; pub_t1 := t1;
                     pub_public_key_hash := [] |} = pk) by congruence.
  assert (Esk : {| priv_rho := slice seed 0 kRhoBytes;
                   priv_k := slice seed (kRhoBytes + kSigmaBytes) kKBytes;
                   priv_public_key_hash :=
                     BORINGSSL_keccak shake128 shake256 kTrBytes
                       (mldsa_marshal_public_key
                          {| pub_rho := slice seed 0 kRhoBytes; pub_t1 := t1;
                             pub_public_key_hash := [] |}) boringssl_shake256;
                   priv_s1 := s1; priv_s2 := s2; priv_t0 := t0 |} = sk)
    by congruence.
  clear H.
  destruct (vector_expand_short_spec _ _ _ _ _ _ Es) as (Hs1 & Hs2 & Hshort).
  exists a, t.
  rewrite <- Esk. cbn [priv_rho priv_s1 priv_s2 priv_t0 priv_public_key_hash].
  rewrite Ep. cbn [fst snd].
  split; [exact Ea|]. split; [apply (matrix_expand_wf _ _ _ _ _ Ea)|].
  split; [exact Hs1|]. split; [exact Hs2|]. split; [exact Hshort|].
  split; [reflexivity|]. split; [reflexivity|].
  split.
  { unfold slice. cbn [skipn]. rewrite length_firstn.
    pose proof (keccak_bytes shake128 shake256
                  (kRhoBytes + kSigmaBytes + kKBytes)
                  (firstn MLDSA_SEED_BYTES entropy ++ [Z.of_nat K; Z.of_nat L])
                  boringssl_shake256) as [_ Hl].
    fold seed in Hl. rewrite Hl. reflexivity. }
  split; [symmetry; exact Epk|]. rewrite <- Epk. reflexivity.
Qed.

(** A signature comes from an accepted attempt. *)
Lemma sign_loop_signed (fuel fuel_ball : nat) (mu rho_prime : list Z)
  (s1_ntt s2_ntt t0_ntt : vector) (a_ntt : matrix) (kappa : nat)
  (encoded : list Z) :
  sign_loop shake128 shake256 fuel fuel_ball mu rho_prime s1_ntt s2_ntt t0_ntt
    a_ntt kappa = Signed encoded ->
  exists kappa' sign,
    sign_attempt shake128 shake256 fuel_ball mu rho_prime s1_ntt s2_ntt t0_ntt
      a_ntt kappa' = Accepted sign /\
    mldsa_marshal_signature sign = Some encoded.
Proof.
  revert kappa. induction fuel as [| fuel IH]; intros kappa;
    cbn [sign_loop]; [discriminate|].
  destruct (sign_attempt shake128 shake256 fuel_ball mu rho_prime s1_ntt s2_ntt
              t0_ntt a_ntt kappa) as [| sign |] eqn:E.
  - apply IH.
  - destruct (mldsa_marshal_signature sign) as [e|] eqn:Em; [|discriminate].
    intros H. injection H as <-.
    exists kappa, sign. split; [exact E | exact Em].
  - discriminate.
Qed.

(** What a successful call of [MLDSA65_sign] has gone through. *)
Lemma sign_inv (fuel fuel_i : nat) (sk : private_key)
  (msg context randomizer encoded : list Z) :
  MLDSA65_sign shake128 shake256 fuel fuel_i sk msg context randomizer
  = Signed encoded ->
  (length context <= 255)%nat /\
  exists a rho_prime kappa sign,
    matrix_expand shake128 shake256 fuel_i (priv_rho sk) = Some a /\
    sign_attempt shake128 shake256 fuel_i
      (fst (BORINGSSL_keccak_squeeze shake128 shake256
              (BORINGSSL_keccak_absorb
                 (BORINGSSL_keccak_absorb
                    (BORINGSSL_keccak_absorb
                       (BORINGSSL_keccak_absorb
                          (BORINGSSL_keccak_init boringssl_shake256)
                          (priv_public_key_hash sk))
                       [0; u8 (Z.of_nat (length context))])
                    context)
                 msg)
              kMuBytes))
      rho_prime (vector_ntt L (priv_s1 sk)) (vector_ntt K (priv_s2 sk))
      (vector_ntt K (priv_t0 sk)) a kappa = Accepted sign /\
    mldsa_marshal_signature sign = Some encoded.
Proof.
  unfold MLDSA65_sign.
  destruct (Nat.ltb_spec 255 (length context)) as [Hctx | Hctx];
    [discriminate|].
  unfold mldsa_sign_internal. cbv zeta.
  destruct (matrix_expand shake128 shake256 fuel_i (priv_rho sk))
    as [a|] eqn:Ea; [|discriminate].
  intros H. split; [exact Hctx|].
  destruct (sign_loop_signed _ _ _ _ _ _ _ _ _ _ H) as (kappa & sign & H1 & H2).
  exists a. eexists. exists kappa, sign.
  split; [reflexivity|]. split; [exact H1 | exact H2].
Qed.

(** What an accepted attempt has computed and checked. *)
Lemma sign_attempt_accepted (fuel : nat) (mu rho_prime : list Z)
  (s1_ntt s2_ntt t0_ntt : vector) (a : matrix) (kappa : nat) (sign : signature) :
  sign_attempt shake128 shake256 fuel mu rho_prime s1_ntt s2_ntt t0_ntt a kappa
  = Accepted sign ->
  exists y c w cs2 ct0,
    y = vector_expand_mask shake128 shake256 L rho_prime kappa /\
    w = vector_inverse_ntt K (matrix_mult K L a (vector_ntt L y)) /\
    sig_c_tilde sign
    = fst (BORINGSSL_keccak_squeeze shake128 shake256
             (BORINGSSL_keccak_absorb
                (BORINGSSL_keccak_absorb
                   (BORINGSSL_keccak_init boringssl_shake256) mu)
                (w1_encode K (vector_high_bits K w)))
             (2 * lambda_bytes)) /\
    scalar_sample_in_ball_vartime shake128 shake256 fuel (sig_c_tilde sign) tau
    = Some c /\
    sig_z sign
    = vector_add L y
        (vector_inverse_ntt L (vector_mult_scalar L s1_ntt (scalar_ntt c))) /\
    cs2 = vector_inverse_ntt K (vector_mult_scalar K s2_ntt (scalar_ntt c)) /\
    ct0 = vector_inverse_ntt K (vector_mult_scalar K t0_ntt (scalar_ntt c)) /\
    sig_h sign = vector_make_hint K ct0 cs2 w /\
    vector_max L (sig_z sign) < gamma1 - beta /\
    vector_max_signed K (vector_low_bits K (vector_sub K w cs2))
    < kGamma2 - beta /\
    vector_max K ct0 < kGamma2 /\
    vector_count_ones K (sig_h sign) <= Z.of_nat omega.
Proof.
  unfold sign_attempt. cbv zeta.
  set (y := vector_expand_mask shake128 shake256 L rho_prime kappa).
  set (w := vector_inverse_ntt K (matrix_mult K L a (vector_ntt L y))).
  set (c_tilde := fst (BORINGSSL_keccak_squeeze shake128 shake256 _ _)).
  destruct (scalar_sample_in_ball_vartime shake128 shake256 fuel c_tilde tau)
    as [c|] eqn:Ec; [|discriminate].
  set (cs2 := vector_inverse_ntt K (vector_mult_scalar K s2_ntt (scalar_ntt c))).
  set (ct0 := vector_inverse_ntt K (vector_mult_scalar K t0_ntt (scalar_ntt c))).
  set (z := vector_add L y _).
  destruct (Z.eqb_spec
              (Z.lor (constant_time_ge_w (vector_max L z) (gamma1 - beta))
                 (constant_time_ge_w
                    (vector_max_signed K (vector_low_bits K (vector_sub K w cs2)))
                    (kGamma2 - beta))) 0) as [E1 | E1];
    cbn [negb]; [|discriminate].
  destruct (Z.eqb_spec
              (Z.lor (constant_time_ge_w (vector_max K ct0) kGamma2)
                 (constant_time_lt_w (Z.of_nat omega)
                    (vector_count_ones K (vector_make_hint K ct0 cs2 w)))) 0)
    as [E2 | E2]; cbn [negb]; [|discriminate].
  intros H. injection H as <-. cbn [sig_c_tilde sig_z sig_h].
  destruct (ge_or_zero _ _ _ _ E1) as [H1 H2].
  destruct (ge_lt_or_zero _ _ _ _ E2) as [H3 H4].
  exists y, c, w, cs2, ct0.
  repeat match goal with |- _ /\ _ => split end;
    try reflexivity; assumption.
Qed.

Lemma vector_max_bound (X : nat) (v : vector) (B : Z) :
  wf_vector X v -> vector_max X v < B ->
  forall i k, (i < X)%nat -> (k < kDegree)%nat ->
    Z.abs (centered (coef (vec v i) k)) < B.
Proof.
  intros Hv Hm i k Hi Hk. pose proof (vector_max_spec X v Hv i k Hi Hk). lia.
Qed.

(** X1: a signature made by [MLDSA65_sign] with a private key that
    [mldsa_generate_key_external_entropy] returned has 3309 bytes, the public
    key returned with the private key parses, and [MLDSA65_verify] accepts
    the signature under it for the same message and context, for every XOF
    and as soon as the loops of verification may run as long as those of
    signing did. *)
Theorem keygen_sign_verify (fuel_k fuel_s fuel_i : nat)
  (entropy msg context randomizer pk encoded : list Z) (sk : private_key) :
  mldsa_generate_key_external_entropy shake128 shake256 fuel_k entropy
  = Some (pk, sk) ->
  MLDSA65_sign shake128 shake256 fuel_s fuel_i sk msg context randomizer
  = Signed encoded ->
  length encoded = MLDSA65_SIGNATURE_BYTES /\
  exists pub,
    mldsa_parse_public_key shake128 shake256 pk = Some pub /\
    forall fuel, (fuel_i <= fuel)%nat ->
      MLDSA65_verify shake128 shake256 fuel pub encoded msg context
      = Some true.
Proof.
  intros Hkey Hsign.
  destruct (keygen_inv _ _ _ _ Hkey)
    as (a & t & Ea & Ha & Hs1 & Hs2 & Hshort & Et & Et0 & Hrho & Epk & Etr).
  destruct (public_key_roundtrip (priv_rho sk) t Hrho) as [Hlpk Eparse].
  { rewrite Et. apply vector_add_wf; [|exact Hs2].
    apply vector_inverse_ntt_wf, matrix_mult_wf;
      [exact Ha | apply vector_ntt_wf; exact Hs1]. }
  cbv zeta in Eparse. rewrite <- Epk in Eparse.
  (* signing *)
  destruct (sign_inv _ _ _ _ _ _ _ Hsign)
    as (Hctx & a' & rho_prime & kappa & sign & Ea' & Hatt & Hmar).
  assert (a' = a) by (apply (matrix_expand_agree _ _ _ _ _ Ea' Ea)).
  subst a'.
  destruct (sign_attempt_accepted _ _ _ _ _ _ _ _ _ Hatt)
    as (y & c & w & cs2 & ct0 & Ey & Ew & Ect & Ec & Ez & Ecs2 & Ect0 & Eh
        & Hz & Hr0 & Hct0 & Hones).
  assert (Hy : wf_vector L y) by (rewrite Ey; apply vector_expand_mask_wf).
  pose proof (sample_in_ball_in_ball _ _ _ _ _ Ec) as Hball.
  pose proof (in_ball_wf tau c Hball) as Hcw.
  assert (Hzw : wf_vector L (sig_z sign)).
  { rewrite Ez. apply vector_add_wf; [exact Hy|].
    apply vector_inverse_ntt_wf, vector_mult_scalar_wf;
      [apply vector_ntt_wf; exact Hs1 | apply scalar_ntt_wf; exact Hcw]. }
  assert (Hhw : wf_hint (sig_h sign)).
  { rewrite Eh in *. apply vector_make_hint_wf. exact Hones. }
  destruct (signature_roundtrip sign [])
    as (encoded' & Hm' & Hlen & Hparse); try assumption.
  { rewrite Ect. apply squeeze_bytes. }
  { intros i k Hi Hk.
    pose proof (vector_max_bound L _ _ Hzw Hz i k Hi Hk) as Hb.
    unfold gamma1, beta in Hb. lia. }
  assert (encoded' = encoded) by congruence. subst encoded'.
  rewrite app_nil_r in Hparse.
  split; [exact Hlen|].
  eexists. split; [exact Eparse|].
  (* verification *)
  intros fuel Hfuel. unfold MLDSA65_verify.
  replace (255 <? length context)%nat with false
    by (symmetry; apply Nat.ltb_ge; exact Hctx).
  rewrite Hlen, Nat.eqb_refl. cbn [negb orb].
  unfold mldsa_verify_internal.
  cbn [pub_rho pub_t1 pub_public_key_hash].
  rewrite <- Hlen at 1. rewrite firstn_all, Hparse.
  rewrite (matrix_expand_mono _ _ _ _ _ _ Hfuel Ea'). cbn [bind].
  rewrite (sample_in_ball_mono _ _ _ _ _ _ Hfuel Ec). cbn [bind].
  rewrite <- Etr.
  assert (Ehb : vector_use_hint_vartime K (sig_h sign)
                  (vector_inverse_ntt K
                     (vector_sub K
                        (matrix_mult K L a (vector_ntt L (sig_z sign)))
                        (vector_mult_scalar K
                           (vector_ntt K
                              (vector_scale_power2_round K
                                 (fst (vector_power2_round K t))))
                           (scalar_ntt c))))
                = vector_high_bits K w).
  { apply (verify_high_bits a (priv_s1 sk) (priv_s2 sk) y c Ha Hs1 Hs2 Hy Hball
             Hshort (scalar_ntt c) t (fst (vector_power2_round K t))
             (priv_t0 sk) w
             (vector_inverse_ntt L
                (vector_mult_scalar L (vector_ntt L (priv_s1 sk))
                   (scalar_ntt c)))
             cs2 (sig_z sign) ct0 (sig_h sign));
      try reflexivity; assumption. }
  rewrite Ehb, <- Ect, bytes_eqb_refl, andb_true_r.
  f_equal. apply Z.ltb_lt. change (u32 (gamma1 - beta)) with (gamma1 - beta).
  exact Hz.
Qed.

End SignVerify.

#[local] Transparent scalar_ntt scalar_inverse_ntt scalar_add scalar_sub
  scalar_mult matrix_row.

#[local] Opaque scalar_ntt scalar_inverse_ntt scalar_add scalar_sub scalar_mult
  matrix_row.

(** ** Encodings of the private key *)

Lemma nth_flat_map_chunk (c m : nat) (f : nat -> list Z) (s : scalar) :
  (0 < c)%nat -> length s = (m * c)%nat ->
  (forall i, (i < m)%nat -> length (f i) = c) ->
  (forall i j, (i < m)%nat -> (j < c)%nat ->
     nth j (f i) 0 = coef s (c * i + j)) ->
  flat_map f (seq 0 m) = s.
Proof.
  intros Hc Hl Hlen H.
  set (g := fun i => map (fun j => coef s (c * i + j)) (seq 0 c)).
  assert (Hg : forall i, length (g i) = c)
    by (intros i; unfold g; rewrite length_map, length_seq; reflexivity).
  assert (E : flat_map f (seq 0 m) = flat_map g (seq 0 m)).
  { apply flat_map_ext_In. intros i Hi. apply in_seq in Hi.
    apply (nth_ext _ _ 0 0).
    - rewrite Hlen, Hg by lia. reflexivity.
    - intros j Hj. rewrite Hlen in Hj by lia. rewrite H by lia.
      unfold g. rewrite nth_map_seq by exact Hj. reflexivity. }
  rewrite E.
  apply (nth_ext _ _ 0 0).
  - rewrite (flat_map_chunk_length g c 0 m Hg). lia.
  - intros k Hk. rewrite (flat_map_chunk_length g c 0 m Hg) in Hk.
    rewrite <- (app_nil_r (flat_map g (seq 0 m))).
    assert (Hm : (k mod c < c)%nat) by (apply Nat.mod_upper_bound; lia).
    assert (Hd : (k / c < m)%nat)
      by (apply Nat.Div0.div_lt_upper_bound; lia).
    rewrite (Nat.div_mod_eq k c) at 1.
    rewrite (flat_map_chunk_nth g c m (k / c) (k mod c) [] 0 Hg Hd Hm).
    unfold g. rewrite nth_map_seq by exact Hm. unfold coef.
    rewrite <- (Nat.div_mod_eq k c). reflexivity.
Qed.

(** *** Four bits *)

Lemma mod_sub_eta_range (x : Z) :
  0 <= x < kPrime -> Z.abs (centered x) <= 4 -> 0 <= mod_sub 4 x < 9.
Proof.
  intros Hx Hc. rewrite mod_sub_mod by (unfold kPrime in *; lia).
  unfold centered in Hc. change kHalfPrime with 4190208 in Hc.
  unfold kPrime in *.
  destruct (Z.leb_spec x 4190208); Z.div_mod_to_equations; lia.
Qed.

Lemma scalar_encode_signed_4_4_length (s : scalar) :
  length (scalar_encode_signed_4_4 s) = 128%nat.
Proof.
  unfold scalar_encode_signed_4_4. rewrite length_map, length_seq. reflexivity.
Qed.

Lemma bytes_app (a b : list Z) : bytes a -> bytes b -> bytes (a ++ b).
Proof. unfold bytes. intros Ha Hb. apply Forall_app. split; assumption. Qed.

Lemma bytes_flat_map {A : Type} (f : A -> list Z) (l : list A) :
  (forall x, bytes (f x)) -> bytes (flat_map f l).
Proof.
  intros H. induction l as [| x l IH]; [constructor|].
  cbn [flat_map]. apply bytes_app; [apply H | exact IH].
Qed.

Lemma bytes_skipn (n : nat) (b : list Z) : bytes b -> bytes (skipn n b).
Proof.
  unfold bytes. rewrite !Forall_forall. intros H x Hx. apply H.
  rewrite <- (firstn_skipn n b). apply in_or_app. right. exact Hx.
Qed.

Lemma bytes_firstn (n : nat) (b : list Z) : bytes b -> bytes (firstn n b).
Proof.
  unfold bytes. rewrite !Forall_forall. intros H x Hx. apply H.
  rewrite <- (firstn_skipn n b). apply in_or_app. left. exact Hx.
Qed.

Lemma scalar_encode_signed_4_4_bytes (s : scalar) :
  bytes (scalar_encode_signed_4_4 s).
Proof.
  unfold bytes, scalar_encode_signed_4_4. apply Forall_forall. intros x Hx.
  apply in_map_iff in Hx. destruct Hx as (i & <- & _). apply u8_range.
Qed.

Lemma nibble_encode_4_4 (s : scalar) (rest : list Z) (k : nat) :
  wf_scalar s ->
  (forall j, (j < kDegree)%nat -> Z.abs (centered (coef s j)) <= 4) ->
  (k < kDegree)%nat ->
  nibble (scalar_encode_signed_4_4 s ++ rest) k = mod_sub 4 (coef s k).
Proof.
  intros Hs Hc Hk. unfold nibble, byte_at.
  assert (Hd : (k / 2 < 128)%nat)
    by (apply Nat.Div0.div_lt_upper_bound; unfold kDegree in Hk; lia).
  rewrite app_nth1 by (rewrite scalar_encode_signed_4_4_length; exact Hd).
  unfold scalar_encode_signed_4_4. change (kDegree / 2)%nat with 128%nat.
  rewrite nth_map_seq by exact Hd. cbv zeta.
  assert (Ha : 0 <= mod_sub 4 (coef s (2 * (k / 2))) < 9).
  { apply mod_sub_eta_range; [apply wf_coef; [exact Hs|] | apply Hc];
      unfold kDegree; lia. }
  assert (Hb : 0 <= mod_sub 4 (coef s (2 * (k / 2) + 1)) < 9).
  { apply mod_sub_eta_range; [apply wf_coef; [exact Hs|] | apply Hc];
      unfold kDegree; lia. }
  rewrite Z.shiftl_mul_pow2, u32_mod by lia.
  rewrite (lor_add_disjoint _ _ 4) by (try lia; Z.div_mod_to_equations; lia).
  rewrite u8_mod.
  pose proof (Nat.div_mod_eq k 2) as Ek.
  assert (Hm : (k mod 2 < 2)%nat) by (apply Nat.mod_upper_bound; lia).
  destruct (Nat.even k) eqn:Ev.
  - apply Nat.even_spec in Ev. destruct Ev as [h Eh].
    assert (E2 : (2 * (k / 2) = k)%nat).
    { rewrite Eh, (Nat.mul_comm 2 h), Nat.div_mul by lia. lia. }
    rewrite E2 in *. change 15 with (Z.ones 4). rewrite Z.land_ones by lia.
    Z.div_mod_to_equations. lia.
  - assert (Ho : Nat.odd k = true)
      by (rewrite <- Nat.negb_even, Ev; reflexivity).
    apply Nat.odd_spec in Ho. destruct Ho as [h Eh].
    assert (E2 : (2 * (k / 2) + 1 = k)%nat).
    { rewrite Eh. replace ((2 * h + 1) / 2)%nat with h; [reflexivity|].
      apply (Nat.div_unique (2 * h + 1) 2 h 1); lia. }
    rewrite E2 in *. rewrite Z.shiftr_div_pow2 by lia.
    Z.div_mod_to_equations. lia.
Qed.

Lemma forallb_seq (P : nat -> bool) (j n : nat) :
  (forall k, (j <= k < j + n)%nat -> P k = true) ->
  forallb P (seq j n) = true.
Proof.
  intros H. apply forallb_forall. intros k Hk. apply in_seq in Hk.
  apply H. exact Hk.
Qed.

Lemma scalar_signed_4_roundtrip (s : scalar) (rest : list Z) :
  wf_scalar s -> bytes rest ->
  (forall j, (j < kDegree)%nat -> Z.abs (centered (coef s j)) <= 4) ->
  scalar_decode_signed_4_4 (scalar_encode_signed_4_4 s ++ rest) = Some s.
Proof.
  intros Hs Hr Hc. unfold scalar_decode_signed_4_4.
  rewrite decode_loop_spec
    by (apply bytes_app; [apply scalar_encode_signed_4_4_bytes | exact Hr]).
  change (kDegree / 8)%nat with 32%nat. change (8 * 0)%nat with 0%nat.
  change (8 * 32)%nat with kDegree.
  rewrite forallb_seq.
  2:{ intros k Hk. rewrite nibble_encode_4_4 by (try assumption; lia).
      apply Z.ltb_lt. apply mod_sub_eta_range;
        [apply wf_coef; [exact Hs | lia] | apply Hc; lia]. }
  cbv beta iota. rewrite app_nil_l. apply (f_equal Some).
  apply (nth_ext _ _ 0 0).
  - rewrite length_map, length_seq. symmetry. apply Hs.
  - intros k Hk. rewrite length_map, length_seq in Hk.
    rewrite nth_map_seq by exact Hk.
    rewrite nibble_encode_4_4 by assumption.
    apply mod_sub_involutive;
      [unfold kPrime; lia | apply wf_coef; assumption].
Qed.

(** *** Thirteen bits *)

Lemma land_1_mod (x : Z) : Z.land x 1 = x mod 2 ^ 1.
Proof. change 1 with (Z.ones 1) at 1. apply Z.land_ones. lia. Qed.

Lemma chunk_13_decode (x0 x1 x2 x3 x4 x5 x6 x7 : Z) :
  0 <= x0 < 2 ^ 13 -> 0 <= x1 < 2 ^ 13 -> 0 <= x2 < 2 ^ 13 ->
  0 <= x3 < 2 ^ 13 -> 0 <= x4 < 2 ^ 13 -> 0 <= x5 < 2 ^ 13 ->
  0 <= x6 < 2 ^ 13 -> 0 <= x7 < 2 ^ 13 ->
  let A := u32 (Z.lor (Z.lor x0 (u32 (Z.shiftl x1 13)))
                  (u32 (Z.shiftl x2 26))) in
  let C := u32 (Z.lor (Z.lor (Z.shiftr x2 6) (u32 (Z.shiftl x3 7)))
                  (u32 (Z.shiftl x4 20))) in
  let E := u32 (Z.lor (Z.lor (Z.lor (Z.shiftr x4 12) (u32 (Z.shiftl x5 1)))
                         (u32 (Z.shiftl x6 14)))
                  (u32 (Z.shiftl x7 27))) in
  let H := u8 (Z.shiftr x7 5) in
  Z.land A (Z.shiftl 1 13 - 1) = x0 /\
  Z.land (Z.shiftr A 13) (Z.shiftl 1 13 - 1) = x1 /\
  Z.lor (Z.shiftr A 26) (u32 (Z.shiftl (Z.land C (Z.shiftl 1 7 - 1)) 6)) = x2 /\
  Z.land (Z.shiftr C 7) (Z.shiftl 1 13 - 1) = x3 /\
  Z.lor (Z.shiftr C 20) (u32 (Z.shiftl (Z.land E 1) 12)) = x4 /\
  Z.land (Z.shiftr E 1) (Z.shiftl 1 13 - 1) = x5 /\
  Z.land (Z.shiftr E 14) (Z.shiftl 1 13 - 1) = x6 /\
  Z.lor (Z.shiftr E 27) (u32 (Z.shiftl H 5)) = x7.
Proof.
  intros H0 H1 H2 H3 H4 H5 H6 H7. cbv zeta.
  assert (EA : Z.lor (Z.lor x0 (u32 (Z.shiftl x1 13))) (u32 (Z.shiftl x2 26))
               = x0 + x1 * 2 ^ 13 + (x2 mod 2 ^ 6) * 2 ^ 26).
  { rewrite !Z.shiftl_mul_pow2, !u32_mod by lia.
    rewrite (lor_add_disjoint x0 _ 13)
      by (try lia; Z.div_mod_to_equations; lia).
    rewrite (lor_add_disjoint _ _ 26)
      by (try lia; Z.div_mod_to_equations; lia).
    Z.div_mod_to_equations. lia. }
  assert (EC : Z.lor (Z.lor (Z.shiftr x2 6) (u32 (Z.shiftl x3 7)))
                 (u32 (Z.shiftl x4 20))
               = x2 / 2 ^ 6 + x3 * 2 ^ 7 + (x4 mod 2 ^ 12) * 2 ^ 20).
  { rewrite !Z.shiftl_mul_pow2, Z.shiftr_div_pow2, !u32_mod by lia.
    rewrite (lor_add_disjoint (x2 / 2 ^ 6) _ 7)
      by (try lia; Z.div_mod_to_equations; lia).
    rewrite (lor_add_disjoint _ _ 20)
      by (try lia; Z.div_mod_to_equations; lia).
    Z.div_mod_to_equations. lia. }
  assert (EE : Z.lor (Z.lor (Z.lor (Z.shiftr x4 12) (u32 (Z.shiftl x5 1)))
                        (u32 (Z.shiftl x6 14)))
                 (u32 (Z.shiftl x7 27))
               = x4 / 2 ^ 12 + x5 * 2 + x6 * 2 ^ 14
                 + (x7 mod 2 ^ 5) * 2 ^ 27).
  { rewrite !Z.shiftl_mul_pow2, Z.shiftr_div_pow2, !u32_mod by lia.
    rewrite (lor_add_disjoint (x4 / 2 ^ 12) _ 1)
      by (try lia; Z.div_mod_to_equations; lia).
    rewrite (lor_add_disjoint _ ((x6 * 2 ^ 14) mod 2 ^ 32) 14)
      by (try lia; Z.div_mod_to_equations; lia).
    rewrite (lor_add_disjoint _ _ 27)
      by (try lia; Z.div_mod_to_equations; lia).
    Z.div_mod_to_equations. lia. }
  rewrite EA, EC, EE. clear EA EC EE.
  change (Z.shiftl 1 13 - 1) with (Z.ones 13).
  change (Z.shiftl 1 7 - 1) with (Z.ones 7).
  rewrite land_1_mod, !Z.land_ones, !Z.shiftl_mul_pow2, !Z.shiftr_div_pow2, !u32_mod, u8_mod
    by lia.
  repeat match goal with |- _ /\ _ => split end.
  - Z.div_mod_to_equations. lia.
  - Z.div_mod_to_equations. lia.
  - rewrite (lor_add_disjoint _ _ 6)
      by (try lia; Z.div_mod_to_equations; lia).
    Z.div_mod_to_equations. lia.
  - Z.div_mod_to_equations. lia.
  - rewrite (lor_add_disjoint _ _ 12)
      by (try lia; Z.div_mod_to_equations; lia).
    Z.div_mod_to_equations. lia.
  - Z.div_mod_to_equations. lia.
  - Z.div_mod_to_equations. lia.
  - rewrite (lor_add_disjoint _ _ 5)
      by (try lia; Z.div_mod_to_equations; lia).
    Z.div_mod_to_equations. lia.
Qed.

Lemma mod_sub_13_range (x : Z) :
  0 <= x < kPrime -> - 2 ^ 12 < centered x <= 2 ^ 12 ->
  0 <= mod_sub (Z.shiftl 1 12) x < 2 ^ 13.
Proof.
  intros Hx Hc. change (Z.shiftl 1 12) with 4096.
  rewrite mod_sub_mod by (unfold kPrime in *; lia).
  unfold centered in Hc. change kHalfPrime with 4190208 in Hc.
  unfold kPrime in *.
  destruct (Z.leb_spec x 4190208); Z.div_mod_to_equations; lia.
Qed.

Lemma scalar_encode_signed_13_12_length (s : scalar) :
  length (scalar_encode_signed_13_12 s) = 416%nat.
Proof.
  unfold scalar_encode_signed_13_12. cbv zeta.
  change (kDegree / 8)%nat with 32%nat.
  rewrite (flat_map_chunk_length _ 13 0 32); reflexivity.
Qed.

Lemma scalar_signed_13_roundtrip (s : scalar) (rest : list Z) :
  wf_scalar s ->
  (forall k, (k < kDegree)%nat -> - 2 ^ 12 < centered (coef s k) <= 2 ^ 12) ->
  scalar_decode_signed_13_12 (scalar_encode_signed_13_12 s ++ rest) = s.
Proof.
  intros Hs Hc. unfold scalar_decode_signed_13_12. cbv zeta.
  change (kDegree / 8)%nat with 32%nat.
  apply (nth_flat_map_chunk 8 32); [lia | apply Hs | reflexivity |].
  intros i j Hi Hj.
  assert (Hx : forall t, (t < 8)%nat ->
             0 <= mod_sub (Z.shiftl 1 12) (coef s (8 * i + t)) < 2 ^ 13).
  { intros t Ht. apply mod_sub_13_range;
      [apply wf_coef; [exact Hs | unfold kDegree; lia]
      | apply Hc; unfold kDegree; lia]. }
  set (enc := scalar_encode_signed_13_12 s ++ rest).
  set (x0 := mod_sub (Z.shiftl 1 12) (coef s (8 * i))).
  set (x1 := mod_sub (Z.shiftl 1 12) (coef s (8 * i + 1))).
  set (x2 := mod_sub (Z.shiftl 1 12) (coef s (8 * i + 2))).
  set (x3 := mod_sub (Z.shiftl 1 12) (coef s (8 * i + 3))).
  set (x4 := mod_sub (Z.shiftl 1 12) (coef s (8 * i + 4))).
  set (x5 := mod_sub (Z.shiftl 1 12) (coef s (8 * i + 5))).
  set (x6 := mod_sub (Z.shiftl 1 12) (coef s (8 * i + 6))).
  set (x7 := mod_sub (Z.shiftl 1 12) (coef s (8 * i + 7))).
  set (A := Z.lor (Z.lor x0 (u32 (Z.shiftl x1 13))) (u32 (Z.shiftl x2 26))).
  set (C := Z.lor (Z.lor (Z.shiftr x2 6) (u32 (Z.shiftl x3 7)))
              (u32 (Z.shiftl x4 20))).
  set (E := Z.lor (Z.lor (Z.lor (Z.shiftr x4 12) (u32 (Z.shiftl x5 1)))
                     (u32 (Z.shiftl x6 14)))
              (u32 (Z.shiftl x7 27))).
  assert (Hb : forall t, (t < 13)%nat ->
             byte_at enc (13 * i + t)
             = nth t (store_u32 A ++ store_u32 C ++ store_u32 E
                      ++ [u8 (Z.shiftr x7 5)]) 0).
  { intros t Ht. unfold byte_at, enc, scalar_encode_signed_13_12. cbv zeta.
    change (kDegree / 8)%nat with 32%nat.
    rewrite (flat_map_chunk_nth _ 13 32 i t rest 0); try lia; reflexivity. }
  assert (EA : load_u32 enc (13 * i) = u32 A).
  { apply load_store_u32.
    - rewrite <- (Nat.add_0_r (13 * i)). rewrite Hb by lia. reflexivity.
    - rewrite Hb by lia. reflexivity.
    - rewrite Hb by lia. reflexivity.
    - rewrite Hb by lia. reflexivity. }
  assert (EC : load_u32 enc (13 * i + 4) = u32 C).
  { apply load_store_u32; rewrite <- ?Nat.add_assoc; rewrite Hb by lia;
      reflexivity. }
  assert (EE : load_u32 enc (13 * i + 8) = u32 E).
  { apply load_store_u32; rewrite <- ?Nat.add_assoc; rewrite Hb by lia;
      reflexivity. }
  assert (EH : byte_at enc (13 * i + 12) = u8 (Z.shiftr x7 5)).
  { rewrite Hb by lia. reflexivity. }
  rewrite EA, EC, EE, EH.
  assert (H0 : 0 <= x0 < 2 ^ 13).
  { unfold x0. replace (8 * i)%nat with (8 * i + 0)%nat by lia. apply Hx. lia. }
  destruct (chunk_13_decode x0 x1 x2 x3 x4 x5 x6 x7 H0
              (Hx 1%nat ltac:(lia)) (Hx 2%nat ltac:(lia)) (Hx 3%nat ltac:(lia))
              (Hx 4%nat ltac:(lia)) (Hx 5%nat ltac:(lia)) (Hx 6%nat ltac:(lia))
              (Hx 7%nat ltac:(lia)))
    as (E0 & E1 & E2 & E3 & E4 & E5 & E6 & E7).
  cbv zeta in E0, E1, E2, E3, E4, E5, E6, E7.
  fold A C E in E0, E1, E2, E3, E4, E5, E6, E7.
  assert (Hk : 0 <= Z.shiftl 1 12 < kPrime) by (cbn; unfold kPrime; lia).
  assert (Hinv : forall t, (t < 8)%nat ->
             mod_sub (Z.shiftl 1 12)
               (mod_sub (Z.shiftl 1 12) (coef s (8 * i + t)))
             = coef s (8 * i + t)).
  { intros t Ht. apply mod_sub_involutive;
      [exact Hk | apply wf_coef; [exact Hs | unfold kDegree; lia]]. }
  destruct j as [| [| [| [| [| [| [| [| j]]]]]]]]; [| | | | | | | | lia];
    cbn [nth].
  - rewrite E0. unfold x0. rewrite <- (Nat.add_0_r (8 * i)) at 1.
    rewrite Hinv by lia. reflexivity.
  - rewrite E1. apply Hinv. lia.
  - rewrite E2. apply Hinv. lia.
  - rewrite E3. apply Hinv. lia.
  - rewrite E4. apply Hinv. lia.
  - rewrite E5. apply Hinv. lia.
  - rewrite E6. apply Hinv. lia.
  - rewrite E7. apply Hinv. lia.
Qed.

(** *** Vectors *)

Lemma vector_decode_signed_loop_spec (n i : nat) (inp : list Z) (bits : nat)
  (out v : vector) :
  (forall t, (t < n)%nat ->
     scalar_decode_signed (skipn ((i + t) * bits * kDegree / 8) inp) bits
     = Some (vec v (i + t))) ->
  vector_decode_signed_loop n i inp bits out
  = Some (out ++ map (vec v) (seq i n)).
Proof.
  revert i out. induction n as [| n IH]; intros i out H.
  - cbn. rewrite app_nil_r. reflexivity.
  - cbn [vector_decode_signed_loop seq map].
    pose proof (H 0%nat ltac:(lia)) as H0. rewrite Nat.add_0_r in H0.
    rewrite H0, IH.
    + rewrite <- app_assoc. reflexivity.
    + intros t Ht. replace (S i + t)%nat with (i + S t)%nat by lia.
      apply H. lia.
Qed.

Lemma map_vec_seq (X : nat) (v : vector) :
  length v = X -> map (vec v) (seq 0 X) = v.
Proof.
  intros Hl. apply (vector_build_vec X (vec v) v Hl). reflexivity.
Qed.

Lemma scalar_encode_signed_13_12_bytes (s : scalar) :
  bytes (scalar_encode_signed_13_12 s).
Proof.
  unfold scalar_encode_signed_13_12. cbv zeta. apply bytes_flat_map.
  intros i. unfold bytes, store_u32.
  repeat (apply Forall_cons; [apply u8_range|]). constructor.
Qed.

Lemma vector_encode_signed_bytes (X : nat) (a : vector) (bits : nat) :
  (bits = 4 \/ bits = 13)%nat -> bytes (vector_encode_signed X a bits).
Proof.
  intros Hb. unfold vector_encode_signed. apply bytes_flat_map. intros i.
  unfold scalar_encode_signed.
  destruct Hb as [-> | ->]; cbn [Nat.eqb];
    [apply scalar_encode_signed_4_4_bytes
    | apply scalar_encode_signed_13_12_bytes].
Qed.

Lemma vector_encode_signed_length (X : nat) (a : vector) (bits : nat) :
  (bits = 4 \/ bits = 13)%nat ->
  length (vector_encode_signed X a bits) = (X * (32 * bits))%nat.
Proof.
  intros Hb. unfold vector_encode_signed. apply flat_map_chunk_length.
  intros i. unfold scalar_encode_signed.
  destruct Hb as [-> | ->]; cbn [Nat.eqb];
    [apply scalar_encode_signed_4_4_length
    | apply scalar_encode_signed_13_12_length].
Qed.

Lemma vector_signed_4_roundtrip (X : nat) (a : vector) (rest : list Z) :
  wf_vector X a -> bytes rest ->
  (forall i k, (i < X)%nat -> (k < kDegree)%nat ->
     Z.abs (centered (coef (vec a i) k)) <= 4) ->
  vector_decode_signed X (vector_encode_signed X a 4 ++ rest) 4 = Some a.
Proof.
  intros Ha Hr Hc. unfold vector_decode_signed.
  rewrite (vector_decode_signed_loop_spec X 0 _ 4 [] a).
  - cbn [app]. rewrite map_vec_seq by apply Ha. reflexivity.
  - intros t Ht. cbn [Nat.add].
    replace (t * 4 * kDegree / 8)%nat with (128 * t)%nat.
    2:{ unfold kDegree. replace (t * 4 * 256)%nat with (128 * t * 8)%nat by lia.
        rewrite Nat.div_mul by lia. reflexivity. }
    unfold vector_encode_signed.
    rewrite (flat_map_chunk_skipn _ 128 X t rest)
      by (try exact Ht; intros; apply scalar_encode_signed_4_4_length).
    unfold scalar_decode_signed, scalar_encode_signed at 1. cbn [Nat.eqb].
    apply scalar_signed_4_roundtrip.
    + apply (wf_vec X); assumption.
    + apply bytes_app; [|exact Hr]. apply bytes_flat_map. intros i.
      apply scalar_encode_signed_4_4_bytes.
    + intros k Hk. apply Hc; assumption.
Qed.

Lemma vector_signed_13_roundtrip (X : nat) (a : vector) (rest : list Z) :
  wf_vector X a ->
  (forall i k, (i < X)%nat -> (k < kDegree)%nat ->
     - 2 ^ 12 < centered (coef (vec a i) k) <= 2 ^ 12) ->
  vector_decode_signed X (vector_encode_signed X a 13 ++ rest) 13 = Some a.
Proof.
  intros Ha Hc. unfold vector_decode_signed.
  rewrite (vector_decode_signed_loop_spec X 0 _ 13 [] a).
  - cbn [app]. rewrite map_vec_seq by apply Ha. reflexivity.
  - intros t Ht. cbn [Nat.add].
    replace (t * 13 * kDegree / 8)%nat with (416 * t)%nat.
    2:{ unfold kDegree. replace (t * 13 * 256)%nat with (416 * t * 8)%nat by lia.
        rewrite Nat.div_mul by lia. reflexivity. }
    unfold vector_encode_signed.
    rewrite (flat_map_chunk_skipn _ 416 X t rest)
      by (try exact Ht; intros; apply scalar_encode_signed_13_12_length).
    unfold scalar_decode_signed, scalar_encode_signed at 1. cbn [Nat.eqb].
    f_equal. apply scalar_signed_13_roundtrip.
    + apply (wf_vec X); assumption.
    + intros k Hk. apply Hc; assumption.
Qed.

(** *** The key *)

Lemma CBS_get_bytes_app (a b : list Z) (n : nat) :
  length a = n -> CBS_get_bytes (a ++ b) n = Some (a, b).
Proof.
  intros Hl. unfold CBS_get_bytes.
  replace (length (a ++ b) <? n)%nat with false
    by (symmetry; apply Nat.ltb_ge; rewrite length_app; lia).
  rewrite firstn_app_exact, skipn_app_exact by exact Hl. reflexivity.
Qed.

Lemma CBS_get_bytes_short (inp : list Z) (n : nat) :
  (length inp < n)%nat -> CBS_get_bytes inp n = None.
Proof.
  intros Hl. unfold CBS_get_bytes.
  replace (length inp <? n)%nat with true
    by (symmetry; apply Nat.ltb_lt; exact Hl).
  reflexivity.
Qed.

Lemma CBS_get_bytes_some (inp : list Z) (n : nat) (a b : list Z) :
  CBS_get_bytes inp n = Some (a, b) ->
  inp = a ++ b /\ length a = n.
Proof.
  unfold CBS_get_bytes. destruct (Nat.ltb_spec (length inp) n) as [Hl | Hl];
    [discriminate|].
  intros H. injection H as <- <-. split.
  - symmetry. apply firstn_skipn.
  - rewrite length_firstn. lia.
Qed.

Lemma private_key_roundtrip (sk : private_key) :
  length (priv_rho sk) = kRhoBytes -> length (priv_k sk) = kKBytes ->
  length (priv_public_key_hash sk) = kTrBytes ->
  wf_vector L (priv_s1 sk) -> wf_vector K (priv_s2 sk) ->
  wf_vector K (priv_t0 sk) ->
  (forall i k, (i < L)%nat -> (k < kDegree)%nat ->
     Z.abs (centered (coef (vec (priv_s1 sk) i) k)) <= 4) ->
  (forall i k, (i < K)%nat -> (k < kDegree)%nat ->
     Z.abs (centered (coef (vec (priv_s2 sk) i) k)) <= 4) ->
  (forall i k, (i < K)%nat -> (k < kDegree)%nat ->
     - 2 ^ 12 < centered (coef (vec (priv_t0 sk) i) k) <= 2 ^ 12) ->
  length (mldsa_marshal_private_key sk) = MLDSA65_PRIVATE_KEY_BYTES /\
  MLDSA65_parse_private_key (mldsa_marshal_private_key sk) = Some sk.
Proof.
  intros Hrho Hk Htr Hs1 Hs2 Ht0 Hc1 Hc2 Hc0.
  unfold mldsa_marshal_private_key.
  rewrite !firstn_all2 by lia.
  pose proof (vector_encode_signed_length L (priv_s1 sk) 4 (or_introl eq_refl))
    as Hl1.
  pose proof (vector_encode_signed_length K (priv_s2 sk) 4 (or_introl eq_refl))
    as Hl2.
  pose proof (vector_encode_signed_length K (priv_t0 sk) 13 (or_intror eq_refl))
    as Hl0.
  split.
  - rewrite !length_app, Hrho, Hk, Htr, Hl1, Hl2, Hl0. reflexivity.
  - unfold MLDSA65_parse_private_key, mldsa_parse_private_key.
    rewrite (CBS_get_bytes_app _ _ kRhoBytes Hrho).
    rewrite (CBS_get_bytes_app _ _ kKBytes Hk).
    rewrite (CBS_get_bytes_app _ _ kTrBytes Htr).
    rewrite (CBS_get_bytes_app _ _ (128 * L))
      by (rewrite Hl1; unfold L; lia).
    rewrite <- (app_nil_r (vector_encode_signed L (priv_s1 sk) 4)) at 1.
    rewrite vector_signed_4_roundtrip by (try assumption; constructor).
    rewrite (CBS_get_bytes_app _ _ (128 * K))
      by (rewrite Hl2; unfold K; lia).
    rewrite <- (app_nil_r (vector_encode_signed K (priv_s2 sk) 4)) at 1.
    rewrite vector_signed_4_roundtrip by (try assumption; constructor).
    rewrite <- (app_nil_r (vector_encode_signed K (priv_t0 sk) 13)) at 1.
    rewrite (CBS_get_bytes_app _ _ (416 * K))
      by (rewrite Hl0; unfold K; lia).
    rewrite <- (app_nil_r (vector_encode_signed K (priv_t0 sk) 13)) at 1.
    rewrite vector_signed_13_roundtrip by assumption.
    cbn [length Nat.eqb]. destruct sk; reflexivity.
Qed.

(** X25: [MLDSA65_parse_private_key] accepts only inputs of 4032 bytes. *)
Theorem private_key_parse_length (inp : list Z) (sk : private_key) :
  MLDSA65_parse_private_key inp = Some sk ->
  length inp = MLDSA65_PRIVATE_KEY_BYTES.
Proof.
  unfold MLDSA65_parse_private_key, mldsa_parse_private_key.
  destruct (CBS_get_bytes inp kRhoBytes) as [[rho i1]|] eqn:E1; [|discriminate].
  destruct (CBS_get_bytes i1 kKBytes) as [[k i2]|] eqn:E2; [|discriminate].
  destruct (CBS_get_bytes i2 kTrBytes) as [[tr i3]|] eqn:E3; [|discriminate].
  destruct (CBS_get_bytes i3 (128 * L)) as [[b1 i4]|] eqn:E4; [|discriminate].
  destruct (vector_decode_signed L b1 4) as [s1|]; [|discriminate].
  destruct (CBS_get_bytes i4 (128 * K)) as [[b2 i5]|] eqn:E5; [|discriminate].
  destruct (vector_decode_signed K b2 4) as [s2|]; [|discriminate].
  destruct (CBS_get_bytes i5 (416 * K)) as [[b3 i6]|] eqn:E6; [|discriminate].
  destruct (vector_decode_signed K b3 13) as [t0|]; [|discriminate].
  destruct (Nat.eqb_spec (length i6) 0) as [E7 | E7]; [|discriminate].
  intros _.
  apply CBS_get_bytes_some in E1, E2, E3, E4, E5, E6.
  destruct E1 as [-> L1], E2 as [-> L2], E3 as [-> L3], E4 as [-> L4],
    E5 as [-> L5], E6 as [-> L6].
  rewrite !length_app, L1, L2, L3, L4, L5, L6, E7. reflexivity.
Qed.

(** X21: [mldsa_parse_public_key] fails exactly on the inputs that do not
    have 1952 bytes: no 1952-byte string is refused, and nothing may follow
    the key. *)
Theorem public_key_parse_length (shake128 shake256 : list Z -> nat -> Z)
  (inp : list Z) :
  mldsa_parse_public_key shake128 shake256 inp = None
  <-> length inp <> MLDSA65_PUBLIC_KEY_BYTES.
Proof.
  unfold mldsa_parse_public_key, CBS_get_bytes.
  destruct (Nat.ltb_spec (length inp) kRhoBytes) as [H1 | H1].
  - split; [intros _ | reflexivity].
    unfold kRhoBytes, MLDSA65_PUBLIC_KEY_BYTES in *. lia.
  - rewrite length_skipn.
    destruct (Nat.ltb_spec (length inp - kRhoBytes) (320 * K)) as [H2 | H2].
    + split; [intros _ | reflexivity].
      unfold kRhoBytes, K, MLDSA65_PUBLIC_KEY_BYTES in *. lia.
    + rewrite !length_skipn.
      destruct (Nat.eqb_spec (length inp - kRhoBytes - 320 * K) 0)
        as [H3 | H3]; cbn [negb].
      * split; [discriminate|]. intros H. exfalso. apply H.
        unfold kRhoBytes, K, MLDSA65_PUBLIC_KEY_BYTES in *. lia.
      * split; [intros _ | reflexivity].
        unfold kRhoBytes, K, MLDSA65_PUBLIC_KEY_BYTES in *. lia.
Qed.

Section Keys.

Variable shake128 : list Z -> nat -> Z.
Variable shake256 : list Z -> nat -> Z.

Lemma vector_expand_short_s1 (fuel : nat) (sigma : list Z) (s1 s2 : vector) :
  vector_expand_short shake128 shake256 fuel sigma = Some (s1, s2) ->
  forall i k, (i < L)%nat -> (k < kDegree)%nat ->
    Z.abs (centered (coef (vec s1 i) k)) <= 4.
Proof.
  unfold vector_expand_short. intros H.
  match type of H with
  | bind ?x _ = _ => destruct x as [v1|] eqn:E1; [|discriminate H]
  end.
  cbn [bind] in H.
  match type of H with
  | bind ?x _ = _ => destruct x as [v2|] eqn:E2; [|discriminate H]
  end.
  cbn [bind] in H. injection H as <- <-.
  destruct (collect_map_seq _ L v1 E1) as [H1 H2].
  intros i k Hi Hk.
  apply (scalar_uniform_short _ _ _ _ _ (H2 i scalar_zero Hi)). exact Hk.
Qed.

(** X26: what key generation returns is in the ranges of the encodings: the
    encoded public key has 1952 bytes; in the private key [rho], [k] and the
    hash have 32, 32 and 64 bytes, [s1] and [s2] have centred coefficients in
    [-4, 4], and [t0] in (-2^12, 2^12]. *)
Theorem keygen_key_ranges (fuel : nat) (entropy pk : list Z)
  (sk : private_key) :
  mldsa_generate_key_external_entropy shake128 shake256 fuel entropy
  = Some (pk, sk) ->
  length pk = MLDSA65_PUBLIC_KEY_BYTES /\
  length (priv_rho sk) = kRhoBytes /\ length (priv_k sk) = kKBytes /\
  length (priv_public_key_hash sk) = kTrBytes /\
  wf_vector L (priv_s1 sk) /\ wf_vector K (priv_s2 sk) /\
  wf_vector K (priv_t0 sk) /\
  (forall i k, (i < L)%nat -> (k < kDegree)%nat ->
     Z.abs (centered (coef (vec (priv_s1 sk) i) k)) <= 4) /\
  (forall i k, (i < K)%nat -> (k < kDegree)%nat ->
     Z.abs (centered (coef (vec (priv_s2 sk) i) k)) <= 4) /\
  (forall i k, (i < K)%nat -> (k < kDegree)%nat ->
     - 2 ^ 12 < centered (coef (vec (priv_t0 sk) i) k) <= 2 ^ 12).
Proof.
  intros Hkey.
  destruct (keygen_inv _ _ _ _ _ _ Hkey)
    as (a & t & Ea & Ha & Hs1 & Hs2 & Hshort & Et & Et0 & Hrho & Epk & Etr).
  assert (Ht : wf_vector K t).
  { rewrite Et. apply vector_add_wf; [|exact Hs2].
    apply vector_inverse_ntt_wf, matrix_mult_wf;
      [exact Ha | apply vector_ntt_wf; exact Hs1]. }
  destruct (public_key_roundtrip shake128 shake256 (priv_rho sk) t Hrho Ht)
    as [Hlpk _].
  cbv zeta in Hlpk. rewrite <- Epk in Hlpk.
  destruct (vector_power2_round_wf K t Ht) as [_ Hw0].
  rewrite <- Et0 in Hw0.
  assert (Hr0 : forall i k, (i < K)%nat -> (k < kDegree)%nat ->
            - 2 ^ 12 < centered (coef (vec (priv_t0 sk) i) k) <= 2 ^ 12).
  { intros i k Hi Hk. rewrite Et0, vec_power2_round_snd by exact Hi.
    unfold scalar_power2_round. cbn [snd].
    rewrite coef_scalar_build by exact Hk.
    destruct (power2_round_parts (coef (vec t i) k)
                (wf_coef _ k (wf_vec K t i Ht Hi) Hk)) as (_ & _ & _ & H).
    exact H. }
  clear Et0 Epk Et.
  split; [exact Hlpk|]. split; [exact Hrho|].
  revert Hkey. unfold mldsa_generate_key_external_entropy. cbv zeta.
  set (seed := BORINGSSL_keccak shake128 shake256
                 (kRhoBytes + kSigmaBytes + kKBytes) _ boringssl_shake256).
  destruct (matrix_expand shake128 shake256 fuel (slice seed 0 kRhoBytes))
    as [a'|] eqn:Ea'; [|discriminate].
  cbn [bind].
  destruct (vector_expand_short shake128 shake256 fuel
              (slice seed kRhoBytes kSigmaBytes)) as [[s1 s2]|] eqn:Es;
    [|discriminate].
  cbn [bind].
  destruct (vector_power2_round K _) as [t1 t0'] eqn:Ep.
  intros H.
  assert (Ek : priv_k sk = slice seed (kRhoBytes + kSigmaBytes) kKBytes)
    by (injection H as _ <-; reflexivity).
  assert (E1 : priv_s1 sk = s1) by (injection H as _ <-; reflexivity).
  clear H.
  pose proof (keccak_bytes shake128 shake256
                (kRhoBytes + kSigmaBytes + kKBytes)
                (firstn MLDSA_SEED_BYTES entropy ++ [Z.of_nat K; Z.of_nat L])
                boringssl_shake256) as [_ Hl].
  fold seed in Hl.
  split.
  { rewrite Ek. unfold slice. rewrite length_firstn, length_skipn, Hl.
    reflexivity. }
  split.
  { rewrite Etr. apply keccak_bytes. }
  split; [exact Hs1|]. split; [exact Hs2|].
  split; [exact Hw0|].
  split.
  { rewrite E1. apply (vector_expand_short_s1 _ _ _ _ Es). }
  split; [exact Hshort|].
  exact Hr0.
Qed.

(** X27: [mldsa_public_from_private] on a generated private key returns the
    public key that was generated with it, the one that
    [mldsa_parse_public_key] reads from the encoded public key. *)
Theorem public_from_private_matches_keygen (fuel_k fuel : nat)
  (entropy pk : list Z) (sk : private_key) :
  mldsa_generate_key_external_entropy shake128 shake256 fuel_k entropy
  = Some (pk, sk) ->
  (fuel_k <= fuel)%nat ->
  exists pub,
    mldsa_public_from_private shake128 shake256 fuel sk = Some pub /\
    mldsa_parse_public_key shake128 shake256 pk = Some pub.
Proof.
  intros Hkey Hfuel.
  destruct (keygen_inv _ _ _ _ _ _ Hkey)
    as (a & t & Ea & Ha & Hs1 & Hs2 & Hshort & Et & Et0 & Hrho & Epk & Etr).
  assert (Ht : wf_vector K t).
  { rewrite Et. apply vector_add_wf; [|exact Hs2].
    apply vector_inverse_ntt_wf, matrix_mult_wf;
      [exact Ha | apply vector_ntt_wf; exact Hs1]. }
  destruct (public_key_roundtrip shake128 shake256 (priv_rho sk) t Hrho Ht)
    as [_ Eparse].
  cbv zeta in Eparse. rewrite <- Epk in Eparse.
  eexists. split; [|exact Eparse].
  unfold mldsa_public_from_private.
  rewrite (matrix_expand_mono _ _ _ _ _ _ Hfuel Ea). cbn [bind]. cbv zeta.
  rewrite <- Et.
  destruct (vector_power2_round K t) as [t1 t0] eqn:Ep. cbn [fst].
  rewrite firstn_all2 by lia.
  rewrite firstn_all2
    by (rewrite Etr; pose proof (keccak_bytes shake128 shake256 kTrBytes pk
                                   boringssl_shake256) as [_ Hl];
        rewrite Hl; lia).
  rewrite Etr. reflexivity.
Qed.

End Keys.

#[local] Transparent scalar_ntt scalar_inverse_ntt scalar_add scalar_sub
  scalar_mult matrix_row.

Section SignChecks.

Variable shake128 : list Z -> nat -> Z.
Variable shake256 : list Z -> nat -> Z.

Lemma sign_attempt_marshals (fuel : nat) (mu rho_prime : list Z)
  (s1_ntt s2_ntt t0_ntt : vector) (a : matrix) (kappa : nat) (sign : signature) :
  sign_attempt shake128 shake256 fuel mu rho_prime s1_ntt s2_ntt t0_ntt a kappa
  = Accepted sign ->
  exists encoded,
    mldsa_marshal_signature sign = Some encoded /\
    length encoded = MLDSA65_SIGNATURE_BYTES.
Proof.
  intros H.
  destruct (sign_attempt_accepted _ _ _ _ _ _ _ _ _ _ _ H)
    as (y & c & w & cs2 & ct0 & _ & _ & Ect & _ & _ & _ & _ & Eh & _ & _ & _ & Hones).
  rewrite Eh in Hones.
  pose proof (vector_make_hint_wf _ _ _ Hones) as Hh.
  destruct (hint_bit_pack_packs _ (proj2 (proj2 Hh))) as (packed & Ep & Hp).
  assert (Hlp : length packed = (omega + K)%nat) by apply Hp.
  unfold mldsa_marshal_signature. rewrite Eh, Ep.
  eexists. split; [reflexivity|].
  rewrite !length_app, vector_encode_signed_20_length, Hlp, Ect.
  rewrite (proj2 (squeeze_bytes shake128 shake256 _ _)). reflexivity.
Qed.

Lemma sign_loop_checks (fuel fuel_ball : nat) (mu rho_prime : list Z)
  (s1_ntt s2_ntt t0_ntt : vector) (a_ntt : matrix) (kappa : nat) :
  match sign_loop shake128 shake256 fuel fuel_ball mu rho_prime s1_ntt s2_ntt
          t0_ntt a_ntt kappa with
  | Signed encoded => length encoded = MLDSA65_SIGNATURE_BYTES
  | Aborted => False
  | SignFailure => False
  | Unfinished _ => True
  end.
Proof.
  revert kappa. induction fuel as [| fuel IH]; intros kappa;
    cbn [sign_loop]; [exact I|].
  destruct (sign_attempt shake128 shake256 fuel_ball mu rho_prime s1_ntt s2_ntt
              t0_ntt a_ntt kappa) as [| sign |] eqn:E.
  - apply IH.
  - destruct (sign_attempt_marshals _ _ _ _ _ _ _ _ _ E) as (e & Em & Hl).
    rewrite Em. exact Hl.
  - exact I.
Qed.

(** X2: the two [BSSL_CHECK]s on the path of signing never fire, whatever
    the private key and the XOF: the hint of an accepted attempt fits the
    [omega] index bytes of [hint_bit_pack], so that signing never aborts, and
    a signature that is written has exactly 3309 bytes; with the working
    memory allocated, a failure is returned only for a context of more than
    255 bytes. *)
Theorem sign_checks_pass (fuel fuel_i : nat) (sk : private_key)
  (msg context randomizer : list Z) :
  match MLDSA65_sign shake128 shake256 fuel fuel_i sk msg context randomizer
  with
  | Signed encoded => length encoded = MLDSA65_SIGNATURE_BYTES
  | Aborted => False
  | SignFailure => (255 < length context)%nat
  | Unfinished _ => True
  end.
Proof.
  unfold MLDSA65_sign.
  destruct (Nat.ltb_spec 255 (length context)) as [Hc | Hc]; [exact Hc|].
  unfold mldsa_sign_internal. cbv zeta.
  destruct (matrix_expand shake128 shake256 fuel_i (priv_rho sk)) as [a|];
    [|exact I].
  pose proof (sign_loop_checks fuel fuel_i
                (fst (BORINGSSL_keccak_squeeze shake128 shake256
                        (BORINGSSL_keccak_absorb
                           (BORINGSSL_keccak_absorb
                              (BORINGSSL_keccak_absorb
                                 (BORINGSSL_keccak_absorb
                                    (BORINGSSL_keccak_init boringssl_shake256)
                                    (priv_public_key_hash sk))
                                 [0; u8 (Z.of_nat (length context))])
                              context)
                           msg)
                        kMuBytes))) as H.
  match goal with
  | |- match sign_loop _ _ _ _ ?mu ?rho ?s1 ?s2 ?t0 ?a0 ?k with _ => _ end =>
      specialize (H rho s1 s2 t0 a0 k);
      destruct (sign_loop shake128 shake256 fuel fuel_i mu rho s1 s2 t0 a0 k)
  end; try exact H. destruct H.
Qed.

End SignChecks.

(** ** The maxima are least upper bounds *)

Lemma fold_max_below (F : Z -> nat -> Z) (B : Z) (l : list nat) (m0 : Z) :
  0 <= m0 < 2 ^ 32 -> m0 <= B ->
  (forall m i, 0 <= m < 2 ^ 32 -> m <= B -> In i l ->
     0 <= F m i < 2 ^ 32 /\ F m i <= B) ->
  fold_left F l m0 <= B.
Proof.
  revert m0. induction l as [| a l IH]; intros m0 H0 HB H; cbn [fold_left].
  - exact HB.
  - destruct (H m0 a H0 HB (or_introl eq_refl)) as [H1 H2].
    apply IH; [exact H1 | exact H2 |].
    intros m i Hm Hm' Hi. apply H; [exact Hm | exact Hm' | right; exact Hi].
Qed.

Lemma abs_centered_range (x : Z) :
  0 <= x < kPrime -> 0 <= Z.abs (centered x) < 2 ^ 32.
Proof.
  intros Hx. unfold centered. change kHalfPrime with 4190208.
  unfold kPrime in *. destruct (Z.leb_spec x 4190208); lia.
Qed.

Lemma scalar_max_below (s : scalar) (m0 B : Z) :
  wf_scalar s -> 0 <= m0 < 2 ^ 32 -> m0 <= B ->
  (forall k, (k < kDegree)%nat -> Z.abs (centered (coef s k)) <= B) ->
  scalar_max m0 s <= B.
Proof.
  intros Hs H0 HB H. unfold scalar_max.
  apply fold_max_below; [exact H0 | exact HB |].
  intros m i Hm Hm' Hi. apply in_seq in Hi.
  pose proof (wf_coef s i Hs ltac:(lia)) as Hc.
  pose proof (abs_centered_range _ Hc) as Hr.
  rewrite <- abs_mod_prime_spec in Hr by exact Hc.
  rewrite maximum_spec by assumption.
  specialize (H i ltac:(lia)). rewrite <- abs_mod_prime_spec in H by exact Hc.
  lia.
Qed.

Lemma vector_max_below (X : nat) (v : vector) (B : Z) :
  wf_vector X v -> 0 <= B ->
  (forall i k, (i < X)%nat -> (k < kDegree)%nat ->
     Z.abs (centered (coef (vec v i) k)) <= B) ->
  vector_max X v <= B.
Proof.
  intros Hv HB H. unfold vector_max.
  apply fold_max_below; [lia | exact HB |].
  intros m i Hm Hm' Hi. apply in_seq in Hi.
  pose proof (wf_vec X v i Hv ltac:(lia)) as Hs.
  split.
  - apply (scalar_max_spec _ _ Hs Hm).
  - apply scalar_max_below; [exact Hs | exact Hm | exact Hm' |].
    intros k Hk. apply H; [lia | exact Hk].
Qed.

(** X12: [vector_max] is the largest absolute value of the centred
    coefficients: it is at most [B] exactly when every coefficient is. *)
Theorem vector_max_least_bound (X : nat) (v : vector) (B : Z) :
  wf_vector X v -> 0 <= B ->
  (vector_max X v <= B <->
   forall i k, (i < X)%nat -> (k < kDegree)%nat ->
     Z.abs (centered (coef (vec v i) k)) <= B).
Proof.
  intros Hv HB. split.
  - intros H i k Hi Hk. pose proof (vector_max_spec X v Hv i k Hi Hk). lia.
  - apply vector_max_below; assumption.
Qed.

Lemma scalar_max_signed_below (f : nat -> Z) (m0 B : Z) :
  (forall k, (k < kDegree)%nat -> - 2 ^ 31 < f k < 2 ^ 31) ->
  0 <= m0 < 2 ^ 32 -> m0 <= B ->
  (forall k, (k < kDegree)%nat -> Z.abs (f k) <= B) ->
  scalar_max_signed m0 (scalar_build (fun k => u32 (f k))) <= B.
Proof.
  intros Hf H0 HB H. unfold scalar_max_signed.
  apply fold_max_below; [exact H0 | exact HB |].
  intros m i Hm Hm' Hi. apply in_seq in Hi.
  rewrite coef_scalar_build by lia.
  rewrite abs_signed_spec by (apply Hf; lia).
  specialize (Hf i ltac:(lia)). specialize (H i ltac:(lia)).
  rewrite maximum_spec by lia. lia.
Qed.

Lemma low_bits_int (x : Z) : 0 <= x < kPrime -> - 2 ^ 31 < low_bits x < 2 ^ 31.
Proof.
  intros Hx. pose proof (low_bits_range x Hx) as H.
  change kGamma2 with 261888 in H. lia.
Qed.

Lemma vector_max_signed_low_bits_below (X : nat) (v : vector) (B : Z) :
  wf_vector X v -> 0 <= B ->
  (forall i k, (i < X)%nat -> (k < kDegree)%nat ->
     Z.abs (low_bits (coef (vec v i) k)) <= B) ->
  vector_max_signed X (vector_low_bits X v) <= B.
Proof.
  intros Hv HB H. unfold vector_max_signed.
  apply fold_max_below; [lia | exact HB |].
  intros m i Hm Hm' Hi. apply in_seq in Hi.
  unfold vector_low_bits. rewrite vec_vector_build by lia.
  unfold scalar_low_bits.
  pose proof (wf_vec X v i Hv ltac:(lia)) as Hs.
  assert (Hf : forall k, (k < kDegree)%nat ->
            - 2 ^ 31 < low_bits (coef (vec v i) k) < 2 ^ 31).
  { intros k Hk. apply low_bits_int. apply wf_coef; assumption. }
  split.
  - apply (scalar_max_signed_spec
             (fun k => low_bits (coef (vec v i) k)) m Hf Hm).
  - apply (scalar_max_signed_below
             (fun k => low_bits (coef (vec v i) k)) m B Hf Hm Hm').
    intros k Hk. apply H; [lia | exact Hk].
Qed.

(** X13: [vector_max_signed] of [vector_low_bits] is the largest absolute
    value of the low bits: it is at most [B] exactly when the low bits of
    every coefficient are. *)
Theorem vector_max_signed_least_bound (X : nat) (v : vector) (B : Z) :
  wf_vector X v -> 0 <= B ->
  (vector_max_signed X (vector_low_bits X v) <= B <->
   forall i k, (i < X)%nat -> (k < kDegree)%nat ->
     Z.abs (low_bits (coef (vec v i) k)) <= B).
Proof.
  intros Hv HB. split.
  - intros H i k Hi Hk.
    pose proof (vector_max_signed_low_bits X v Hv i k Hi Hk). lia.
  - apply vector_max_signed_low_bits_below; assumption.
Qed.

(** ** The transform is linear *)

Lemma scalar_ntt_add_eq (a b : scalar) :
  wf_scalar a -> wf_scalar b ->
  scalar_ntt (scalar_add a b) = scalar_add (scalar_ntt a) (scalar_ntt b).
Proof.
  intros Ha Hb.
  apply scalar_eqq.
  - apply scalar_ntt_wf, scalar_add_wf; assumption.
  - apply scalar_add_wf; apply scalar_ntt_wf; assumption.
  - intros k Hk. rewrite scalar_ntt_add by assumption.
    rewrite coef_scalar_add by (try apply scalar_ntt_wf; assumption).
    rewrite eqq_mod. reflexivity.
Qed.

Lemma scalar_ntt_sub_eq (a b : scalar) :
  wf_scalar a -> wf_scalar b ->
  scalar_ntt (scalar_sub a b) = scalar_sub (scalar_ntt a) (scalar_ntt b).
Proof.
  intros Ha Hb.
  apply scalar_eqq.
  - apply scalar_ntt_wf, scalar_sub_wf; assumption.
  - apply scalar_sub_wf; apply scalar_ntt_wf; assumption.
  - intros k Hk. rewrite scalar_ntt_sub by assumption.
    rewrite coef_scalar_sub by (try apply scalar_ntt_wf; assumption).
    rewrite eqq_mod. reflexivity.
Qed.

(** ** The product, on the coefficients as they are stored *)

Lemma negacyclic_eqq (c c' s s' : zfun) (k : nat) :
  (forall i, (i < kDegree)%nat -> eqq (c i) (c' i)) ->
  (forall i, (i < kDegree)%nat -> eqq (s i) (s' i)) ->
  (k < kDegree)%nat ->
  eqq (negacyclic c s k) (negacyclic c' s' k).
Proof.
  intros Hc Hs Hk. unfold negacyclic. apply zsum_eqq. intros i Hi.
  rewrite (Hc i Hi).
  destruct (i <=? k)%nat eqn:E;
    [apply Nat.leb_le in E | apply Nat.leb_gt in E].
  - rewrite (Hs (k - i)%nat) by lia. reflexivity.
  - rewrite (Hs (kDegree + k - i)%nat) by lia. reflexivity.
Qed.

(** X6: multiplication through the transform is multiplication in
    [Z_q[X]/(X^256 + 1)]: the inverse transform of the [scalar_mult] of two
    transforms has the negacyclic convolution of the coefficients, modulo
    [q]. *)
Theorem scalar_mult_negacyclic (s c : scalar) (k : nat) :
  wf_scalar s -> wf_scalar c -> (k < kDegree)%nat ->
  coef (scalar_inverse_ntt (scalar_mult (scalar_ntt s) (scalar_ntt c))) k
  = negacyclic (coef c) (coef s) k mod kPrime.
Proof.
  intros Hs Hc Hk. rewrite scalar_product_negacyclic by assumption.
  apply eqq_iff. apply negacyclic_eqq; [| | exact Hk];
    intros i Hi; apply centered_eqq.
Qed.

(** ** The range of the mask *)

Lemma mask_coefficient_range (v : Z) :
  0 <= v < 2 ^ 20 ->
  0 <= mod_sub 524288 v < kPrime /\
  - 2 ^ 19 < centered (mod_sub 524288 v) <= 2 ^ 19.
Proof.
  intros Hv. rewrite mod_sub_mod by (unfold kPrime; lia).
  unfold centered. change kHalfPrime with 4190208. unfold kPrime.
  destruct (Z.leb_spec ((524288 - v) mod 8380417) 4190208);
    Z.div_mod_to_equations; lia.
Qed.

Lemma scalar_decode_signed_20_19_range (inp : list Z) (k : nat) :
  bytes inp -> (k < kDegree)%nat ->
  - 2 ^ 19 < centered (coef (scalar_decode_signed_20_19 inp) k) <= 2 ^ 19.
Proof.
  intros Hb Hk. unfold scalar_decode_signed_20_19. cbv zeta.
  change (kDegree / 4)%nat with 64%nat.
  change (Z.shiftl 1 20 - 1) with (Z.ones 20). change 255 with (Z.ones 8).
  change (Z.shiftl 1 19) with 524288.
  unfold coef.
  match goal with
  | |- context [flat_map ?f _] =>
      rewrite <- (app_nil_r (flat_map f (seq 0 64)));
      rewrite (Nat.div_mod_eq k 4);
      rewrite (flat_map_chunk_nth f 4 64 (k / 4) (k mod 4) [] 0)
        by (try reflexivity; try (apply Nat.mod_upper_bound; lia);
            apply Nat.Div0.div_lt_upper_bound; unfold kDegree in Hk; lia)
  end.
  pose proof (load_u32_range' inp (10 * (k / 4)) Hb) as Ha.
  pose proof (load_u32_range' inp (10 * (k / 4) + 4) Hb) as Hb'.
  pose proof (load_u16_range inp (10 * (k / 4) + 8) Hb) as Hc.
  assert (Hmod : (k mod 4 < 4)%nat) by (apply Nat.mod_upper_bound; lia).
  destruct (k mod 4)%nat as [| [| [| [| j]]]]; [| | | | lia]; cbn [nth];
    apply mask_coefficient_range.
  - rewrite Z.land_ones by lia. apply Z.mod_pos_bound. lia.
  - apply lor_range; [lia | |].
    + rewrite Z.shiftr_div_pow2 by lia. Z.div_mod_to_equations. lia.
    + rewrite Z.land_ones, Z.shiftl_mul_pow2, u32_mod by lia.
      Z.div_mod_to_equations. lia.
  - rewrite Z.land_ones by lia. apply Z.mod_pos_bound. lia.
  - apply lor_range; [lia | |].
    + rewrite Z.shiftr_div_pow2 by lia. Z.div_mod_to_equations. lia.
    + rewrite Z.shiftl_mul_pow2, u32_mod by lia.
      Z.div_mod_to_equations. lia.
Qed.

Lemma vector_expand_mask_range (shake128 shake256 : list Z -> nat -> Z)
  (X : nat) (seed : list Z) (kappa i k : nat) :
  (i < X)%nat -> (k < kDegree)%nat ->
  - 2 ^ 19
  < centered (coef (vec (vector_expand_mask shake128 shake256 X seed kappa) i) k)
  <= 2 ^ 19.
Proof.
  intros Hi Hk. unfold vector_expand_mask.
  rewrite vec_vector_build by exact Hi. cbv zeta.
  unfold scalar_sample_mask. apply scalar_decode_signed_20_19_range;
    [apply keccak_bytes | exact Hk].
Qed.

(** ** Hints: the encoding is canonical *)

Lemma chainb_above (l : list Z) (last x : Z) :
  chainb l last = true -> 0 <= last -> In x l -> last < x.
Proof.
  revert last. induction l as [| b l IH]; intros last H H0 Hin; [destruct Hin|].
  cbn [chainb] in H.
  destruct (Z.leb_spec 0 last) as [_ | Hn]; [|lia].
  destruct (Z.leb_spec b last) as [Hle | Hgt]; cbn [andb] in H;
    [discriminate H|].
  destruct Hin as [<- | Hin]; [exact Hgt|].
  specialize (IH b H ltac:(lia) Hin). lia.
Qed.

Lemma ones_zero_region (row : scalar) (j n : nat) :
  (forall j', (j <= j')%nat -> coef row j' = 0) -> ones row j n = [].
Proof.
  revert j. induction n as [| n IH]; intros j H; [reflexivity|].
  rewrite ones_cons. rewrite (H j) by lia. cbn [Z.eqb negb].
  apply IH. intros j' Hj'. apply H. lia.
Qed.

Lemma ones_set_ones (n j : nat) (l : list Z) (row : scalar) :
  length row = kDegree -> (j + n = kDegree)%nat ->
  (forall x, In x l -> 0 <= x < 256) ->
  chainb l (Z.of_nat j - 1) = true ->
  (forall j', (j <= j')%nat -> coef row j' = 0) ->
  ones (set_ones row l) j n = map Z.to_nat l.
Proof.
  revert j l row. induction n as [| n IH]; intros j l row Hl Hn Hb Hc Hz.
  - destruct l as [| b l]; [reflexivity|]. exfalso.
    cbn [chainb] in Hc. pose proof (Hb b (or_introl eq_refl)) as Hbb.
    unfold kDegree in Hn.
    destruct (Z.leb_spec 0 (Z.of_nat j - 1)) as [_ | Hlt]; [|lia].
    destruct (Z.leb_spec b (Z.of_nat j - 1)) as [_ | Hgt]; [|lia].
    discriminate Hc.
  - destruct l as [| b l].
    + cbn [map]. apply ones_zero_region. exact Hz.
    + pose proof (Hb b (or_introl eq_refl)) as Hbb.
      assert (Hcl : chainb l b = true /\ Z.of_nat j <= b).
      { cbn [chainb] in Hc.
        destruct (Z.leb_spec 0 (Z.of_nat j - 1)) as [H0 | H0];
          destruct (Z.leb_spec b (Z.of_nat j - 1)) as [H1 | H1];
          cbn [andb] in Hc; try discriminate Hc; split; try exact Hc; lia. }
      destruct Hcl as [Hcl Hjb].
      rewrite ones_cons.
      destruct (Nat.eq_dec (Z.to_nat b) j) as [E | Hne].
      * rewrite coef_set_ones_in
          by (try (left; exact E); unfold kDegree in *; lia).
        cbn [Z.eqb negb map]. rewrite E. f_equal.
        cbn [set_ones fold_left]. fold (set_ones (upd row (Z.to_nat b) 1) l).
        rewrite E. apply IH.
        -- rewrite upd_length. exact Hl.
        -- lia.
        -- intros x Hx. apply Hb. right. exact Hx.
        -- replace (Z.of_nat (S j) - 1) with b by lia. exact Hcl.
        -- intros j' Hj'. rewrite coef_upd_neq by lia. apply Hz. lia.
      * assert (Hlt : Z.of_nat j < b) by lia.
        assert (Hc' : chainb (b :: l) (Z.of_nat j) = true).
        { cbn [chainb]. destruct (Z.leb_spec b (Z.of_nat j)); [lia|].
          rewrite andb_false_r. exact Hcl. }
        rewrite coef_set_ones_notin.
        2:{ intros Hin. apply in_map_iff in Hin. destruct Hin as (x & Ex & Hx).
            pose proof (chainb_above _ _ x Hc' ltac:(lia) Hx). lia. }
        rewrite (Hz j) by lia. cbn [Z.eqb negb].
        apply IH; try assumption; [lia | |].
        -- replace (Z.of_nat (S j) - 1) with (Z.of_nat j) by lia. exact Hc'.
        -- intros j' Hj'. apply Hz. lia.
Qed.

Lemma set_ones_bits (l : list Z) (j : nat) :
  (j < kDegree)%nat ->
  coef (set_ones scalar_zero l) j = 0 \/ coef (set_ones scalar_zero l) j = 1.
Proof.
  intros Hj.
  destruct (in_dec Nat.eq_dec j (map Z.to_nat l)) as [Hin | Hnot].
  - right. apply coef_set_ones_in; [exact Hj | exact Hin].
  - left. rewrite coef_set_ones_notin by exact Hnot.
    unfold coef, scalar_zero. apply nth_repeat.
Qed.

Lemma hint_segment_bytes (inp : list Z) (i : nat) (x : Z) :
  bytes inp -> In x (hint_segment inp i) -> 0 <= x < 256.
Proof.
  intros Hb Hin. unfold hint_segment in Hin. apply in_map_iff in Hin.
  destruct Hin as (p & <- & _). apply byte_at_range. exact Hb.
Qed.

Lemma hint_prev_limit_S (inp : list Z) (i : nat) :
  hint_prev_limit inp (S i) = hint_limit inp i.
Proof. reflexivity. Qed.

(** What the loop over the rows leaves in the hint. *)
Lemma hint_unpack_rows_rows (inp : list Z) (n i : nat) (hcur : vector)
  (res : vector * nat) :
  (i + n = K)%nat -> length hcur = K ->
  hint_unpack_rows n i inp hcur (hint_prev_limit inp i) = Some res ->
  length (fst res) = K /\
  (forall i', (i' < K)%nat ->
     vec (fst res) i' =
     if (i <=? i')%nat then set_ones (vec hcur i') (hint_segment inp i')
     else vec hcur i') /\
  (forall i', (i <= i')%nat -> (i' < K)%nat ->
     chainb (hint_segment inp i') (-1) = true /\
     (hint_prev_limit inp i' <= hint_limit inp i')%nat /\
     (hint_limit inp i' <= omega)%nat).
Proof.
  revert i hcur. induction n as [| n IH]; intros i hcur Hn Hl H.
  - cbn [hint_unpack_rows] in H. injection H as <-. cbn [fst].
    split; [exact Hl|]. split.
    + intros i' Hi'. destruct (Nat.leb_spec i i'); [lia | reflexivity].
    + intros i' H1 H2. lia.
  - cbn [hint_unpack_rows] in H. fold (hint_limit inp i) in H.
    destruct (Nat.ltb_spec (hint_limit inp i) (hint_prev_limit inp i))
      as [H1 | H1]; [discriminate H|]. cbn [orb] in H.
    destruct (Nat.ltb_spec omega (hint_limit inp i)) as [H2 | H2];
      [discriminate H|].
    rewrite hint_unpack_row_spec in H. fold (hint_segment inp i) in H.
    destruct (chainb (hint_segment inp i) (-1)) eqn:Ec; [|discriminate H].
    replace (hint_prev_limit inp i
             + (hint_limit inp i - hint_prev_limit inp i))%nat
      with (hint_prev_limit inp (S i)) in H
      by (rewrite hint_prev_limit_S; lia).
    assert (Hl' : length (upd hcur i
                            (set_ones (vec hcur i) (hint_segment inp i))) = K)
      by (rewrite upd_length; exact Hl).
    destruct (IH (S i) _ ltac:(lia) Hl' H) as (I1 & I2 & I3).
    split; [exact I1|]. split.
    + intros i' Hi'. rewrite (I2 i' Hi'). unfold vec.
      destruct (Nat.leb_spec (S i) i') as [H3 | H3];
        destruct (Nat.leb_spec i i') as [H4 | H4]; try lia.
      * rewrite nth_upd_neq by lia. reflexivity.
      * replace i' with i by lia. apply nth_upd_eq. lia.
      * apply nth_upd_neq. lia.
    + intros i' H3 H4. destruct (Nat.eq_dec i' i) as [-> | Hne].
      * split; [exact Ec|]. split; [exact H1 | exact H2].
      * apply I3; lia.
Qed.

Lemma map_to_nat_nth (l : list Z) (t : nat) :
  (forall x, In x l -> 0 <= x) -> (t < length l)%nat ->
  Z.of_nat (nth t (map Z.to_nat l) 0%nat) = nth t l 0.
Proof.
  intros H Ht. change 0%nat with (Z.to_nat 0). rewrite map_nth.
  apply Z2Nat.id. apply H. apply nth_In. exact Ht.
Qed.

Lemma hint_cum_find (h : vector) (n q : nat) :
  (q < hint_cum h n)%nat ->
  exists i, (i < n)%nat /\ (hint_cum h i <= q)%nat /\ (q < hint_cum h (S i))%nat.
Proof.
  induction n as [| n IH]; intros Hq; [cbn in Hq; lia|].
  destruct (Nat.lt_ge_cases q (hint_cum h n)) as [Hlt | Hge].
  - destruct (IH Hlt) as (i & Hi & H1 & H2). exists i.
    split; [lia|]. split; assumption.
  - exists n. split; [lia|]. split; assumption.
Qed.

(** [packs] determines the bytes. *)
Lemma packs_unique (h : vector) (p1 p2 : list Z) :
  packs h p1 -> packs h p2 -> (hint_cum h K <= omega)%nat -> p1 = p2.
Proof.
  intros (L1 & C1 & S1 & T1) (L2 & C2 & S2 & T2) Hw.
  apply (nth_ext p1 p2 0 0); [congruence|].
  intros q Hq. rewrite L1 in Hq.
  change (byte_at p1 q = byte_at p2 q).
  destruct (Nat.lt_ge_cases q omega) as [Hlo | Hhi].
  - destruct (Nat.lt_ge_cases q (hint_cum h K)) as [Hin | Hout].
    + destruct (hint_cum_find h K q Hin) as (i & Hi & H1 & H2).
      rewrite hint_cum_S in H2.
      replace q with (hint_cum h i + (q - hint_cum h i))%nat by lia.
      rewrite S1, S2 by (try exact Hi; lia). reflexivity.
    + rewrite T1, T2 by assumption. reflexivity.
  - replace q with (omega + (q - omega))%nat by lia.
    rewrite C1, C2 by lia. reflexivity.
Qed.

(** A hint that [hint_bit_unpack] returns is well formed, and packing it gives
    back the bytes it was read from. *)
Lemma hint_unpack_pack (inp : list Z) (h : vector) :
  bytes inp -> length inp = (omega + K)%nat ->
  hint_bit_unpack inp = Some h ->
  wf_hint h /\ hint_bit_pack h = Some inp.
Proof.
  intros Hb Hlen Hu.
  pose proof (proj1 (hint_unpack_some_iff inp Hb) (ex_intro _ h Hu))
    as (_ & _ & Htail).
  unfold hint_bit_unpack in Hu.
  destruct (hint_unpack_rows K 0 inp (vector_zero K) 0) as [[h' index]|] eqn:E;
    [|discriminate Hu].
  destruct (hint_unpack_tail (omega - index) index inp); [|discriminate Hu].
  injection Hu as ->.
  change 0%nat with (hint_prev_limit inp 0) in E at 2.
  destruct (hint_unpack_rows_rows inp K 0 (vector_zero K) _ eq_refl
              (repeat_length _ _) E) as (Hl & Hrows & Hok).
  cbn [fst] in Hl, Hrows.
  assert (Hrow : forall i, (i < K)%nat ->
            vec h i = set_ones scalar_zero (hint_segment inp i)).
  { intros i Hi. rewrite (Hrows i Hi). cbn [Nat.leb].
    rewrite vec_vector_zero. reflexivity. }
  assert (Hones : forall i, (i < K)%nat ->
            ones (vec h i) 0 kDegree = map Z.to_nat (hint_segment inp i)).
  { intros i Hi. rewrite (Hrow i Hi).
    apply ones_set_ones.
    - reflexivity.
    - reflexivity.
    - intros x Hx. apply (hint_segment_bytes inp i x Hb Hx).
    - apply (Hok i); [lia | exact Hi].
    - intros j' _. unfold coef, scalar_zero.
      destruct (Nat.lt_ge_cases j' kDegree) as [H1 | H1].
      + apply nth_repeat.
      + apply nth_overflow. rewrite repeat_length. exact H1. }
  assert (Hlen_seg : forall i, (i < K)%nat ->
            length (ones (vec h i) 0 kDegree)
            = (hint_limit inp i - hint_prev_limit inp i)%nat).
  { intros i Hi. rewrite (Hones i Hi). unfold hint_segment.
    rewrite !length_map, length_seq. reflexivity. }
  assert (Hcum : forall i, (i <= K)%nat ->
            hint_cum h i = hint_prev_limit inp i).
  { induction i as [| i IHi]; intros Hi; [reflexivity|].
    rewrite hint_cum_S, IHi, Hlen_seg, hint_prev_limit_S by lia.
    destruct (Hok i ltac:(lia) ltac:(lia)) as (_ & H1 & _). lia. }
  assert (HcumK : hint_cum h K = hint_limit inp (K - 1))
    by (rewrite Hcum by lia; reflexivity).
  assert (Hw : (hint_cum h K <= omega)%nat).
  { rewrite HcumK. apply (Hok (K - 1)%nat); unfold K; lia. }
  assert (Hwf : wf_hint h).
  { split; [exact Hl|]. split; [|exact Hw].
    intros i Hi. rewrite (Hrow i Hi). split.
    - rewrite set_ones_length. reflexivity.
    - intros j Hj. apply set_ones_bits. exact Hj. }
  split; [exact Hwf|].
  destruct (hint_bit_pack_packs h Hw) as (packed & Ep & Hp).
  rewrite Ep. f_equal. apply (packs_unique h); [exact Hp | | exact Hw].
  split; [exact Hlen|]. split; [|split].
  - intros i Hi. rewrite Hcum, hint_prev_limit_S by lia.
    unfold hint_limit. rewrite Z2Nat.id; [reflexivity|].
    apply byte_at_range. exact Hb.
  - intros i Hi t Ht. rewrite (Hones i Hi).
    rewrite Hlen_seg in Ht by exact Hi.
    rewrite map_to_nat_nth.
    + unfold hint_segment.
      rewrite (nth_indep _ 0 (byte_at inp 0))
        by (rewrite length_map, length_seq; exact Ht).
      rewrite (map_nth (byte_at inp)).
      rewrite seq_nth by exact Ht. rewrite Hcum by lia. reflexivity.
    + intros x Hx. apply (hint_segment_bytes inp i x Hb Hx).
    + unfold hint_segment. rewrite length_map, length_seq. exact Ht.
  - intros p Hp1 Hp2. apply Htail; [|exact Hp2].
    rewrite HcumK in Hp1. exact Hp1.
Qed.

(** ** The encoding of [z] is canonical *)

Lemma store_load_u32 (b : list Z) (i : nat) :
  bytes b ->
  store_u32 (load_u32 b i)
  = [byte_at b i; byte_at b (i + 1); byte_at b (i + 2); byte_at b (i + 3)].
Proof.
  intros H. rewrite load_u32_sum by exact H. unfold store_u32.
  pose proof (byte_at_range b i H). pose proof (byte_at_range b (i + 1) H).
  pose proof (byte_at_range b (i + 2) H). pose proof (byte_at_range b (i + 3) H).
  rewrite !Z.shiftr_div_pow2, !u8_mod by lia.
  repeat f_equal; Z.div_mod_to_equations; lia.
Qed.

Lemma store_load_u16 (b : list Z) (i : nat) :
  bytes b -> store_u16 (load_u16 b i) = [byte_at b i; byte_at b (i + 1)].
Proof.
  intros H. rewrite load_u16_sum by exact H. unfold store_u16.
  pose proof (byte_at_range b i H). pose proof (byte_at_range b (i + 1) H).
  rewrite !Z.shiftr_div_pow2, !u8_mod by lia.
  repeat f_equal; Z.div_mod_to_equations; lia.
Qed.

(** The four 20-bit fields of ten bytes, put together again. *)
Lemma chunk_20_encode (a b c : Z) :
  0 <= a < 2 ^ 32 -> 0 <= b < 2 ^ 32 -> 0 <= c < 2 ^ 16 ->
  let v0 := Z.land a (Z.ones 20) in
  let v1 := Z.lor (Z.shiftr a 20) (u32 (Z.shiftl (Z.land b (Z.ones 8)) 12)) in
  let v2 := Z.land (Z.shiftr b 8) (Z.ones 20) in
  let v3 := Z.lor (Z.shiftr b 28) (u32 (Z.shiftl c 4)) in
  (0 <= v0 < 2 ^ 20 /\ 0 <= v1 < 2 ^ 20 /\ 0 <= v2 < 2 ^ 20 /\
   0 <= v3 < 2 ^ 20) /\
  Z.lor v0 (u32 (Z.shiftl v1 20)) = a /\
  Z.lor (Z.lor (Z.shiftr v1 12) (u32 (Z.shiftl v2 8))) (u32 (Z.shiftl v3 28))
  = b /\
  Z.shiftr v3 4 = c.
Proof.
  intros Ha Hb Hc v0 v1 v2 v3.
  assert (E0 : v0 = a mod 2 ^ 20) by (apply Z.land_ones; lia).
  assert (E1 : v1 = a / 2 ^ 20 + (b mod 2 ^ 8) * 2 ^ 12).
  { unfold v1. rewrite Z.land_ones, Z.shiftr_div_pow2, Z.shiftl_mul_pow2 by lia.
    rewrite u32_small by (Z.div_mod_to_equations; lia).
    apply (lor_add_disjoint _ _ 12); [Z.div_mod_to_equations; lia | lia |].
    apply Z.mod_mul. lia. }
  assert (E2 : v2 = (b / 2 ^ 8) mod 2 ^ 20).
  { unfold v2. rewrite Z.shiftr_div_pow2 by lia. apply Z.land_ones. lia. }
  assert (E3 : v3 = b / 2 ^ 28 + c * 2 ^ 4).
  { unfold v3. rewrite Z.shiftr_div_pow2, Z.shiftl_mul_pow2 by lia.
    rewrite u32_small by lia.
    apply (lor_add_disjoint _ _ 4); [Z.div_mod_to_equations; lia | lia |].
    apply Z.mod_mul. lia. }
  assert (R0 : 0 <= v0 < 2 ^ 20) by (rewrite E0; apply Z.mod_pos_bound; lia).
  assert (R1 : 0 <= v1 < 2 ^ 20) by (rewrite E1; Z.div_mod_to_equations; lia).
  assert (R2 : 0 <= v2 < 2 ^ 20) by (rewrite E2; apply Z.mod_pos_bound; lia).
  assert (R3 : 0 <= v3 < 2 ^ 20) by (rewrite E3; Z.div_mod_to_equations; lia).
  split; [repeat split; lia|].
  rewrite chunk_20_a, chunk_20_b by assumption.
  rewrite Z.shiftr_div_pow2 by lia.
  rewrite E0, E2. clear E0 E2 R0 R2. subst v1 v3. clear v0 v2.
  rewrite E1, E3.
  repeat split; Z.div_mod_to_equations; lia.
Qed.

Lemma scalar_20_encode_decode (inp : list Z) :
  bytes inp -> (640 <= length inp)%nat ->
  scalar_encode_signed_20_19 (scalar_decode_signed_20_19 inp)
  = firstn 640 inp.
Proof.
  intros Hb Hlen. unfold scalar_encode_signed_20_19. cbv zeta.
  change (kDegree / 4)%nat with 64%nat.
  apply (nth_flat_map_chunk 10 64); [lia | | reflexivity |].
  { rewrite length_firstn. lia. }
  intros i j Hi Hj.
  assert (Hd : forall t, (t < 4)%nat ->
            coef (scalar_decode_signed_20_19 inp) (4 * i + t)
            = nth t
                (let a := load_u32 inp (10 * i) in
                 let b := load_u32 inp (10 * i + 4) in
                 let c := load_u16 inp (10 * i + 8) in
                 [mod_sub (Z.shiftl 1 19) (Z.land a (Z.shiftl 1 20 - 1));
                  mod_sub (Z.shiftl 1 19)
                    (Z.lor (Z.shiftr a 20)
                       (u32 (Z.shiftl (Z.land b 255) 12)));
                  mod_sub (Z.shiftl 1 19)
                    (Z.land (Z.shiftr b 8) (Z.shiftl 1 20 - 1));
                  mod_sub (Z.shiftl 1 19)
                    (Z.lor (Z.shiftr b 28) (u32 (Z.shiftl c 4)))]) 0).
  { intros t Ht. unfold coef, scalar_decode_signed_20_19. cbv zeta.
    change (kDegree / 4)%nat with 64%nat.
    rewrite <- (app_nil_r (flat_map _ _)).
    rewrite (flat_map_chunk_nth _ 4 64 i t [] 0); try lia; reflexivity. }
  cbv zeta in Hd.
  rewrite <- (Nat.add_0_r (4 * i)) at 1.
  rewrite !Hd by lia. cbn [nth].
  change (Z.shiftl 1 20 - 1) with (Z.ones 20). change 255 with (Z.ones 8).
  pose proof (load_u32_range' inp (10 * i) Hb) as Ha.
  pose proof (load_u32_range' inp (10 * i + 4) Hb) as Hb4.
  pose proof (load_u16_range inp (10 * i + 8) Hb) as Hc.
  destruct (chunk_20_encode _ _ _ Ha Hb4 Hc) as ((R0 & R1 & R2 & R3) & EA & EB & ED).
  cbv zeta in R0, R1, R2, R3, EA, EB, ED.
  assert (Hk : 0 <= Z.shiftl 1 19 < kPrime) by (cbn; unfold kPrime; lia).
  rewrite !mod_sub_involutive by (try exact Hk; unfold kPrime; lia).
  rewrite EA, EB, ED.
  rewrite !store_load_u32, store_load_u16 by exact Hb.
  unfold coef. rewrite nth_firstn.
  replace (10 * i + j <? 640)%nat with true
    by (symmetry; apply Nat.ltb_lt; lia).
  unfold byte_at.
  do 10 (destruct j as [| j];
         [cbn [app nth]; f_equal; lia|]).
  lia.
Qed.

Lemma firstn_plus {A : Type} (n m : nat) (l : list A) :
  firstn (n + m) l = firstn n l ++ firstn m (skipn n l).
Proof.
  revert l. induction n as [| n IH]; intros l; [reflexivity|].
  destruct l as [| x l]; cbn [Nat.add firstn skipn app].
  - rewrite firstn_nil. reflexivity.
  - f_equal. apply IH.
Qed.

Lemma firstn_skipn_chunks {A : Type} (c m : nat) (l : list A) :
  (c * m <= length l)%nat ->
  flat_map (fun i => firstn c (skipn (c * i) l)) (seq 0 m) = firstn (c * m) l.
Proof.
  induction m as [| m IH]; intros H.
  - rewrite Nat.mul_0_r. reflexivity.
  - rewrite seq_S, flat_map_app, IH by lia. cbn [flat_map Nat.add].
    rewrite app_nil_r.
    replace (c * S m)%nat with (c * m + c)%nat by lia.
    rewrite (firstn_plus (c * m) c). reflexivity.
Qed.

Lemma vector_20_encode_decode (X : nat) (inp : list Z) :
  bytes inp -> (640 * X <= length inp)%nat ->
  vector_encode_signed_20 X (vector_decode_signed_20 X inp)
  = firstn (640 * X) inp.
Proof.
  intros Hb Hlen. unfold vector_encode_signed_20.
  rewrite <- (firstn_skipn_chunks 640 X inp Hlen).
  apply flat_map_ext_In. intros i Hi. apply in_seq in Hi.
  unfold vector_decode_signed_20. rewrite vec_vector_build by lia.
  replace (i * 20 * kDegree / 8)%nat with (640 * i)%nat.
  2:{ unfold kDegree. replace (i * 20 * 256)%nat with (640 * i * 8)%nat by lia.
      rewrite Nat.div_mul by lia. reflexivity. }
  apply scalar_20_encode_decode; [apply bytes_skipn; exact Hb|].
  rewrite length_skipn. nia.
Qed.

(** ** Signatures have one encoding *)

(** X23: signatures have one encoding: where [mldsa_parse_signature] accepts
    3309 bytes, [mldsa_marshal_signature] of the signature it returns gives
    back these very bytes, so that no two byte strings parse to the same
    signature. *)
Theorem signature_encoding_canonical (inp : list Z) (sign : signature) :
  bytes inp -> length inp = MLDSA65_SIGNATURE_BYTES ->
  mldsa_parse_signature inp = Some sign ->
  mldsa_marshal_signature sign = Some inp.
Proof.
  intros Hb Hlen. unfold mldsa_parse_signature.
  destruct (CBS_get_bytes inp (2 * lambda_bytes)) as [[c r1]|] eqn:E1;
    [|discriminate].
  destruct (CBS_get_bytes r1 (640 * L)) as [[zb r2]|] eqn:E2; [|discriminate].
  destruct (CBS_get_bytes r2 (omega + K)) as [[hb r3]|] eqn:E3; [|discriminate].
  destruct (hint_bit_unpack hb) as [h|] eqn:Eh; [|discriminate].
  intros H. injection H as <-.
  apply CBS_get_bytes_some in E1, E2, E3.
  destruct E1 as [-> L1]. destruct E2 as [-> L2]. destruct E3 as [-> L3].
  rewrite !length_app, L1, L2, L3 in Hlen.
  assert (r3 = []).
  { destruct r3; [reflexivity|]. cbn [length] in Hlen.
    unfold MLDSA65_SIGNATURE_BYTES, lambda_bytes, L, omega, K in Hlen. lia. }
  subst r3. rewrite app_nil_r in *.
  assert (Hzb : bytes zb).
  { unfold bytes in *. apply Forall_app in Hb. destruct Hb as [_ Hb].
    apply Forall_app in Hb. apply Hb. }
  assert (Hhb : bytes hb).
  { unfold bytes in *. apply Forall_app in Hb. destruct Hb as [_ Hb].
    apply Forall_app in Hb. apply Hb. }
  destruct (hint_unpack_pack hb h Hhb L3 Eh) as [_ Ep].
  unfold mldsa_marshal_signature. cbn [sig_h sig_c_tilde sig_z].
  rewrite Ep.
  rewrite vector_20_encode_decode by (try exact Hzb; lia).
  rewrite firstn_all2 by lia. reflexivity.
Qed.

(** ** The encoding of the commitment *)

Lemma scalar_encode_4_length (s : scalar) :
  length (scalar_encode_4 s) = 128%nat.
Proof. unfold scalar_encode_4. rewrite length_map, length_seq. reflexivity. Qed.

Lemma nibble_encode_4 (s : scalar) (rest : list Z) (k : nat) :
  (forall j, (j < kDegree)%nat -> 0 <= coef s j < 16) ->
  (k < kDegree)%nat ->
  nibble (scalar_encode_4 s ++ rest) k = coef s k.
Proof.
  intros Hc Hk. unfold nibble, byte_at.
  assert (Hd : (k / 2 < 128)%nat)
    by (apply Nat.Div0.div_lt_upper_bound; unfold kDegree in Hk; lia).
  rewrite app_nth1 by (rewrite scalar_encode_4_length; exact Hd).
  unfold scalar_encode_4. change (kDegree / 2)%nat with 128%nat.
  rewrite nth_map_seq by exact Hd. cbv zeta.
  pose proof (Hc (2 * (k / 2))%nat ltac:(unfold kDegree; lia)) as Ha.
  pose proof (Hc (2 * (k / 2) + 1)%nat ltac:(unfold kDegree; lia)) as Hb.
  pose proof (Nat.div_mod_eq k 2) as Ek.
  pose proof (Nat.mod_upper_bound k 2 ltac:(lia)) as Hm.
  rewrite Z.shiftl_mul_pow2 by lia.
  rewrite (u32_small (coef s (2 * (k / 2) + 1) * 2 ^ 4)) by lia.
  rewrite (lor_add_disjoint (coef s (2 * (k / 2)))
             (coef s (2 * (k / 2) + 1) * 2 ^ 4) 4)
    by (try lia; apply Z.mod_mul; lia).
  rewrite u8_small by lia.
  destruct (Nat.even k) eqn:Ev.
  - assert (E0 : (k mod 2 = 0)%nat).
    { apply Nat.even_spec in Ev. destruct Ev as [m ->].
      rewrite Nat.mul_comm. apply Nat.Div0.mod_mul. }
    replace k with (2 * (k / 2))%nat at 3 by lia.
    rewrite land_15_mod. Z.div_mod_to_equations. lia.
  - assert (E1 : (k mod 2 = 1)%nat).
    { destruct (k mod 2)%nat as [| [| r]] eqn:Er; [| reflexivity | lia].
      assert (Hev : Nat.even k = true).
      { apply Nat.even_spec. exists (k / 2)%nat. lia. }
      congruence. }
    replace k with (2 * (k / 2) + 1)%nat at 3 by lia.
    rewrite Z.shiftr_div_pow2 by lia. Z.div_mod_to_equations. lia.
Qed.

Lemma w1_encode_length (X : nat) (w1 : vector) :
  length (w1_encode X w1) = (X * 128)%nat.
Proof.
  unfold w1_encode, vector_encode. cbn [Nat.eqb].
  apply flat_map_chunk_length. intros i. apply scalar_encode_4_length.
Qed.

Lemma nibble_skipn (b : list Z) (i k : nat) :
  nibble (skipn (128 * i) b) k = nibble b (kDegree * i + k).
Proof.
  unfold nibble, byte_at. rewrite nth_skipn.
  replace (kDegree * i + k)%nat with (k + 2 * (128 * i))%nat
    by (unfold kDegree; lia).
  rewrite Nat.even_add_mul_2.
  replace (k + 2 * (128 * i))%nat with (k + (128 * i) * 2)%nat by lia.
  rewrite Nat.div_add by lia.
  replace (128 * i + k / 2)%nat with (k / 2 + 128 * i)%nat by lia.
  reflexivity.
Qed.

Lemma w1_encode_nibble (X : nat) (w : vector) (i k : nat) :
  (i < X)%nat -> (k < kDegree)%nat ->
  nibble (w1_encode X (vector_high_bits X w)) (kDegree * i + k)
  = high_bits (coef (vec w i) k).
Proof.
  intros Hi Hk. rewrite <- nibble_skipn.
  unfold w1_encode, vector_encode. cbn [Nat.eqb].
  rewrite <- (app_nil_r (flat_map _ _)).
  rewrite (flat_map_chunk_skipn _ 128 X i [])
    by (try exact Hi; intros; apply scalar_encode_4_length).
  unfold vector_high_bits. rewrite vec_vector_build by exact Hi.
  rewrite nibble_encode_4; [| | exact Hk].
  - unfold scalar_high_bits. apply coef_scalar_build. exact Hk.
  - intros j Hj. unfold scalar_high_bits. rewrite coef_scalar_build by exact Hj.
    pose proof (high_bits_range (coef (vec w i) j)). lia.
Qed.

(** ** Public keys in general *)

(** X20: a public key with a 32-byte [rho] and coefficients of [t1] below
    2^10 is marshalled to 1952 bytes, and [mldsa_parse_public_key] gives it
    back from them, with the hash of the encoding as its hash. *)
Theorem public_key_parse_marshal (shake128 shake256 : list Z -> nat -> Z)
  (pub : public_key) :
  length (pub_rho pub) = kRhoBytes ->
  length (pub_t1 pub) = K ->
  (forall i, (i < K)%nat -> length (vec (pub_t1 pub) i) = kDegree) ->
  (forall i k, (i < K)%nat -> (k < kDegree)%nat ->
     0 <= coef (vec (pub_t1 pub) i) k < 2 ^ 10) ->
  length (mldsa_marshal_public_key pub) = MLDSA65_PUBLIC_KEY_BYTES /\
  mldsa_parse_public_key shake128 shake256 (mldsa_marshal_public_key pub)
  = Some {| pub_rho := pub_rho pub; pub_t1 := pub_t1 pub;
            pub_public_key_hash :=
              BORINGSSL_keccak shake128 shake256 kTrBytes
                (mldsa_marshal_public_key pub) boringssl_shake256 |}.
Proof.
  intros Hr Hl1 Hl2 Hc.
  pose proof (vector_encode_10_length K (pub_t1 pub)) as Hl.
  unfold mldsa_marshal_public_key.
  rewrite firstn_all2 by lia.
  split; [rewrite length_app, Hl, Hr; reflexivity|].
  unfold mldsa_parse_public_key at 1.
  rewrite (CBS_get_bytes_app _ _ kRhoBytes Hr).
  rewrite <- (app_nil_r (vector_encode K (pub_t1 pub) 10)) at 1.
  rewrite (CBS_get_bytes_app _ _ (320 * K))
    by (rewrite Hl; unfold K; lia).
  cbn [length Nat.eqb negb].
  rewrite <- (app_nil_r (vector_encode K (pub_t1 pub) 10)) at 1.
  rewrite vector_10_roundtrip by assumption.
  reflexivity.
Qed.

(** ** The verification equation on vectors *)

#[local] Opaque scalar_ntt scalar_inverse_ntt scalar_add scalar_sub scalar_mult
  matrix_row.

(** X3: the equation behind verification, on the values of the code: with
    [t = A s1 + s2] split into [t1] and [t0] by [vector_power2_round] and
    [z = y + c s1], what the verifier computes from [z], [c] and [t1] is
    [w - c s2 + c t0], where [w = A y] is the commitment of the signer. *)
Theorem verification_equation (a : matrix) (s1 s2 y : vector) (c : scalar) :
  wf_matrix K L a -> wf_vector L s1 -> wf_vector K s2 -> wf_vector L y ->
  wf_scalar c ->
  let c_ntt := scalar_ntt c in
  let t := vector_add K
             (vector_inverse_ntt K (matrix_mult K L a (vector_ntt L s1))) s2 in
  let t1 := fst (vector_power2_round K t) in
  let t0 := snd (vector_power2_round K t) in
  let w := vector_inverse_ntt K (matrix_mult K L a (vector_ntt L y)) in
  let cs1 := vector_inverse_ntt L
               (vector_mult_scalar L (vector_ntt L s1) c_ntt) in
  let cs2 := vector_inverse_ntt K
               (vector_mult_scalar K (vector_ntt K s2) c_ntt) in
  let ct0 := vector_inverse_ntt K
               (vector_mult_scalar K (vector_ntt K t0) c_ntt) in
  let z := vector_add L y cs1 in
  vector_inverse_ntt K
    (vector_sub K (matrix_mult K L a (vector_ntt L z))
       (vector_mult_scalar K
          (vector_ntt K (vector_scale_power2_round K t1)) c_ntt))
  = vector_add K (vector_sub K w cs2) ct0.
Proof.
  intros Ha Hs1 Hs2 Hy Hc c_ntt t t1 t0 w cs1 cs2 ct0 z.
  unfold vector_inverse_ntt at 1. unfold vector_add at 1.
  apply vector_build_ext. intros i Hi.
  rewrite vec_vector_sub, vec_matrix_mult, vec_vector_mult_scalar,
    vec_vector_ntt by exact Hi.
  unfold vector_scale_power2_round. rewrite vec_vector_build by exact Hi.
  unfold t1. rewrite vec_power2_round_fst by exact Hi.
  assert (Eti : vec t i
                = scalar_add
                    (scalar_inverse_ntt (matrix_row L a i (vector_ntt L s1)))
                    (vec s2 i)).
  { unfold t. rewrite vec_vector_add, vec_vector_inverse_ntt, vec_matrix_mult
      by exact Hi. reflexivity. }
  unfold c_ntt.
  rewrite (verify_row a i s1 y (vec s2 i) c (fun j Hj => Ha i j Hi Hj)
             Hs1 Hy (wf_vec K s2 i Hs2 Hi) Hc (vec t i) z Eti eq_refl).
  rewrite vec_vector_sub by exact Hi.
  unfold w, cs2, ct0, c_ntt.
  rewrite !vec_vector_inverse_ntt, !vec_vector_mult_scalar, !vec_vector_ntt,
    vec_matrix_mult by exact Hi.
  unfold t0. rewrite vec_power2_round_snd by exact Hi.
  reflexivity.
Qed.

#[local] Transparent scalar_ntt scalar_inverse_ntt scalar_add scalar_sub
  scalar_mult matrix_row.

(** * Further properties of the code *)

(** ** The number-theoretic transform and the ring *)

(** X4: [scalar_ntt] evaluates: coefficient [k] of the transform of [s] is
    the value of the polynomial [s] at the point [ntt_root k] read off
    [kNTTRootsMontgomery], modulo [q], and every such point is a root of
    [X^256 + 1]. *)
Theorem scalar_ntt_evaluation (s : scalar) (k : nat) :
  wf_scalar s -> (k < kDegree)%nat ->
  coef (scalar_ntt s) k = ev (coef s) (ntt_root k) mod kPrime /\
  (ntt_root k ^ 256) mod kPrime = kPrime - 1.
Proof.
  intros Hs Hk. split.
  - pose proof (scalar_ntt_ev s k Hs Hk) as [H].
    rewrite <- H. symmetry. apply Z.mod_small.
    apply wf_coef; [apply scalar_ntt_wf; exact Hs | exact Hk].
  - pose proof (ntt_root_order k Hk) as [H]. rewrite H. reflexivity.
Qed.

(** X5: [scalar_ntt] is linear: it commutes with [scalar_add] and
    [scalar_sub]. *)
Theorem scalar_ntt_linear (a b : scalar) :
  wf_scalar a -> wf_scalar b ->
  scalar_ntt (scalar_add a b) = scalar_add (scalar_ntt a) (scalar_ntt b) /\
  scalar_ntt (scalar_sub a b) = scalar_sub (scalar_ntt a) (scalar_ntt b).
Proof.
  intros Ha Hb. split.
  - apply scalar_ntt_add_eq; assumption.
  - apply scalar_ntt_sub_eq; assumption.
Qed.

(** X7: the product of a challenge (of [tau] coefficients 1 or -1) with a
    scalar whose coefficients are at most [B] in absolute value has
    coefficients at most [tau * B]; with [B = 4] this is the bound [beta] of
    the checks of signing. *)
Theorem challenge_product_small (s c : scalar) (B : Z) (k : nat) :
  wf_scalar s -> in_ball tau c -> (k < kDegree)%nat -> 0 <= B <= 10000 ->
  (forall j, (j < kDegree)%nat -> Z.abs (centered (coef s j)) <= B) ->
  Z.abs (centered
           (coef (scalar_inverse_ntt
                    (scalar_mult (scalar_ntt s) (scalar_ntt c))) k))
  <= Z.of_nat tau * B.
Proof.
  intros Hs Hc Hk HB Hb. rewrite Z.mul_comm.
  apply challenge_product_bound; assumption.
Qed.

(** X8: on scalars in range, [scalar_add] and [scalar_sub] are the sum and
    the difference modulo [q], and [scalar_mult] is the product modulo [q]
    with one factor [2^-32]. *)
Theorem scalar_arithmetic_mod (a b : scalar) (i : nat) :
  wf_scalar a -> wf_scalar b -> (i < kDegree)%nat ->
  coef (scalar_add a b) i = (coef a i + coef b i) mod kPrime /\
  coef (scalar_sub a b) i = (coef a i - coef b i) mod kPrime /\
  coef (scalar_mult a b) i = (coef a i * coef b i * kRinv) mod kPrime /\
  (2 ^ 32 * kRinv) mod kPrime = 1.
Proof.
  intros Ha Hb Hi.
  split; [apply coef_scalar_add; assumption|].
  split; [apply coef_scalar_sub; assumption|].
  split; [apply coef_scalar_mult; assumption | reflexivity].
Qed.

(** X9: [matrix_mult] is the product of a matrix and a vector, coefficient
    by coefficient as the transformed domain demands: row [i] of the result
    has at [k] the sum over [j] of the products of the coefficients [k] of
    entry [(i, j)] and of component [j], each with the factor [2^-32] of
    [scalar_mult], modulo [q]. *)
Theorem matrix_mult_entries (K' L' : nat) (m : matrix) (x : vector)
  (i k : nat) :
  wf_matrix K' L' m -> wf_vector L' x -> (i < K')%nat -> (k < kDegree)%nat ->
  coef (vec (matrix_mult K' L' m x) i) k
  = zsum L' (fun j => coef (entry m i j) k * coef (vec x j) k * kRinv)
    mod kPrime.
Proof.
  intros Hm Hx Hi Hk. rewrite vec_matrix_mult by exact Hi.
  pose proof (matrix_row_eqq L' m i x k (fun j Hj => Hm i j Hi Hj) Hx Hk)
    as [H].
  rewrite <- H. symmetry. apply Z.mod_small. apply wf_coef; [|exact Hk].
  apply matrix_row_wf'; [intros j Hj; apply Hm; assumption | exact Hx].
Qed.

(** ** Rounding and hints *)

(** X10: the hint does its work: where [ct0] is below [kGamma2] in absolute
    value, [use_hint_vartime] on the hint that [make_hint] computes for
    [ct0], [cs2] and [w], applied to [w - cs2 + ct0], returns the high bits
    of [w - cs2]. *)
Theorem use_hint_recovers_high_bits (w cs2 ct0 : Z) :
  0 <= w < kPrime -> 0 <= cs2 < kPrime -> 0 <= ct0 < kPrime ->
  Z.abs (centered ct0) < kGamma2 ->
  use_hint_vartime (make_hint ct0 cs2 w)
    (reduce_once (u32 (mod_sub w cs2 + ct0)))
  = high_bits (mod_sub w cs2).
Proof. intros. apply use_hint_make_hint; assumption. Qed.

(** X11: a small summand does not change the high bits: where [s] is at
    most [beta] in absolute value and the low bits of [w - s] are below
    [kGamma2 - beta], [w - s] and [w] have the same high bits. *)
Theorem high_bits_absorb_small (w s : Z) :
  0 <= w < kPrime -> 0 <= s < kPrime ->
  Z.abs (centered s) <= beta ->
  Z.abs (low_bits (mod_sub w s)) < kGamma2 - beta ->
  high_bits (mod_sub w s) = high_bits w.
Proof. intros. apply high_bits_stable; assumption. Qed.

(** X14: on a vector of zeros and ones, [vector_count_ones] is the number of
    ones, and the 64-bit counter does not wrap. *)
Theorem vector_count_ones_counts (h : vector) (n : nat) :
  (forall i, (i < n)%nat -> forall j, (j < kDegree)%nat ->
     coef (vec h i) j = 0 \/ coef (vec h i) j = 1) ->
  (n <= 1000)%nat ->
  vector_count_ones n h = Z.of_nat (hint_cum h n).
Proof. intros H Hn. apply (vector_count_ones_spec h n H Hn). Qed.

(** ** Encodings *)

(** X15: the 20-bit encoding of [z]: a vector with centred coefficients in
    (-2^19, 2^19] takes 640 bytes a scalar and is decoded to itself, whatever
    follows it in the input. *)
Theorem vector_signed_20_decode_encode (X : nat) (z : vector)
  (rest : list Z) :
  wf_vector X z ->
  (forall i k, (i < X)%nat -> (k < kDegree)%nat ->
     - 2 ^ 19 < centered (coef (vec z i) k) <= 2 ^ 19) ->
  length (vector_encode_signed_20 X z) = (X * 640)%nat /\
  vector_decode_signed_20 X (vector_encode_signed_20 X z ++ rest) = z.
Proof.
  intros Hz Hc. split.
  - apply vector_encode_signed_20_length.
  - apply vector_signed_20_roundtrip; assumption.
Qed.

(** X16: the 10-bit encoding of [t1]: a vector with coefficients below 2^10
    takes 320 bytes a scalar and is decoded to itself. *)
Theorem vector_10_decode_encode (X : nat) (t1 : vector) (rest : list Z) :
  length t1 = X ->
  (forall i, (i < X)%nat -> length (vec t1 i) = kDegree) ->
  (forall i k, (i < X)%nat -> (k < kDegree)%nat ->
     0 <= coef (vec t1 i) k < 2 ^ 10) ->
  length (vector_encode X t1 10) = (X * 320)%nat /\
  vector_decode_10 X (vector_encode X t1 10 ++ rest) = t1.
Proof.
  intros Hl Hr Hc. split.
  - apply vector_encode_10_length.
  - apply vector_10_roundtrip; assumption.
Qed.

(** X17: the 13-bit encoding of [t0]: a vector with centred coefficients in
    (-2^12, 2^12] takes 416 bytes a scalar and is decoded to itself. *)
Theorem vector_signed_13_decode_encode (X : nat) (a : vector)
  (rest : list Z) :
  wf_vector X a ->
  (forall i k, (i < X)%nat -> (k < kDegree)%nat ->
     - 2 ^ 12 < centered (coef (vec a i) k) <= 2 ^ 12) ->
  length (vector_encode_signed X a 13) = (X * 416)%nat /\
  vector_decode_signed X (vector_encode_signed X a 13 ++ rest) 13 = Some a.
Proof.
  intros Ha Hc. split.
  - rewrite vector_encode_signed_length by (right; reflexivity). lia.
  - apply vector_signed_13_roundtrip; assumption.
Qed.

(** X18: the 4-bit encoding of [s1] and [s2]: a vector with centred
    coefficients in [-4, 4] takes 128 bytes a scalar, and the decoder accepts
    the encoding and returns the vector. *)
Theorem vector_signed_4_decode_encode (X : nat) (a : vector)
  (rest : list Z) :
  wf_vector X a -> bytes rest ->
  (forall i k, (i < X)%nat -> (k < kDegree)%nat ->
     Z.abs (centered (coef (vec a i) k)) <= 4) ->
  length (vector_encode_signed X a 4) = (X * 128)%nat /\
  vector_decode_signed X (vector_encode_signed X a 4 ++ rest) 4 = Some a.
Proof.
  intros Ha Hr Hc. split.
  - rewrite vector_encode_signed_length by (left; reflexivity). lia.
  - apply vector_signed_4_roundtrip; assumption.
Qed.

(** X19: [w1_encode] loses nothing of the high bits: nibble [k] of the 128
    bytes of row [i] is the high part of coefficient [k] of that row. *)
Theorem w1_encode_lossless (X : nat) (w : vector) (i k : nat) :
  (i < X)%nat -> (k < kDegree)%nat ->
  length (w1_encode X (vector_high_bits X w)) = (X * 128)%nat /\
  nibble (w1_encode X (vector_high_bits X w)) (kDegree * i + k)
  = high_bits (coef (vec w i) k).
Proof.
  intros Hi Hk. split.
  - apply w1_encode_length.
  - apply w1_encode_nibble; assumption.
Qed.

(** ** Keys and signatures as bytes *)

(** X22: a signature with a 48-byte [c_tilde], centred coefficients of [z]
    in (-2^19, 2^19] and a hint of at most [omega] ones is marshalled to 3309
    bytes, and [mldsa_parse_signature] gives it back from them. *)
Theorem signature_parse_marshal (sign : signature) (rest : list Z) :
  length (sig_c_tilde sign) = (2 * lambda_bytes)%nat ->
  wf_vector L (sig_z sign) ->
  (forall i k, (i < L)%nat -> (k < kDegree)%nat ->
     - 2 ^ 19 < centered (coef (vec (sig_z sign) i) k) <= 2 ^ 19) ->
  wf_hint (sig_h sign) ->
  exists encoded,
    mldsa_marshal_signature sign = Some encoded /\
    length encoded = MLDSA65_SIGNATURE_BYTES /\
    mldsa_parse_signature (encoded ++ rest) = Some sign.
Proof. intros. apply signature_roundtrip; assumption. Qed.

(** X24: a private key with fields of the sizes of the structure,
    coefficients of [s1] and [s2] in [-4, 4] and of [t0] in (-2^12, 2^12] is
    marshalled to 4032 bytes, and [MLDSA65_parse_private_key] gives it back
    from them. *)
Theorem private_key_parse_marshal (sk : private_key) :
  length (priv_rho sk) = kRhoBytes -> length (priv_k sk) = kKBytes ->
  length (priv_public_key_hash sk) = kTrBytes ->
  wf_vector L (priv_s1 sk) -> wf_vector K (priv_s2 sk) ->
  wf_vector K (priv_t0 sk) ->
  (forall i k, (i < L)%nat -> (k < kDegree)%nat ->
     Z.abs (centered (coef (vec (priv_s1 sk) i) k)) <= 4) ->
  (forall i k, (i < K)%nat -> (k < kDegree)%nat ->
     Z.abs (centered (coef (vec (priv_s2 sk) i) k)) <= 4) ->
  (forall i k, (i < K)%nat -> (k < kDegree)%nat ->
     - 2 ^ 12 < centered (coef (vec (priv_t0 sk) i) k) <= 2 ^ 12) ->
  length (mldsa_marshal_private_key sk) = MLDSA65_PRIVATE_KEY_BYTES /\
  MLDSA65_parse_private_key (mldsa_marshal_private_key sk) = Some sk.
Proof. intros. apply private_key_roundtrip; assumption. Qed.

(** ** Sampling *)

(** X28: the rejection sampling of [scalar_from_keccak_vartime] keeps the
    matrix in range: every coefficient of every entry that [matrix_expand]
    returns is below [q]. *)
Theorem matrix_expand_in_range (shake128 shake256 : list Z -> nat -> Z)
  (fuel : nat) (rho : list Z) (a : matrix) :
  matrix_expand shake128 shake256 fuel rho = Some a -> wf_matrix K L a.
Proof. apply matrix_expand_wf. Qed.

(** X29: the secret vectors are short: every coefficient that
    [vector_expand_short] returns, in [s1] and in [s2], is in [-4, 4] modulo
    [q]. *)
Theorem vector_expand_short_in_range
  (shake128 shake256 : list Z -> nat -> Z)
  (fuel : nat) (sigma : list Z) (s1 s2 : vector) :
  vector_expand_short shake128 shake256 fuel sigma = Some (s1, s2) ->
  wf_vector L s1 /\ wf_vector K s2 /\
  (forall i k, (i < L)%nat -> (k < kDegree)%nat ->
     Z.abs (centered (coef (vec s1 i) k)) <= 4) /\
  (forall i k, (i < K)%nat -> (k < kDegree)%nat ->
     Z.abs (centered (coef (vec s2 i) k)) <= 4).
Proof.
  intros H.
  destruct (vector_expand_short_spec shake128 shake256 _ _ _ _ H)
    as (H1 & H2 & H3).
  split; [exact H1|]. split; [exact H2|]. split; [|exact H3].
  exact (vector_expand_short_s1 shake128 shake256 _ _ _ _ H).
Qed.

(** X30: the mask is in range: every coefficient that [vector_expand_mask]
    returns is below [q], with its centred value in (-2^19, 2^19]. *)
Theorem vector_expand_mask_in_range (shake128 shake256 : list Z -> nat -> Z)
  (X : nat) (seed : list Z) (kappa i k : nat) :
  (i < X)%nat -> (k < kDegree)%nat ->
  wf_vector X (vector_expand_mask shake128 shake256 X seed kappa) /\
  - 2 ^ 19
  < centered (coef (vec (vector_expand_mask shake128 shake256 X seed kappa) i) k)
  <= 2 ^ 19.
Proof.
  intros Hi Hk. split.
  - apply vector_expand_mask_wf.
  - apply vector_expand_mask_range; assumption.
Qed.

(** * Concrete instances *)

Lemma ntt_roundtrip_montgomery_witness :
  wf_scalar scalar_one /\
  scalar_inverse_ntt (scalar_ntt scalar_one) = to_montgomery scalar_one.
Proof.
  assert (H : wf_scalar scalar_one)
    by (apply wf_scalarb_true; vm_compute; reflexivity).
  split; [exact H|].
  exact (proj1 (ntt_roundtrip_montgomery scalar_one H)).
Defined.

(** C3 as stated fails: the transforms do not undo each other on the
    polynomial [1], whose round trip has 4193792 = 2^32 mod q as its
    constant coefficient. *)
Lemma ntt_roundtrip_identity_fails :
  wf_scalar scalar_one /\
  ~ (scalar_inverse_ntt (scalar_ntt scalar_one) = scalar_one /\
     scalar_ntt (scalar_inverse_ntt scalar_one) = scalar_one).
Proof.
  split; [apply wf_scalarb_true; vm_compute; reflexivity|].
  intros [H _]. apply (f_equal (fun s => coef s 0)) in H.
  vm_compute in H. discriminate H.
Qed.

Lemma arithmetic_preserves_wf_witness :
  wf_scalar scalar_one /\
  wf_vector 1 [scalar_one] /\
  wf_matrix 1 1 [[scalar_one]] /\
  wf_scalar (scalar_inverse_ntt scalar_one) /\
  wf_vector 1 (matrix_mult 1 1 [[scalar_one]] [scalar_one]).
Proof.
  assert (H : wf_scalar scalar_one)
    by (apply wf_scalarb_true; vm_compute; reflexivity).
  assert (Hv : wf_vector 1 [scalar_one])
    by (apply wf_vectorb_true; vm_compute; reflexivity).
  assert (Hm : wf_matrix 1 1 [[scalar_one]]).
  { intros i j Hi Hj. replace i with 0%nat by lia. replace j with 0%nat by lia.
    exact H. }
  pose proof (arithmetic_preserves_wf 1 1 1 scalar_one scalar_one
                [scalar_one] [scalar_one] [[scalar_one]] [scalar_one]
                H H Hv Hv Hm Hv) as
      (_ & _ & _ & _ & H5 & _ & _ & _ & _ & _ & H11).
  exact (conj H (conj Hv (conj Hm (conj H5 H11)))).
Defined.







Lemma sample_in_ball_correct_witness :
  (forall p, exists d, (d < 1)%nat /\
      u8 (zero_xof [] (p + d)) <= Z.of_nat (kDegree - tau)) /\
  exists c, scalar_sample_in_ball_vartime zero_xof zero_xof 1 [] tau = Some c.
Proof.
  assert (H : forall p, exists d, (d < 1)%nat /\
                u8 (zero_xof [] (p + d)) <= Z.of_nat (kDegree - tau)).
  { intros p. exists 0%nat. split; [lia|]. vm_compute. discriminate. }
  split; [exact H|].
  exact (proj2 (sample_in_ball_correct zero_xof zero_xof 1 []) H).
Defined.

(** ** Instances of the further properties *)

Lemma coef_forallb (P : Z -> bool) (s : scalar) (k : nat) :
  forallb P s = true -> (k < length s)%nat -> P (coef s k) = true.
Proof.
  intros H Hk. rewrite forallb_forall in H. apply H. apply nth_In. exact Hk.
Qed.

Lemma vec_forallb (P : Z -> bool) (X : nat) (v : vector) (i k : nat) :
  (length v =? X)%nat && forallb (fun s => (length s =? kDegree)%nat) v
  && forallb (forallb P) v = true ->
  (i < X)%nat -> (k < kDegree)%nat -> P (coef (vec v i) k) = true.
Proof.
  intros H Hi Hk. apply andb_true_iff in H. destruct H as [H H3].
  apply andb_true_iff in H. destruct H as [H1 H2].
  apply Nat.eqb_eq in H1. rewrite forallb_forall in H2, H3.
  assert (Hin : In (vec v i) v) by (apply nth_In; lia).
  apply coef_forallb; [apply H3, Hin|].
  specialize (H2 _ Hin). apply Nat.eqb_eq in H2. lia.
Qed.

Lemma wf_matrix_repeat (K' L' : nat) (s : scalar) :
  wf_scalar s -> wf_matrix K' L' (repeat (repeat s L') K').
Proof.
  intros Hs i j Hi Hj. unfold entry.
  rewrite (nth_indep _ [] (repeat s L')) by (rewrite repeat_length; exact Hi).
  rewrite nth_repeat.
  rewrite (nth_indep _ scalar_zero s) by (rewrite repeat_length; exact Hj).
  rewrite nth_repeat. exact Hs.
Qed.

Lemma wf_hint_zero : wf_hint (vector_zero K).
Proof.
  split; [reflexivity|]. split.
  - intros i Hi. rewrite vec_vector_zero. split; [reflexivity|].
    intros j Hj. left. unfold coef, scalar_zero. apply nth_repeat.
  - apply Nat.leb_le. vm_compute. reflexivity.
Qed.

Lemma ball_one_in_ball : in_ball tau ball_one.
Proof.
  split; [reflexivity|]. split; [vm_compute; reflexivity|].
  intros i Hi.
  pose proof (coef_forallb
                (fun x => (x =? 0) || (x =? 1) || (x =? kPrime - 1))
                ball_one i eq_refl Hi) as H.
  apply orb_true_iff in H. destruct H as [H | H].
  - apply orb_true_iff in H. destruct H as [H | H]; apply Z.eqb_eq in H; tauto.
  - apply Z.eqb_eq in H. tauto.
Qed.

Lemma short_le (B : Z) (X : nat) (v : vector) :
  (length v =? X)%nat && forallb (fun s => (length s =? kDegree)%nat) v
  && forallb (forallb (fun x => Z.abs (centered x) <=? B)) v = true ->
  forall i k, (i < X)%nat -> (k < kDegree)%nat ->
    Z.abs (centered (coef (vec v i) k)) <= B.
Proof.
  intros H i k Hi Hk. apply Z.leb_le.
  exact (vec_forallb (fun x => Z.abs (centered x) <=? B) X v i k H Hi Hk).
Qed.

Lemma centered_between (lo hi : Z) (X : nat) (v : vector) :
  (length v =? X)%nat && forallb (fun s => (length s =? kDegree)%nat) v
  && forallb (forallb (fun x => (lo <? centered x) && (centered x <=? hi))) v
  = true ->
  forall i k, (i < X)%nat -> (k < kDegree)%nat ->
    lo < centered (coef (vec v i) k) <= hi.
Proof.
  intros H i k Hi Hk.
  pose proof (vec_forallb
                (fun x => (lo <? centered x) && (centered x <=? hi))
                X v i k H Hi Hk) as H'.
  apply andb_true_iff in H'. destruct H' as [H1 H2].
  apply Z.ltb_lt in H1. apply Z.leb_le in H2. lia.
Qed.

Lemma coef_between (lo hi : Z) (X : nat) (v : vector) :
  (length v =? X)%nat && forallb (fun s => (length s =? kDegree)%nat) v
  && forallb (forallb (fun x => (lo <=? x) && (x <? hi))) v = true ->
  forall i k, (i < X)%nat -> (k < kDegree)%nat ->
    lo <= coef (vec v i) k < hi.
Proof.
  intros H i k Hi Hk.
  pose proof (vec_forallb (fun x => (lo <=? x) && (x <? hi)) X v i k H Hi Hk)
    as H'.
  apply andb_true_iff in H'. destruct H' as [H1 H2].
  apply Z.leb_le in H1. apply Z.ltb_lt in H2. lia.
Qed.

(** The key of the all-zero stream is in the ranges of the encoding. *)
Lemma zero_key_shape :
  length (priv_rho zero_key) = kRhoBytes /\
  length (priv_k zero_key) = kKBytes /\
  length (priv_public_key_hash zero_key) = kTrBytes /\
  wf_vector L (priv_s1 zero_key) /\ wf_vector K (priv_s2 zero_key) /\
  wf_vector K (priv_t0 zero_key) /\
  (forall i k, (i < L)%nat -> (k < kDegree)%nat ->
     Z.abs (centered (coef (vec (priv_s1 zero_key) i) k)) <= 4) /\
  (forall i k, (i < K)%nat -> (k < kDegree)%nat ->
     Z.abs (centered (coef (vec (priv_s2 zero_key) i) k)) <= 4) /\
  (forall i k, (i < K)%nat -> (k < kDegree)%nat ->
     - 2 ^ 12 < centered (coef (vec (priv_t0 zero_key) i) k) <= 2 ^ 12).
Proof.
  split; [reflexivity|]. split; [reflexivity|]. split; [reflexivity|].
  split; [apply wf_vectorb_true; vm_compute; reflexivity|].
  split; [apply wf_vectorb_true; vm_compute; reflexivity|].
  split; [apply wf_vectorb_true; vm_compute; reflexivity|].
  split; [apply (short_le 4 L); vm_compute; reflexivity|].
  split; [apply (short_le 4 K); vm_compute; reflexivity|].
  apply (centered_between (- 2 ^ 12) (2 ^ 12) K). vm_compute. reflexivity.
Qed.

(** Key generation from the all-zero seed and the signature of the message
    [[5]] over [mix_xof]: the first attempt is accepted. *)
Lemma mix_run :
  exists pk sk encoded,
    mldsa_generate_key_external_entropy (mix_xof 1) (mix_xof 2) 10
      (repeat 0 32) = Some (pk, sk) /\
    MLDSA65_sign (mix_xof 1) (mix_xof 2) 1 300 sk [5] [] (repeat 0 32)
    = Signed encoded.
Proof.
  do 3 eexists. split; [vm_compute; reflexivity | vm_compute; reflexivity].
Qed.

(** Expansion over the all-zero stream. *)
Lemma zero_matrix_expand :
  matrix_expand zero_xof zero_xof 10 (repeat 0 32)
  = Some (repeat (repeat scalar_zero L) K).
Proof. vm_compute. reflexivity. Qed.

Lemma zero_expand_short :
  vector_expand_short zero_xof zero_xof 10 (repeat 0 64)
  = Some (repeat (repeat 4 256) L, repeat (repeat 4 256) K).
Proof. vm_compute. reflexivity. Qed.

Lemma keygen_sign_verify_witness :
  exists pk sk encoded,
    mldsa_generate_key_external_entropy (mix_xof 1) (mix_xof 2) 10
      (repeat 0 32) = Some (pk, sk) /\
    MLDSA65_sign (mix_xof 1) (mix_xof 2) 1 300 sk [5] [] (repeat 0 32)
    = Signed encoded /\
    length encoded = MLDSA65_SIGNATURE_BYTES /\
    exists pub,
      mldsa_parse_public_key (mix_xof 1) (mix_xof 2) pk = Some pub /\
      forall fuel, (300 <= fuel)%nat ->
        MLDSA65_verify (mix_xof 1) (mix_xof 2) fuel pub encoded [5] []
        = Some true.
Proof.
  destruct mix_run as (pk & sk & encoded & Hk & Hs).
  exists pk, sk, encoded. split; [exact Hk|]. split; [exact Hs|].
  exact (keygen_sign_verify (mix_xof 1) (mix_xof 2) 10 1 300 (repeat 0 32)
           [5] [] (repeat 0 32) pk encoded sk Hk Hs).
Defined.

Lemma verification_equation_witness :
  wf_matrix K L (repeat (repeat scalar_one L) K) /\
  wf_vector L (repeat scalar_one L) /\ wf_vector K (repeat scalar_one K) /\
  wf_scalar scalar_one /\
  vector_inverse_ntt K
    (vector_sub K
       (matrix_mult K L (repeat (repeat scalar_one L) K)
          (vector_ntt L
             (vector_add L (repeat scalar_one L)
                (vector_inverse_ntt L
                   (vector_mult_scalar L (vector_ntt L (repeat scalar_one L))
                      (scalar_ntt scalar_one))))))
       (vector_mult_scalar K
          (vector_ntt K
             (vector_scale_power2_round K
                (fst (vector_power2_round K
                        (vector_add K
                           (vector_inverse_ntt K
                              (matrix_mult K L (repeat (repeat scalar_one L) K)
                                 (vector_ntt L (repeat scalar_one L))))
                           (repeat scalar_one K))))))
          (scalar_ntt scalar_one)))
  = vector_add K
      (vector_sub K
         (vector_inverse_ntt K
            (matrix_mult K L (repeat (repeat scalar_one L) K)
               (vector_ntt L (repeat scalar_one L))))
         (vector_inverse_ntt K
            (vector_mult_scalar K (vector_ntt K (repeat scalar_one K))
               (scalar_ntt scalar_one))))
      (vector_inverse_ntt K
         (vector_mult_scalar K
            (vector_ntt K
               (snd (vector_power2_round K
                       (vector_add K
                          (vector_inverse_ntt K
                             (matrix_mult K L (repeat (repeat scalar_one L) K)
                                (vector_ntt L (repeat scalar_one L))))
                          (repeat scalar_one K)))))
            (scalar_ntt scalar_one))).
Proof.
  assert (H : wf_scalar scalar_one)
    by (apply wf_scalarb_true; vm_compute; reflexivity).
  assert (Hm : wf_matrix K L (repeat (repeat scalar_one L) K))
    by (apply wf_matrix_repeat; exact H).
  assert (HL : wf_vector L (repeat scalar_one L))
    by (apply wf_vectorb_true; vm_compute; reflexivity).
  assert (HK : wf_vector K (repeat scalar_one K))
    by (apply wf_vectorb_true; vm_compute; reflexivity).
  split; [exact Hm|]. split; [exact HL|]. split; [exact HK|].
  split; [exact H|].
  exact (verification_equation (repeat (repeat scalar_one L) K)
           (repeat scalar_one L) (repeat scalar_one K) (repeat scalar_one L)
           scalar_one Hm HL HK HL H).
Defined.

Lemma scalar_ntt_evaluation_witness :
  wf_scalar scalar_one /\
  coef (scalar_ntt scalar_one) 3 = ev (coef scalar_one) (ntt_root 3) mod kPrime /\
  (ntt_root 3 ^ 256) mod kPrime = kPrime - 1.
Proof.
  assert (H : wf_scalar scalar_one)
    by (apply wf_scalarb_true; vm_compute; reflexivity).
  split; [exact H|].
  apply (scalar_ntt_evaluation scalar_one 3 H). unfold kDegree. lia.
Defined.

Lemma scalar_ntt_linear_witness :
  wf_scalar scalar_one /\
  scalar_ntt (scalar_add scalar_one scalar_one)
  = scalar_add (scalar_ntt scalar_one) (scalar_ntt scalar_one) /\
  scalar_ntt (scalar_sub scalar_one scalar_one)
  = scalar_sub (scalar_ntt scalar_one) (scalar_ntt scalar_one).
Proof.
  assert (H : wf_scalar scalar_one)
    by (apply wf_scalarb_true; vm_compute; reflexivity).
  split; [exact H|].
  exact (scalar_ntt_linear scalar_one scalar_one H H).
Defined.

Lemma scalar_mult_negacyclic_witness :
  wf_scalar scalar_one /\
  coef (scalar_inverse_ntt
          (scalar_mult (scalar_ntt scalar_one) (scalar_ntt scalar_one))) 0
  = negacyclic (coef scalar_one) (coef scalar_one) 0 mod kPrime.
Proof.
  assert (H : wf_scalar scalar_one)
    by (apply wf_scalarb_true; vm_compute; reflexivity).
  split; [exact H|].
  apply (scalar_mult_negacyclic scalar_one scalar_one 0 H H).
  unfold kDegree. lia.
Defined.

Lemma challenge_product_small_witness :
  wf_scalar scalar_one /\ in_ball tau ball_one /\
  Z.abs (centered
           (coef (scalar_inverse_ntt
                    (scalar_mult (scalar_ntt scalar_one)
                       (scalar_ntt ball_one))) 7))
  <= Z.of_nat tau * 4.
Proof.
  assert (H : wf_scalar scalar_one)
    by (apply wf_scalarb_true; vm_compute; reflexivity).
  split; [exact H|]. split; [exact ball_one_in_ball|].
  apply (challenge_product_small scalar_one ball_one 4 7 H ball_one_in_ball).
  - unfold kDegree. lia.
  - lia.
  - intros j Hj. apply Z.leb_le.
    apply (coef_forallb (fun x => Z.abs (centered x) <=? 4) scalar_one j);
      [vm_compute; reflexivity | exact Hj].
Defined.

Lemma scalar_arithmetic_mod_witness :
  wf_scalar scalar_one /\
  coef (scalar_add scalar_one scalar_one) 0
  = (coef scalar_one 0 + coef scalar_one 0) mod kPrime /\
  coef (scalar_sub scalar_one scalar_one) 0
  = (coef scalar_one 0 - coef scalar_one 0) mod kPrime /\
  coef (scalar_mult scalar_one scalar_one) 0
  = (coef scalar_one 0 * coef scalar_one 0 * kRinv) mod kPrime /\
  (2 ^ 32 * kRinv) mod kPrime = 1.
Proof.
  assert (H : wf_scalar scalar_one)
    by (apply wf_scalarb_true; vm_compute; reflexivity).
  split; [exact H|].
  apply (scalar_arithmetic_mod scalar_one scalar_one 0 H H).
  unfold kDegree. lia.
Defined.

Lemma matrix_mult_entries_witness :
  wf_matrix 2 3 (repeat (repeat scalar_one 3) 2) /\
  wf_vector 3 (repeat scalar_one 3) /\
  coef (vec (matrix_mult 2 3 (repeat (repeat scalar_one 3) 2)
               (repeat scalar_one 3)) 1) 0
  = zsum 3 (fun j => coef (entry (repeat (repeat scalar_one 3) 2) 1 j) 0
                     * coef (vec (repeat scalar_one 3) j) 0 * kRinv)
    mod kPrime.
Proof.
  assert (H : wf_scalar scalar_one)
    by (apply wf_scalarb_true; vm_compute; reflexivity).
  assert (Hm : wf_matrix 2 3 (repeat (repeat scalar_one 3) 2))
    by (apply wf_matrix_repeat; exact H).
  assert (Hv : wf_vector 3 (repeat scalar_one 3))
    by (apply wf_vectorb_true; vm_compute; reflexivity).
  split; [exact Hm|]. split; [exact Hv|].
  apply (matrix_mult_entries 2 3 _ _ 1 0 Hm Hv); [lia | unfold kDegree; lia].
Defined.

Lemma use_hint_recovers_high_bits_witness :
  use_hint_vartime (make_hint 100 5 261000)
    (reduce_once (u32 (mod_sub 261000 5 + 100)))
  = high_bits (mod_sub 261000 5).
Proof.
  apply (use_hint_recovers_high_bits 261000 5 100);
    try (unfold kPrime; lia).
  vm_compute. reflexivity.
Defined.

Lemma high_bits_absorb_small_witness :
  high_bits (mod_sub 1000 5) = high_bits 1000.
Proof.
  apply (high_bits_absorb_small 1000 5); try (unfold kPrime; lia).
  - vm_compute. discriminate.
  - vm_compute. reflexivity.
Defined.

Lemma vector_max_least_bound_witness :
  wf_vector 1 [scalar_one] /\
  (vector_max 1 [scalar_one] <= 1 <->
   forall i k, (i < 1)%nat -> (k < kDegree)%nat ->
     Z.abs (centered (coef (vec [scalar_one] i) k)) <= 1).
Proof.
  assert (Hv : wf_vector 1 [scalar_one])
    by (apply wf_vectorb_true; vm_compute; reflexivity).
  split; [exact Hv|].
  apply (vector_max_least_bound 1 [scalar_one] 1 Hv). lia.
Defined.

Lemma vector_max_signed_least_bound_witness :
  wf_vector 1 [scalar_one] /\
  (vector_max_signed 1 (vector_low_bits 1 [scalar_one]) <= 1 <->
   forall i k, (i < 1)%nat -> (k < kDegree)%nat ->
     Z.abs (low_bits (coef (vec [scalar_one] i) k)) <= 1).
Proof.
  assert (Hv : wf_vector 1 [scalar_one])
    by (apply wf_vectorb_true; vm_compute; reflexivity).
  split; [exact Hv|].
  apply (vector_max_signed_least_bound 1 [scalar_one] 1 Hv). lia.
Defined.

Lemma vector_count_ones_counts_witness :
  vector_count_ones K (vector_zero K) = Z.of_nat (hint_cum (vector_zero K) K).
Proof.
  apply (vector_count_ones_counts (vector_zero K) K).
  - intros i Hi j Hj. left. rewrite vec_vector_zero.
    unfold coef, scalar_zero. apply nth_repeat.
  - unfold K. lia.
Defined.

Lemma vector_signed_20_decode_encode_witness :
  wf_vector 1 [scalar_one] /\
  length (vector_encode_signed_20 1 [scalar_one]) = (1 * 640)%nat /\
  vector_decode_signed_20 1 (vector_encode_signed_20 1 [scalar_one] ++ [7])
  = [scalar_one].
Proof.
  assert (Hv : wf_vector 1 [scalar_one])
    by (apply wf_vectorb_true; vm_compute; reflexivity).
  split; [exact Hv|].
  apply (vector_signed_20_decode_encode 1 [scalar_one] [7] Hv).
  apply (centered_between (- 2 ^ 19) (2 ^ 19) 1). vm_compute. reflexivity.
Defined.

Lemma vector_10_decode_encode_witness :
  length (vector_encode 1 [scalar_one] 10) = (1 * 320)%nat /\
  vector_decode_10 1 (vector_encode 1 [scalar_one] 10 ++ [7]) = [scalar_one].
Proof.
  apply (vector_10_decode_encode 1 [scalar_one] [7]).
  - reflexivity.
  - intros i Hi. replace i with 0%nat by lia. reflexivity.
  - apply (coef_between 0 (2 ^ 10) 1). vm_compute. reflexivity.
Defined.

Lemma vector_signed_13_decode_encode_witness :
  wf_vector 1 [scalar_one] /\
  length (vector_encode_signed 1 [scalar_one] 13) = (1 * 416)%nat /\
  vector_decode_signed 1 (vector_encode_signed 1 [scalar_one] 13 ++ [7]) 13
  = Some [scalar_one].
Proof.
  assert (Hv : wf_vector 1 [scalar_one])
    by (apply wf_vectorb_true; vm_compute; reflexivity).
  split; [exact Hv|].
  apply (vector_signed_13_decode_encode 1 [scalar_one] [7] Hv).
  apply (centered_between (- 2 ^ 12) (2 ^ 12) 1). vm_compute. reflexivity.
Defined.

Lemma vector_signed_4_decode_encode_witness :
  wf_vector 1 [scalar_one] /\ bytes [7] /\
  length (vector_encode_signed 1 [scalar_one] 4) = (1 * 128)%nat /\
  vector_decode_signed 1 (vector_encode_signed 1 [scalar_one] 4 ++ [7]) 4
  = Some [scalar_one].
Proof.
  assert (Hv : wf_vector 1 [scalar_one])
    by (apply wf_vectorb_true; vm_compute; reflexivity).
  assert (Hb : bytes [7]) by (apply bytesb_true; vm_compute; reflexivity).
  split; [exact Hv|]. split; [exact Hb|].
  apply (vector_signed_4_decode_encode 1 [scalar_one] [7] Hv Hb).
  apply (short_le 4 1). vm_compute. reflexivity.
Defined.

Lemma w1_encode_lossless_witness :
  length (w1_encode 1 (vector_high_bits 1 [scalar_one])) = (1 * 128)%nat /\
  nibble (w1_encode 1 (vector_high_bits 1 [scalar_one])) (kDegree * 0 + 5)
  = high_bits (coef (vec [scalar_one] 0) 5).
Proof.
  apply (w1_encode_lossless 1 [scalar_one] 0 5); [lia | unfold kDegree; lia].
Defined.

Lemma public_key_parse_marshal_witness :
  length (mldsa_marshal_public_key
            {| pub_rho := repeat 0 32; pub_t1 := vector_zero K;
               pub_public_key_hash := [] |})
  = MLDSA65_PUBLIC_KEY_BYTES /\
  mldsa_parse_public_key zero_xof zero_xof
    (mldsa_marshal_public_key
       {| pub_rho := repeat 0 32; pub_t1 := vector_zero K;
          pub_public_key_hash := [] |})
  = Some {| pub_rho := repeat 0 32; pub_t1 := vector_zero K;
            pub_public_key_hash :=
              BORINGSSL_keccak zero_xof zero_xof kTrBytes
                (mldsa_marshal_public_key
                   {| pub_rho := repeat 0 32; pub_t1 := vector_zero K;
                      pub_public_key_hash := [] |})
                boringssl_shake256 |}.
Proof.
  apply (public_key_parse_marshal zero_xof zero_xof
           {| pub_rho := repeat 0 32; pub_t1 := vector_zero K;
              pub_public_key_hash := [] |}).
  - reflexivity.
  - reflexivity.
  - intros i Hi. cbn [pub_t1]. rewrite vec_vector_zero. reflexivity.
  - cbn [pub_t1]. apply (coef_between 0 (2 ^ 10) K). vm_compute. reflexivity.
Defined.

Lemma signature_parse_marshal_witness :
  wf_vector L (vector_zero L) /\ wf_hint (vector_zero K) /\
  exists encoded,
    mldsa_marshal_signature
      {| sig_c_tilde := repeat 0 48; sig_z := vector_zero L;
         sig_h := vector_zero K |} = Some encoded /\
    length encoded = MLDSA65_SIGNATURE_BYTES /\
    mldsa_parse_signature (encoded ++ [])
    = Some {| sig_c_tilde := repeat 0 48; sig_z := vector_zero L;
              sig_h := vector_zero K |}.
Proof.
  assert (Hz : wf_vector L (vector_zero L))
    by (apply wf_vectorb_true; vm_compute; reflexivity).
  split; [exact Hz|]. split; [exact wf_hint_zero|].
  apply (signature_parse_marshal
           {| sig_c_tilde := repeat 0 48; sig_z := vector_zero L;
              sig_h := vector_zero K |} []).
  - reflexivity.
  - exact Hz.
  - cbn [sig_z]. apply (centered_between (- 2 ^ 19) (2 ^ 19) L).
    vm_compute. reflexivity.
  - exact wf_hint_zero.
Defined.

(** The all-zero string of 3309 bytes is an encoded signature. *)
Lemma zero_signature_parse :
  mldsa_parse_signature (repeat 0 3309)
  = Some {| sig_c_tilde := repeat 0 48;
            sig_z := repeat (repeat 524288 256) L;
            sig_h := vector_zero K |}.
Proof. vm_compute. reflexivity. Qed.

Lemma signature_encoding_canonical_witness :
  bytes (repeat 0 3309) /\
  mldsa_parse_signature (repeat 0 3309)
  = Some {| sig_c_tilde := repeat 0 48;
            sig_z := repeat (repeat 524288 256) L;
            sig_h := vector_zero K |} /\
  mldsa_marshal_signature
    {| sig_c_tilde := repeat 0 48; sig_z := repeat (repeat 524288 256) L;
       sig_h := vector_zero K |}
  = Some (repeat 0 3309).
Proof.
  assert (Hb : bytes (repeat 0 3309))
    by (apply bytesb_true; vm_compute; reflexivity).
  split; [exact Hb|]. split; [exact zero_signature_parse|].
  exact (signature_encoding_canonical (repeat 0 3309) _ Hb eq_refl
           zero_signature_parse).
Defined.

Lemma private_key_parse_marshal_witness :
  length (mldsa_marshal_private_key zero_key) = MLDSA65_PRIVATE_KEY_BYTES /\
  MLDSA65_parse_private_key (mldsa_marshal_private_key zero_key)
  = Some zero_key.
Proof.
  destruct zero_key_shape as (H1 & H2 & H3 & H4 & H5 & H6 & H7 & H8 & H9).
  exact (private_key_parse_marshal zero_key H1 H2 H3 H4 H5 H6 H7 H8 H9).
Defined.

Lemma private_key_parse_length_witness :
  MLDSA65_parse_private_key (mldsa_marshal_private_key zero_key)
  = Some zero_key /\
  length (mldsa_marshal_private_key zero_key) = MLDSA65_PRIVATE_KEY_BYTES.
Proof.
  destruct zero_key_shape as (H1 & H2 & H3 & H4 & H5 & H6 & H7 & H8 & H9).
  pose proof (proj2 (private_key_roundtrip zero_key H1 H2 H3 H4 H5 H6 H7 H8 H9))
    as Hp.
  split; [exact Hp|].
  exact (private_key_parse_length _ _ Hp).
Defined.

Lemma keygen_key_ranges_witness :
  exists pk sk,
    mldsa_generate_key_external_entropy (mix_xof 1) (mix_xof 2) 10
      (repeat 0 32) = Some (pk, sk) /\
    length pk = MLDSA65_PUBLIC_KEY_BYTES /\
    length (priv_rho sk) = kRhoBytes /\ length (priv_k sk) = kKBytes /\
    length (priv_public_key_hash sk) = kTrBytes /\
    wf_vector L (priv_s1 sk) /\ wf_vector K (priv_s2 sk) /\
    wf_vector K (priv_t0 sk) /\
    (forall i k, (i < L)%nat -> (k < kDegree)%nat ->
       Z.abs (centered (coef (vec (priv_s1 sk) i) k)) <= 4) /\
    (forall i k, (i < K)%nat -> (k < kDegree)%nat ->
       Z.abs (centered (coef (vec (priv_s2 sk) i) k)) <= 4) /\
    (forall i k, (i < K)%nat -> (k < kDegree)%nat ->
       - 2 ^ 12 < centered (coef (vec (priv_t0 sk) i) k) <= 2 ^ 12).
Proof.
  destruct mix_run as (pk & sk & encoded & Hk & _).
  exists pk, sk. split; [exact Hk|].
  exact (keygen_key_ranges (mix_xof 1) (mix_xof 2) 10 (repeat 0 32) pk sk Hk).
Defined.

Lemma public_from_private_matches_keygen_witness :
  exists pk sk,
    mldsa_generate_key_external_entropy (mix_xof 1) (mix_xof 2) 10
      (repeat 0 32) = Some (pk, sk) /\
    exists pub,
      mldsa_public_from_private (mix_xof 1) (mix_xof 2) 10 sk = Some pub /\
      mldsa_parse_public_key (mix_xof 1) (mix_xof 2) pk = Some pub.
Proof.
  destruct mix_run as (pk & sk & encoded & Hk & _).
  exists pk, sk. split; [exact Hk|].
  exact (public_from_private_matches_keygen (mix_xof 1) (mix_xof 2) 10 10
           (repeat 0 32) pk sk Hk (Nat.le_refl 10)).
Defined.

Lemma matrix_expand_in_range_witness :
  matrix_expand zero_xof zero_xof 10 (repeat 0 32)
  = Some (repeat (repeat scalar_zero L) K) /\
  wf_matrix K L (repeat (repeat scalar_zero L) K).
Proof.
  split; [exact zero_matrix_expand|].
  exact (matrix_expand_in_range zero_xof zero_xof 10 (repeat 0 32) _
           zero_matrix_expand).
Defined.

Lemma vector_expand_short_in_range_witness :
  vector_expand_short zero_xof zero_xof 10 (repeat 0 64)
  = Some (repeat (repeat 4 256) L, repeat (repeat 4 256) K) /\
  wf_vector L (repeat (repeat 4 256) L) /\
  wf_vector K (repeat (repeat 4 256) K) /\
  (forall i k, (i < L)%nat -> (k < kDegree)%nat ->
     Z.abs (centered (coef (vec (repeat (repeat 4 256) L) i) k)) <= 4) /\
  (forall i k, (i < K)%nat -> (k < kDegree)%nat ->
     Z.abs (centered (coef (vec (repeat (repeat 4 256) K) i) k)) <= 4).
Proof.
  split; [exact zero_expand_short|].
  exact (vector_expand_short_in_range zero_xof zero_xof 10 (repeat 0 64) _ _
           zero_expand_short).
Defined.

Lemma vector_expand_mask_in_range_witness :
  wf_vector L (vector_expand_mask zero_xof zero_xof L (repeat 0 64) 0) /\
  - 2 ^ 19
  < centered
      (coef (vec (vector_expand_mask zero_xof zero_xof L (repeat 0 64) 0) 2) 9)
  <= 2 ^ 19.
Proof.
  apply (vector_expand_mask_in_range zero_xof zero_xof L (repeat 0 64) 0 2 9);
    [unfold L; lia | unfold kDegree; lia].
Defined.
